(* ===== verification/_CoqProject ===== *)
-Q . S2P
Prelude.v
Path.v
Float.v
Types.v
Asm.v
External.v
Concrete.v
Ptrace.v
Filter.v
Injectors.v
InodeMap.v
Mount.v
Replacer.v
Stop.v
HookFs.v
MountSession.v
FsImpl.v
Dispatch.v
Locks.v
PtraceProps.v
Tracees.v
TraceDemo.v
Tables.v
FdCode.v
MmapCode.v
Descriptors.v
ReplacerProps.v
Replacing.v
Transparency.v
InjectorProps.v
Mistakes.v
FaultAbort.v
Rpc.v
Deadlock.v
Invariant.v
Entries.v
SessionProps.v
Main.v
Program.v
Behaviour.v
Protocol.v
Effects.v
Witnesses.v
