(* ===== verification/Prelude.v ===== *)
(** * toda: a fault-injecting FUSE file system, modelled in Rocq

    toda mounts a FUSE file system over a directory, passes every request
    on to the directory that was there before, and injects faults on the
    way: errors, delays, changed attributes and corrupted data. This
    library models its core as executable functions and proves what makes
    it correct, and where it is not.

    ** The program and the files of the library

    The source is under [src/src/]; each file below names what it models.

    - The file system, [hookfs/]. [HookFs] (mod.rs) keeps an inode map
      (inode number to the paths it is known by, with a lookup count), two
      tables of open handles, the configured injectors and the flag that
      enables them. A request of the kernel arrives at a method of
      [AsyncFileSystem] (async_fs.rs), which spawns a handler of
      [AsyncFileSystemImpl] and turns its result into a reply (reply.rs).
      A handler takes the guards it needs, translates inode numbers to
      paths, calls the injectors at its injection point, performs the
      system calls through [async_*] helpers, and passes its result
      through the injectors again.
      [InodeMap.v] has the maps, [HookFs.v] the state, the [inject!]
      family of macros and the helpers, [FsImpl.v] (Module [Handlers]) one
      definition per handler, [Dispatch.v] (Module [AsyncFs]) one per
      session method and [serve], which runs a request of the type
      [FuseOp]. [Types.v] has errors.rs, utils.rs and the data of
      reply.rs.
    - The injectors, [injector/]. [Filter.v] has filter.rs, [Injectors.v]
      the configuration types, the four injectors and [MultiInjector].
    - Start-up, recovery and the interface to operators. [Mount.v] has the
      path computations of utils.rs, mount_injector.rs and mount.rs,
      [MountSession.v] the sequences of calls that mount and recover
      (mount.rs, mount_injector.rs, [inject] and [resume] of main.rs),
      [Stop.v] the handshake of stop.rs, [Rpc.v] jsonrpc.rs (status and
      update of the injectors), [Main.v] the program itself: [main] with
      its signal pipe, server and recovery.
    - The processes that use the tree. [Ptrace.v] has ptrace/mod.rs:
      [PtraceManager], which counts the handles on each traced process and
      attaches to and detaches from its threads, and [TracedProcess],
      which runs system calls and code in a stopped process. [Replacer.v]
      has replacer/: the tables of descriptors and mappings, the machine
      code that works through them (one [instr] per line of the dynasm!
      block), and the preparation, run and drop of [FdReplacer],
      [MmapReplacer], [CwdReplacer] and [UnionReplacer]. [Asm.v] is the
      part of x86-64 that code uses: registers, byte-addressed memory, a
      [step] per instruction and the class [Kernel] of the system calls
      made by the code.
    - The language and its libraries. [Path.v] has the parts of std::path
      the program uses, on byte strings; [Float.v] IEEE 754 binary64
      arithmetic; [External.v] the interface [Ext] to everything that is
      not in the repository: the kernel, rand, glob, slab, and the class
      [Retry] of the retry crate. [Concrete.v] is an executable instance,
      [Demo], in which the laws assumed of rand, slab and retry hold; the
      witnesses run in it. The interfaces of the other parts have
      instances of their own: [DemoMount] (SessionProps.v), [DemoPtrace]
      (TraceDemo.v), [DemoKernel] (Descriptors.v), [DemoReplacer]
      (Replacing.v).

    ** How the model reads

    A fallible Rust function is a program of the state monad [M] below:
    [?] is [bind], an [Err] is [Fail], a panic is [Panic], and the state
    survives all three. The state of a handler is [FsState]: the [HookFs]
    record and the outside ([IO]: a world, and a trace of the system
    calls, delays and lock operations in order). A guard is [with_lock],
    which logs its acquisition and release. [spawn_blocking] turns a panic
    of its closure into [UnknownError]. Integers are [Z] at their width:
    [as] casts and additions that can overflow are written with [uwrap]
    and [swrap], as in a release build. Bytes are [Z], strings are byte
    strings. Logging is not modelled.

    A request runs to its end in one step of the model; the handlers of a
    session are interleaved at their lock operations in [Deadlock.v] only.

    ** What the theorems show

    - [Transparency.v], [FaultAbort.v]: with injection disabled the
      configured injectors have no influence on any request but a write;
      an injected error is the reply, before any system call.
    - [Locks.v], [Deadlock.v]: every handler takes the locks in one order
      and gives them back on every path; so no interleaving of requests and
      updates deadlocks, over locks with several readers and a queue of
      waiters, on which a task would also block itself.
    - [Invariant.v], [Entries.v]: in every reachable state all remembered
      paths lie in the hooked tree and can be rebuilt under the mount
      point; every inode number sent to the kernel is known.
    - [InjectorProps.v], [Mistakes.v]: which spellings of an operation a
      filter accepts, which fault a draw picks and that one always is, what
      a mistake writes and where.
    - [Behaviour.v], [Protocol.v]: the exact effect of reading, writing,
      opening, releasing, stating and listing; unknown objects, on which a
      release panics; lookup counts; directory pages; times, of which those
      before 1970 panic.
    - [Effects.v]: what a client sees of the attribute and latency
      injectors.
    - [SessionProps.v], [Mount.v], [Stop.v], [Rpc.v]: the order of the
      calls of a start and of a recovery, when injection is enabled, what a
      failure leaves behind, where the tree is moved to, the handshake of
      the two threads, the remote interface.
    - [Main.v]: the two ways in which the program exits without an error.
      [Program.v] answers the session's calls to the replacers by the
      replacers themselves, and shows that the program gives back every
      handle however it ends.
    - [PtraceProps.v], [Tracees.v]: tracing terminates, the counter is the
      number of live handles, and an operation gives the registers back
      whatever fails in it. [TraceDemo.v] has the concrete processes, and
      two error paths that lose something.
    - [Tables.v], [FdCode.v], [MmapCode.v], [Descriptors.v]: the tables
      read back as they were written; the injected programs, run step by
      step, refine their specifications [reopen_all] and [remap_all]; over
      a kernel with descriptors and open file descriptions, the former
      keeps every descriptor open and, if its calls succeed, moves each of
      the table to its new path with its flags and offset; the latter does
      not keep a mapping's address.
    - [ReplacerProps.v], [Replacing.v]: a path that is rebased can be
      rebased back, prepared tables are the listings procfs gave in the
      same run, and every handle taken is given back.
    - [Witnesses.v]: runs of the concrete file system in which the
      hypotheses of the theorems hold, and one in which a write is
      corrupted although injection is disabled.

    ** Fuel and bounds

    [Protocol.read_dir_all], a client that reads a directory to its end,
    has fuel; one more than the number of entries is proved to be enough.
    [Ptrace.trace_rounds] bounds the rounds of [trace] by 2^32 + 3, since a
    round that goes on finds one of the 2^32 thread ids; it is proved to be
    enough. [Asm.run] counts instructions; the refinement theorems give a
    number that is enough. The waits for a traced process to stop
    last as long as that process makes them: they are bounded by the
    parameter [patience], and a program that reaches the bound ends in
    [Fail Waiting], after which nothing is claimed. Every other function
    is structurally recursive.

    ** What is assumed

    Nothing beyond the laws of the classes [RandLaws], [SlabLaws] and
    [Retry] (documented behaviour of rand 0.7, slab 0.4 and retry),
    [TraceeLaws] (what ptrace says of reading and writing a stopped
    process), [ProcfsLaws] (procfs lists a process once and writes four
    letters of permissions), [ReplacerLaws] (dynasmrt puts the data first,
    a [HashMap] iterates over each entry once), [KernelLaws] (only mmap
    and munmap change memory, munmap no more than the pages of its range,
    mmap without MAP_FIXED nothing that is mapped),
    [FdTable] (fcntl, open, lseek, dup2 and close as the manual has them,
    each in success and in failure, on descriptors that lead to open file
    descriptions; close-on-exec is not modelled), that tokio's locks let at
    least one reader in, and, per theorem, the result of the system call it is about. The kernel passes
    names of one component ([Invariant.plain_op]).

    ** What is not modelled

    [hookfs/runtime.rs] (a tokio runtime in a static) and [lib.rs]
    (module declarations), the parsing of the configuration by serde and
    of the command line by structopt, the set-up of the log, the encoding
    of instructions (dynasmrt), and the handlers [destroy] and [bmap] of
    [HookFs], which do nothing. The iterators
    of the replacers' [prepare] are run one process after the other.

    Planned next: the run of [ProcessAccessor] from [run_codes] to the
    injected program as one theorem. *)

From stdpp Require Export base gmap strings list fin_maps.
From Stdlib Require Export ZArith Lia.

(** ** Machine integers

    A w-bit integer is a [Z]; the wrap-around of an operation is written
    with [uwrap] (unsigned) or [swrap] (two's complement). [as] casts of
    the source are these wraps at the width of the target type. *)
Definition uwrap (w z : Z) : Z := (z mod 2 ^ w)%Z.

Definition swrap (w z : Z) : Z := ((z + 2 ^ (w - 1)) mod 2 ^ w - 2 ^ (w - 1))%Z.

Abbreviation as_u64 := (uwrap 64).
Abbreviation as_u32 := (uwrap 32).
Abbreviation as_u16 := (uwrap 16).
Abbreviation as_i64 := (swrap 64).
Abbreviation as_i32 := (swrap 32).

Definition in_u (w z : Z) : Prop := (0 ≤ z < 2 ^ w)%Z.

Definition in_s (w z : Z) : Prop := (- 2 ^ (w - 1) ≤ z < 2 ^ (w - 1))%Z.

Lemma uwrap_id w z : in_u w z → uwrap w z = z.
Proof. intros [??]. unfold uwrap. by rewrite Z.mod_small. Qed.

Lemma uwrap_in w z : (0 ≤ w)%Z → in_u w (uwrap w z).
Proof. intros. unfold uwrap, in_u. apply Z.mod_pos_bound. lia. Qed.

Lemma swrap_id w z : (0 < w)%Z → in_s w z → swrap w z = z.
Proof.
  intros Hw [??]. unfold swrap.
  assert (2 ^ w = 2 * 2 ^ (w - 1))%Z as Hp.
  { replace w with (Z.succ (w - 1)) at 1 by lia. by rewrite Z.pow_succ_r by lia. }
  rewrite Z.mod_small; lia.
Qed.

Lemma swrap_in w z : (0 < w)%Z → in_s w (swrap w z).
Proof.
  intros Hw. unfold swrap, in_s.
  assert (2 ^ w = 2 * 2 ^ (w - 1))%Z as Hp.
  { replace w with (Z.succ (w - 1)) at 1 by lia. by rewrite Z.pow_succ_r by lia. }
  pose proof (Z.mod_pos_bound (z + 2 ^ (w - 1)) (2 ^ w)). lia.
Qed.

(** ** Outcomes and the state monad

    A Rust function that returns [Result<A, E>] and may also panic is a
    state transformer with an [outcome]: [Done] is [Ok], [Fail] is [Err]
    and [Panic] is an unwinding panic. The state is returned on every
    path, because an early return through [?] and an unwind keep the
    effects performed so far. *)
Inductive outcome (E A : Type) : Type :=
| Done (a : A)
| Fail (e : E)
| Panic.
Arguments Done {E A} a.
Arguments Fail {E A} e.
Arguments Panic {E A}.

Definition M (S E A : Type) : Type := S → outcome E A * S.

Definition ret {S E A} (a : A) : M S E A := λ s, (Done a, s).

Definition fail {S E A} (e : E) : M S E A := λ s, (Fail e, s).

Definition panic {S E A} : M S E A := λ s, (Panic, s).

Definition bind {S E A B} (m : M S E A) (k : A → M S E B) : M S E B := λ s,
  match m s with
  | (Done a, s') => k a s'
  | (Fail e, s') => (Fail e, s')
  | (Panic, s') => (Panic, s')
  end.

Definition gets {S E A} (f : S → A) : M S E A := λ s, (Done (f s), s).

Definition modify {S E} (f : S → S) : M S E unit := λ s, (Done tt, f s).

(** A pure outcome used as a statement ([?] on a value). *)
Definition lift {S E A} (o : outcome E A) : M S E A := λ s, (o, s).

(** [m] run to its end whatever its outcome, then [g] applied to the
    state: the drop glue of a guard. *)
Definition finally {S E A} (m : M S E A) (g : S → S) : M S E A := λ s,
  let '(r, s') := m s in (r, g s').

(** [if let Ok(x) = m]: the error of [m] becomes [None]. *)
Definition try {S E E' A} (m : M S E A) : M S E' (option A) := λ s,
  match m s with
  | (Done a, s') => (Done (Some a), s')
  | (Fail _, s') => (Done None, s')
  | (Panic, s') => (Panic, s')
  end.

(** Change of error type ([map_err], [From]). *)
Definition map_err {S E E' A} (f : E → E') (m : M S E A) : M S E' A := λ s,
  match m s with
  | (Done a, s') => (Done a, s')
  | (Fail e, s') => (Fail (f e), s')
  | (Panic, s') => (Panic, s')
  end.

(** [m] on a component of a larger state. *)
Definition zoom {S T E A} (gt : S → T) (st : T → S → S) (m : M T E A) : M S E A := λ s,
  let '(r, t) := m (gt s) in (r, st t s).

(** [for x in l { f(x)?; }] *)
Fixpoint for_each {S E A} (f : A → M S E unit) (l : list A) : M S E unit :=
  match l with
  | [] => ret tt
  | x :: l' => bind (f x) (λ _, for_each f l')
  end.

(** A loop whose body goes on with a new state ([inl]) or leaves with a
    result ([inr]), run for at most [p] rounds. The recursion is on the
    binary numeral, so that a bound as large as the number of values of a
    machine integer can be given and the loop still be run. *)
Fixpoint loop_upto {S E A B} (p : positive) (f : A → M S E (A + B)) (a : A) : M S E (A + B) :=
  match p with
  | xH => f a
  | xO p => bind (loop_upto p f a) (λ r,
      match r with inl a' => loop_upto p f a' | inr b => ret (inr b) end)
  | xI p => bind (f a) (λ r,
      match r with
      | inl a' => bind (loop_upto p f a') (λ r,
          match r with inl a'' => loop_upto p f a'' | inr b => ret (inr b) end)
      | inr b => ret (inr b)
      end)
  end.

(** The same rounds counted in unary, to reason by induction. *)
Fixpoint loop_rounds {S E A B} (n : nat) (f : A → M S E (A + B)) (a : A) : M S E (A + B) :=
  match n with
  | O => ret (inl a)
  | Datatypes.S n => bind (f a) (λ r,
      match r with inl a' => loop_rounds n f a' | inr b => ret (inr b) end)
  end.

Declare Scope toda_scope.
Delimit Scope toda_scope with toda.
Open Scope toda_scope.

Notation "x <- m ;; k" := (bind m (λ x, k))
  (at level 100, m at next level, right associativity) : toda_scope.
Notation "m ;;; k" := (bind m (λ _, k))
  (at level 100, right associativity) : toda_scope.

(** ** Reasoning principles

    Three program logics, one per shape of property:
    - [evolves R m]: every run of [m], whatever its outcome, relates its
      first state to its last by the preorder [R];
    - [keeps I m Q]: [m] keeps the state invariant [I] and its value, if
      it returns one, satisfies [Q];
    - [agree R m1 m2]: from [R]-related states the two programs return
      the same outcome and end in [R]-related states.
    Each has one rule per combinator; the rules are the hints of the
    database [toda], so a handler is proved by running its structure. *)
Definition evolves {S E A} (R : S → S → Prop) (m : M S E A) : Prop :=
  ∀ s, R s (m s).2.

Definition keeps {S E A} (I : S → Prop) (m : M S E A) (Q : A → Prop) : Prop :=
  ∀ s, I s → I (m s).2 ∧ ∀ a, (m s).1 = Done a → Q a.

Definition agree {S T E A} (R : S → T → Prop) (m1 : M S E A) (m2 : M T E A) : Prop :=
  ∀ s t, R s t → (m1 s).1 = (m2 t).1 ∧ R (m1 s).2 (m2 t).2.

(** One step of symbolic execution: a program applied to a state. *)
Ltac run_step :=
  match goal with
  | |- context [match ?m ?s with (_, _) => _ end] =>
      let r := fresh "r" in let s' := fresh "s'" in
      let E := fresh "Hrun" in destruct (m s) as [[?a | ?e |] s'] eqn:E
  end.

Section evolves_rules.
Context {S E : Type} (R : S → S → Prop) `{!PreOrder R}.

Lemma evolves_ret {A} (a : A) : evolves (E:=E) R (ret a).
Proof. by intros s. Qed.

Lemma evolves_fail {A} (e : E) : evolves R (fail (A:=A) e).
Proof. by intros s. Qed.

Lemma evolves_panic {A} : evolves R (panic (E:=E) (A:=A)).
Proof. by intros s. Qed.

Lemma evolves_lift {A} (o : outcome E A) : evolves R (lift o).
Proof. by intros s. Qed.

Lemma evolves_gets {A} (f : S → A) : evolves (E:=E) R (gets f).
Proof. by intros s. Qed.

Lemma evolves_modify (f : S → S) : (∀ s, R s (f s)) → evolves (E:=E) R (modify f).
Proof. intros H s. apply H. Qed.

Lemma evolves_bind {A B} (m : M S E A) (k : A → M S E B) :
  evolves R m → (∀ a, evolves R (k a)) → evolves R (bind m k).
Proof.
  intros Hm Hk s. unfold bind. specialize (Hm s).
  destruct (m s) as [[a|e|] s'] eqn:Hr; simpl in *; try done.
  etrans; [done|]. apply Hk.
Qed.

Lemma evolves_finally {A} (m : M S E A) (g : S → S) :
  (∀ s, R s (g (m s).2)) → evolves R (finally m g).
Proof. intros H s. specialize (H s). unfold finally. by destruct (m s). Qed.

Lemma evolves_try {E' A} (m : M S E A) : evolves R m → evolves R (try (E':=E') m).
Proof. intros Hm s. specialize (Hm s). unfold try. by destruct (m s) as [[]]. Qed.

Lemma evolves_map_err {E' A} (f : E → E') (m : M S E A) :
  evolves R m → evolves R (map_err f m).
Proof. intros Hm s. specialize (Hm s). unfold map_err. by destruct (m s) as [[]]. Qed.

Lemma evolves_for_each {A} (f : A → M S E unit) l :
  (∀ x, evolves R (f x)) → evolves R (for_each f l).
Proof.
  intros Hf. induction l as [|x l IH]; simpl; [apply evolves_ret|].
  by apply evolves_bind.
Qed.

End evolves_rules.

Lemma evolves_zoom {S T E A} (R : S → S → Prop) (Q : T → T → Prop) gt st (m : M T E A) :
  evolves Q m → (∀ s t, Q (gt s) t → R s (st t s)) → evolves R (zoom gt st m).
Proof.
  intros Hm Hc s. specialize (Hm (gt s)). unfold zoom.
  destruct (m (gt s)) as [r t]. by apply Hc.
Qed.

Section keeps_rules.
Context {S E : Type} (I : S → Prop).

Lemma keeps_ret {A} (a : A) (Q : A → Prop) : Q a → keeps (E:=E) I (ret a) Q.
Proof. intros ? s ?. simpl. split; [done|]. by intros ? [= <-]. Qed.

Lemma keeps_fail {A} (e : E) (Q : A → Prop) : keeps I (fail e) Q.
Proof. intros s ?. by split. Qed.

Lemma keeps_panic {A} (Q : A → Prop) : keeps (E:=E) I panic Q.
Proof. intros s ?. by split. Qed.

Lemma keeps_lift {A} (o : outcome E A) (Q : A → Prop) :
  (∀ a, o = Done a → Q a) → keeps I (lift o) Q.
Proof. intros ? s ?. by split. Qed.

Lemma keeps_gets {A} (f : S → A) (Q : A → Prop) :
  (∀ s, I s → Q (f s)) → keeps (E:=E) I (gets f) Q.
Proof. intros ? s ?. simpl. split; [done|]. intros ? [= <-]. auto. Qed.

Lemma keeps_modify (f : S → S) (Q : unit → Prop) :
  (∀ s, I s → I (f s)) → Q tt → keeps (E:=E) I (modify f) Q.
Proof. intros ? ? s ?. simpl. split; [auto|]. by intros [] _. Qed.

Lemma keeps_bind {A B} (m : M S E A) (k : A → M S E B) (P : A → Prop) (Q : B → Prop) :
  keeps I m P → (∀ a, P a → keeps I (k a) Q) → keeps I (bind m k) Q.
Proof.
  intros Hm Hk s HI. destruct (Hm s HI) as [HI' HP]. unfold bind.
  destruct (m s) as [[a|e|] s'] eqn:Hr; simpl in *; try by split.
  by apply Hk; [apply HP|].
Qed.

Lemma keeps_finally {A} (m : M S E A) (g : S → S) (Q : A → Prop) :
  keeps I m Q → (∀ s, I s → I (g s)) → keeps I (finally m g) Q.
Proof.
  intros Hm Hg s HI. destruct (Hm s HI). unfold finally.
  destruct (m s); simpl in *; split; auto.
Qed.

Lemma keeps_weaken {A} (m : M S E A) (P Q : A → Prop) :
  keeps I m P → (∀ a, P a → Q a) → keeps I m Q.
Proof. intros Hm HPQ s HI. destruct (Hm s HI). split; auto. Qed.

Lemma keeps_try {E' A} (m : M S E A) (P : A → Prop) :
  keeps I m P → keeps I (try (E':=E') m) (λ o, ∀ a, o = Some a → P a).
Proof.
  intros Hm s HI. destruct (Hm s HI) as [HI' HP]. unfold try.
  destruct (m s) as [[a|e|] s'] eqn:Hr; simpl in *; (split; [done|]);
    intros o [= <-] a' [= <-]; auto.
Qed.

Lemma keeps_map_err {E' A} (f : E → E') (m : M S E A) (Q : A → Prop) :
  keeps I m Q → keeps I (map_err f m) Q.
Proof.
  intros Hm s HI. destruct (Hm s HI) as [HI' HQ]. unfold map_err.
  destruct (m s) as [[a|e|] s'] eqn:Hr; simpl in *; (split; [done|]); try done.
  intros ? [= <-]. by apply HQ.
Qed.

End keeps_rules.

(** [evolves] for the preorder of an invariant is [keeps] with no claim
    on the value. *)
Lemma evolves_keeps {S E A} (I : S → Prop) (m : M S E A) :
  evolves (λ s s', I s → I s') m → keeps I m (λ _, True).
Proof. intros Hm s HI. split; [by apply Hm|done]. Qed.

Section agree_rules.
Context {S T E : Type} (R : S → T → Prop).

Lemma agree_ret {A} (a : A) : agree (E:=E) R (ret a) (ret a).
Proof. by intros s t. Qed.

Lemma agree_fail {A} (e : E) : agree R (fail (A:=A) e) (fail e).
Proof. by intros s t. Qed.

Lemma agree_panic {A} : agree R (panic (E:=E) (A:=A)) panic.
Proof. by intros s t. Qed.

Lemma agree_lift {A} (o : outcome E A) : agree R (lift o) (lift o).
Proof. by intros s t. Qed.

Lemma agree_gets {A} (f : S → A) (g : T → A) :
  (∀ s t, R s t → f s = g t) → agree (E:=E) R (gets f) (gets g).
Proof. intros H s t HR. simpl. by rewrite (H s t HR). Qed.

Lemma agree_modify (f : S → S) (g : T → T) :
  (∀ s t, R s t → R (f s) (g t)) → agree (E:=E) R (modify f) (modify g).
Proof. intros H s t HR. simpl. auto. Qed.

Lemma agree_bind {A B} (m1 : M S E A) (m2 : M T E A) (k1 : A → M S E B) (k2 : A → M T E B) :
  agree R m1 m2 → (∀ a, agree R (k1 a) (k2 a)) → agree R (bind m1 k1) (bind m2 k2).
Proof.
  intros Hm Hk s t HR. destruct (Hm s t HR) as [Ho HR']. unfold bind.
  destruct (m1 s) as [[a|e|] s'], (m2 t) as [[a'|e'|] t']; simpl in *; simplify_eq; try done.
  by apply Hk.
Qed.

Lemma agree_finally {A} (m1 : M S E A) (m2 : M T E A) g h :
  agree R m1 m2 → (∀ s t, R s t → R (g s) (h t)) →
  agree R (finally m1 g) (finally m2 h).
Proof.
  intros Hm Hg s t HR. destruct (Hm s t HR) as [Ho HR']. unfold finally.
  destruct (m1 s), (m2 t); simpl in *; auto.
Qed.

Lemma agree_try {E' A} (m1 : M S E A) (m2 : M T E A) :
  agree R m1 m2 → agree R (try (E':=E') m1) (try m2).
Proof.
  intros Hm s t HR. destruct (Hm s t HR) as [Ho HR']. unfold try.
  by destruct (m1 s) as [[]], (m2 t) as [[]]; simpl in *; simplify_eq.
Qed.

Lemma agree_map_err {E' A} (f : E → E') (m1 : M S E A) (m2 : M T E A) :
  agree R m1 m2 → agree R (map_err f m1) (map_err f m2).
Proof.
  intros Hm s t HR. destruct (Hm s t HR) as [Ho HR']. unfold map_err.
  by destruct (m1 s) as [[]], (m2 t) as [[]]; simpl in *; simplify_eq.
Qed.

Lemma agree_for_each {A} (f : A → M S E unit) (g : A → M T E unit) l :
  (∀ x, agree R (f x) (g x)) → agree R (for_each f l) (for_each g l).
Proof.
  intros H. induction l as [|x l IH]; simpl; [apply agree_ret|]. by apply agree_bind.
Qed.

End agree_rules.

(** ** Loops *)
Section loops.
Context {S E A B : Type} (f : A → M S E (A + B)).

Lemma loop_rounds_add n m a s :
  loop_rounds (n + m) f a s =
    bind (loop_rounds n f a) (λ r,
      match r with inl a' => loop_rounds m f a' | inr b => ret (inr b) end) s.
Proof.
  revert a s. induction n as [|n IH]; intros a s; [done|]. simpl. unfold bind at 1 2 3.
  destruct (f a s) as [[[a'|b]|e|] s']; [apply IH|done..].
Qed.

Lemma loop_upto_rounds p a s : loop_upto p f a s = loop_rounds (Pos.to_nat p) f a s.
Proof.
  revert a s. induction p as [p IH|p IH|]; intros a s.
  - replace (Pos.to_nat p~1) with (1 + (Pos.to_nat p + Pos.to_nat p))%nat by lia.
    cbn [loop_upto Nat.add loop_rounds]. unfold bind at 1 3.
    destruct (f a s) as [[[a'|b]|e|] s1]; [|done..]. rewrite loop_rounds_add. unfold bind.
    rewrite IH. destruct (loop_rounds _ f a' s1) as [[[?|?]|?|] ?]; [apply IH|done..].
  - replace (Pos.to_nat p~0) with (Pos.to_nat p + Pos.to_nat p)%nat by lia.
    cbn [loop_upto]. rewrite loop_rounds_add. unfold bind.
    rewrite IH. destruct (loop_rounds _ f a s) as [[[?|?]|?|] ?]; [apply IH|done..].
  - change (Pos.to_nat 1) with 1%nat. cbn [loop_upto loop_rounds]. unfold bind, ret.
    by destruct (f a s) as [[[a'|b]|e|] s1].
Qed.

(** If every round that goes on decreases a measure, a loop that has
    gone on for [n] rounds has used up [n] of it. *)
Lemma loop_rounds_measure (I : A → Prop) (μ : A → Z) n a s a' s' :
  (∀ a s a' s', I a → f a s = (Done (inl a'), s') → I a' ∧ (0 ≤ μ a' < μ a)%Z) →
  I a → (0 ≤ μ a)%Z →
  loop_rounds n f a s = (Done (inl a'), s') → (0 ≤ μ a' ≤ μ a - Z.of_nat n)%Z.
Proof.
  intros Hf. revert a s. induction n as [|n IH]; intros a s Ha Hm.
  - intros [= -> ->]. lia.
  - simpl. unfold bind. destruct (f a s) as [[[a1|b]|e|] s1] eqn:Hr; try done.
    destruct (Hf a s a1 s1 Ha Hr) as [Ha1 Hm1]. intros Hl.
    specialize (IH a1 s1 Ha1 ltac:(lia) Hl). lia.
Qed.

Lemma evolves_loop (R : S → S → Prop) `{!PreOrder R} p a :
  (∀ a, evolves R (f a)) → evolves R (loop_upto p f a).
Proof.
  intros Hf s. rewrite loop_upto_rounds. revert a s.
  induction (Pos.to_nat p) as [|n IH]; intros a s; simpl; [done|].
  apply (evolves_bind R); [apply Hf|]. intros [a'|b]; [intros s'; apply IH|apply (evolves_ret R)].
Qed.

End loops.

Create HintDb toda discriminated.
#[export] Hint Resolve evolves_ret evolves_fail evolves_panic evolves_lift evolves_gets
  evolves_bind evolves_try evolves_map_err evolves_for_each : toda.
#[export] Hint Resolve keeps_fail keeps_panic : toda.
#[export] Hint Extern 4 (PreOrder _) => apply _ : toda.
#[export] Hint Resolve agree_ret agree_fail agree_panic agree_lift agree_bind agree_try
  agree_map_err agree_for_each : toda.

(** ** Walking through a program *)

(** Case analysis on the scrutinee of a program. *)
Ltac evolve_match :=
  match goal with
  | |- evolves _ (match ?x with _ => _ end) => destruct x
  | |- evolves _ (let '(_, _) := ?x in _) => destruct x
  end.

Ltac evolve_step :=
  match goal with
  | |- evolves _ (bind _ _) => apply evolves_bind; [apply _| |]
  | |- ∀ _, _ => intro
  | |- _ => solve [eauto 3 with toda]
  | |- _ => evolve_match
  end.

Ltac evolve := repeat evolve_step.
