(* ===== verification/Path.v ===== *)
(** * Paths (std::path)

    [PathBuf], [Path], [OsStr] and [CString] are byte strings. The
    operations of [std::path] that the program uses are written on the
    bytes, the way [std::path::Components] walks them: a path is an
    optional start (a root slash or a leading dot) and a body split at
    the slashes, whose empty and [.] segments are not components. *)

From Stdlib Require Import Ascii.
From S2P Require Import Prelude.

#[local] Open Scope string_scope.

#[local] Arguments String.append : simpl nomatch.

(** ** Splitting at slashes *)
Definition slash : Ascii.ascii := "/"%char.

Fixpoint split_slash (s : string) : list string :=
  match s with
  | "" => [""]
  | String c s' =>
      if Ascii.eqb c slash then "" :: split_slash s'
      else match split_slash s' with
           | [] => [String c ""]
           | seg :: segs => String c seg :: segs
           end
  end.

Fixpoint join_slash (segs : list string) : string :=
  match segs with
  | [] => ""
  | [seg] => seg
  | seg :: segs' => seg ++ String slash (join_slash segs')
  end.

(** ** Components *)
Inductive component :=
| RootDir
| CurDir
| ParentDir
| Normal (name : string).

#[export] Instance component_eq_dec : EqDecision component.
Proof. solve_decision. Defined.

(** [Components::parse_single_component]: the empty segment and [.] are
    not components. *)
Definition seg_component (seg : string) : option component :=
  if String.eqb seg "" then None
  else if String.eqb seg "." then None
  else if String.eqb seg ".." then Some ParentDir
  else Some (Normal seg).

Definition is_skip (seg : string) : bool :=
  match seg_component seg with None => true | Some _ => false end.

(** [Path::has_root] and [Components::include_cur_dir]. *)
Definition has_root (p : string) : bool :=
  match p with String c _ => Ascii.eqb c slash | "" => false end.

Definition include_cur_dir (p : string) : bool :=
  match p with
  | String c "" => Ascii.eqb c "."%char
  | String c (String d _) => Ascii.eqb c "."%char && Ascii.eqb d slash
  | "" => false
  end.

(** The start of a path (one byte, or none) and its body. *)
Definition start_of (p : string) : string * string :=
  if has_root p || include_cur_dir p then
    match p with String c p' => (String c "", p') | "" => ("", "") end
  else ("", p).

Definition start_component (p : string) : list component :=
  if has_root p then [RootDir]
  else if include_cur_dir p then [CurDir]
  else [].

Definition body_segs (p : string) : list string := split_slash (start_of p).2.

Definition components (p : string) : list component :=
  start_component p ++ omap seg_component (body_segs p).

(** [PartialEq for Path] compares components. *)
Definition path_eqb (p q : string) : bool := bool_decide (components p = components q).

Fixpoint is_prefix_of (base p : list component) : bool :=
  match base, p with
  | [], _ => true
  | b :: base', c :: p' => bool_decide (b = c) && is_prefix_of base' p'
  | _ :: _, [] => false
  end.

(** [Path::starts_with]. *)
Definition starts_with (p base : string) : bool := is_prefix_of (components base) (components p).

(** ** Operations *)

(** [Components::trim_left] and [trim_right] on the segments. *)
Fixpoint trim_left (segs : list string) : list string :=
  match segs with
  | [] => []
  | seg :: segs' => if is_skip seg then trim_left segs' else segs
  end.

Definition trim_right (segs : list string) : list string := rev (trim_left (rev segs)).

(** The segments left after [n] components have been consumed. *)
Fixpoint drop_components (n : nat) (segs : list string) : list string :=
  match n, segs with
  | O, _ => segs
  | S _, [] => []
  | S n', seg :: segs' =>
      if is_skip seg then drop_components n segs' else drop_components n' segs'
  end.

(** [Path::strip_prefix]: the part of [p] after the components of
    [base], as the bytes [Components::as_path] returns. *)
Definition strip_prefix (p base : string) : option string :=
  if starts_with p base then
    match components base with
    | [] => let '(st, body) := start_of p in
            Some (st ++ join_slash (trim_right (split_slash body)))
    | _ :: _ =>
        let n := (length (components base) - length (start_component p))%nat in
        Some (join_slash (trim_right (trim_left (drop_components n (body_segs p)))))
    end
  else None.

Definition ends_with_slash (p : string) : bool :=
  match rev (String.list_ascii_of_string p) with
  | c :: _ => Ascii.eqb c slash
  | [] => false
  end.

(** [PathBuf::push] and [Path::join]. *)
Definition join (p q : string) : string :=
  if has_root q then q
  else if String.eqb p "" then q
  else if ends_with_slash p then p ++ q
  else p ++ String slash q.

(** [Path::file_name]: the last component if it is a name. *)
Definition file_name (p : string) : option string :=
  match rev (components p) with
  | Normal name :: _ => Some name
  | _ => None
  end.

(** [Path::parent]: the path without its last component; none for a
    path that ends in the root or is empty. *)
Definition parent (p : string) : option string :=
  match rev (components p) with
  | [] | RootDir :: _ => None
  | _ :: _ =>
      let '(st, body) := start_of p in
      match trim_left (rev (split_slash body)) with
      | [] => Some ""
      | _ :: segs => Some (st ++ join_slash (rev (trim_left segs)))
      end
  end.

(** [PathBuf::pop]: the truncated path and whether there was a parent. *)
Definition pop (p : string) : string * bool :=
  match parent p with
  | Some q => (q, true)
  | None => (p, false)
  end.

(** [CString::new] fails on an interior NUL byte. *)
Fixpoint contains_nul (s : string) : bool :=
  match s with
  | "" => false
  | String c s' => Ascii.eqb c Ascii.zero || contains_nul s'
  end.

(** The bytes of a path or name, without the NUL byte [CString] adds. *)
Definition bytes_of (s : string) : list Z :=
  (λ c, Z.of_N (Ascii.N_of_ascii c)) <$> String.list_ascii_of_string s.

(** ** Lemmas on splitting and joining *)

(** A segment: no slash inside. *)
Fixpoint no_slash (s : string) : bool :=
  match s with
  | "" => true
  | String c s' => negb (Ascii.eqb c slash) && no_slash s'
  end.

(** A name the kernel passes for a directory entry: one ordinary
    component. *)
Definition plain_name (n : string) : bool :=
  no_slash n && negb (is_skip n) && negb (String.eqb n "..").

Lemma app_assoc_string (a b c : string) : (a ++ b) ++ c = a ++ (b ++ c).
Proof. induction a as [|x a IH]; simpl; [done|]. by rewrite IH. Qed.

Lemma split_slash_nonempty s : split_slash s ≠ [].
Proof. destruct s as [|c s]; simpl; [done|]. case_match; [done|]. by case_match. Qed.

Lemma split_slash_no_slash s : no_slash s = true → split_slash s = [s].
Proof.
  induction s as [|c s IH]; simpl; [done|]. intros [Hc Hs]%andb_prop.
  apply negb_true_iff in Hc. rewrite Hc. by rewrite (IH Hs).
Qed.

Lemma split_slash_app s t : split_slash (s ++ String slash t) = (split_slash s ++ split_slash t)%list.
Proof.
  induction s as [|c s IH]; simpl; [done|].
  destruct (Ascii.eqb c slash) eqn:Hc; rewrite IH; [done|].
  destruct (split_slash s) as [|seg segs] eqn:Hs; [|done].
  by apply split_slash_nonempty in Hs.
Qed.

Lemma split_slash_segs s : Forall (λ seg, no_slash seg = true) (split_slash s).
Proof.
  induction s as [|c s IH]; simpl; [by repeat constructor|].
  destruct (Ascii.eqb c slash) eqn:Hc; [by constructor|].
  destruct (split_slash s) as [|seg segs]; inversion IH; subst.
  - constructor; [simpl; by rewrite Hc|done].
  - constructor; [|done]. simpl. by rewrite Hc.
Qed.

Lemma split_join_slash segs :
  segs ≠ [] → Forall (λ seg, no_slash seg = true) segs → split_slash (join_slash segs) = segs.
Proof.
  intros Hne HF. induction HF as [|seg segs Hseg HF IH]; [done|].
  destruct segs as [|seg' segs]; simpl.
  - by apply split_slash_no_slash.
  - rewrite split_slash_app, split_slash_no_slash by done. simpl. f_equal. by apply IH.
Qed.

Lemma ends_with_slash_inv p :
  ends_with_slash p = true → ∃ p', p = p' ++ String slash "".
Proof.
  unfold ends_with_slash. intros H.
  destruct (rev (String.list_ascii_of_string p)) as [|c l] eqn:Hr; [done|].
  apply Ascii.eqb_eq in H. subst c.
  apply (f_equal (@rev Ascii.ascii)) in Hr. rewrite rev_involutive in Hr. simpl in Hr.
  exists (String.string_of_list_ascii (rev l)).
  rewrite <- (String.string_of_list_ascii_of_string p), Hr. clear.
  induction (rev l) as [|x r IH]; simpl; [done|]. by rewrite IH.
Qed.

Lemma seg_component_plain n :
  plain_name n = true → seg_component n = Some (Normal n).
Proof.
  unfold plain_name, is_skip, seg_component. intros H.
  destruct (String.eqb n "") eqn:?, (String.eqb n ".") eqn:?, (String.eqb n "..") eqn:?;
    simpl in H; rewrite ?andb_false_r in H; try done.
Qed.

Lemma is_skip_component seg : is_skip seg = true → seg_component seg = None.
Proof. unfold is_skip. by destruct (seg_component seg). Qed.

Lemma omap_trim_left segs : omap seg_component (trim_left segs) = omap seg_component segs.
Proof.
  induction segs as [|seg segs IH]; csimpl; [done|].
  destruct (is_skip seg) eqn:Hs; [|done]. by rewrite (is_skip_component _ Hs).
Qed.

Lemma omap_rev_list {A B} (f : A → option B) (l : list A) : omap f (rev l) = rev (omap f l).
Proof.
  induction l as [|x l IH]; csimpl; [done|]. rewrite omap_app, IH. csimpl.
  destruct (f x); simpl; [done|]. by rewrite app_nil_r.
Qed.

Lemma omap_trim_right segs : omap seg_component (trim_right segs) = omap seg_component segs.
Proof. unfold trim_right. by rewrite omap_rev_list, omap_trim_left, omap_rev_list, rev_involutive. Qed.

Lemma omap_drop_components n segs :
  omap seg_component (drop_components n segs) = drop n (omap seg_component segs).
Proof.
  revert n. induction segs as [|seg segs IH]; intros [|n]; try done. csimpl.
  unfold is_skip at 1. destruct (seg_component seg) eqn:Hc; csimpl; by rewrite IH.
Qed.

Lemma trim_left_forall (P : string → Prop) segs : Forall P segs → Forall P (trim_left segs).
Proof. induction 1; simpl; [done|]. case_match; [done|]. by constructor. Qed.

Lemma trim_right_forall (P : string → Prop) segs : Forall P segs → Forall P (trim_right segs).
Proof. intros H. apply Forall_rev, trim_left_forall, Forall_rev, H. Qed.

Lemma drop_components_forall (P : string → Prop) n segs :
  Forall P segs → Forall P (drop_components n segs).
Proof.
  intros H. revert n. induction H as [|seg segs Hs HF IH]; intros [|n]; simpl; auto.
  destruct (is_skip seg); auto.
Qed.

Lemma trim_left_head segs seg segs' : trim_left segs = seg :: segs' → is_skip seg = false.
Proof.
  induction segs as [|x segs IH]; simpl; [done|].
  destruct (is_skip x) eqn:Hx; [done|]. by intros [= <- <-].
Qed.

(** The head of a list trimmed on the left stays the head when the list
    is trimmed on the right too. *)
Lemma trim_right_head segs seg segs' :
  is_skip seg = false → segs = seg :: segs' → ∃ t, trim_right segs = seg :: t.
Proof.
  intros Hs ->. unfold trim_right. simpl.
  assert (∃ r, trim_left (rev segs' ++ [seg]) = (r ++ [seg])%list) as [r Hr].
  { induction (rev segs') as [|x l IH]; simpl.
    - rewrite Hs. by exists [].
    - destruct (is_skip x); [done|]. by eexists (_ :: _). }
  rewrite Hr, rev_app_distr. simpl. eauto.
Qed.

(** A path built from a head segment that is a component has no start. *)
Lemma start_of_join_slash seg segs :
  is_skip seg = false → no_slash seg = true →
  start_component (join_slash (seg :: segs)) = [] ∧
  start_of (join_slash (seg :: segs)) = ("", join_slash (seg :: segs)).
Proof.
  intros Hs Hn.
  destruct seg as [|c seg]; [done|].
  simpl in Hn. apply andb_prop in Hn as [Hc Hn]. apply negb_true_iff in Hc.
  assert (has_root (join_slash (String c seg :: segs)) = false) as Hr
    by (destruct segs; simpl; by rewrite Hc).
  assert (include_cur_dir (join_slash (String c seg :: segs)) = false) as Hi.
  { destruct seg as [|d seg].
    - destruct (Ascii.eqb c "."%char) eqn:Hd.
      + apply Ascii.eqb_eq in Hd. by subst.
      + destruct segs; simpl; by rewrite Hd.
    - simpl in Hn. apply andb_prop in Hn as [Hd _]. apply negb_true_iff in Hd.
      destruct segs; simpl; rewrite Hd; by rewrite andb_false_r. }
  unfold start_component, start_of. by rewrite Hr, Hi.
Qed.

Lemma components_join_slash segs :
  Forall (λ seg, no_slash seg = true) segs →
  (∀ seg segs', segs = seg :: segs' → is_skip seg = false) →
  components (join_slash segs) = omap seg_component segs.
Proof.
  intros HF Hhd. destruct segs as [|seg segs]; [done|].
  assert (is_skip seg = false) as Hs by eauto.
  inversion HF; subst.
  destruct (start_of_join_slash seg segs Hs) as [Hc1 Hc2]; [done|].
  unfold components, body_segs. rewrite Hc1, Hc2. cbn [snd app].
  by rewrite split_join_slash.
Qed.

(** ** [join], [starts_with] and [strip_prefix] on components *)

Lemma is_prefix_of_app base p :
  is_prefix_of base p = true ↔ ∃ rest, p = (base ++ rest)%list.
Proof.
  revert p. induction base as [|b base IH]; intros p; simpl.
  - split; eauto.
  - destruct p as [|c p].
    + split; [done|]. by intros [? ?].
    + rewrite andb_true_iff, bool_decide_eq_true, IH. split.
      * intros [-> [rest ->]]. eauto.
      * intros [rest [= -> ->]]. eauto.
Qed.

Lemma starts_with_app p base :
  starts_with p base = true ↔ ∃ rest, components p = (components base ++ rest)%list.
Proof. apply is_prefix_of_app. Qed.

(** Appending after a slash keeps the start and appends the segments. *)
Lemma start_of_app_slash p q :
  p ≠ "" →
  start_component (p ++ String slash q) = start_component p ∧
  start_of (p ++ String slash q) = ((start_of p).1, (start_of p).2 ++ String slash q).
Proof.
  intros Hp. unfold start_component, start_of.
  destruct p as [|c [|d p]]; [done| |]; simpl.
  - destruct (Ascii.eqb c slash) eqn:Hc; simpl; [done|].
    destruct (Ascii.eqb c "."%char); done.
  - destruct (Ascii.eqb c slash) eqn:Hc; simpl; [done|].
    destruct (Ascii.eqb c "."%char && Ascii.eqb d slash); done.
Qed.

Lemma components_app_slash p q :
  p ≠ "" →
  components (p ++ String slash q) =
    (components p ++ omap seg_component (split_slash q))%list.
Proof.
  intros Hp. destruct (start_of_app_slash p q Hp) as [Hc Hs].
  unfold components, body_segs. rewrite Hc, Hs. cbn [snd].
  by rewrite split_slash_app, omap_app, app_assoc.
Qed.

(** The segments of a relative path with no leading dot are its
    components. *)
Lemma components_relative q :
  start_component q = [] → components q = omap seg_component (split_slash q).
Proof.
  unfold components, body_segs, start_component, start_of.
  destruct (has_root q); [done|]. by destruct (include_cur_dir q).
Qed.

Lemma components_join p q :
  start_component q = [] → components (join p q) = (components p ++ components q)%list.
Proof.
  intros Hq. rewrite (components_relative q Hq). unfold join.
  assert (has_root q = false) as -> by (unfold start_component in Hq; by destruct (has_root q)).
  destruct (String.eqb_spec p "") as [->|Hp]; [by apply components_relative|].
  destruct (ends_with_slash p) eqn:He; [|by apply components_app_slash].
  destruct (ends_with_slash_inv p He) as [p' ->].
  rewrite app_assoc_string. simpl.
  destruct (decide (p' = "")) as [->|Hp'].
  - done.
  - by rewrite !components_app_slash, <- app_assoc.
Qed.

Lemma plain_name_start n : plain_name n = true → start_component n = [].
Proof.
  intros Hn. unfold plain_name in Hn.
  destruct (no_slash n) eqn:Hs; [|done]. destruct (is_skip n) eqn:Hk; [done|].
  apply (start_of_join_slash n [] Hk Hs).
Qed.

Lemma components_plain n : plain_name n = true → components n = [Normal n].
Proof.
  intros Hn. rewrite components_relative by by apply plain_name_start.
  unfold plain_name in Hn. destruct (no_slash n) eqn:Hs; [|done].
  rewrite split_slash_no_slash by done. csimpl.
  rewrite seg_component_plain; [done|]. unfold plain_name. by rewrite Hs.
Qed.

Lemma components_join_name p n :
  plain_name n = true → components (join p n) = (components p ++ [Normal n])%list.
Proof.
  intros Hn. rewrite components_join by by apply plain_name_start.
  by rewrite (components_plain n Hn).
Qed.

Lemma length_start_component p base rest :
  components p = (components base ++ rest)%list → components base ≠ [] →
  (length (start_component p) ≤ length (components base))%nat.
Proof.
  intros Hp Hb. destruct (components base); [done|]. simpl.
  unfold start_component. repeat case_match; simpl; lia.
Qed.

(** [strip_prefix] inverts [join] on components. *)
Lemma strip_prefix_components p base t :
  components base ≠ [] →
  strip_prefix p base = Some t →
  start_component t = [] ∧ components p = (components base ++ components t)%list.
Proof.
  intros Hb. unfold strip_prefix. destruct (starts_with p base) eqn:Hs; [|done].
  apply starts_with_app in Hs as [rest Hp].
  pose proof (length_start_component p base rest Hp Hb) as Hlen.
  destruct (components base) as [|b bs] eqn:Hcb; [done|]. rewrite <- Hcb in *.
  intros [= <-].
  set (segs := drop_components _ _).
  assert (Forall (λ seg, no_slash seg = true) (trim_right (trim_left segs))) as HF.
  { apply trim_right_forall, trim_left_forall, drop_components_forall, split_slash_segs. }
  assert (∀ seg segs', trim_right (trim_left segs) = seg :: segs' → is_skip seg = false) as Hhd.
  { intros seg segs' Heq. destruct (trim_left segs) as [|x l] eqn:Hl; [done|].
    pose proof (trim_left_head _ _ _ Hl) as Hx.
    destruct (trim_right_head (x :: l) x l Hx eq_refl) as [t' Ht']. congruence. }
  split.
  - destruct (trim_right (trim_left segs)) as [|seg segs'] eqn:Heq; [done|].
    inversion HF; subst. apply start_of_join_slash; [by eapply Hhd|done].
  - rewrite components_join_slash by done.
    rewrite omap_trim_right, omap_trim_left. subst segs. rewrite omap_drop_components.
    rewrite Hp. f_equal.
    assert (components p = (start_component p ++ omap seg_component (body_segs p))%list)
      as Hcp by done.
    rewrite Hp in Hcp. apply (f_equal (drop (length (components base)))) in Hcp.
    rewrite drop_app_length, drop_app_ge in Hcp by done. by rewrite Hcp.
Qed.

Lemma strip_prefix_is_some p base : is_Some (strip_prefix p base) ↔ starts_with p base = true.
Proof.
  unfold strip_prefix. destruct (starts_with p base).
  - split; [done|]. intros _. destruct (components base); [destruct (start_of p)|]; eauto.
  - split; [by intros [? ?]|done].
Qed.
