(* ===== verification/Float.v ===== *)
(** * f64 arithmetic

    The program uses [f64] in three places: the probability of a filter
    ([percent as f64 / 100f64]), the comparison of a random draw with it,
    and the scaling of a random draw by the weights of a fault injector
    ([(attempt * (sum as f64)) as i32]). [f64] is the IEEE-754 binary64 of
    the standard library's [SpecFloat], so rounding is part of the model. *)

From Stdlib Require Import SpecFloat.
From S2P Require Import Prelude.

#[local] Open Scope Z_scope.

Definition f64 : Type := spec_float.

(** [z as f64] of an integer; exact for every [i32]. *)
Definition f64_of_int (z : Z) : f64 := binary_normalize 53 1024 z 0 false.

Definition f64_mul : f64 → f64 → f64 := SFmul 53 1024.

Definition f64_div : f64 → f64 → f64 := SFdiv 53 1024.

Definition f64_ltb : f64 → f64 → bool := SFltb.

(** [x as i32]: truncation toward zero, saturating, NaN to 0. *)
Definition sat_i32 (z : Z) : Z := Z.max (- 2 ^ 31) (Z.min z (2 ^ 31 - 1)).

Definition f64_to_i32 (x : f64) : Z :=
  match x with
  | S754_zero _ | S754_nan => 0
  | S754_infinity s => if s then - 2 ^ 31 else 2 ^ 31 - 1
  | S754_finite s m e =>
      let t := if 0 <=? e then Zpos m * 2 ^ e else Zpos m / 2 ^ (- e) in
      sat_i32 (if s then - t else t)
  end.

(** The floats [rand]'s [Standard] distribution draws from: the
    multiples of 2^-53 in [0, 1). *)
Definition unit_float (k : Z) : f64 := binary_normalize 53 1024 k (-53) false.

(** ** Order *)

Lemma SFltb_SFleb_trans x y z : SFltb x y = true → SFleb y z = true → SFltb x z = true.
Proof.
  unfold SFltb, SFleb. destruct x as [sx|sx| |sx mx ex], y as [sy|sy| |sy my ey],
    z as [sz|sz| |sz mz ez]; simpl; try done;
    try destruct sx; try destruct sy; try destruct sz; simpl; try done.
  all: change (PosDef.Pos.compare_cont Eq) with Pos.compare.
  all: destruct (Z.compare_spec ex ey), (Z.compare_spec ey ez), (Z.compare_spec ex ez);
    simpl; intros; try done; try (exfalso; lia).
  all: destruct (Pos.compare_spec mx my), (Pos.compare_spec my mz), (Pos.compare_spec mx mz);
    simpl in *; try done; exfalso; lia.
Qed.

Lemma SFltb_irrefl_le x y : SFleb y x = true → SFltb x y = false.
Proof.
  unfold SFltb, SFleb. destruct x as [sx|sx| |sx mx ex], y as [sy|sy| |sy my ey];
    simpl; try done; try destruct sx; try destruct sy; simpl; try done.
  all: change (PosDef.Pos.compare_cont Eq) with Pos.compare.
  all: rewrite (Z.compare_antisym ex ey), (Pos.compare_antisym mx my).
  all: destruct (ex ?= ey); try done; by destruct (mx ?= my)%positive.
Qed.

(** ** Digits and normal forms *)

Lemma digits2_pos_log2 p : Zpos (digits2_pos p) = Z.log2 (Zpos p) + 1.
Proof.
  induction p as [p IH|p IH|]; cbn [digits2_pos]; [| |done].
  - rewrite Pos2Z.inj_succ, IH, (Pos2Z.inj_xI p), Z.log2_succ_double by lia. lia.
  - rewrite Pos2Z.inj_succ, IH, (Pos2Z.inj_xO p), Z.log2_double by lia. lia.
Qed.

Lemma Zdigits2_bounds m d : 2 ^ (d - 1) ≤ m < 2 ^ d → 0 < d → Zdigits2 m = d.
Proof.
  intros Hm Hd. assert (0 < 2 ^ (d - 1)) by (apply Z.pow_pos_nonneg; lia).
  destruct m as [|p|p]; [lia| |lia]. cbn [Zdigits2].
  rewrite digits2_pos_log2, (Z.log2_unique (Zpos p) (d - 1)); [lia|lia|].
  by replace (Z.succ (d - 1)) with d by lia.
Qed.

Lemma Zdigits2_le m d : 0 ≤ m < 2 ^ d → 0 < d → Zdigits2 m ≤ d.
Proof.
  intros Hm Hd. destruct m as [|p|p]; cbn [Zdigits2]; [lia| |lia].
  rewrite digits2_pos_log2. assert (Z.log2 (Zpos p) < d) by (apply Z.log2_lt_pow2; lia). lia.
Qed.

Lemma iter_xO m d : Zpos (Pos.iter xO m d) = Zpos m * 2 ^ Zpos d.
Proof.
  revert m. induction d as [|d IH] using Pos.peano_ind; intros m.
  - simpl Pos.iter. lia.
  - rewrite Pos.iter_succ, Pos2Z.inj_xO, IH, Pos2Z.inj_succ, Z.pow_succ_r by lia. lia.
Qed.

(** Rounding does nothing to a 53-digit mantissa in the exponent range. *)
Lemma binary_round_aux_exact s m e :
  2 ^ 52 ≤ Zpos m < 2 ^ 53 → -1074 ≤ e ≤ 971 →
  binary_round_aux 53 1024 s (Zpos m) e loc_Exact = S754_finite s m e.
Proof.
  intros Hm He. unfold binary_round_aux.
  assert (shr_fexp 53 1024 (Zpos m) e loc_Exact = (Build_shr_record (Zpos m) false false, e)) as Hs.
  { unfold shr_fexp. rewrite (Zdigits2_bounds _ 53) by (simpl; lia).
    assert (fexp 53 1024 (53 + e) - e = 0) as ->; [|done].
    unfold fexp, emin. lia. }
  rewrite Hs. cbn [shr_m loc_of_shr_record round_nearest_even]. rewrite Hs.
  cbn [shr_m]. by destruct (Z.leb_spec e (1024 - 53)); [|lia].
Qed.

(** The normal form of a positive integer scaled by a power of two. *)
Lemma normalize_form z e :
  0 < z < 2 ^ 53 → -1000 ≤ e ≤ 900 →
  ∃ m d, 2 ^ 52 ≤ Zpos m < 2 ^ 53 ∧ 0 ≤ d ≤ 52 ∧ Zpos m = z * 2 ^ d ∧
    binary_normalize 53 1024 z e false = S754_finite false m (e - d).
Proof.
  intros Hz He. destruct z as [|p|p]; [lia| |lia]. cbn [binary_normalize].
  unfold binary_round.
  assert (0 ≤ Z.log2 (Zpos p) < 53) as Hl.
  { split; [apply Z.log2_nonneg|]. by apply Z.log2_lt_pow2; lia. }
  pose proof (Z.log2_spec (Zpos p) ltac:(lia)) as [Hlo Hhi].
  remember (52 - Z.log2 (Zpos p)) as d eqn:Hdef.
  assert (fexp 53 1024 (Zpos (digits2_pos p) + e) - e = - d) as Hd.
  { rewrite digits2_pos_log2. unfold fexp, emin. lia. }
  assert (2 ^ 52 ≤ Zpos p * 2 ^ d < 2 ^ 53) as Hb.
  { replace (2 ^ 52) with (2 ^ Z.log2 (Zpos p) * 2 ^ d)
      by (rewrite <- Z.pow_add_r by lia; f_equal; lia).
    replace (2 ^ 53) with (2 ^ Z.succ (Z.log2 (Zpos p)) * 2 ^ d)
      by (rewrite <- Z.pow_add_r by lia; f_equal; lia).
    assert (0 < 2 ^ d) by (apply Z.pow_pos_nonneg; lia). nia. }
  unfold shl_align. rewrite Hd.
  destruct d as [|q|q]; [| |lia].
  - change (- 0) with 0. cbv beta iota. rewrite Z.pow_0_r, Z.mul_1_r in Hb. rewrite binary_round_aux_exact by lia.
    exists p, 0. rewrite Z.sub_0_r, Z.pow_0_r, Z.mul_1_r. split_and!; done || lia.
  - change (- Zpos q) with (Zneg q) in *. cbv beta iota.
    replace (fexp 53 1024 (Zpos (digits2_pos p) + e)) with (e - Zpos q) by lia.
    rewrite binary_round_aux_exact by (rewrite ?iter_xO; lia).
    exists (Pos.iter xO p q), (Zpos q). rewrite iter_xO. split_and!; done || lia.
Qed.

(** ** Rounding after a shift

    [shr_1] iterated [n] times on an exact mantissa: the quotient, the
    round bit and the remainder below it. *)
Definition shr_meaning (m0 : Z) (n : Z) (r : shr_record) : Prop :=
  ∃ rem, m0 = shr_m r * 2 ^ n + Z.b2z (shr_r r) * 2 ^ (n - 1) + rem ∧
    0 ≤ rem < 2 ^ (n - 1) ∧ 0 ≤ shr_m r.

Lemma shr_1_meaning m0 n r :
  1 ≤ n → shr_meaning m0 n r → shr_meaning m0 (n + 1) (shr_1 r).
Proof.
  intros Hn (rem & H0 & Hrem & Hm).
  assert (2 ^ (n + 1) = 2 * 2 ^ n) as Hp by (rewrite Z.pow_add_r by lia; lia).
  assert (2 ^ n = 2 * 2 ^ (n - 1)) as Hq.
  { replace n with (1 + (n - 1)) at 1 by lia. rewrite Z.pow_add_r by lia. lia. }
  unfold shr_meaning. replace (n + 1 - 1) with n by lia.
  exists (Z.b2z (shr_r r) * 2 ^ (n - 1) + rem).
  destruct r as [m rb sb]. cbn [shr_m shr_r] in *.
  assert (0 ≤ Z.b2z rb * 2 ^ (n - 1) + rem < 2 ^ n) by (destruct rb; simpl Z.b2z; lia).
  destruct m as [|[p|p|]|p]; cbn [shr_1 shr_m shr_r Z.b2z]; try lia.
Qed.

Lemma iter_pos_iter {A} (f : A → A) n x : SpecFloat.iter_pos f n x = Pos.iter f x n.
Proof.
  revert x. induction n as [n IH|n IH|]; intros x; cbn [SpecFloat.iter_pos Pos.iter]; [| |done].
  - rewrite !IH. by rewrite <- !Pos.iter_swap.
  - by rewrite !IH.
Qed.

Lemma iter_shr_meaning m n :
  0 ≤ m → shr_meaning m (Zpos n) (SpecFloat.iter_pos shr_1 n (Build_shr_record m false false)).
Proof.
  intros Hm. rewrite iter_pos_iter. induction n as [|n IH] using Pos.peano_ind.
  - exists 0. destruct m as [|[p|p|]|p]; simpl; lia.
  - rewrite Pos.iter_succ, Pos2Z.inj_succ. by apply shr_1_meaning; [lia|].
Qed.

(** Rounding to nearest adds at most half a unit in the last place. *)
Lemma round_nearest_even_bound m0 n r :
  1 ≤ n → shr_meaning m0 n r →
  0 ≤ round_nearest_even (shr_m r) (loc_of_shr_record r) ∧
  round_nearest_even (shr_m r) (loc_of_shr_record r) * 2 ^ n ≤ m0 + 2 ^ (n - 1).
Proof.
  intros Hn (rem & H0 & Hrem & Hm). destruct r as [m rb sb]. cbn [shr_m shr_r] in *.
  assert (2 ^ n = 2 * 2 ^ (n - 1)) as Hq.
  { replace n with (1 + (n - 1)) at 1 by lia. rewrite Z.pow_add_r by lia. lia. }
  destruct rb, sb; cbn [loc_of_shr_record round_nearest_even Z.b2z] in *; try nia.
  case_match; nia.
Qed.

Lemma shr_pos r e n : shr r e (Zpos n) = (SpecFloat.iter_pos shr_1 n r, e + Zpos n).
Proof. done. Qed.

(** [binary_round_aux] of a mantissa of [53 + n] digits, from above: the
    result is a non-negative float whose value exceeds the exact one by
    at most half a unit. *)
Lemma binary_round_aux_bound m e n :
  2 ^ (52 + n) ≤ m < 2 ^ (53 + n) → 1 ≤ n → -1074 ≤ e + n ≤ 900 →
  ∃ q, 0 ≤ q ∧ q * 2 ^ n ≤ m + 2 ^ (n - 1) ∧
    (binary_round_aux 53 1024 false m e loc_Exact = S754_zero false ∨
     ∃ m' k, binary_round_aux 53 1024 false m e loc_Exact = S754_finite false m' (e + n + k) ∧
       0 ≤ k ∧ Zpos m' * 2 ^ k ≤ q).
Proof.
  intros Hm Hn He.
  assert (0 < 2 ^ (52 + n)) by (apply Z.pow_pos_nonneg; lia).
  remember (binary_round_aux 53 1024 false m e loc_Exact) as B eqn:HB.
  unfold binary_round_aux, shr_fexp in HB. rewrite (Zdigits2_bounds m (53 + n)) in HB;
    [|by replace (53 + n - 1) with (52 + n) by lia|lia].
  replace (fexp 53 1024 (53 + n + e) - e) with n in HB by (unfold fexp, emin; lia).
  cbn [shr_record_of_loc] in HB. destruct n as [|n|n]; [lia| |lia]. rewrite shr_pos in HB.
  cbv beta iota in HB.
  pose proof (iter_shr_meaning m n ltac:(lia)) as Hs.
  set (r := SpecFloat.iter_pos _ _ _) in *. clearbody r.
  destruct (round_nearest_even_bound m (Zpos n) r ltac:(lia) Hs) as [Hq0 Hq].
  set (q := round_nearest_even _ _) in *. clearbody q. exists q. split_and!; [done..|].
  assert (q < 2 ^ 54) as Hq54.
  { rewrite !Z.pow_add_r in Hm by lia.
    assert (2 ^ Zpos n = 2 * 2 ^ (Zpos n - 1)) as Hp.
    { replace (Zpos n) with (1 + (Zpos n - 1)) at 1 by lia. rewrite Z.pow_add_r by lia. lia. }
    assert (0 < 2 ^ (Zpos n - 1)) by (apply Z.pow_pos_nonneg; lia). nia. }
  pose proof (Zdigits2_le q 54 ltac:(lia) ltac:(lia)) as Hd54.
  assert (∀ k, fexp 53 1024 (Zdigits2 q + (e + Zpos n)) - (e + Zpos n) = k → k ≤ 1) as Hk1
    by (intros k; unfold fexp, emin; lia).
  destruct (fexp 53 1024 (Zdigits2 q + (e + Zpos n)) - (e + Zpos n)) as [|k|k] eqn:Hk;
    [|rewrite shr_pos in HB; cbv beta iota in HB|]; cbn [shr shr_m] in HB.
  1,3: destruct q as [|q|q]; [by left| |lia]; right; exists q, 0;
    rewrite Z.add_0_r, Z.pow_0_r, Z.mul_1_r;
    destruct (Z.leb_spec (e + Zpos n) (1024 - 53)); [|lia]; split_and!; lia || done.
  pose proof (iter_shr_meaning q k Hq0) as (rem & Hrem & Hb & Hm').
  set (r' := SpecFloat.iter_pos _ _ _) in *. clearbody r'.
  destruct (shr_m r') as [|m'|m'] eqn:Hr'; [by left| |lia]. right. exists m', (Zpos k).
  specialize (Hk1 _ eq_refl).
  destruct (Z.leb_spec (e + Zpos n + Zpos k) (1024 - 53)); [|lia].
  split_and!; [done|lia|]. assert (0 < 2 ^ (Zpos k - 1)) by (apply Z.pow_pos_nonneg; lia).
  destruct (shr_r r'); cbn [Z.b2z] in *; lia.
Qed.

(** ** The two facts the program relies on *)

(** A draw is non-negative and below one. *)
Lemma unit_float_lt_one k :
  0 ≤ k < 2 ^ 53 → f64_ltb (unit_float k) (f64_of_int 1) = true.
Proof.
  intros Hk. destruct (decide (k = 0)) as [->|]; [done|].
  destruct (normalize_form k (-53)) as (m & d & Hm & Hd & _ & Hf); [lia..|].
  unfold unit_float. rewrite Hf.
  change (f64_of_int 1) with (S754_finite false 4503599627370496 (-52)).
  unfold f64_ltb, SFltb. cbn [SFcompare].
  by destruct (Z.compare_spec (-53 - d) (-52)); [lia| |lia].
Qed.

Lemma unit_float_finite k :
  0 ≤ k < 2 ^ 53 →
  (∃ s, unit_float k = S754_zero s) ∨ ∃ s m e, unit_float k = S754_finite s m e.
Proof.
  intros Hk. destruct (decide (k = 0)) as [->|]; [left; by eexists|].
  destruct (normalize_form k (-53)) as (m & d & Hm & Hd & _ & Hf); [lia..|].
  right. eexists _, _, _. apply Hf.
Qed.

Lemma unit_float_not_lt_zero k :
  0 ≤ k < 2 ^ 53 → f64_ltb (unit_float k) (f64_of_int 0) = false.
Proof.
  intros Hk. destruct (decide (k = 0)) as [->|]; [done|].
  destruct (normalize_form k (-53)) as (m & d & Hm & Hd & _ & Hf); [lia..|].
  unfold unit_float. by rewrite Hf.
Qed.

(** A draw scaled by a positive weight and truncated stays below the
    weight, in spite of the rounding of the product. *)
Lemma scaled_draw_range k w :
  0 ≤ k < 2 ^ 53 → 0 < w < 2 ^ 31 →
  0 ≤ f64_to_i32 (f64_mul (unit_float k) (f64_of_int w)) < w.
Proof.
  intros Hk Hw.
  destruct (normalize_form w 0) as (mw & dw & Hmw & Hdw & Ew & Fw); [lia..|].
  unfold f64_of_int. rewrite Fw.
  destruct (decide (k = 0)) as [->|Hk0]; [change (unit_float 0) with (S754_zero false); cbn; lia|].
  destruct (normalize_form k (-53)) as (mk & dk & Hmk & Hdk & Ek & Fk); [lia..|].
  unfold unit_float, f64_mul. rewrite Fk. cbn [SFmul xorb]. rewrite Pos2Z.inj_mul.
  assert (Zpos mk ≤ 2 ^ 53 - 1) as Hmk' by lia.
  assert (∃ n, (n = 52 ∨ n = 53) ∧ 2 ^ (52 + n) ≤ Zpos mk * Zpos mw < 2 ^ (53 + n))
    as (n & Hn & Hbnd).
  { destruct (decide (Zpos mk * Zpos mw < 2 ^ 105)).
    - exists 52. split; [by left|]. simpl. nia.
    - exists 53. split; [by right|]. simpl. nia. }
  destruct (binary_round_aux_bound (Zpos mk * Zpos mw) (-53 - dk + (0 - dw)) n)
    as (q & Hq0 & Hq & Hr); [done|lia..|].
  assert (q * 2 ^ n < Zpos mw * 2 ^ 53) as Hlt.
  { destruct Hn as [->| ->]; simpl in *; nia. }
  destruct Hr as [->|(m' & k' & -> & Hk' & Hm')]; [cbn [f64_to_i32 f64_mul SFmul]; lia|].
  assert (Zpos m' * 2 ^ (n + k') < w * 2 ^ (53 + dk + dw)) as Hval.
  { rewrite !Z.pow_add_r by lia. rewrite Ew in Hlt.
    assert (0 < 2 ^ dk) by (apply Z.pow_pos_nonneg; lia).
    assert (0 < 2 ^ dw) by (apply Z.pow_pos_nonneg; lia).
    assert (0 < 2 ^ n) by (apply Z.pow_pos_nonneg; lia).
    apply Z.le_lt_trans with (q * 2 ^ n).
    { replace (Zpos m' * (2 ^ n * 2 ^ k')) with (Zpos m' * 2 ^ k' * 2 ^ n) by ring.
      apply Z.mul_le_mono_nonneg_r; lia. }
    apply Z.lt_le_trans with (w * 2 ^ dw * 2 ^ 53); [done|].
    replace (w * (2 ^ 53 * 2 ^ dk * 2 ^ dw)) with (w * 2 ^ dw * 2 ^ 53 * 2 ^ dk) by ring.
    rewrite <- (Z.mul_1_r (w * 2 ^ dw * 2 ^ 53)) at 1.
    apply Z.mul_le_mono_nonneg_l; [|lia].
    apply Z.mul_nonneg_nonneg; [apply Z.mul_nonneg_nonneg|]; lia. }
  set (e := -53 - dk + (0 - dw) + n + k').
  assert (0 ≤ (if 0 <=? e then Zpos m' * 2 ^ e else Zpos m' / 2 ^ (- e)) < w) as Ht.
  { destruct (Z.leb_spec 0 e) as [He|He].
    - assert (0 < 2 ^ e) by (apply Z.pow_pos_nonneg; lia).
      replace (n + k') with (e + (53 + dk + dw)) in Hval by lia.
      rewrite Z.pow_add_r in Hval by lia.
      split; [apply Z.mul_nonneg_nonneg; lia|].
      apply (Z.mul_lt_mono_pos_r (2 ^ (53 + dk + dw))); [apply Z.pow_pos_nonneg; lia|].
      by rewrite <- Z.mul_assoc.
    - assert (0 < 2 ^ (- e)) by (apply Z.pow_pos_nonneg; lia).
      split; [apply Z.div_pos; lia|]. apply Z.div_lt_upper_bound; [done|].
      replace (53 + dk + dw) with (- e + (n + k')) in Hval by lia.
      rewrite (Z.pow_add_r 2 (- e)) in Hval by lia.
      apply (Z.mul_lt_mono_pos_r (2 ^ (n + k'))); [apply Z.pow_pos_nonneg; lia|].
      by rewrite (Z.mul_comm (2 ^ (- e)) w), <- Z.mul_assoc. }
  unfold f64_to_i32, sat_i32. fold e. lia.
Qed.
