(* ===== verification/Types.v ===== *)
(** * Errors, replies and stat conversion

    [src/hookfs/errors.rs], the data of [src/hookfs/reply.rs] and
    [src/hookfs/utils.rs]. *)

From S2P Require Import Prelude.

#[local] Open Scope Z_scope.

(** ** errors.rs *)

(** An [Errno] of nix is its discriminant. *)
Abbreviation Errno := Z (only parsing).

Definition EFAULT : Errno := 14.
Definition EINVAL : Errno := 22.
Definition ENOSYS : Errno := 38.

(** [nix::Error], of which errors.rs tells [Sys] from the rest. *)
Inductive NixError :=
| NixSys (errno : Errno)
| NixInvalidPath
| NixInvalidUtf8
| NixUnsupportedOperation.

Inductive HookFsError :=
| Sys (errno : Errno)
| InodeNotFound (inode : Z)
| FhNotFound (fh : Z)
| InvalidStr
| UnknownFileType
| StripPrefixError
| UnknownError.

#[export] Instance HookFsError_eq_dec : EqDecision HookFsError.
Proof. solve_decision. Defined.

(** [impl From<nix::Error> for HookFsError] *)
Definition from_nix (err : NixError) : HookFsError :=
  match err with
  | NixSys errno => Sys errno
  | _ => UnknownError
  end.

(** [impl Into<libc::c_int> for HookFsError] *)
Definition into_c_int (err : HookFsError) : Z :=
  match err with
  | Sys errno => errno
  | InodeNotFound _ => EFAULT
  | FhNotFound _ => EFAULT
  | UnknownFileType => EINVAL
  | InvalidStr => EINVAL
  | _ => EFAULT
  end.

(** ** Times (std::time) *)

(** [SystemTime] on Linux: a timespec with an [i64] second and a
    nanosecond below 10^9. *)
Record SystemTime := mkTime { st_sec : Z; st_nsec : Z }.

#[export] Instance SystemTime_eq_dec : EqDecision SystemTime.
Proof. solve_decision. Defined.

Definition nanos_per_sec : Z := 1000000000.

Definition UNIX_EPOCH : SystemTime := mkTime 0 0.

(** [SystemTime + Duration], the duration given as seconds ([u64]) and
    nanoseconds below 10^9; the addition panics on overflow. *)
Definition time_add {E} (t : SystemTime) (secs nanos : Z) : outcome E SystemTime :=
  if bool_decide (secs < 2 ^ 63) && bool_decide (st_sec t + secs < 2 ^ 63) then
    let n := st_nsec t + nanos in
    if bool_decide (nanos_per_sec ≤ n) then
      if bool_decide (st_sec t + secs + 1 < 2 ^ 63)
      then Done (mkTime (st_sec t + secs + 1) (n - nanos_per_sec))
      else Panic
    else Done (mkTime (st_sec t + secs) n)
  else Panic.

(** ** utils.rs *)

(** [nix::dir::Type] and [fuser::FileType]. *)
Module DirType.
Inductive t := Fifo | CharacterDevice | Directory | BlockDevice | File | Symlink | Socket.
End DirType.

Inductive FileType :=
| NamedPipe | CharDevice | BlockDevice | Directory | RegularFile | Symlink | Socket.

#[export] Instance FileType_eq_dec : EqDecision FileType.
Proof. solve_decision. Defined.

Definition convert_filetype (file_type : DirType.t) : FileType :=
  match file_type with
  | DirType.Fifo => NamedPipe
  | DirType.CharacterDevice => CharDevice
  | DirType.Directory => Directory
  | DirType.BlockDevice => BlockDevice
  | DirType.File => RegularFile
  | DirType.Symlink => Symlink
  | DirType.Socket => Socket
  end.

Definition system_time {E} (sec nsec : Z) : outcome E SystemTime :=
  match time_add UNIX_EPOCH (as_u64 sec) 0 with
  | Done t => time_add t (as_u64 nsec / nanos_per_sec) (as_u64 nsec mod nanos_per_sec)
  | Fail e => Fail e
  | Panic => Panic
  end.

(** [libc::stat], the fields the conversion reads. *)
Record FileStat := mkStat {
  st_ino : Z; st_size : Z; st_blocks : Z;
  st_atime : Z; st_atime_nsec : Z;
  st_mtime : Z; st_mtime_nsec : Z;
  st_ctime : Z; st_ctime_nsec : Z;
  st_mode : Z; st_nlink : Z; st_uid : Z; st_gid : Z; st_rdev : Z; st_blksize : Z
}.

(** [fuser::FileAttr] *)
Record FileAttr := mkAttr {
  ino : Z; size : Z; blocks : Z;
  atime : SystemTime; mtime : SystemTime; ctime : SystemTime; crtime : SystemTime;
  kind : FileType; perm : Z; nlink : Z; uid : Z; gid : Z; rdev : Z; blksize : Z;
  padding : Z; attr_flags : Z
}.

#[export] Instance FileAttr_eq_dec : EqDecision FileAttr.
Proof. solve_decision. Defined.

Definition S_IFMT : Z := 61440.
Definition S_IFSOCK : Z := 49152.
Definition S_IFLNK : Z := 40960.
Definition S_IFREG : Z := 32768.
Definition S_IFBLK : Z := 24576.
Definition S_IFDIR : Z := 16384.
Definition S_IFCHR : Z := 8192.
Definition S_IFIFO : Z := 4096.

Definition kind_of_mode (mode : Z) : option FileType :=
  let m := Z.land mode S_IFMT in
  if m =? S_IFBLK then Some BlockDevice
  else if m =? S_IFCHR then Some CharDevice
  else if m =? S_IFDIR then Some Directory
  else if m =? S_IFIFO then Some NamedPipe
  else if m =? S_IFLNK then Some Symlink
  else if m =? S_IFREG then Some RegularFile
  else if m =? S_IFSOCK then Some Socket
  else None.

(** A stat call is a function of no state here: [M unit] threads the
    panics of [system_time] in source order. *)
Definition convert_libc_stat_to_fuse_stat (stat : FileStat) : outcome HookFsError FileAttr :=
  match kind_of_mode (st_mode stat) with
  | None => Fail UnknownFileType
  | Some kind =>
      fst ((a <- lift (system_time (st_atime stat) (st_atime_nsec stat)) ;;
            m <- lift (system_time (st_mtime stat) (st_mtime_nsec stat)) ;;
            c <- lift (system_time (st_ctime stat) (st_ctime_nsec stat)) ;;
            cr <- lift (system_time 0 0) ;;
            ret {| ino := st_ino stat;
                   size := as_u64 (st_size stat);
                   blocks := as_u64 (st_blocks stat);
                   atime := a; mtime := m; ctime := c; crtime := cr;
                   kind := kind;
                   perm := as_u16 (Z.land (st_mode stat) 4095);
                   nlink := as_u32 (st_nlink stat);
                   uid := st_uid stat;
                   gid := st_gid stat;
                   rdev := as_u32 (st_rdev stat);
                   blksize := as_u32 (st_blksize stat);
                   padding := 0;
                   attr_flags := 0 |}) tt)
  end.

(** [fuser::TimeOrNow] and [libc::timespec]. *)
Inductive TimeOrNow := SpecificTime (t : SystemTime) | Now.

Record timespec := mkTimespec { tv_sec : Z; tv_nsec : Z }.

Definition UTIME_NOW : Z := 1073741823.
Definition UTIME_OMIT : Z := 1073741822.

(** [duration_since(UNIX_EPOCH).unwrap().as_nanos() as i64], then the
    truncating [/] and [%] of [i64]. *)
Definition convert_time {E} (t : option TimeOrNow) : outcome E timespec :=
  match t with
  | Some (SpecificTime t) =>
      if bool_decide (st_sec t < 0) then Panic
      else
        let n := as_i64 (st_sec t * nanos_per_sec + st_nsec t) in
        Done (mkTimespec (Z.quot n nanos_per_sec) (Z.rem n nanos_per_sec))
  | Some Now => Done (mkTimespec 0 UTIME_NOW)
  | None => Done (mkTimespec 0 UTIME_OMIT)
  end.

(** ** reply.rs: the values the handlers return *)

Record Entry := mkEntry { entry_stat : FileAttr; entry_generation : Z }.

Record Open := mkOpen { open_fh : Z; open_flags : Z }.

Record Attr := mkAttrReply { attr_attr : FileAttr }.

Record Data := mkData { data_data : list Z }.

Record StatFs := mkStatFs {
  sf_blocks : Z; sf_bfree : Z; sf_bavail : Z; sf_files : Z; sf_ffree : Z;
  sf_bsize : Z; sf_namelen : Z; sf_frsize : Z
}.

Record Write := mkWrite { write_size : Z }.

Record Create := mkCreate {
  create_attr : FileAttr; create_generation : Z; create_fh : Z; create_flags : Z
}.

Record Lock := mkLock { lock_start : Z; lock_end : Z; lock_typ : Z; lock_pid : Z }.

Inductive Xattr := XData (data : list Z) | XSize (size : Z).

(** [Reply<'a>]: the reply a [inject_reply] may rewrite. *)
Inductive Reply :=
| REntry (r : Entry)
| ROpen (r : Open)
| RAttr (r : Attr)
| RData (r : Data)
| RStatFs (r : StatFs)
| RWrite (r : Write)
| RCreate (r : Create)
| RLock (r : Lock)
| RXattr (r : Xattr).

(** ** Properties of the conversions *)

Lemma system_time_pre_epoch {E} sec nsec :
  in_s 64 sec → sec < 0 → system_time (E:=E) sec nsec = Panic.
Proof.
  intros Hs Hneg. unfold system_time, time_add, in_s in *.
  assert (as_u64 sec = sec + 2 ^ 64) as Hu.
  { unfold uwrap. rewrite <- (Z_mod_plus_full sec 1), Z.mul_1_l. apply Z.mod_small. simpl in Hs. lia. }
  rewrite Hu. cbn [st_sec UNIX_EPOCH].
  rewrite bool_decide_eq_false_2; [done|]. simpl in Hs. lia.
Qed.

Lemma system_time_ok {E} sec nsec :
  0 ≤ sec < 2 ^ 63 → 0 ≤ nsec < nanos_per_sec →
  system_time (E:=E) sec nsec = Done (mkTime sec nsec).
Proof.
  intros Hs Hn. unfold nanos_per_sec in *. unfold system_time, time_add.
  rewrite (uwrap_id 64 sec), (uwrap_id 64 nsec) by (unfold in_u; lia).
  cbn [st_sec st_nsec UNIX_EPOCH]. unfold nanos_per_sec.
  rewrite !bool_decide_eq_true_2 by lia. cbn [andb].
  rewrite bool_decide_eq_false_2 by lia. cbn [st_sec st_nsec].
  rewrite Z.div_small, Z.mod_small by lia.
  rewrite !bool_decide_eq_true_2 by lia. cbn [andb].
  rewrite bool_decide_eq_false_2 by lia. f_equal. f_equal; lia.
Qed.
