(* ===== verification/Asm.v ===== *)
(** * The machine of the replacers

    The replacers write machine code into other processes
    ([src/replacer/fd_replacer.rs], [src/replacer/mmap_replacer.rs]); this
    file has what that code is made of: the registers of
    [libc::user_regs_struct], byte memory, the statements of [dynasm!] that
    the two programs use, and an executable semantics of the fragment of
    x86-64 they are written in. The Linux system calls the code makes are
    an interface, [Kernel]. *)

From S2P Require Import Prelude.

#[local] Open Scope Z_scope.

(** ** Registers *)
Inductive reg :=
| R15 | R14 | R13 | R12 | RBP | RBX | R11 | R10 | R9 | R8 | RAX | RCX | RDX | RSI | RDI
| ORIG_RAX | RIP | CS | EFLAGS | RSP | SS | FS_BASE | GS_BASE | DS | ES | FS | GS.

(** Registers are compared by their position in the structure. *)
Definition reg_index (r : reg) : nat :=
  match r with
  | R15 => 0 | R14 => 1 | R13 => 2 | R12 => 3 | RBP => 4 | RBX => 5 | R11 => 6 | R10 => 7
  | R9 => 8 | R8 => 9 | RAX => 10 | RCX => 11 | RDX => 12 | RSI => 13 | RDI => 14
  | ORIG_RAX => 15 | RIP => 16 | CS => 17 | EFLAGS => 18 | RSP => 19 | SS => 20
  | FS_BASE => 21 | GS_BASE => 22 | DS => 23 | ES => 24 | FS => 25 | GS => 26
  end%nat.

Definition reg_eqb (r r' : reg) : bool := Nat.eqb (reg_index r) (reg_index r').

(** [libc::user_regs_struct]: 64 bits per register. *)
Definition regs : Type := reg → Z.

Definition set_reg (r : reg) (v : Z) (f : regs) : regs := λ r', if reg_eqb r' r then v else f r'.

(** ** Bytes and memory *)
Fixpoint le_bytes (n : nat) (z : Z) : list Z :=
  match n with
  | O => []
  | S n => z mod 256 :: le_bytes n (z / 256)
  end.

Fixpoint le_value (bs : list Z) : Z :=
  match bs with
  | [] => 0
  | b :: bs => b + 256 * le_value bs
  end.

(** The mapped bytes of an address space. *)
Abbreviation memory := (gmap Z Z) (only parsing).

Fixpoint load_bytes (n : nat) (m : memory) (a : Z) : option (list Z) :=
  match n with
  | O => Some []
  | S n =>
      match m !! a, load_bytes n m (a + 1) with
      | Some b, Some bs => Some (b :: bs)
      | _, _ => None
      end
  end.

Definition load64 (m : memory) (a : Z) : option Z := le_value <$> load_bytes 8 m a.

(** A store faults on an address that is not mapped. *)
Fixpoint store_bytes (m : memory) (a : Z) (bs : list Z) : option memory :=
  match bs with
  | [] => Some m
  | b :: bs =>
      match m !! a with
      | Some _ => store_bytes (<[a := b]> m) (a + 1) bs
      | None => None
      end
  end.

Definition store64 (m : memory) (a v : Z) : option memory := store_bytes m a (le_bytes 8 v).

(** A NUL-terminated string of fewer than [n] bytes. *)
Fixpoint load_cstr (n : nat) (m : memory) (a : Z) : option (list Z) :=
  match n with
  | O => None
  | S n =>
      match m !! a with
      | Some b =>
          if b =? 0 then Some []
          else match load_cstr n m (a + 1) with Some bs => Some (b :: bs) | None => None end
      | None => None
      end
  end.

Definition PATH_MAX : nat := 4096.

(** ** Programs

    A program of [dynasm!] is data, placed first, and then code. *)
Inductive label := Lcases | Lcases_length | Lnew_paths | Lstart | Lend.

#[export] Instance label_eq_dec : EqDecision label.
Proof. solve_decision. Defined.

Inductive datum :=
| DLabel (l : label)
| DBytes (bs : list Z)
| DQword (z : Z)
| DNop.

Inductive instr :=
| MovImm (d : reg) (v : Z)
| MovReg (d s : reg)
| MovMem (d b i : reg) (disp : Z) (* mov d, QWORD [b+i+disp] *)
| MovLabel (d : reg) (l : label) (* mov d, QWORD [->l] *)
| Lea (d : reg) (l : label) (* lea d, [->l] *)
| AddImm (d : reg) (v : Z)
| SubImm (d : reg) (v : Z)
| AddMem (d b i : reg) (disp : Z) (* add d, QWORD [b+i+disp] *)
| Xor (d s : reg)
| Cmp (a b : reg)
| Jmp (l : label)
| Jb (l : label)
| Push (s : reg)
| Pop (d : reg)
| Syscall
| Int3.

Inductive item := CLabel (l : label) | Ins (i : instr).

Definition datum_bytes (d : datum) : list Z :=
  match d with
  | DLabel _ => []
  | DBytes bs => bs
  | DQword z => le_bytes 8 z
  | DNop => [144]
  end.

Definition data_bytes (ds : list datum) : list Z := concat (datum_bytes <$> ds).

(** The address of a data label when the data is placed at [base]. *)
Fixpoint data_addr (base : Z) (ds : list datum) (l : label) : option Z :=
  match ds with
  | [] => None
  | DLabel l' :: ds => if decide (l' = l) then Some base else data_addr base ds l
  | d :: ds => data_addr (base + Z.of_nat (length (datum_bytes d))) ds l
  end.

(** The position of a code label. *)
Fixpoint code_pos (n : nat) (code : list item) (l : label) : option nat :=
  match code with
  | [] => None
  | CLabel l' :: code => if decide (l' = l) then Some n else code_pos (S n) code l
  | Ins _ :: code => code_pos (S n) code l
  end.

(** ** System calls

    The calls of the code with their arguments as the registers hold them;
    a path is the bytes the pointer leads to. The kernel may change the
    memory of the process (munmap, mmap). *)
Inductive ucall :=
| UFcntl (fd cmd arg : Z)
| UOpen (path : list Z) (flags mode : Z)
| ULseek (fd offset whence : Z)
| UDup2 (oldfd newfd : Z)
| UClose (fd : Z)
| UMunmap (addr len : Z)
| UMmap (addr len prot flags fd offset : Z).

Class Kernel := {
  KWorld : Type;
  ksys : ucall → memory → KWorld → Z * memory * KWorld
}.

Definition maps_memory (c : ucall) : bool :=
  match c with UMunmap _ _ | UMmap _ _ _ _ _ _ => true | _ => false end.

(** The pages of a range of [len] bytes end at a multiple of 4096. *)
Definition page_ceil (len : Z) : Z := (len + 4095) / 4096 * 4096.

(** Documented behaviour: only munmap and mmap change mappings; munmap
    removes the pages of its range and nothing else; mmap without
    MAP_FIXED (16) leaves what is mapped alone. *)
Class KernelLaws (K : Kernel) := {
  ksys_memory : ∀ c m w r m' w',
    maps_memory c = false → ksys c m w = (r, m', w') → m' = m;
  ksys_munmap : ∀ a l m w r m' w' x,
    ksys (UMunmap a l) m w = (r, m', w') → ¬ (a ≤ x < a + page_ceil l) → m' !! x = m !! x;
  ksys_mmap : ∀ a l p f fd o m w r m' w' x b,
    Z.land f 16 = 0 → ksys (UMmap a l p f fd o) m w = (r, m', w') →
    m !! x = Some b → m' !! x = Some b
}.

Section machine.
Context `{K : Kernel}.

(** The part of the machine the kernel sees, with a log of the calls and
    their results. *)
Record kstate := mkK { k_mem : memory; k_world : KWorld; k_log : list (ucall * Z) }.

Definition kdo (c : ucall) (k : kstate) : Z * kstate :=
  let '(r, m, w) := ksys c (k_mem k) (k_world k) in
  (as_u64 r, mkK m w (k_log k ++ [(c, as_u64 r)])).

Definition set_mem (m : memory) (k : kstate) : kstate := mkK m (k_world k) (k_log k).

(** [cf] is the carry flag, the only one the code tests. *)
Record cpu := mkCpu { rf : regs; cf : bool; pc : nat; ks : kstate }.

Inductive result := Running (c : cpu) | Trapped (c : cpu) | Stuck.

(** The number in rax selects the call, the arguments are in rdi, rsi,
    rdx, r10, r8 and r9. *)
Definition decode (f : regs) (m : memory) : option ucall :=
  match f RAX with
  | 2 => match load_cstr PATH_MAX m (f RDI) with
         | Some path => Some (UOpen path (f RSI) (f RDX))
         | None => None
         end
  | 3 => Some (UClose (f RDI))
  | 8 => Some (ULseek (f RDI) (f RSI) (f RDX))
  | 9 => Some (UMmap (f RDI) (f RSI) (f RDX) (f R10) (f R8) (f R9))
  | 11 => Some (UMunmap (f RDI) (f RSI))
  | 33 => Some (UDup2 (f RDI) (f RSI))
  | 72 => Some (UFcntl (f RDI) (f RSI) (f RDX))
  | _ => None
  end.

Section program.
Variables (base : Z) (data : list datum) (code : list item).

Definition advance (f : regs) (b : bool) (c : cpu) : result :=
  Running (mkCpu f b (S (pc c)) (ks c)).

Definition jump (l : label) (c : cpu) : result :=
  match code_pos 0 code l with
  | Some n => Running (mkCpu (rf c) (cf c) n (ks c))
  | None => Stuck
  end.

(** Loading a register from memory, or faulting. *)
Definition load_into (d : reg) (a : Z) (g : Z → Z * bool) (c : cpu) : result :=
  match load64 (k_mem (ks c)) a with
  | Some v => let '(v, b) := g v in advance (set_reg d v (rf c)) b c
  | None => Stuck
  end.

(** [syscall] also overwrites rcx and r11, which the code does not use. *)
Definition exec (i : instr) (c : cpu) : result :=
  let f := rf c in
  let addr b x disp := as_u64 (f b + f x + disp) in
  match i with
  | MovImm d v => advance (set_reg d (as_u64 v) f) (cf c) c
  | MovReg d s => advance (set_reg d (f s) f) (cf c) c
  | MovMem d b x disp => load_into d (addr b x disp) (λ v, (v, cf c)) c
  | MovLabel d l =>
      match data_addr base data l with
      | Some a => load_into d a (λ v, (v, cf c)) c
      | None => Stuck
      end
  | Lea d l =>
      match data_addr base data l with
      | Some a => advance (set_reg d a f) (cf c) c
      | None => Stuck
      end
  | AddImm d v => advance (set_reg d (as_u64 (f d + v)) f) (2 ^ 64 <=? f d + v) c
  | SubImm d v => advance (set_reg d (as_u64 (f d - v)) f) (f d <? v) c
  | AddMem d b x disp => load_into d (addr b x disp) (λ v, (as_u64 (f d + v), 2 ^ 64 <=? f d + v)) c
  | Xor d s => advance (set_reg d (Z.lxor (f d) (f s)) f) false c
  | Cmp a b => advance f (f a <? f b) c
  | Jmp l => jump l c
  | Jb l => if cf c then jump l c else advance f (cf c) c
  | Push s =>
      let sp := as_u64 (f RSP - 8) in
      match store64 (k_mem (ks c)) sp (f s) with
      | Some m => Running (mkCpu (set_reg RSP sp f) (cf c) (S (pc c)) (set_mem m (ks c)))
      | None => Stuck
      end
  | Pop d =>
      match load64 (k_mem (ks c)) (f RSP) with
      | Some v => advance (set_reg d v (set_reg RSP (as_u64 (f RSP + 8)) f)) (cf c) c
      | None => Stuck
      end
  | Syscall =>
      match decode f (k_mem (ks c)) with
      | Some u =>
          let '(r, k) := kdo u (ks c) in
          Running (mkCpu (set_reg RAX r f) (cf c) (S (pc c)) k)
      | None => Stuck
      end
  | Int3 => Trapped c
  end.

Definition step (c : cpu) : result :=
  match code !! pc c with
  | Some (CLabel _) => advance (rf c) (cf c) c
  | Some (Ins i) => exec i c
  | None => Stuck
  end.

(** At most [n] steps. *)
Fixpoint run (n : nat) (c : cpu) : result :=
  match n with
  | O => Running c
  | S n =>
      match step c with
      | Running c' => run n c'
      | r => r
      end
  end.

Lemma run_app n m c c' : run n c = Running c' → run (n + m) c = run m c'.
Proof.
  revert c. induction n as [|n IH]; intros c; simpl; [by intros [= ->]|].
  destruct (step c) as [c1|c1|]; try done. apply IH.
Qed.

Lemma run_trapped n m c c' : run n c = Trapped c' → run (n + m) c = Trapped c'.
Proof.
  revert c. induction n as [|n IH]; intros c; simpl; [done|].
  destruct (step c) as [c1|c1|]; try done. apply IH.
Qed.

Lemma run_step n c c' : step c = Running c' → run (S n) c = run n c'.
Proof. intros H. simpl. by rewrite H. Qed.

(** One instruction, and one label, of a run. *)
Lemma run_ins n c i c1 r :
  code !! pc c = Some (Ins i) → exec i c = Running c1 → run n c1 = r → run (S n) c = r.
Proof. intros Hi He Hr. simpl. unfold step. by rewrite Hi, He. Qed.

Lemma run_label n c l r :
  code !! pc c = Some (CLabel l) → run n (mkCpu (rf c) (cf c) (S (pc c)) (ks c)) = r →
  run (S n) c = r.
Proof. intros Hi Hr. simpl. unfold step. by rewrite Hi. Qed.

(** The instructions that read memory. *)
Lemma exec_MovMem d b x disp c a v :
  as_u64 (rf c b + rf c x + disp) = a → load64 (k_mem (ks c)) a = Some v →
  exec (MovMem d b x disp) c = Running (mkCpu (set_reg d v (rf c)) (cf c) (S (pc c)) (ks c)).
Proof. intros <- Hv. cbn [exec]. unfold load_into. by rewrite Hv. Qed.

Lemma exec_AddMem d b x disp c a v :
  as_u64 (rf c b + rf c x + disp) = a → load64 (k_mem (ks c)) a = Some v →
  exec (AddMem d b x disp) c =
    Running (mkCpu (set_reg d (as_u64 (rf c d + v)) (rf c)) (2 ^ 64 <=? rf c d + v) (S (pc c)) (ks c)).
Proof. intros <- Hv. cbn [exec]. unfold load_into. by rewrite Hv. Qed.

Lemma exec_MovLabel d l c a v :
  data_addr base data l = Some a → load64 (k_mem (ks c)) a = Some v →
  exec (MovLabel d l) c = Running (mkCpu (set_reg d v (rf c)) (cf c) (S (pc c)) (ks c)).
Proof. intros Ha Hv. cbn [exec]. rewrite Ha. unfold load_into. by rewrite Hv. Qed.

Lemma exec_Lea d l c a :
  data_addr base data l = Some a →
  exec (Lea d l) c = Running (mkCpu (set_reg d a (rf c)) (cf c) (S (pc c)) (ks c)).
Proof. intros Ha. cbn [exec]. by rewrite Ha. Qed.

Lemma exec_Syscall c u r k :
  decode (rf c) (k_mem (ks c)) = Some u → kdo u (ks c) = (r, k) →
  exec Syscall c = Running (mkCpu (set_reg RAX r (rf c)) (cf c) (S (pc c)) k).
Proof. intros Hu Hk. cbn [exec]. by rewrite Hu, Hk. Qed.

Lemma exec_Push x c sp m :
  as_u64 (rf c RSP - 8) = sp → store64 (k_mem (ks c)) sp (rf c x) = Some m →
  exec (Push x) c =
    Running (mkCpu (set_reg RSP sp (rf c)) (cf c) (S (pc c)) (set_mem m (ks c))).
Proof. intros <- Hm. cbn [exec]. by rewrite Hm. Qed.

Lemma exec_Pop d c v sp :
  load64 (k_mem (ks c)) (rf c RSP) = Some v → as_u64 (rf c RSP + 8) = sp →
  exec (Pop d) c =
    Running (mkCpu (set_reg d v (set_reg RSP sp (rf c))) (cf c) (S (pc c)) (ks c)).
Proof. intros Hv <-. cbn [exec]. by rewrite Hv. Qed.

End program.
End machine.

(** Registers are looked up by computation. *)
Ltac reg_cbn := cbn [set_reg reg_eqb reg_index Nat.eqb rf cf pc ks].

Ltac reg_imm := repeat match goal with
  | |- context [uwrap 64 (Zpos ?z)] => change (uwrap 64 (Zpos z)) with (Zpos z)
  | |- context [uwrap 64 0] => change (uwrap 64 0) with 0
  end.

(** A step of a program whose instruction only computes, and steps that
    read memory or make a call, with the facts they need. *)
Ltac asm_step := eapply run_ins; [reflexivity|cbn [exec advance]; reflexivity|reg_cbn; reg_imm].
Ltac asm_label := eapply run_label; [reflexivity|reg_cbn].
Ltac asm_load addr H := eapply run_ins;
  [reflexivity|first [eapply exec_MovMem|eapply exec_AddMem]; [reg_cbn; addr|exact H]|reg_cbn].
Ltac asm_lea H := eapply run_ins; [reflexivity|eapply exec_Lea; exact H|reg_cbn].
Ltac asm_movl Hl H := eapply run_ins; [reflexivity|eapply exec_MovLabel; [exact Hl|exact H]|reg_cbn].
Ltac asm_push addr H := eapply run_ins; [reflexivity|eapply exec_Push; [reg_cbn; addr|exact H]|reg_cbn].
Ltac asm_pop H addr := eapply run_ins; [reflexivity|eapply exec_Pop; [exact H|reg_cbn; addr]|reg_cbn].
Ltac asm_call H := eapply run_ins;
  [reflexivity|eapply exec_Syscall; [first [reflexivity|idtac]|reg_cbn; exact H]|reg_cbn].

Lemma kdo_memory `{K : Kernel, KL : !KernelLaws K} c k r k' :
  kdo c k = (r, k') → maps_memory c = false → k_mem k' = k_mem k.
Proof.
  unfold kdo. destruct (ksys c (k_mem k) (k_world k)) as [[r0 m] w] eqn:Hk.
  intros [= _ <-] Hc. by apply (ksys_memory _ _ _ _ _ _ Hc Hk).
Qed.

(** ** Bytes *)

Lemma length_le_bytes n z : length (le_bytes n z) = n.
Proof. revert z. induction n as [|n IH]; intros z; simpl; [done|]. by rewrite IH. Qed.

Lemma le_value_bytes n z : 0 ≤ z < 2 ^ (8 * Z.of_nat n) → le_value (le_bytes n z) = z.
Proof.
  revert z. induction n as [|n IH]; intros z Hz.
  - change (2 ^ (8 * Z.of_nat 0)) with 1 in Hz. simpl. lia.
  - cbn [le_bytes le_value]. rewrite IH.
    + pose proof (Z.div_mod z 256). lia.
    + replace (8 * Z.of_nat (S n)) with (8 * Z.of_nat n + 8) in Hz by lia.
      rewrite Z.pow_add_r in Hz by lia. split; [apply Z.div_pos; lia|].
      apply Z.div_lt_upper_bound; lia.
Qed.

(** [bs] lies in memory at [a]. *)
Fixpoint bytes_at (m : memory) (a : Z) (bs : list Z) : Prop :=
  match bs with
  | [] => True
  | b :: bs => m !! a = Some b ∧ bytes_at m (a + 1) bs
  end.

Lemma bytes_at_app m a bs1 bs2 :
  bytes_at m a (bs1 ++ bs2) ↔ bytes_at m a bs1 ∧ bytes_at m (a + Z.of_nat (length bs1)) bs2.
Proof.
  revert a. induction bs1 as [|b bs1 IH]; intros a; simpl.
  - rewrite Z.add_0_r. tauto.
  - rewrite IH. replace (a + 1 + Z.of_nat (length bs1)) with (a + Z.of_nat (S (length bs1))) by lia.
    tauto.
Qed.

Lemma bytes_at_load m a bs : bytes_at m a bs → load_bytes (length bs) m a = Some bs.
Proof.
  revert a. induction bs as [|b bs IH]; intros a; simpl; [done|].
  intros [-> H]. by rewrite IH.
Qed.

Lemma bytes_at_load64 m a z :
  0 ≤ z < 2 ^ 64 → bytes_at m a (le_bytes 8 z) → load64 m a = Some z.
Proof.
  intros Hz H. unfold load64. apply bytes_at_load in H. rewrite length_le_bytes in H.
  rewrite H. simpl. f_equal. by apply (le_value_bytes 8).
Qed.

Lemma bytes_at_cstr m a bs n :
  Forall (λ b, b ≠ 0) bs → (length bs < n)%nat → bytes_at m a (bs ++ [0]) →
  load_cstr n m a = Some bs.
Proof.
  intros Hf. revert a n. induction Hf as [|b bs Hb Hf IH]; intros a [|n] Hl; simpl in *; try lia.
  - by intros [-> _].
  - intros [-> H]. apply Z.eqb_neq in Hb. rewrite Hb. rewrite IH; [done|lia|done].
Qed.

(** Bytes that two memories agree on. *)
Lemma bytes_at_agree m m' a bs :
  (∀ x b, a ≤ x < a + Z.of_nat (length bs) → m !! x = Some b → m' !! x = Some b) →
  bytes_at m a bs → bytes_at m' a bs.
Proof.
  revert a. induction bs as [|b bs IH]; intros a Hag; simpl; [done|].
  intros [Hb Hbs]. simpl in Hag. split; [apply Hag; [lia|done]|].
  apply IH; [|done]. intros. apply Hag; [lia|done].
Qed.

Lemma store_bytes_spec m a old bs :
  bytes_at m a old → length old = length bs →
  ∃ m', store_bytes m a bs = Some m' ∧ bytes_at m' a bs ∧
    ∀ x, ¬ (a ≤ x < a + Z.of_nat (length bs)) → m' !! x = m !! x.
Proof.
  revert m a old. induction bs as [|b bs IH]; intros m a [|o old] Hold Hl; simpl in *; try lia.
  - exists m. split_and!; done.
  - destruct Hold as [Ho Hold]. rewrite Ho.
    destruct (IH (<[a := b]> m) (a + 1) old) as (m' & Hs & Hat & Hfr); [|lia|].
    + apply (bytes_at_agree m); [|done]. intros x v Hx Hv. rewrite lookup_insert_ne; [done|lia].
    + exists m'. split_and!; [done| |done|].
      * rewrite Hfr by lia. by rewrite lookup_insert_eq.
      * intros x Hx. rewrite Hfr by lia. rewrite lookup_insert_ne; [done|lia].
Qed.

#[global] Arguments le_bytes : simpl never.
#[global] Arguments load_bytes : simpl never.
#[global] Arguments load_cstr : simpl never.
