(* ===== verification/External.v ===== *)
(** * The world outside the program

    Everything the program calls and does not contain is one interface,
    the class [Ext]: the system calls (nix, libc), the random generator
    (rand), the glob patterns (glob) and the slab allocator (slab). The
    model is parametric in an instance; what the program relies on of it
    are the laws of the classes [RandLaws] and [SlabLaws], which state the
    documented behaviour of those libraries. *)

From S2P Require Import Prelude Float Types.

#[local] Open Scope Z_scope.

(** ** System calls

    One constructor per call the program issues; [sys_ret] is what the
    call returns. nix wrappers return a [nix_result]; the raw libc calls
    return a code together with the [errno] of the calling thread and the
    bytes the kernel wrote to the caller's buffer. *)
Definition nix_result (A : Type) : Type := sum NixError A.

Record libc_ret := mkRet { rc : Z; thread_errno : Errno; written : list Z }.

(** [nix::sys::statfs::Statfs], the accessors the program calls. *)
Record Statfs := mkStatfs {
  f_blocks : Z; f_bfree : Z; f_bavail : Z; f_files : Z; f_ffree : Z;
  f_bsize : Z; f_namelen : Z
}.

(** [nix::dir::Entry], the accessors the program calls. *)
Record DirEntry := mkDirEntry {
  d_ino : Z; d_name : string; d_type : option DirType.t
}.

(** An entry added to a [fuser::ReplyDirectory]. *)
Record DirItem := mkDirItem {
  di_ino : Z; di_offset : Z; di_kind : FileType; di_name : string
}.

Inductive syscall :=
| SUmask (mode : Z)
| SLstat (path : string)
| SFchownat (path : string) (uid gid : option Z)
| SFchmodat (path : string) (mode : Z)
| STruncate (path : string) (len : Z)
| SUtimensat (path : string) (atime mtime : timespec)
| SReadlink (path : string)
| SMknod (path : string) (mode rdev : Z)
| SMkdir (path : string) (mode : Z)
| SUnlink (path : string)
| SRmdir (path : string)
| SSymlinkat (target path : string)
| SRenameat (old new : string)
| SLinkat (old new : string)
| SOpen (path : string) (flags mode : Z)
| SPread (fd count offset : Z)
| SPwrite (fd : Z) (data : list Z) (offset : Z)
| SFsync (fd : Z)
| SClose (fd : Z)
| SDirOpen (path : string) (flags mode : Z)
| SDirIter (dir : Z)
| SDirClose (dir : Z)
| SFileOpen (path : string)
| SSyncAll (fd : Z)
| SFileClose (fd : Z)
| SStatfs (path : string)
| SLsetxattr (path name : string) (data : list Z) (flags : Z)
| SLgetxattr (path name : string) (size : Z)
| SLlistxattr (path : string) (size : Z)
| SLremovexattr (path name : string)
| SAccess (path : string) (mask : Z)
| SLastErrno.

(** [SLastErrno] is the [errno] of the task's own thread, which
    [nix::Error::last()] reads when it is called outside a blocking closure.
    [std::fs] calls report an [io::Error], whose content the program drops:
    [None]. *)
Definition sys_ret (c : syscall) : Type :=
  match c with
  | SUmask _ => Z
  | SLstat _ => nix_result FileStat
  | SFchownat _ _ _ | SFchmodat _ _ | STruncate _ _ => nix_result unit
  | SUtimensat _ _ _ => libc_ret
  | SReadlink _ => nix_result string
  | SMknod _ _ _ => libc_ret
  | SMkdir _ _ | SUnlink _ => nix_result unit
  | SRmdir _ => libc_ret
  | SSymlinkat _ _ | SRenameat _ _ | SLinkat _ _ => nix_result unit
  | SOpen _ _ _ => nix_result Z
  | SPread _ _ _ | SPwrite _ _ _ => libc_ret
  | SFsync _ | SClose _ => nix_result unit
  | SDirOpen _ _ _ => nix_result Z
  | SDirIter _ => list (nix_result DirEntry)
  | SDirClose _ => unit
  | SFileOpen _ => option Z
  | SSyncAll _ => option unit
  | SFileClose _ => unit
  | SStatfs _ => nix_result Statfs
  | SLsetxattr _ _ _ _ | SLgetxattr _ _ _ | SLlistxattr _ _ | SLremovexattr _ _ => libc_ret
  | SAccess _ _ => nix_result unit
  | SLastErrno => Errno
  end.

(** [glob::MatchOptions] *)
Record MatchOptions := mkMatchOptions {
  case_sensitive : bool;
  require_literal_separator : bool;
  require_literal_leading_dot : bool
}.

(** ** The interface *)
Class Ext := {
  World : Type;
  (* the kernel *)
  kcall : ∀ c : syscall, World → sys_ret c * World;
  (* rand: [Rng::gen::<f64>], [Rng::gen_range], [Rng::fill] on [n] bytes *)
  gen_f64 : World → f64 * World;
  gen_range : Z → Z → World → Z * World;
  gen_bytes : nat → World → list Z * World;
  (* glob *)
  Pattern : Type;
  Pattern_new : string → option Pattern;
  matches_path_with : Pattern → string → MatchOptions → bool;
  (* [Errno::from_i32] *)
  errno_from_i32 : Z → Errno;
  (* nix bit flags: the masks [OFlag::all], [Mode::all], [AccessFlags::all] *)
  oflag_all : Z;
  mode_all : Z;
  access_all : Z;
  (* fuser: [ReplyDirectory::add] is full for an entry after those added *)
  dir_full : list DirItem → DirItem → bool;
  (* slab *)
  Slab : Type → Type;
  slab_new : ∀ A, Slab A;
  slab_insert : ∀ A, A → Slab A → Z * Slab A;
  slab_get : ∀ A, Z → Slab A → option A;
  slab_remove : ∀ A, Z → Slab A → option (A * Slab A);
}.
Arguments slab_new {_ A}.
Arguments slab_insert {_ A}.
Arguments slab_get {_ A}.
Arguments slab_remove {_ A}.

(** rand 0.7: [gen::<f64>()] is a multiple of 2^-53 in [0, 1);
    [gen_range(lo, hi)] is in [lo, hi) when [lo < hi] (it panics
    otherwise, which the callers' model writes out); [fill] writes one
    byte per position. *)
Class RandLaws (X : Ext) := {
  gen_f64_unit : ∀ w, ∃ k, 0 ≤ k < 2 ^ 53 ∧ (gen_f64 w).1 = unit_float k;
  gen_range_in : ∀ lo hi w, lo < hi → lo ≤ (gen_range lo hi w).1 < hi;
  gen_bytes_length : ∀ n w, length (gen_bytes n w).1 = n;
}.

(** slab: [insert] returns a vacant key, [get] and [remove] see exactly
    the inserted values; [remove] of a vacant key panics ([None]). *)
Class SlabLaws (X : Ext) := {
  slab_get_new : ∀ A k, slab_get k (slab_new (A:=A)) = None;
  slab_insert_fresh : ∀ A (x : A) s, slab_get (slab_insert x s).1 s = None;
  slab_insert_get : ∀ A (x : A) s k,
    slab_get k (slab_insert x s).2 =
      if bool_decide (k = (slab_insert x s).1) then Some x else slab_get k s;
  slab_insert_key : ∀ A (x : A) s, 0 ≤ (slab_insert x s).1;
  slab_remove_get : ∀ A k (s : Slab A),
    match slab_get k s with
    | None => slab_remove k s = None
    | Some x => ∃ s', slab_remove k s = Some (x, s') ∧
        ∀ k', slab_get k' s' = if bool_decide (k' = k) then None else slab_get k' s
    end;
}.

(** ** Errors of the other libraries

    [procfs::ProcError], of which the program tells [NotFound] from the
    rest, and [anyhow::Error], as far as the program builds it: a message,
    an error of nix or procfs, or an error of another library. *)
Inductive ProcError := NotFound | ProcOther (code : Z).

Inductive anyhow :=
| AMsg (msg : string)
| ANix (e : NixError)
| AProc (e : ProcError)
| AOther (code : Z).

(** retry 1.2: [retry(Fixed::from_millis(d).take(n), op)]. The operation
    is tried again after each delay, until it succeeds or the delays are
    used up; then the last error is returned. *)
Class Retry := {
  retry : ∀ {St E A}, M St E unit → nat → M St E A → M St E A;
  retry_last : ∀ St E A (sleep : M St E unit) (op : M St E A) s, retry sleep 0 op s = op s;
  retry_again : ∀ St E A (sleep : M St E unit) n (op : M St E A) s,
    retry sleep (S n) op s =
      match op s with
      | (Fail _, s') => (sleep ;;; retry sleep n op) s'
      | r => r
      end
}.

Lemma evolves_retry `{RT : Retry} {St E A} (R : St → St → Prop) `{!PreOrder R}
    (sleep : M St E unit) n (op : M St E A) :
  evolves R sleep → evolves R op → evolves R (retry sleep n op).
Proof.
  intros Hsl Hop. induction n as [|n IH]; intros s; [rewrite retry_last; apply Hop|].
  rewrite retry_again. specialize (Hop s). destruct (op s) as [[?|?|] s'] eqn:Ho; try done.
  transitivity s'; [exact Hop|]. apply (evolves_bind R); auto.
Qed.

(** ** The effect state of a program: the world and a trace

    The trace records what the program did to the outside, in order: the
    system calls, the delays and the lock operations. *)
Inductive lock := InodeMapLock | OpenedFilesLock | OpenedDirsLock | InjectorLock.

#[export] Instance lock_eq_dec : EqDecision lock.
Proof. solve_decision. Defined.

Inductive lock_mode := Shared | Exclusive.

#[export] Instance lock_mode_eq_dec : EqDecision lock_mode.
Proof. solve_decision. Defined.

Inductive event :=
| ECall (c : syscall)
| EDelay (nanos : Z)
| EAcquire (l : lock) (m : lock_mode)
| ERelease (l : lock).

Section io.
Context `{X : Ext}.

Record IO := mkIO { world : World; trace : list event }.

Definition log (e : event) (io : IO) : IO := mkIO (world io) (trace io ++ [e]).

Definition set_world (w : World) (io : IO) : IO := mkIO w (trace io).

Section ops.
Context {E : Type}.

Definition sys (c : syscall) : M IO E (sys_ret c) := λ io,
  let '(r, w) := kcall c (world io) in (Done r, log (ECall c) (set_world w io)).

Definition delay_for (nanos : Z) : M IO E unit := modify (log (EDelay nanos)).

Definition rng_gen : M IO E f64 := λ io,
  let '(p, w) := gen_f64 (world io) in (Done p, set_world w io).

(** [rng.gen_range(lo, hi)] asserts [lo < hi]. *)
Definition rng_gen_range (lo hi : Z) : M IO E Z := λ io,
  if lo <? hi then let '(z, w) := gen_range lo hi (world io) in (Done z, set_world w io)
  else (Panic, io).

Definition rng_fill (n : nat) : M IO E (list Z) := λ io,
  let '(bs, w) := gen_bytes n (world io) in (Done bs, set_world w io).

End ops.
End io.
Arguments IO X : clear implicits.
