(* ===== verification/Concrete.v ===== *)
(** * A concrete outside world

    An executable instance of [Ext] in which handlers can be run: a
    counter as the world and the random source, a kernel in which every
    call succeeds, glob patterns compared as strings, and a slab that is
    a vector of slots. It shows that the laws of [External] can hold. *)

From S2P Require Import Prelude Float Types External.

#[local] Open Scope Z_scope.

(** ** The slab: a vector of slots, a vacant one reused first *)
Section slots.
Context {A : Type}.

Abbreviation slots := (list (option A)).

Fixpoint slots_insert (x : A) (s : slots) : nat * slots :=
  match s with
  | [] => (O, [Some x])
  | None :: s' => (O, Some x :: s')
  | Some y :: s' => let '(k, s'') := slots_insert x s' in (S k, Some y :: s'')
  end.

Definition slots_get (k : Z) (s : slots) : option A :=
  if k <? 0 then None else mjoin (s !! Z.to_nat k).

Definition slots_remove (k : Z) (s : slots) : option (A * slots) :=
  x ← slots_get k s; Some (x, <[Z.to_nat k := None]> s).

Lemma slots_insert_fresh x s : mjoin (s !! (slots_insert x s).1) = None.
Proof.
  induction s as [|[y|] s IH]; simpl; [done| |done]. by destruct (slots_insert x s).
Qed.

Lemma slots_insert_lookup x s k :
  mjoin ((slots_insert x s).2 !! k) =
    if decide (k = (slots_insert x s).1) then Some x else mjoin (s !! k).
Proof.
  revert k. induction s as [|[y|] s IH]; intros [|k]; simpl; try done.
  - by destruct (slots_insert x s).
  - specialize (IH k). destruct (slots_insert x s) as [j s']. simpl in *. etrans; [apply IH|].
    by repeat case_decide; try lia.
Qed.

Lemma slots_get_nat k s : slots_get (Z.of_nat k) s = mjoin (s !! k).
Proof.
  unfold slots_get. rewrite Nat2Z.id. by destruct (Z.ltb_spec (Z.of_nat k) 0); [lia|].
Qed.

Lemma slots_insert_get x s k :
  slots_get k (slots_insert x s).2 =
    if bool_decide (k = Z.of_nat (slots_insert x s).1) then Some x else slots_get k s.
Proof.
  unfold slots_get. destruct (Z.ltb_spec k 0) as [Hk|Hk].
  - rewrite bool_decide_eq_false_2; [done|lia].
  - rewrite slots_insert_lookup. case_decide; case_bool_decide; done || lia.
Qed.

Lemma slots_remove_get k s :
  match slots_get k s with
  | None => slots_remove k s = None
  | Some x => ∃ s', slots_remove k s = Some (x, s') ∧
      ∀ k', slots_get k' s' = if bool_decide (k' = k) then None else slots_get k' s
  end.
Proof.
  unfold slots_remove. destruct (slots_get k s) as [x|] eqn:Hg; [|done].
  eexists. split; [done|]. intros k'. unfold slots_get in *.
  destruct (Z.ltb_spec k 0); [done|]. destruct (Z.ltb_spec k' 0).
  - by rewrite bool_decide_eq_false_2 by lia.
  - case_bool_decide.
    + subst. destruct (s !! Z.to_nat k) eqn:Hs; [|done].
      rewrite list_lookup_insert_eq; [done|]. by eapply lookup_lt_Some.
    + rewrite list_lookup_insert_ne by lia. done.
Qed.

End slots.

(** ** retry: the recursion its documentation describes *)
Fixpoint demo_retry {St E A} (sleep : M St E unit) (n : nat) (op : M St E A) : M St E A :=
  match n with
  | O => op
  | S n' => λ s,
      match op s with
      | (Fail _, s') => (sleep ;;; demo_retry sleep n' op) s'
      | r => r
      end
  end.

#[export] Instance DemoRetry : Retry.
Proof. by exists @demo_retry. Defined.

(** ** The kernel: every call succeeds

    A path's inode number is its length, its files hold the bytes 1, 2,
    3, a directory has one entry, and "/old" was last read in 1969. *)
Definition demo_stat (path : string) : FileStat :=
  mkStat (Z.of_nat (String.length path)) 3 1 (if String.eqb path "/old" then -1 else 10) 0 20 0
    30 0 33188 1 0 0 0 4096.

Definition demo_call (c : syscall) : sys_ret c :=
  match c with
  | SUmask _ => 18
  | SLstat path => inr (demo_stat path)
  | SFchownat _ _ _ | SFchmodat _ _ | STruncate _ _ => inr tt
  | SUtimensat _ _ _ => mkRet 0 0 []
  | SReadlink _ => inr "target"%string
  | SMknod _ _ _ => mkRet 0 0 []
  | SMkdir _ _ | SUnlink _ => inr tt
  | SRmdir _ => mkRet 0 0 []
  | SSymlinkat _ _ | SRenameat _ _ | SLinkat _ _ => inr tt
  | SOpen _ _ _ => inr 3
  | SPread _ count _ => mkRet (Z.min count 3) 0 (take (Z.to_nat count) [1; 2; 3])
  | SPwrite _ data _ => mkRet (Z.of_nat (length data)) 0 []
  | SFsync _ | SClose _ => inr tt
  | SDirOpen _ _ _ => inr 4
  | SDirIter _ => [inr (mkDirEntry 7 "f"%string (Some DirType.File))]
  | SDirClose _ => tt
  | SFileOpen _ => Some 5
  | SSyncAll _ => Some tt
  | SFileClose _ => tt
  | SStatfs _ => inr (mkStatfs 0 0 0 0 0 4096 255)
  | SLsetxattr _ _ _ _ => mkRet 0 0 []
  | SLgetxattr _ _ size => mkRet (Z.min size 3) 0 (take (Z.to_nat size) [1; 2; 3])
  | SLlistxattr _ size => mkRet (Z.min size 3) 0 (take (Z.to_nat size) [1; 2; 3])
  | SLremovexattr _ _ => mkRet 0 0 []
  | SAccess _ _ => inr tt
  | SLastErrno => 0
  end.

#[export] Instance Demo : Ext := {|
  World := Z;
  kcall c w := (demo_call c, w);
  gen_f64 w := (unit_float (w mod 2 ^ 53), w + 1);
  gen_range lo hi w := (lo + w mod (hi - lo), w + 1);
  gen_bytes n w := (replicate n (w mod 256), w + 1);
  Pattern := string;
  Pattern_new s := Some s;
  matches_path_with p path _ := String.eqb p path;
  errno_from_i32 z := z;
  oflag_all := 2 ^ 32 - 1;
  mode_all := 4095;
  access_all := 7;
  dir_full items _ := (10 <=? length items)%nat;
  Slab A := list (option A);
  slab_new _ := [];
  slab_insert _ x s := let '(k, s') := slots_insert x s in (Z.of_nat k, s');
  slab_get _ := slots_get;
  slab_remove _ := slots_remove
|}.

#[export] Instance Demo_rand : RandLaws Demo.
Proof.
  split.
  - intros w. exists (w mod 2 ^ 53). split; [|done]. apply Z.mod_pos_bound. lia.
  - intros lo hi w Hlt. simpl. pose proof (Z.mod_pos_bound w (hi - lo)). lia.
  - intros n w. simpl. apply length_replicate.
Qed.

#[export] Instance Demo_slab : SlabLaws Demo.
Proof.
  split.
  - intros A k. simpl. unfold slots_get. by destruct (k <? 0).
  - intros A x s. simpl. pose proof (slots_insert_fresh x s) as Hf.
    destruct (slots_insert x s) as [k s']. simpl in *. by rewrite slots_get_nat.
  - intros A x s k. simpl. pose proof (slots_insert_get x s k) as Hg.
    by destruct (slots_insert x s) as [j s'].
  - intros A x s. simpl. destruct (slots_insert x s). simpl. lia.
  - intros A k s. apply slots_remove_get.
Qed.
