(* ===== verification/Ptrace.v ===== *)
(** * Tracing other processes

    [src/ptrace/mod.rs]: [PtraceManager], which counts the handles on each
    traced process and attaches to and detaches from its threads, and
    [TracedProcess], which runs system calls and code in a stopped
    process. The calls to procfs, nix and the kernel are an interface,
    [PtraceExt]; the state is the outside, the calls made, and the counter
    of the thread-local manager.

    A loop that waits for the traced process to stop runs as long as the
    process does; the model bounds it by [patience] and reports [Waiting]
    when the bound is reached. No code runs after [Waiting]. *)

From Stdlib Require Import Ascii.
From S2P Require Import Prelude Path Float Types Asm External.

#[local] Open Scope Z_scope.

(** ** The calls *)

(** [nix::sys::wait::WaitStatus] *)
Inductive WaitStatus :=
| Exited (pid code : Z)
| Signaled (pid signal : Z) (core : bool)
| Stopped (pid signal : Z)
| PtraceEvent (pid signal event : Z)
| PtraceSyscall (pid : Z)
| Continued (pid : Z)
| StillAlive.

Definition SIGTRAP : Z := 5.

(** What [maps] reports of a mapping, and its file if it has one. *)
Record MemoryMap := mkMemoryMap {
  mm_start : Z; mm_end : Z; mm_perms : string; mm_offset : Z; mm_path : option string
}.

Inductive pcall :=
| PProcess (pid : Z) (* [Process::new] *)
| PTasks (pid : Z) (* [Process::tasks] *)
| PAttach (tid : Z)
| PWait (pid : Z) (wall : bool)
| PDetach (tid : Z)
| PGetregs (pid : Z)
| PSetregs (pid : Z) (r : regs)
| PRead (pid addr : Z)
| PWrite (pid addr word : Z)
| PStep (pid : Z)
| PCont (pid : Z)
| PVmWrite (pid addr : Z) (content : list Z) (* [process_vm_writev] *)
| PSleep (millis : Z)
| PAllProcesses
| PCmdline (pid : Z)
| PFd (pid : Z) (* the descriptors of a process, with the path of a file *)
| PMaps (pid : Z)
| PCwd (pid : Z).

(** [PProcess] is the state character of the process; a task or an entry
    that cannot be read is [None]. *)
Definition pcall_ret (c : pcall) : Type :=
  match c with
  | PProcess _ => (ProcError + ascii)%type
  | PTasks _ => (ProcError + list (option Z))%type
  | PAttach _ | PDetach _ | PSetregs _ _ | PWrite _ _ _ | PStep _ | PCont _ => nix_result unit
  | PWait _ _ => nix_result WaitStatus
  | PGetregs _ => nix_result regs
  | PRead _ _ | PVmWrite _ _ _ => nix_result Z
  | PSleep _ => unit
  | PAllProcesses => (ProcError + list Z)%type
  | PCmdline _ => (ProcError + list string)%type
  | PFd _ => (ProcError + list (Z * option string))%type
  | PMaps _ => (ProcError + list MemoryMap)%type
  | PCwd _ => (ProcError + string)%type
  end.

Class PtraceExt := {
  PWorld : Type;
  pcall_run : ∀ c : pcall, PWorld → pcall_ret c * PWorld;
  (* the model's bound on the waits for one stop *)
  patience : positive
}.

(** An error, or the process has not stopped yet. *)
Inductive perr := Err (e : anyhow) | Waiting.

Definition ESRCH : Errno := 3.
Definition EPERM : Errno := 1.

Section ptrace.
Context `{PX : PtraceExt, RT : Retry}.

(** [counter] is [PtraceManager::counter]. *)
Record PState := mkPState {
  p_world : PWorld;
  p_calls : list pcall;
  counter : gmap Z Z
}.

Abbreviation PM A := (M PState perr A).

Definition pcall_do (c : pcall) : PM (pcall_ret c) := λ s,
  let '(r, w) := pcall_run c (p_world s) in
  (Done r, mkPState w (p_calls s ++ [c]) (counter s)).

Definition set_counter (f : gmap Z Z → gmap Z Z) (s : PState) : PState :=
  mkPState (p_world s) (p_calls s) (f (counter s)).

(** [?] and [.unwrap()] on the result of a call. *)
Definition ok_nix {A} (r : nix_result A) : outcome perr A :=
  match r with inl e => Fail (Err (ANix e)) | inr a => Done a end.

Definition ok_proc {A} (r : ProcError + A) : outcome perr A :=
  match r with inl e => Fail (Err (AProc e)) | inr a => Done a end.

Definition unwrap_nix {A} (r : nix_result A) : outcome perr A :=
  match r with inl _ => Panic | inr a => Done a end.

Definition nix_do {A} (c : pcall) (f : pcall_ret c → nix_result A) : PM A :=
  r <- pcall_do c ;; lift (ok_nix (f r)).

(** [if let Ok(x)], [.ok()], [match]: the error of [m] becomes [None]. *)
Definition try_err {A} (m : PM A) : PM (option A) := λ s,
  match m s with
  | (Done a, s') => (Done (Some a), s')
  | (Fail (Err _), s') => (Done None, s')
  | (Fail Waiting, s') => (Fail Waiting, s')
  | (Panic, s') => (Panic, s')
  end.

(** ** PtraceManager *)

Definition thread_is_gone (state : ascii) : bool :=
  Ascii.eqb state "Z" || Ascii.eqb state "x" || Ascii.eqb state "X".

(** [Ok] also when there is no such thread (any more). *)
Definition attach_result (state : ascii) (r : nix_result unit) : outcome perr unit :=
  match r with
  | inl (NixSys errno) =>
      if (errno =? ESRCH) || ((errno =? EPERM) && thread_is_gone state) then Done tt
      else Fail (Err (ANix (NixSys errno)))
  | inl err => Fail (Err (ANix err))
  | inr _ => Done tt
  end.

Definition attach_task (tid : Z) : PM unit :=
  r <- pcall_do (PProcess tid) ;;
  state <- lift (ok_proc r) ;;
  r <- pcall_do (PAttach tid) ;;
  lift (attach_result state r) ;;;
  _ <- pcall_do (PWait tid true) ;;
  ret tt.

(** One pass over the threads: those traced now, and whether one is new.
    Thread ids are 32-bit integers. *)
Fixpoint attach_tasks (tasks : list (option Z)) (traced_tasks : gset Z) (new_threads_found : bool)
    : PM (gset Z * bool) :=
  match tasks with
  | [] => ret (traced_tasks, new_threads_found)
  | None :: tasks => attach_tasks tasks traced_tasks new_threads_found
  | Some task :: tasks =>
      let tid := as_i32 task in
      if decide (tid ∈ traced_tasks) then attach_tasks tasks traced_tasks new_threads_found
      else
        r <- try_err (attach_task tid) ;;
        match r with
        | Some _ => attach_tasks tasks ({[tid]} ∪ traced_tasks) true
        | None => attach_tasks tasks traced_tasks new_threads_found
        end
  end.

(** One round of [while iterations > 0]. *)
Definition trace_round (pid : Z) (st : Z * gset Z) : PM ((Z * gset Z) + unit) :=
  let '(iterations, traced_tasks) := st in
  if 0 <? iterations then
    r <- pcall_do (PProcess pid) ;; lift (ok_proc r) ;;;
    r <- pcall_do (PTasks pid) ;; tasks <- lift (ok_proc r) ;;
    p <- attach_tasks tasks traced_tasks false ;;
    let '(traced_tasks, new_threads_found) := p in
    ret (inl (if new_threads_found then iterations else iterations - 1, traced_tasks))
  else ret (inr tt).

(** There are 2^32 thread ids, so a round finds a new thread at most that
    often; two more rounds find none, and one leaves the loop. *)
Definition trace_rounds : positive := 4294967299.

Definition trace_loop (pid : Z) : PM unit :=
  r <- loop_upto trace_rounds (trace_round pid) (2, ∅) ;;
  match r with inr _ => ret tt | inl _ => panic end.

(** [PtraceManager::trace]; a [TracedProcess] is the process id. *)
Definition trace (pid : Z) : PM Z :=
  c <- gets (λ s, counter s !! pid) ;;
  match c with
  | Some count => modify (set_counter <[pid := as_i32 (count + 1)]>) ;;; ret pid
  | None =>
      trace_loop pid ;;;
      modify (set_counter <[pid := 1]>) ;;; ret pid
  end.

(** The loop of [detach] over the threads: no error is reported. *)
Definition detach_tasks (tasks : list (option Z)) : PM unit :=
  for_each (λ task,
    match task with
    | Some tid => _ <- pcall_do (PDetach (as_i32 tid)) ;; ret tt
    | None => ret tt
    end) tasks.

(** One attempt: [OperationResult::Ok] and [OperationResult::Retry]. *)
Definition detach_attempt (pid : Z) : PM unit :=
  r <- pcall_do (PProcess pid) ;;
  match r with
  | inl NotFound => ret tt
  | inl err => fail (Err (AProc err))
  | inr _ =>
      r <- pcall_do (PTasks pid) ;;
      match r with
      | inl err => fail (Err (AProc err))
      | inr tasks => detach_tasks tasks
      end
  end.

(** [PtraceManager::detach] *)
Definition detach (pid : Z) : PM unit :=
  c <- gets (λ s, counter s !! pid) ;;
  match c with
  | Some count =>
      let count := as_i32 (count - 1) in
      modify (set_counter <[pid := count]>) ;;;
      if count <? 1 then
        modify (set_counter (delete pid)) ;;;
        retry (pcall_do (PSleep 500)) 20 (detach_attempt pid)
      else ret tt
  | None => fail (Err (AMsg "haven't traced this process"))
  end.

(** [Clone] and [Drop] of [TracedProcess]: cloning unwraps, dropping only
    logs an error. *)
Definition clone_process (pid : Z) : PM Z := λ s,
  match trace pid s with
  | (Fail (Err _), s') => (Panic, s')
  | r => r
  end.

Definition drop_process (pid : Z) : PM unit := try_err (detach pid) ;;; ret tt.

(** ** TracedProcess *)

Record ThreadGuard := mkThreadGuard { tid : Z; g_regs : regs; rip_ins : Z }.

Definition protect (pid : Z) : PM ThreadGuard :=
  regs <- nix_do (PGetregs pid) (λ r, r) ;;
  let rip := regs RIP in
  rip_ins <- nix_do (PRead pid rip) (λ r, r) ;;
  ret {| tid := pid; g_regs := regs; rip_ins := rip_ins |}.

(** [Drop] of [ThreadGuard] *)
Definition drop_guard (g : ThreadGuard) : PM unit :=
  r <- pcall_do (PWrite (tid g) (g_regs g RIP) (rip_ins g)) ;; lift (unwrap_nix r) ;;;
  r <- pcall_do (PSetregs (tid g) (g_regs g)) ;; lift (unwrap_nix r).

(** The guard is dropped on every way out of [f]. *)
Definition with_protect {A} (pid : Z) (f : PM A) : PM A :=
  guard <- protect pid ;;
  λ s, match f s with
       | (Fail Waiting, s') => (Fail Waiting, s')
       | (r, s') =>
           match drop_guard guard s' with
           | (Done _, s'') => (r, s'')
           | (_, s'') => (Panic, s'')
           end
       end.

(** The loop over the arguments of [syscall]. *)
Fixpoint set_args (index : nat) (args : list Z) (r : regs) : outcome perr regs :=
  match args with
  | [] => Done r
  | arg :: args =>
      match index with
      | 0 => set_args (S index) args (set_reg RDI arg r)
      | 1 => set_args (S index) args (set_reg RSI arg r)
      | 2 => set_args (S index) args (set_reg RDX arg r)
      | 3 => set_args (S index) args (set_reg R10 arg r)
      | 4 => set_args (S index) args (set_reg R8 arg r)
      | 5 => set_args (S index) args (set_reg R9 arg r)
      | _ => Fail (Err (AMsg "too many arguments for a syscall"))
      end%nat
  end.

Definition is_sigtrap_stop (status : WaitStatus) : bool :=
  match status with Stopped _ signal => signal =? SIGTRAP | _ => false end.

(** [loop { .. }] with the body's [break] as [inr]. *)
Definition wait_loop (body : PM (unit + unit)) : PM unit :=
  r <- loop_upto patience (λ _, body) tt ;;
  match r with inr _ => ret tt | inl _ => fail Waiting end.

(** [TracedProcess::syscall]; 0x050f is the instruction [syscall]. *)
Definition syscall (pid : Z) (id : Z) (args : list Z) : PM Z :=
  with_protect pid (
    r <- nix_do (PGetregs pid) (λ r, r) ;;
    let cur_ins_ptr := r RIP in
    r <- lift (set_args 0 args (set_reg RAX id r)) ;;
    nix_do (PSetregs pid r) (λ r, r) ;;;
    nix_do (PWrite pid cur_ins_ptr 0x050f) (λ r, r) ;;;
    nix_do (PStep pid) (λ r, r) ;;;
    wait_loop (
      status <- nix_do (PWait pid false) (λ r, r) ;;
      if is_sigtrap_stop status then ret (inr tt)
      else nix_do (PStep pid) (λ r, r) ;;; ret (inl tt)) ;;;
    r <- nix_do (PGetregs pid) (λ r, r) ;;
    ret (r RAX)).

(** PROT_READ | PROT_WRITE | PROT_EXEC and MAP_PRIVATE | MAP_ANON *)
Definition mmap (pid length fd : Z) : PM Z :=
  syscall pid 9 [0; length; Z.lor (Z.lor 1 2) 4; Z.lor 2 32; fd; 0].

Definition munmap (pid addr len : Z) : PM Z := syscall pid 11 [addr; len].

Definition with_mmap {A} (pid len : Z) (f : Z → PM A) : PM A :=
  addr <- mmap pid len 0 ;;
  r <- f addr ;;
  munmap pid addr len ;;;
  ret r.

Definition write_mem (pid addr : Z) (content : list Z) : PM unit :=
  nix_do (PVmWrite pid addr content) (λ r, r) ;;; ret tt.

Definition chdir (pid : Z) (filename : string) : PM unit :=
  (if contains_nul filename then fail (Err (AOther 0)) else ret tt) ;;;
  let path := bytes_of filename ++ [0] in
  with_mmap pid (Z.of_nat (length path)) (λ addr,
    write_mem pid addr path ;;;
    syscall pid 80 [addr] ;;;
    ret tt).

(** [codes] assembles the program for an address: where to start in it,
    and its bytes. *)
Definition run_codes (pid : Z) (codes : Z → outcome anyhow (Z * list Z)) : PM unit :=
  let codes a := match codes a with Done r => Done r | Fail e => Fail (Err e) | Panic => Panic end in
  r <- nix_do (PGetregs pid) (λ r, r) ;;
  ins <- lift (codes (r RIP)) ;;
  with_mmap pid (as_u64 (Z.of_nat (length ins.2) + 16)) (λ addr,
    with_protect pid (
      ins <- lift (codes addr) ;;
      write_mem pid addr ins.2 ;;;
      r <- nix_do (PGetregs pid) (λ r, r) ;;
      nix_do (PSetregs pid (set_reg RIP (as_u64 (addr + ins.1)) r)) (λ r, r) ;;;
      _ <- nix_do (PGetregs pid) (λ r, r) ;;
      wait_loop (
        nix_do (PCont pid) (λ r, r) ;;;
        status <- nix_do (PWait pid false) (λ r, r) ;;
        _ <- nix_do (PGetregs pid) (λ r, r) ;;
        ret (if is_sigtrap_stop status then inr tt else inl tt)))).

End ptrace.
