(* ===== verification/Filter.v ===== *)
(** * Method filters

    [src/injector/filter.rs] and the configuration it is built from
    ([FilterConfig] of [src/injector/injector_config.rs]). *)

From Stdlib Require Import Ascii.
From S2P Require Import Prelude Float Types External.

#[local] Open Scope Z_scope.

(** ** The [Method] bit flags *)
Module Method.
Definition LOOKUP : Z := 1.
Definition FORGET : Z := Z.shiftl 1 1.
Definition GETATTR : Z := Z.shiftl 1 2.
Definition SETATTR : Z := Z.shiftl 1 3.
Definition READLINK : Z := Z.shiftl 1 4.
Definition MKNOD : Z := Z.shiftl 1 5.
Definition MKDIR : Z := Z.shiftl 1 6.
Definition UNLINK : Z := Z.shiftl 1 7.
Definition RMDIR : Z := Z.shiftl 1 8.
Definition SYMLINK : Z := Z.shiftl 1 9.
Definition RENAME : Z := Z.shiftl 1 10.
Definition LINK : Z := Z.shiftl 1 11.
Definition OPEN : Z := Z.shiftl 1 12.
Definition READ : Z := Z.shiftl 1 13.
Definition WRITE : Z := Z.shiftl 1 14.
Definition FLUSH : Z := Z.shiftl 1 15.
Definition RELEASE : Z := Z.shiftl 1 16.
Definition FSYNC : Z := Z.shiftl 1 17.
Definition OPENDIR : Z := Z.shiftl 1 18.
Definition READDIR : Z := Z.shiftl 1 19.
Definition RELEASEDIR : Z := Z.shiftl 1 20.
Definition FSYNCDIR : Z := Z.shiftl 1 21.
Definition STATFS : Z := Z.shiftl 1 22.
Definition SETXATTR : Z := Z.shiftl 1 23.
Definition GETXATTR : Z := Z.shiftl 1 24.
Definition LISTXATTR : Z := Z.shiftl 1 25.
Definition REMOVEXATTR : Z := Z.shiftl 1 26.
Definition ACCESS : Z := Z.shiftl 1 27.
Definition CREATE : Z := Z.shiftl 1 28.
Definition GETLK : Z := Z.shiftl 1 29.
Definition SETLK : Z := Z.shiftl 1 30.
Definition BMAP : Z := Z.shiftl 1 31.

(** The declared flags, in source order, with the names [try_from]
    accepts. *)
Definition names : list (string * Z) :=
  [("lookup"%string, LOOKUP); ("forget"%string, FORGET); ("getattr"%string, GETATTR);
   ("setattr"%string, SETATTR); ("readlink"%string, READLINK); ("mknod"%string, MKNOD);
   ("mkdir"%string, MKDIR); ("unlink"%string, UNLINK); ("rmdir"%string, RMDIR);
   ("symlink"%string, SYMLINK); ("rename"%string, RENAME); ("link"%string, LINK);
   ("open"%string, OPEN); ("read"%string, READ); ("write"%string, WRITE);
   ("flush"%string, FLUSH); ("release"%string, RELEASE); ("fsync"%string, FSYNC);
   ("opendir"%string, OPENDIR); ("readdir"%string, READDIR);
   ("releasedir"%string, RELEASEDIR); ("fsyncdir"%string, FSYNCDIR);
   ("statfs"%string, STATFS); ("setxattr"%string, SETXATTR);
   ("getxattr"%string, GETXATTR); ("listxattr"%string, LISTXATTR);
   ("removexattr"%string, REMOVEXATTR); ("access"%string, ACCESS);
   ("create"%string, CREATE); ("getlk"%string, GETLK); ("setlk"%string, SETLK);
   ("bmap"%string, BMAP)].

Definition empty : Z := 0.

(** bitflags: [Method::all()] is the union of the declared flags. *)
Definition all : Z := foldr Z.lor empty names.*2.

End Method.

(** [str::to_lowercase], exact for the comparison with ASCII literals it
    is used in: ASCII letters are lowered, and so is the Kelvin sign
    (bytes E2 84 AA), the only other character whose lower case is an
    ASCII string. *)
Definition ascii_lower (c : ascii) : ascii :=
  let n := Z.of_N (N_of_ascii c) in
  if (65 <=? n) && (n <=? 90) then ascii_of_N (Z.to_N (n + 32)) else c.

Definition is_byte (n : Z) (c : ascii) : bool := Z.of_N (N_of_ascii c) =? n.

Fixpoint to_lowercase (s : string) : string :=
  match s with
  | EmptyString => EmptyString
  | String c1 s1 =>
      match s1 with
      | String c2 (String c3 s3) =>
          if is_byte 226 c1 && is_byte 132 c2 && is_byte 170 c3
          then String "k"%char (to_lowercase s3)
          else String (ascii_lower c1) (to_lowercase s1)
      | _ => String (ascii_lower c1) (to_lowercase s1)
      end
  end.

Fixpoint assoc_string (s : string) (l : list (string * Z)) : option Z :=
  match l with
  | [] => None
  | (name, m) :: l' => if String.eqb s name then Some m else assoc_string s l'
  end.

(** [impl TryFrom<&str> for Method]; the error is dropped by the caller. *)
Definition method_try_from (s : string) : option Z := assoc_string (to_lowercase s) Method.names.

(** ** Filters *)

Record FilterConfig := mkFilterConfig {
  fc_path : option string;
  fc_methods : option (list string);
  fc_percent : Z
}.

Section filter.
Context `{X : Ext}.

Record Filter := mkFilter {
  path_filter : option Pattern;
  methods : Z;
  probability : f64
}.

Definition build_methods (names : option (list string)) : Z :=
  match names with
  | Some (n :: names) =>
      fold_left Z.lor (omap method_try_from (n :: names)) Method.empty
  | _ => Method.all
  end.

Definition build_path_filter (path : option string) : option Pattern :=
  match path with
  | Some path => if String.eqb path "" then None else Pattern_new path
  | None => None
  end.

(** [Filter::build]; it never fails. *)
Definition filter_build {E} (conf : FilterConfig) : outcome E Filter :=
  Done {| path_filter := build_path_filter (fc_path conf);
          methods := build_methods (fc_methods conf);
          probability := f64_div (f64_of_int (fc_percent conf)) (f64_of_int 100) |}.

Definition match_options : MatchOptions :=
  {| case_sensitive := true;
     require_literal_separator := true;
     require_literal_leading_dot := false |}.

Definition match_path (f : Filter) (path : string) : bool :=
  match path_filter f with
  | Some pat => matches_path_with pat path match_options
  | None => true
  end.

Definition match_method (f : Filter) (method : Z) : bool :=
  negb (Z.land (methods f) method =? 0).

(** [Filter::filter]: the draw comes first, whatever the other tests. *)
Definition filter {E} (f : Filter) (method : Z) (path : string) : M (IO X) E bool :=
  p <- rng_gen ;;
  ret (match_path f path && match_method f method && f64_ltb p (probability f)).

End filter.
Arguments Filter X : clear implicits.

(** ** Lemmas: methods *)

Lemma land_pow2 x i : 0 ≤ i → (Z.land x (2 ^ i) =? 0) = negb (Z.testbit x i).
Proof.
  intros Hi. destruct (Z.testbit x i) eqn:Hb; simpl.
  - apply Z.eqb_neq. intros H0. apply (f_equal (λ z, Z.testbit z i)) in H0.
    rewrite Z.land_spec, Hb, Z.pow2_bits_true, Z.bits_0 in H0 by done. done.
  - apply Z.eqb_eq, Z.bits_inj'. intros n Hn.
    rewrite Z.land_spec, Z.bits_0. destruct (decide (n = i)) as [->|Hne].
    + by rewrite Hb.
    + rewrite Z.pow2_bits_false by done. by rewrite andb_false_r.
Qed.

Lemma testbit_fold_lor l a i :
  Z.testbit (fold_left Z.lor l a) i = Z.testbit a i || existsb (λ x, Z.testbit x i) l.
Proof.
  revert a. induction l as [|x l IH]; intros a; simpl; [by rewrite orb_false_r|].
  by rewrite IH, Z.lor_spec, orb_assoc.
Qed.

(** Every declared flag is one bit of a [u32]. *)
Lemma flag_pow2 fl : fl ∈ Method.names.*2 → fl = 2 ^ Z.log2 fl ∧ 0 ≤ Z.log2 fl < 32.
Proof.
  revert fl. apply Forall_forall. repeat (constructor; [split; [reflexivity|vm_compute; split; done]|]). constructor.
Qed.

Lemma assoc_string_elem s l m : assoc_string s l = Some m → m ∈ l.*2.
Proof.
  induction l as [|[name m'] l IH]; simpl; [done|].
  destruct (String.eqb s name); [intros [= ->]; left|right; auto].
Qed.

Lemma method_try_from_flag s m : method_try_from s = Some m → m ∈ Method.names.*2.
Proof. apply assoc_string_elem. Qed.

Lemma testbit_flag fl fl' :
  fl ∈ Method.names.*2 → fl' ∈ Method.names.*2 →
  Z.testbit fl' (Z.log2 fl) = bool_decide (fl' = fl).
Proof.
  intros [H1 B1]%flag_pow2 [H2 B2]%flag_pow2. rewrite H2 at 1.
  case_bool_decide as Heq.
  - subst fl'. apply Z.pow2_bits_true. lia.
  - apply Z.pow2_bits_false. intros He. apply Heq. rewrite H1, H2. by rewrite He.
Qed.

(** ** Lemmas: the random test *)

Section filter_lemmas.
Context `{X : Ext, !RandLaws X}.

(** One run of a filter draws once and keeps everything else. *)
Lemma filter_run {E} (f : Filter X) method path io :
  ∃ k w, 0 ≤ k < 2 ^ 53 ∧
    filter (E:=E) f method path io =
      (Done (match_path f path && match_method f method &&
             f64_ltb (unit_float k) (probability f)),
       set_world w io).
Proof.
  destruct (gen_f64_unit (world io)) as (k & Hk & Hg).
  exists k, (gen_f64 (world io)).2. split; [done|].
  unfold filter, bind, rng_gen. destruct (gen_f64 (world io)) as [p w]; simpl in *. by subst.
Qed.

End filter_lemmas.

(** The probability of a percentage. *)
Definition percent_probability (percent : Z) : f64 :=
  f64_div (f64_of_int percent) (f64_of_int 100).

(** Probabilities grow with the percentage: the 100 steps computed. *)
Lemma percent_probability_step :
  Forall (λ n, SpecFloat.SFleb (percent_probability (Z.of_nat n))
                               (percent_probability (Z.of_nat n + 1)) = true) (seq 0 100).
Proof. by repeat (constructor; [vm_compute; reflexivity|]). Qed.

Lemma percent_probability_mono k a b :
  0 ≤ a ≤ b → b ≤ 100 →
  f64_ltb k (percent_probability a) = true → f64_ltb k (percent_probability b) = true.
Proof.
  intros Hab Hb Hk. destruct Hab as [Ha Hab].
  revert Hb. pattern b. apply (Zlt_lower_bound_ind _ a); [|done]. clear b Hab.
  intros b IH Hab Hb. destruct (decide (b = a)) as [->|Hne]; [done|].
  specialize (IH (b - 1) ltac:(lia) ltac:(lia)).
  eapply Float.SFltb_SFleb_trans; [apply IH|].
  pose proof percent_probability_step as HF. rewrite Forall_forall in HF.
  specialize (HF (Z.to_nat (b - 1))). rewrite Z2Nat.id in HF by lia.
  replace (b - 1 + 1) with b in HF by lia. apply HF.
  apply elem_of_seq. lia.
Qed.
