(* ===== verification/Injectors.v ===== *)
(** * Injectors

    The [Injector] trait of [src/injector/mod.rs], its four
    implementations and [MultiInjector], with the configuration types of
    [src/injector/injector_config.rs]. A [&mut] argument of the trait is
    an argument and a result of the model. *)

From S2P Require Import Prelude Float Types External Filter.

#[local] Open Scope Z_scope.

(** ** injector_config.rs *)

Record LatencyConfig := mkLatencyConfig {
  lc_filter : FilterConfig;
  lc_latency : Z (* nanoseconds *)
}.

Record FaultConfig := mkFaultConfig { fault_errno : Z; fault_weight : Z }.

Record FaultsConfig := mkFaultsConfig {
  fsc_filter : FilterConfig;
  fsc_faults : list FaultConfig
}.

Module ConfigFileType.
Inductive t :=
| NamedPipe | CharDevice | BlockDevice | Directory | RegularFile | Symlink | Socket.
End ConfigFileType.

Record AttrOverrideConfig := mkAttrOverrideConfig {
  ac_path : string;
  ac_percent : Z;
  ac_ino : option Z; ac_size : option Z; ac_blocks : option Z;
  ac_atime : option SystemTime; ac_mtime : option SystemTime; ac_ctime : option SystemTime;
  ac_kind : option ConfigFileType.t;
  ac_perm : option Z; ac_nlink : option Z; ac_uid : option Z; ac_gid : option Z;
  ac_rdev : option Z
}.

Inductive MistakeType := Zero | Random.

Record MistakeConfig := mkMistakeConfig {
  filling : MistakeType;
  max_length : Z;
  max_occurrences : Z
}.

Record MistakesConfig := mkMistakesConfig {
  mc_mistake : MistakeConfig;
  mc_filter : FilterConfig
}.

Inductive InjectorConfig :=
| CLatency (c : LatencyConfig)
| CFault (c : FaultsConfig)
| CAttrOverride (c : AttrOverrideConfig)
| CMistake (c : MistakesConfig).

Definition AnyhowError : Type := string.

(** Chaining of pure fallible steps ([?]). *)
Definition obind {E A B} (o : outcome E A) (k : A → outcome E B) : outcome E B :=
  match o with
  | Done a => k a
  | Fail e => Fail e
  | Panic => Panic
  end.

Section injectors.
Context `{X : Ext}.

Abbreviation Inj A := (M (IO X) HookFsError A).

(** ** fault_injector.rs *)

Record FaultInjector := mkFaultInjector {
  fi_filter : Filter X;
  errnos : list (Errno * Z);
  sum : Z
}.

(** [for (err, p) in errnos { attempt -= p; if attempt < 0 { return Err } }],
    in [i32]. *)
Fixpoint fault_loop (attempt : Z) (errnos : list (Errno * Z)) : option Errno :=
  match errnos with
  | [] => None
  | (err, p) :: errnos' =>
      let attempt := as_i32 (attempt - p) in
      if attempt <? 0 then Some err else fault_loop attempt errnos'
  end.

Definition fault_inject (self : FaultInjector) (method : Z) (path : string) : Inj unit :=
  hit <- filter (fi_filter self) method path ;;
  if hit : bool then
    attempt <- rng_gen ;;
    match fault_loop (f64_to_i32 (f64_mul attempt (f64_of_int (sum self)))) (errnos self) with
    | Some err => fail (Sys err)
    | None => ret tt
    end
  else ret tt.

Definition fault_build (conf : FaultsConfig) : outcome AnyhowError FaultInjector :=
  let errnos := map (λ item, (errno_from_i32 (fault_errno item), fault_weight item))
                    (fsc_faults conf) in
  let sum := fold_left (λ acc w, as_i32 (acc + w.2)) errnos 0 in
  obind (filter_build (fsc_filter conf)) (λ filter,
  Done {| fi_filter := filter; errnos := errnos; sum := sum |}).

(** ** latency_injector.rs *)

Record LatencyInjector := mkLatencyInjector { latency : Z; li_filter : Filter X }.

Definition latency_inject (self : LatencyInjector) (method : Z) (path : string) : Inj unit :=
  hit <- filter (li_filter self) method path ;;
  if hit : bool then delay_for (latency self) else ret tt.

Definition latency_build (conf : LatencyConfig) : outcome AnyhowError LatencyInjector :=
  obind (filter_build (lc_filter conf)) (λ filter,
  Done {| latency := lc_latency conf; li_filter := filter |}).

(** ** attr_override_injector.rs *)

Record AttrOverrideInjector := mkAttrOverrideInjector {
  ai_filter : Filter X;
  o_ino : option Z; o_size : option Z; o_blocks : option Z;
  o_atime : option SystemTime; o_mtime : option SystemTime; o_ctime : option SystemTime;
  o_kind : option FileType;
  o_perm : option Z; o_nlink : option Z; o_uid : option Z; o_gid : option Z;
  o_rdev : option Z
}.

(** The assignments of [inject_attr]; [if let Some(x) = self.f { attr.f = x }]
    is [default (f attr) (o_f self)]. *)
Definition override_attr (self : AttrOverrideInjector) (attr : FileAttr) : FileAttr :=
  {| ino := default (ino attr) (o_ino self);
     size := default (size attr) (o_size self);
     blocks := default (blocks attr) (o_blocks self);
     atime := default (atime attr) (o_atime self);
     mtime := default (mtime attr) (o_mtime self);
     ctime := default (ctime attr) (o_ctime self);
     crtime := crtime attr;
     kind := default (kind attr) (o_kind self);
     perm := default (perm attr) (o_perm self);
     nlink := default (nlink attr) (o_nlink self);
     uid := default (uid attr) (o_uid self);
     gid := default (gid attr) (o_gid self);
     rdev := default (rdev attr) (o_rdev self);
     blksize := blksize attr;
     padding := padding attr;
     attr_flags := attr_flags attr |}.

Definition attr_inject_attr (self : AttrOverrideInjector) (attr : FileAttr) (path : string)
    : Inj FileAttr :=
  hit <- filter (ai_filter self) Method.LOOKUP path ;;
  if hit : bool then ret (override_attr self attr) else ret attr.

Definition convert_config_kind (item : ConfigFileType.t) : FileType :=
  match item with
  | ConfigFileType.Directory => Directory
  | ConfigFileType.NamedPipe => NamedPipe
  | ConfigFileType.RegularFile => RegularFile
  | ConfigFileType.Socket => Socket
  | ConfigFileType.Symlink => Symlink
  | ConfigFileType.CharDevice => CharDevice
  | ConfigFileType.BlockDevice => BlockDevice
  end.

Definition attr_build (conf : AttrOverrideConfig) : outcome AnyhowError AttrOverrideInjector :=
  obind (filter_build {| fc_path := Some (ac_path conf); fc_methods := None;
                         fc_percent := ac_percent conf |}) (λ filter,
  Done {| ai_filter := filter;
          o_ino := ac_ino conf; o_size := ac_size conf; o_blocks := ac_blocks conf;
          o_atime := ac_atime conf; o_mtime := ac_mtime conf; o_ctime := ac_ctime conf;
          o_kind := convert_config_kind <$> ac_kind conf;
          o_perm := ac_perm conf; o_nlink := ac_nlink conf; o_uid := ac_uid conf;
          o_gid := ac_gid conf; o_rdev := ac_rdev conf |}).

(** ** mistake_injector.rs *)

Record MistakeInjector := mkMistakeInjector {
  mistake : MistakeConfig;
  mi_filter : Filter X
}.

(** [for i in pos..pos + n { data[i] = 0; }]; the index is checked. *)
Fixpoint zero_loop (n : nat) (pos : Z) (data : list Z) : outcome HookFsError (list Z) :=
  match n with
  | O => Done data
  | S n' =>
      if pos <? Z.of_nat (length data)
      then zero_loop n' (pos + 1) (<[Z.to_nat pos := 0]> data)
      else Panic
  end.

(** [rng.fill(&mut data[pos..pos + length])]; the slice is checked. *)
Definition fill_slice (pos length : Z) (data : list Z) : Inj (list Z) :=
  if pos + length <=? Z.of_nat (List.length data) then
    bytes <- rng_fill (Z.to_nat length) ;;
    ret (take (Z.to_nat pos) data ++ bytes ++ drop (Z.to_nat (pos + length)) data)
  else panic.

(** One iteration of the loop of [handle]. *)
Definition sabotage (mistake : MistakeConfig) (data : list Z) : Inj (list Z) :=
  let data_length := Z.of_nat (length data) in
  pos <- rng_gen_range 0 (Z.max data_length 1) ;;
  length <- (let l := Z.min (max_length mistake) (as_u64 (data_length - pos)) in
             if l =? 0 then ret 0 else rng_gen_range 1 (as_u64 (l + 1))) ;;
  match filling mistake with
  | Zero => lift (zero_loop (Z.to_nat length) pos data)
  | Random => fill_slice pos length data
  end.

Fixpoint sabotage_loop (n : nat) (mistake : MistakeConfig) (data : list Z) : Inj (list Z) :=
  match n with
  | O => ret data
  | S n' => data' <- sabotage mistake data ;; sabotage_loop n' mistake data'
  end.

Definition handle (self : MistakeInjector) (data : list Z) : Inj (list Z) :=
  let mo := max_occurrences (mistake self) in
  occurrence <- (if mo =? 0 then ret 0 else rng_gen_range 1 (as_u64 (mo + 1))) ;;
  sabotage_loop (Z.to_nat occurrence) (mistake self) data.

Definition mistake_inject_reply (self : MistakeInjector) (method : Z) (path : string)
    (reply : Reply) : Inj Reply :=
  hit <- filter (mi_filter self) method path ;;
  if hit : bool then
    match reply with
    | RData data => d <- handle self (data_data data) ;; ret (RData (mkData d))
    | _ => ret reply
    end
  else ret reply.

Definition mistake_inject_write_data (self : MistakeInjector) (path : string) (data : list Z)
    : Inj (list Z) :=
  hit <- filter (mi_filter self) Method.WRITE path ;;
  if hit : bool then handle self data else ret data.

Definition mistake_build (conf : MistakesConfig) : outcome AnyhowError MistakeInjector :=
  obind (filter_build (mc_filter conf)) (λ filter,
  Done {| mistake := mc_mistake conf; mi_filter := filter |}).

(** ** mod.rs: the trait, by dynamic dispatch *)

Inductive Injector :=
| IFault (i : FaultInjector)
| ILatency (i : LatencyInjector)
| IAttrOverride (i : AttrOverrideInjector)
| IMistake (i : MistakeInjector).

(** [inject] of an implementor; the attribute and mistake injectors
    return [Ok(())]. *)
Definition inject_one (i : Injector) (method : Z) (path : string) : Inj unit :=
  match i with
  | IFault i => fault_inject i method path
  | ILatency i => latency_inject i method path
  | IAttrOverride _ => ret tt
  | IMistake _ => ret tt
  end.

(** The default methods of the trait keep their argument. *)
Definition inject_reply_one (i : Injector) (method : Z) (path : string) (reply : Reply)
    : Inj Reply :=
  match i with
  | IMistake i => mistake_inject_reply i method path reply
  | _ => ret reply
  end.

Definition inject_write_data_one (i : Injector) (path : string) (data : list Z)
    : Inj (list Z) :=
  match i with
  | IMistake i => mistake_inject_write_data i path data
  | _ => ret data
  end.

Definition inject_attr_one (i : Injector) (attr : FileAttr) (path : string) : Inj FileAttr :=
  match i with
  | IAttrOverride i => attr_inject_attr i attr path
  | _ => ret attr
  end.

(** ** multi_injector.rs *)

Definition MultiInjector : Type := list Injector.

Definition build_one (conf : InjectorConfig) : outcome AnyhowError Injector :=
  match conf with
  | CFault faults => obind (fault_build faults) (λ i, Done (IFault i))
  | CLatency latency => obind (latency_build latency) (λ i, Done (ILatency i))
  | CAttrOverride attr => obind (attr_build attr) (λ i, Done (IAttrOverride i))
  | CMistake mistakes => obind (mistake_build mistakes) (λ i, Done (IMistake i))
  end.

Fixpoint multi_build (conf : list InjectorConfig) : outcome AnyhowError MultiInjector :=
  match conf with
  | [] => Done []
  | c :: conf' => obind (build_one c) (λ i, obind (multi_build conf') (λ rest, Done (i :: rest)))
  end.

Definition multi_inject (self : MultiInjector) (method : Z) (path : string) : Inj unit :=
  for_each (λ i, inject_one i method path) self.

Fixpoint multi_inject_reply (self : MultiInjector) (method : Z) (path : string) (reply : Reply)
    : Inj Reply :=
  match self with
  | [] => ret reply
  | i :: self' =>
      reply' <- inject_reply_one i method path reply ;;
      multi_inject_reply self' method path reply'
  end.

Fixpoint multi_inject_attr (self : MultiInjector) (attr : FileAttr) (path : string)
    : Inj FileAttr :=
  match self with
  | [] => ret attr
  | i :: self' =>
      attr' <- inject_attr_one i attr path ;;
      multi_inject_attr self' attr' path
  end.

Fixpoint multi_inject_write_data (self : MultiInjector) (path : string) (data : list Z)
    : Inj (list Z) :=
  match self with
  | [] => ret data
  | i :: self' =>
      data' <- inject_write_data_one i path data ;;
      multi_inject_write_data self' path data'
  end.

End injectors.
Arguments FaultInjector X : clear implicits.
Arguments LatencyInjector X : clear implicits.
Arguments AttrOverrideInjector X : clear implicits.
Arguments MistakeInjector X : clear implicits.
Arguments Injector X : clear implicits.
Arguments MultiInjector X : clear implicits.
