(* ===== verification/InodeMap.v ===== *)
(** * Inode map and file-handle maps

    [Node], [InodeMap], [FhMap], [Dir] and [File] of
    [src/hookfs/mod.rs]. *)

From S2P Require Import Prelude Path Types External.

#[local] Open Scope Z_scope.

(** ** Node *)

Record Node := mkNode { ref_count : Z; paths : list string }.

Definition node_default : Node := mkNode 0 [].

Definition node_get_path (self : Node) : option string := last (paths self).

(** [paths] is searched with [PartialEq for Path]. *)
Definition node_insert (self : Node) (path : string) : Node :=
  if existsb (λ p, path_eqb p path) (paths self) then self
  else mkNode (ref_count self) (paths self ++ [path]).

Definition node_remove (self : Node) (path : string) : Node :=
  mkNode (ref_count self) (List.filter (λ x, negb (path_eqb x path)) (paths self)).

(** ** InodeMap *)

Abbreviation InodeMap := (gmap Z Node).

Definition inode_get_path (self : InodeMap) (inode : Z) : outcome HookFsError string :=
  match self !! inode ≫= node_get_path with
  | Some path => Done path
  | None => Fail (InodeNotFound inode)
  end.

Definition increase_ref (self : InodeMap) (inode : Z) : InodeMap :=
  match self !! inode with
  | Some node => <[inode := mkNode (as_u64 (ref_count node + 1)) (paths node)]> self
  | None => self
  end.

Definition decrease_ref (self : InodeMap) (inode nlookup : Z) : InodeMap :=
  match self !! inode with
  | Some node => if ref_count node <=? nlookup then delete inode self else self
  | None => self
  end.

Definition insert_path (self : InodeMap) (inode : Z) (path : string) : InodeMap :=
  <[inode := node_insert (default node_default (self !! inode)) path]> self.

Definition remove_path (self : InodeMap) (inode : Z) (path : string) : InodeMap :=
  match self !! inode with
  | Some set => <[inode := node_remove set path]> self
  | None => self
  end.

(** ** FhMap, Dir, File *)

Record Dir := mkDir { dir_dir : Z; dir_original_path : string }.

Record File := mkFile { file_fd : Z; file_original_path : string }.

Section fhmap.
Context `{X : Ext}.

Definition fh_get {A} (self : Slab A) (key : Z) : outcome HookFsError A :=
  match slab_get key self with
  | Some x => Done x
  | None => Fail (FhNotFound key)
  end.

End fhmap.
