(* ===== verification/Mount.v ===== *)
(** * Mount points and the path of the mirrored tree

    [encode_path] of [src/utils.rs], [MountInjector::create_injection] of
    [src/mount_injector.rs] and [MountsInfo::non_root] of [src/mount.rs]:
    where the original tree is moved to, and whether a path can be
    injected at all. *)

From Stdlib Require Import Ascii.
From S2P Require Import Prelude Path Float Types External Filter Injectors.

#[local] Open Scope Z_scope.
#[local] Open Scope string_scope.

(** ** UTF-8 ([OsStr::to_str]) *)

Definition byte_in (lo hi : Z) (c : ascii) : bool :=
  (lo <=? Z.of_N (N_of_ascii c))%Z && (Z.of_N (N_of_ascii c) <=? hi)%Z.

(** A continuation byte, and the second byte after a lead that narrows
    it (no overlong forms, no surrogates, at most U+10FFFF). *)
Definition is_cont (c : ascii) : bool := byte_in 128 191 c.

Definition second_of_three (a b : ascii) : bool :=
  if byte_in 224 224 a then byte_in 160 191 b
  else if byte_in 237 237 a then byte_in 128 159 b
  else is_cont b.

Definition second_of_four (a b : ascii) : bool :=
  if byte_in 240 240 a then byte_in 144 191 b
  else if byte_in 244 244 a then byte_in 128 143 b
  else is_cont b.

Fixpoint is_utf8 (s : string) : bool :=
  match s with
  | EmptyString => true
  | String a s1 =>
      if byte_in 0 127 a then is_utf8 s1
      else if byte_in 194 223 a then
        match s1 with String b s2 => is_cont b && is_utf8 s2 | _ => false end
      else if byte_in 224 239 a then
        match s1 with
        | String b (String c s3) => second_of_three a b && is_cont c && is_utf8 s3
        | _ => false
        end
      else if byte_in 240 244 a then
        match s1 with
        | String b (String c (String d s4)) =>
            second_of_four a b && is_cont c && is_cont d && is_utf8 s4
        | _ => false
        end
      else false
  end.

(** ** utils.rs *)

(** [format!("__chaosfs__{}__", original_filename)] *)
Definition chaosfs_name (original_filename : string) : string :=
  "__chaosfs__" ++ original_filename ++ "__".

Definition encode_path (original_path : string) : outcome AnyhowError (string * string) :=
  match pop original_path with
  | (_, false) => Fail "path is the root"
  | (base_path, true) =>
      match file_name original_path with
      | None => Fail "the path terminates in `..` or `/`"
      | Some original_filename =>
          if is_utf8 original_filename
          then Done (original_path, join base_path (chaosfs_name original_filename))
          else Fail "path with non-UTF-8 character"
      end
  end.

(** ** mount_injector.rs *)

Record MountInjector := mkMountInjector {
  mj_original_path : string;
  mj_new_path : string;
  mj_injector_config : list InjectorConfig
}.

Definition create_injection (path : string) (injector_config : list InjectorConfig)
    : outcome AnyhowError MountInjector :=
  match pop path with
  | (_, false) => Fail "path is the root"
  | (base_path, true) =>
      match file_name path with
      | None => Fail "the path terminates in `..` or `/`"
      | Some original_filename =>
          if is_utf8 original_filename
          then Done {| mj_original_path := path;
                       mj_new_path := join base_path (chaosfs_name original_filename);
                       mj_injector_config := injector_config |}
          else Fail "path with non-UTF-8 character"
      end
  end.

(** ** mount.rs *)

(** [MountsInfo], of which the program reads the mount points. *)
Record MountsInfo := mkMountsInfo { mounts : list string }.

Fixpoint non_root_loop (path : string) (mount_points : list string) : bool :=
  match mount_points with
  | [] => false
  | mount_point :: rest =>
      if starts_with path mount_point then true else non_root_loop path rest
  end.

Definition non_root (self : MountsInfo) (path : string) : bool := non_root_loop path (mounts self).

(** ** Properties *)

Lemma no_slash_app a b : no_slash (a ++ b) = no_slash a && no_slash b.
Proof.
  induction a as [|c a IH]; [done|].
  change (String c a ++ b) with (String c (a ++ b)). cbn [no_slash]. by rewrite IH, andb_assoc.
Qed.

Lemma length_app_string a b : String.length (a ++ b) = (String.length a + String.length b)%nat.
Proof.
  induction a as [|c a IH]; [done|].
  change (String c a ++ b) with (String c (a ++ b)). simpl. by rewrite IH.
Qed.

Lemma chaosfs_name_plain n : no_slash n = true → plain_name (chaosfs_name n) = true.
Proof.
  intros Hn. unfold plain_name, chaosfs_name. rewrite !no_slash_app, Hn. reflexivity.
Qed.

Lemma chaosfs_name_neq n : chaosfs_name n ≠ n.
Proof.
  intros H. apply (f_equal String.length) in H. unfold chaosfs_name in H.
  rewrite !length_app_string in H. simpl in H. lia.
Qed.

(** The parent of an absolute path that ends in a name. *)
Lemma parent_of_name p n :
  has_root p = true → file_name p = Some n →
  no_slash n = true ∧
  ∃ q, parent p = Some q ∧ components p = (components q ++ [Normal n])%list.
Proof.
  intros Hr Hf. destruct p as [|c body]; [done|]. simpl in Hr.
  apply Ascii.eqb_eq in Hr as ->.
  assert (∀ t, components (String slash t) = RootDir :: omap seg_component (split_slash t)) as Hc.
  { intros t. unfold components, start_component, body_segs, start_of.
    replace (has_root (String slash t)) with true by reflexivity. reflexivity. }
  unfold file_name in Hf. unfold parent. rewrite Hc in Hf |- *.
  set (C := omap seg_component (split_slash body)) in *.
  assert (∃ rest, rev C = Normal n :: rest ∧ rev (RootDir :: C) = Normal n :: (rest ++ [RootDir])%list)
    as (rest & HC & HC').
  { simpl in Hf |- *. destruct (rev C) as [|x rest] eqn:HrC; simpl in Hf; [done|].
    destruct x; try done. injection Hf as ->. eauto. }
  rewrite HC'. change (start_of (String slash body)) with (String slash "", body).
  pose proof (omap_trim_left (rev (split_slash body))) as Ht.
  rewrite omap_rev_list in Ht. fold C in Ht. rewrite HC in Ht.
  pose proof (trim_left_forall (λ seg, no_slash seg = true) (rev (split_slash body))
    (Forall_rev (split_slash_segs body))) as HF.
  destruct (trim_left (rev (split_slash body))) as [|sg segs] eqn:Hl; [done|].
  pose proof (trim_left_head _ _ _ Hl) as Hskip. csimpl in Ht.
  destruct (seg_component sg) as [x|] eqn:Hsg; [|unfold is_skip in Hskip; by rewrite Hsg in Hskip].
  injection Ht as -> Hrest.
  assert (sg = n) as ->.
  { unfold seg_component in Hsg. repeat case_match; simplify_eq; done. }
  apply Forall_cons in HF as [Hn HF]. split; [done|].
  set (l := rev (trim_left segs)).
  exists (String slash (join_slash l)). split; [by rewrite Hl|]. rewrite Hc.
  assert (omap seg_component (split_slash (join_slash l)) = omap seg_component l) as ->.
  { destruct (decide (l = [])) as [->|Hne]; [done|]. rewrite split_join_slash; [done|done|].
    by apply Forall_rev, trim_left_forall. }
  unfold l. rewrite omap_rev_list, omap_trim_left, Hrest. simpl. f_equal.
  rewrite <- (rev_involutive C), HC. done.
Qed.

(** Siblings with different names do not contain each other. *)
Lemma sibling_disjoint p q dir a b :
  components p = (dir ++ [Normal a])%list → components q = (dir ++ [Normal b])%list → a ≠ b →
  starts_with p q = false.
Proof.
  intros Hp Hq Hab. apply not_true_iff_false. intros [rest Hr]%starts_with_app.
  rewrite Hp, Hq, <- app_assoc in Hr. apply app_inv_head in Hr. by simplify_list_eq.
Qed.

(** C32: where the original tree goes. For an absolute path that ends in
    a UTF-8 name the new path is its sibling [__chaosfs__<name>__]: it has
    the same parent, and neither path lies inside the other. Any other
    absolute path is refused. [encode_path], which recovery uses, and
    [create_injection], which mounts, do the same on the same path (the
    program gives them the same path only where canonicalizing changes
    nothing). *)
Theorem encode_path_spec path conf :
  has_root path = true →
  match file_name path with
  | Some n =>
      if is_utf8 n then
        ∃ new dir, encode_path path = Done (path, new) ∧
          create_injection path conf = Done (mkMountInjector path new conf) ∧
          components path = (dir ++ [Normal n])%list ∧
          components new = (dir ++ [Normal (chaosfs_name n)])%list ∧
          starts_with new path = false ∧ starts_with path new = false
      else ∃ e, encode_path path = Fail e ∧ create_injection path conf = Fail e
  | None => ∃ e, encode_path path = Fail e ∧ create_injection path conf = Fail e
  end.
Proof.
  intros Hr. unfold encode_path, create_injection, pop.
  destruct (file_name path) as [n|] eqn:Hf; [|destruct (parent path); by eexists].
  destruct (parent_of_name path n Hr Hf) as (Hn & q & -> & Hc).
  destruct (is_utf8 n); [|by eexists].
  assert (components (join q (chaosfs_name n)) = (components q ++ [Normal (chaosfs_name n)])%list)
    as Hnew by (by apply components_join_name, chaosfs_name_plain).
  exists (join q (chaosfs_name n)), (components q).
  split_and!; [done|done|done|done| |]; eapply sibling_disjoint; try done.
  - apply chaosfs_name_neq.
  - intros E. by apply (chaosfs_name_neq n).
Qed.

(** Which paths can be injected: those that lie, component by
    component, under some mount point. In particular every absolute path
    can, on any system where the root is mounted, so the refusal of
    injections on a root mount never happens there. *)
Theorem non_root_spec (info : MountsInfo) path :
  (non_root info path = true ↔
     ∃ m rest, m ∈ mounts info ∧ components path = (components m ++ rest)%list) ∧
  ("/" ∈ mounts info → has_root path = true → non_root info path = true).
Proof.
  assert (non_root info path = true ↔
    ∃ m rest, m ∈ mounts info ∧ components path = (components m ++ rest)%list) as Hiff.
  { unfold non_root. induction (mounts info) as [|m l IH]; simpl.
    - split; [done|]. intros (m & rest & Hm & _). by apply elem_of_nil in Hm.
    - destruct (starts_with path m) eqn:Hs.
      + split; [|done]. intros _. apply starts_with_app in Hs as [rest Hc].
        exists m, rest. split; [left|done].
      + rewrite IH. split; intros (m' & rest & Hm & Hc).
        * exists m', rest. split; [by right|done].
        * apply elem_of_cons in Hm as [->|Hm]; [|by exists m', rest].
          apply not_true_iff_false in Hs. destruct Hs. apply starts_with_app. eauto. }
  split; [done|]. intros Hin Hr. apply Hiff. exists "/".
  destruct path as [|c body]; [done|]. unfold components at 1, start_component. rewrite Hr.
  by eexists.
Qed.

Lemma encode_path_spec_witness :
  ∃ new dir, encode_path "/var/lib/data" = Done ("/var/lib/data", new) ∧
    components new = (dir ++ [Normal "__chaosfs__data__"])%list ∧
    starts_with new "/var/lib/data" = false.
Proof.
  destruct (encode_path_spec "/var/lib/data" [] eq_refl) as (new & dir & He & _ & _ & Hc & Hs & _).
  exists new, dir. split; [exact He|]. split; assumption.
Defined.
