(* ===== verification/Replacer.v ===== *)
(** * The replacers

    [src/replacer/]: while the file system is mounted or taken down, the
    processes that use the tree are moved over. [FdReplacer] reopens their
    descriptors, [MmapReplacer] their mappings and [CwdReplacer] their
    working directory; [UnionReplacer] runs the three. Preparing traces
    the processes and collects what is to be replaced in tables; running
    injects the tables and the code that works through them.

    The iterators of [prepare] are lazy, so the handles of one process
    are cloned and dropped while its entries are read; the model performs
    the same calls in the same order, one process after the other (the
    processes of procfs are distinct). *)

From Stdlib Require Import Ascii.
From S2P Require Import Prelude Path Float Types Asm External Ptrace Mount.

#[local] Open Scope string_scope.
#[local] Open Scope Z_scope.
#[local] Open Scope list_scope.

(** dynasmrt's assembler on data and code placed at an address, and the
    order in which std's [HashMap] iterates. *)
Class ReplacerExt := {
  assemble : Z → list datum → list item → outcome anyhow (list Z);
  map_order : ∀ A, gmap Z A → list (Z * A)
}.
Arguments map_order {_ A}.

(** The data comes first in the output, as it is written; an iteration
    visits every entry once. *)
Class ReplacerLaws (RX : ReplacerExt) := {
  assemble_data : ∀ base data code ins,
    assemble base data code = Done ins → ∃ enc, ins = data_bytes data ++ enc;
  map_order_perm : ∀ A (m : gmap Z A), map_order m ≡ₚ map_to_list m
}.

(** ** Paths *)

(** The path of an entry below [detect_path], moved below [new_path]. *)
Definition rebase (detect_path new_path path : string) : option string :=
  if starts_with path detect_path then join new_path <$> strip_prefix path detect_path else None.

(** ** Tables *)

(** [std::io::Cursor<Vec<u8>>] *)
Record Cursor := mkCursor { position : Z; buffer : list Z }.

Definition cursor_new : Cursor := mkCursor 0 [].

(** [write_all] overwrites from the position on, padding with zeros. *)
Definition cursor_write_all (c : Cursor) (bs : list Z) : Cursor :=
  let p := Z.to_nat (position c) in
  mkCursor (position c + Z.of_nat (length bs))
    (take p (buffer c ++ replicate (p - length (buffer c)) 0) ++ bs ++
     drop (p + length bs) (buffer c)).

(** [set_position(0)] and [read_to_end] *)
Definition cursor_read_all (c : Cursor) : list Z := drop (Z.to_nat 0) (buffer c).

(** [ProcessAccessorBuilder] of both files. *)
Record Builder (C : Type) := mkBuilder { b_cases : list C; b_paths : Cursor }.
Arguments mkBuilder {C}.
Arguments b_cases {C}.
Arguments b_paths {C}.

Definition builder_new {C} : Builder C := mkBuilder [] cursor_new.

(** [push_case]: the path goes to the end of [new_paths], the case holds
    its offset there. *)
Definition push_case {C} (self : Builder C) (raw : Z → C) (new_path : string)
    : outcome anyhow (Builder C) :=
  if is_utf8 new_path then
    let new_path := bytes_of new_path ++ [0] in
    let offset := position (b_paths self) in
    Done (mkBuilder (b_cases self ++ [raw offset]) (cursor_write_all (b_paths self) new_path))
  else Fail (AMsg "fd contains non-UTF-8 character").

(** [FromIterator]: a case that cannot be pushed is logged and left out. *)
Fixpoint push_all {C} (self : Builder C) (cases : list ((Z → C) * string)) : Builder C :=
  match cases with
  | [] => self
  | (raw, path) :: cases =>
      match push_case self raw path with
      | Done self' => push_all self' cases
      | _ => push_all self cases
      end
  end.

Definition from_iter {C} (cases : list ((Z → C) * string)) : Builder C := push_all builder_new cases.

(** [ProcessAccessor] and [build] *)
Record ProcessAccessor (C : Type) := mkAccessor {
  process : Z; cases : list C; new_paths : Cursor
}.
Arguments mkAccessor {C}.
Arguments process {C}.
Arguments cases {C}.
Arguments new_paths {C}.

Definition build {C} (self : Builder C) (process : Z) : ProcessAccessor C :=
  mkAccessor process (b_cases self) (b_paths self).

(** The data both programs start with; [cases.len()] is in bytes. *)
Definition replacer_data (cases new_paths : list Z) : list datum :=
  [DLabel Lcases; DBytes cases;
   DLabel Lcases_length; DQword (Z.of_nat (length cases));
   DLabel Lnew_paths; DBytes new_paths;
   DNop; DNop].

(** ** fd_replacer.rs: the table and the code *)
Module Fd.

Record ReplaceCase := mkCase { fd : Z; new_path_offset : Z }.

(** [#[repr(packed)] #[repr(C)]] *)
Definition raw (c : ReplaceCase) : list Z := le_bytes 8 (fd c) ++ le_bytes 8 (new_path_offset c).

Definition code : list item :=
  [ Ins (Xor R15 R15);
    Ins (Lea R14 Lcases);
    Ins (Jmp Lend);
    CLabel Lstart;
    (* fcntl *)
    Ins (MovImm RAX 0x48);
    Ins (MovMem RDI R14 R15 0);
    Ins (MovImm RSI 0x3);
    Ins (MovImm RDX 0x0);
    Ins Syscall;
    Ins (MovReg RSI RAX);
    (* open *)
    Ins (MovImm RAX 0x2);
    Ins (Lea RDI Lnew_paths);
    Ins (AddMem RDI R14 R15 8);
    Ins (MovImm RDX 0x0);
    Ins Syscall;
    Ins (MovReg R12 RAX);
    (* lseek *)
    Ins (MovImm RAX 0x8);
    Ins (MovMem RDI R14 R15 0);
    Ins (MovImm RSI 0);
    Ins (MovImm RDX 1);
    Ins Syscall;
    Ins (MovReg RDI R12);
    Ins (MovReg RSI RAX);
    (* lseek *)
    Ins (MovImm RAX 0x8);
    Ins (MovImm RDX 0);
    Ins Syscall;
    (* dup2 *)
    Ins (MovImm RAX 0x21);
    Ins (MovReg RDI R12);
    Ins (MovMem RSI R14 R15 0);
    Ins Syscall;
    (* close *)
    Ins (MovImm RAX 0x3);
    Ins (MovReg RDI R12);
    Ins Syscall;
    Ins (AddImm R15 16);
    CLabel Lend;
    Ins (MovLabel R13 Lcases_length);
    Ins (Cmp R15 R13);
    Ins (Jb Lstart);
    Ins Int3 ].

(** The entries of [process.fd()] to be replaced; descriptors are [u32]. *)
Definition select (detect_path new_path : string) (entry : Z * option string)
    : option ((Z → ReplaceCase) * string) :=
  match entry.2 with
  | Some path => pair (mkCase (as_u64 entry.1)) <$> rebase detect_path new_path path
  | None => None
  end.

End Fd.

(** ** mmap_replacer.rs: the table and the code *)
Module Mmap.

Record RawReplaceCase := mkCase {
  memory_addr : Z; length : Z; prot : Z; flags : Z; new_path_offset : Z; offset : Z
}.

Definition raw (c : RawReplaceCase) : list Z :=
  le_bytes 8 (memory_addr c) ++ le_bytes 8 (length c) ++ le_bytes 8 (prot c) ++
  le_bytes 8 (flags c) ++ le_bytes 8 (new_path_offset c) ++ le_bytes 8 (offset c).

Definition code : list item :=
  [ Ins (Xor R15 R15);
    Ins (Lea R14 Lcases);
    Ins (Jmp Lend);
    CLabel Lstart;
    (* munmap *)
    Ins (MovImm RAX 0x0B);
    Ins (MovMem RDI R14 R15 0);
    Ins (MovMem RSI R14 R15 8);
    Ins (MovImm RDX 0x0);
    Ins Syscall;
    (* open *)
    Ins (MovImm RAX 0x2);
    Ins (Lea RDI Lnew_paths);
    Ins (AddImm R15 (8 * 4));
    Ins (AddMem RDI R14 R15 0);
    Ins (SubImm R15 (8 * 4));
    Ins (MovImm RSI 2);
    Ins (MovImm RDX 0x0);
    Ins Syscall;
    Ins (Push RAX);
    Ins (MovReg R8 RAX);
    (* mmap *)
    Ins (MovImm RAX 0x9);
    Ins (AddImm R15 8);
    Ins (MovMem RSI R14 R15 0);
    Ins (AddImm R15 8);
    Ins (MovMem RDX R14 R15 0);
    Ins (AddImm R15 8);
    Ins (MovMem R10 R14 R15 0);
    Ins (AddImm R15 16);
    Ins (MovMem R9 R14 R15 0);
    Ins Syscall;
    Ins (SubImm R15 (8 * 5));
    (* close *)
    Ins (MovImm RAX 0x3);
    Ins (Pop RDI);
    Ins Syscall;
    Ins (AddImm R15 48);
    CLabel Lend;
    Ins (MovLabel R13 Lcases_length);
    Ins (Cmp R15 R13);
    Ins (Jb Lstart);
    Ins Int3 ].

(** The protection and the sharing of a mapping, from its permissions as
    procfs writes them; the bytes are indexed. *)
Definition get_prot_and_flags_from_perms {E} (perms : string) : outcome E (Z * Z) :=
  match bytes_of perms with
  | b0 :: b1 :: b2 :: b3 :: _ =>
      let prot := if b0 =? 114 then Z.lor 0 1 else 0 in
      let prot := if b1 =? 119 then Z.lor prot 2 else prot in
      let prot := if b2 =? 120 then Z.lor prot 4 else prot in
      let flags := if b3 =? 115 then 1 else 2 in
      Done (prot, flags)
  | _ => Panic
  end.

(** The entries of [process.maps()]: of those with a file the handle is
    cloned before it is known whether they are below the path. *)
Definition select {E} (detect_path new_path : string) (entry : MemoryMap)
    : option (outcome E (option ((Z → RawReplaceCase) * string))) :=
  match mm_path entry with
  | Some path => Some
      match get_prot_and_flags_from_perms (mm_perms entry) with
      | Done (prot, flags) =>
          Done ((λ path,
            (λ new_path_offset, mkCase (mm_start entry) (as_u64 (mm_end entry - mm_start entry))
               prot flags new_path_offset (mm_offset entry), path))
            <$> rebase detect_path new_path path)
      | Fail e => Fail e
      | Panic => Panic
      end
  | None => None
  end.

End Mmap.

(** ** Preparing and running *)
Section replacer.
Context `{PX : PtraceExt, RT : Retry, RX : ReplacerExt}.
Abbreviation PM A := (M PState perr A).

(** utils.rs: the processes whose command line does not name toda. *)
Definition contains_toda (stat : string) : bool :=
  match String.index 0 "toda" stat with Some _ => true | None => false end.

Definition is_candidate (pid : Z) : PM bool :=
  r <- pcall_do (PCmdline pid) ;;
  ret (match r with
       | inr cmdline => negb (existsb contains_toda cmdline)
       | inl _ => true
       end).

(** [all_processes()?] and the loop over its iterator. *)
Fixpoint over_processes {A} (f : Z → A → PM A) (pids : list Z) (acc : A) : PM A :=
  match pids with
  | [] => ret acc
  | pid :: pids =>
      keep <- is_candidate pid ;;
      acc <- (if keep : bool then f pid acc else ret acc) ;;
      over_processes f pids acc
  end.

Definition all_processes {A} (f : Z → A → PM A) (acc : A) : PM A :=
  r <- pcall_do PAllProcesses ;; pids <- lift (ok_proc r) ;; over_processes f pids acc.

(** The entries of one process, from the clone of the handle to the
    group that collects the cases: an entry is given with a clone, and
    the clone is dropped when the entry is filtered out, or when it is
    collected. The first entry of a group makes the group's handle. *)
Fixpoint collect_group {C} (pid : Z) (entries : list (outcome perr (option C)))
    (group : option (option Z)) (collected : list C) : PM (option (option Z) * list C) :=
  match entries with
  | [] => ret (group, collected)
  | entry :: entries =>
      entry <- lift entry ;;
      clone_process pid ;;;
      match entry with
      | None => drop_process pid ;;; collect_group pid entries group collected
      | Some case =>
          group <- match group with
                   | Some group => ret group
                   | None => try_err (trace pid)
                   end ;;
          drop_process pid ;;;
          collect_group pid entries (Some group) (collected ++ [case])
      end
  end.

(** One process of [prepare]: its entries are read by [entries]. *)
Definition prepare_process {R C} (read : pcall) (result : pcall_ret read → ProcError + R)
    (entries : R → list (outcome perr (option ((Z → C) * string)))) (pid : Z)
    (processes : gmap Z (ProcessAccessor C)) : PM (gmap Z (ProcessAccessor C)) :=
  traced_process <- try_err (trace pid) ;;
  match traced_process with
  | None => ret processes
  | Some _ =>
      r <- pcall_do read ;;
      match result r with
      | inl _ => drop_process pid ;;; ret processes
      | inr r =>
          g <- collect_group pid (entries r) None [] ;;
          drop_process pid ;;;
          ret (match g with
               | (Some (Some process), collected) =>
                   <[pid := build (from_iter collected) process]> processes
               | _ => processes
               end)
      end
  end.

Definition fd_prepare (detect_path new_path : string) : PM (gmap Z (ProcessAccessor Fd.ReplaceCase)) :=
  all_processes (λ pid,
    prepare_process (PFd pid) (λ r, r)
      (λ fds, (λ case, Done (Some case)) <$> omap (Fd.select detect_path new_path) fds) pid) ∅.

Definition mmap_prepare (detect_path new_path : string)
    : PM (gmap Z (ProcessAccessor Mmap.RawReplaceCase)) :=
  all_processes (λ pid,
    prepare_process (PMaps pid) (λ r, r) (λ maps, omap (Mmap.select detect_path new_path) maps) pid) ∅.

(** [CwdReplacer] keeps the handles of the processes that work below the
    path, and the one path they are moved to. *)
Record CwdReplacer := mkCwd { processes : list Z; cwd_new_path : string }.

Definition cwd_prepare (detect_path new_path : string) : PM CwdReplacer :=
  processes <- all_processes (λ pid processes,
    r <- pcall_do (PCwd pid) ;;
    match r with
    | inl _ => ret processes
    | inr cwd =>
        if starts_with cwd detect_path then
          process <- try_err (trace pid) ;;
          ret (match process with Some process => processes ++ [process] | None => processes end)
        else ret processes
    end) [] ;;
  ret (mkCwd processes new_path).

(** The closure of [ProcessAccessor::run]. *)
Definition codes_of (code : list item) (cases new_paths : list Z) (addr : Z)
    : outcome anyhow (Z * list Z) :=
  let data := replacer_data cases new_paths in
  match assemble addr data code with
  | Done instructions => Done (Z.of_nat (length (data_bytes data)), instructions)
  | Fail e => Fail e
  | Panic => Panic
  end.

(** [ProcessAccessor::run] *)
Definition accessor_run {C} (raw : C → list Z) (code : list item) (self : ProcessAccessor C) : PM unit :=
  run_codes (process self)
    (codes_of code (concat (raw <$> cases self)) (cursor_read_all (new_paths self))).

(** ** mod.rs: [Box<dyn Replacer>] and [UnionReplacer] *)
Inductive Replacer :=
| FdReplacer (processes : gmap Z (ProcessAccessor Fd.ReplaceCase))
| CwdReplacer_ (r : CwdReplacer)
| MmapReplacer (processes : gmap Z (ProcessAccessor Mmap.RawReplaceCase)).

Definition replacer_run (r : Replacer) : PM unit :=
  match r with
  | FdReplacer ps => for_each (λ p, accessor_run Fd.raw Fd.code p.2) (map_order ps)
  | CwdReplacer_ r => for_each (λ process, chdir process (cwd_new_path r)) (processes r)
  | MmapReplacer ps => for_each (λ p, accessor_run Mmap.raw Mmap.code p.2) (map_order ps)
  end.

(** Dropping a replacer drops its handles. *)
Definition replacer_drop (r : Replacer) : PM unit :=
  match r with
  | FdReplacer ps => for_each (λ p, drop_process (process p.2)) (map_order ps)
  | CwdReplacer_ r => for_each drop_process (processes r)
  | MmapReplacer ps => for_each (λ p, drop_process (process p.2)) (map_order ps)
  end.

(** [UnionReplacer::prepare] on a new replacer: an error is logged. *)
Definition union_prepare (detect_path new_path : string) : PM (list Replacer) :=
  r <- try_err (fd_prepare detect_path new_path) ;;
  let replacers := match r with Some ps => [FdReplacer ps] | None => [] end in
  r <- try_err (cwd_prepare detect_path new_path) ;;
  let replacers := match r with Some c => replacers ++ [CwdReplacer_ c] | None => replacers end in
  r <- try_err (mmap_prepare detect_path new_path) ;;
  ret (match r with Some ps => replacers ++ [MmapReplacer ps] | None => replacers end).

Definition union_run (replacers : list Replacer) : PM unit := for_each replacer_run replacers.

Definition union_drop (replacers : list Replacer) : PM unit := for_each replacer_drop replacers.

End replacer.
