(* ===== verification/Stop.v ===== *)
(** * The stop handshake

    [src/stop.rs]: a waiter blocks until its guard is dropped, with a
    mutex-protected flag and a condition variable. The mounting thread
    waits this way until the FUSE thread is about to mount. Each method
    is a thread's program counter; the steps interleave freely and a
    sleeping waiter may wake up spuriously. *)

From S2P Require Import Prelude.

Inductive thread := Waiter | Waker.

(** [Stop::wait]: before [lock], at the test of the loop, inside
    [Condvar::wait] asleep or awake, and returned. *)
Inductive wait_pc := WInit | WTest | WAsleep | WAwake | WDone.

(** [Stop::wake]: before [lock], before the assignment, before
    [notify_one], before the guard is dropped, and returned. *)
Inductive wake_pc := KInit | KAssign | KNotify | KUnlock | KDone.

#[export] Instance wait_pc_eq_dec : EqDecision wait_pc.
Proof. solve_decision. Defined.

#[export] Instance wake_pc_eq_dec : EqDecision wake_pc.
Proof. solve_decision. Defined.

(** [Stop] and the two threads; [owner] holds the mutex. *)
Record Stop := mkStop {
  inner : bool;
  owner : option thread;
  waiter : wait_pc;
  waker : wake_pc
}.

(** [lock()]: a new [Stop] shared by a waiter and a guard. *)
Definition stop_lock : Stop := mkStop false None WInit KInit.

(** One step of [StopWaiter::wait]. *)
Definition wait_step (s : Stop) : option Stop :=
  match waiter s, owner s with
  | WInit, None => Some (mkStop (inner s) (Some Waiter) WTest (waker s))
  | WTest, _ =>
      if inner s then Some (mkStop (inner s) None WDone (waker s))
      else Some (mkStop (inner s) None WAsleep (waker s))
  | WAwake, None => Some (mkStop (inner s) (Some Waiter) WTest (waker s))
  | _, _ => None
  end.

(** One step of the drop of [StopGuard]. *)
Definition wake_step (s : Stop) : option Stop :=
  match waker s, owner s with
  | KInit, None => Some (mkStop (inner s) (Some Waker) (waiter s) KAssign)
  | KAssign, _ => Some (mkStop true (owner s) (waiter s) KNotify)
  | KNotify, _ =>
      Some (mkStop (inner s) (owner s)
              (match waiter s with WAsleep => WAwake | w => w end) KUnlock)
  | KUnlock, _ => Some (mkStop (inner s) None (waiter s) KDone)
  | _, _ => None
  end.

Inductive stop_step : Stop → Stop → Prop :=
| StepWait s s' : wait_step s = Some s' → stop_step s s'
| StepWake s s' : wake_step s = Some s' → stop_step s s'
| StepSpurious s :
    waiter s = WAsleep → stop_step s (mkStop (inner s) (owner s) WAwake (waker s)).

(** ** The invariant *)

Definition holds_waker (k : wake_pc) : bool :=
  match k with KAssign | KNotify | KUnlock => true | _ => false end.

Definition assigned (k : wake_pc) : bool :=
  match k with KNotify | KUnlock | KDone => true | _ => false end.

Definition notified (k : wake_pc) : bool :=
  match k with KUnlock | KDone => true | _ => false end.

Definition stop_inv (s : Stop) : Prop :=
  inner s = assigned (waker s) ∧
  owner s =
    (if bool_decide (waiter s = WTest) then Some Waiter
     else if holds_waker (waker s) then Some Waker else None) ∧
  (waiter s = WTest → holds_waker (waker s) = false) ∧
  (waiter s = WAsleep → notified (waker s) = false) ∧
  (waiter s = WDone → inner s = true).

Lemma stop_step_inv s s' : stop_step s s' → stop_inv s → stop_inv s'.
Proof.
  intros Hs (Hi & Ho & Ht & Ha & Hd). destruct Hs as [s s' Hs|s s' Hs|s Hs];
    destruct s as [i o w k]; simpl in *; subst i o; unfold wait_step, wake_step in *;
    destruct w, k; simpl in *; simplify_eq; unfold stop_inv; simpl; intuition congruence.
Qed.

Definition stop_reachable (s : Stop) : Prop := rtc stop_step stop_lock s.

Lemma stop_reachable_inv s : stop_reachable s → stop_inv s.
Proof.
  assert (stop_inv stop_lock) as H0 by (unfold stop_inv; simpl; intuition congruence).
  unfold stop_reachable. intros Hr. induction Hr; eauto using stop_step_inv.
Qed.

(** C33: the waiter does not return before the guard is dropped: in every
    interleaving, spurious wake-ups included, when [wait] has returned
    the drop of the guard has set the flag. *)
Theorem stop_waits_for_guard s :
  stop_reachable s → waiter s = WDone → inner s = true ∧ assigned (waker s) = true.
Proof.
  intros (Hi & _ & _ & _ & Hd)%stop_reachable_inv Hw. specialize (Hd Hw). split; [done|]. congruence.
Qed.

(** The steps a thread has left, at least. *)
Definition stop_measure (s : Stop) : nat :=
  (match waiter s with WInit => 3 | WAwake => 3 | WTest => 2 | WAsleep => 1 | WDone => 0 end
   + match waker s with KInit => 16 | KAssign => 12 | KNotify => 8 | KUnlock => 4 | KDone => 0 end)%nat.

(** C34: no wake-up is lost. In every reachable state, unless both threads
    have returned, one of them can take a step (and not only by a spurious
    wake-up), and every such step brings the pair closer to the end: from
    any reachable state at most 19 steps are left before both have
    returned, or before the next spurious wake-up. *)
Theorem stop_makes_progress s :
  stop_reachable s →
  (waiter s = WDone ∧ waker s = KDone ∨
   ∃ s', wait_step s = Some s' ∨ wake_step s = Some s') ∧
  (∀ s', wait_step s = Some s' ∨ wake_step s = Some s' → (stop_measure s' < stop_measure s)%nat) ∧
  (stop_measure s ≤ 19)%nat.
Proof.
  intros (Hi & Ho & Ht & Ha & Hd)%stop_reachable_inv. destruct s as [i o w k]. simpl in *. subst i o.
  split_and!.
  - destruct w, k; simpl in *; try (by left); try (right; eexists; (left; reflexivity) || (right; reflexivity));
      intuition congruence.
  - intros s' [Hs|Hs]; destruct w, k; vm_compute in Hs; simplify_eq; unfold stop_measure; simpl; lia.
  - destruct w, k; unfold stop_measure; simpl; lia.
Qed.

Definition stop_finished : Stop := mkStop true None WDone KDone.

(** The waiter sleeps first, then the guard is dropped. *)
Lemma stop_finished_reachable : stop_reachable stop_finished.
Proof.
  unfold stop_reachable, stop_lock, stop_finished.
  eapply rtc_l; [apply StepWait; reflexivity|]. eapply rtc_l; [apply StepWait; reflexivity|].
  eapply rtc_l; [apply StepWake; reflexivity|]. eapply rtc_l; [apply StepWake; reflexivity|].
  eapply rtc_l; [apply StepWake; reflexivity|]. eapply rtc_l; [apply StepWake; reflexivity|].
  eapply rtc_l; [apply StepWait; reflexivity|]. eapply rtc_l; [apply StepWait; reflexivity|].
  apply rtc_refl.
Defined.

Lemma stop_waits_for_guard_witness : inner stop_finished = true ∧ assigned (waker stop_finished) = true.
Proof. apply (stop_waits_for_guard stop_finished stop_finished_reachable eq_refl). Defined.

Lemma stop_makes_progress_witness : (stop_measure stop_finished ≤ 19)%nat.
Proof. apply (stop_makes_progress stop_finished stop_finished_reachable). Defined.
