(* ===== verification/HookFs.v ===== *)
(** * The file system: state, injection macros and system-call helpers

    [HookFs], the [inject!] family of macros and the [async_*] functions
    of [src/hookfs/mod.rs]. *)

From S2P Require Import Prelude Path Float Types External Filter Injectors InodeMap.

#[local] Open Scope Z_scope.

Definition O_APPEND : Z := 1024.
Definition O_DIRECT : Z := 16384.
Definition S_IRWXU : Z := 448.

Section hookfs.
Context `{X : Ext}.

Record HookFs := mkHookFs {
  mount_path : string;
  original_path : string;
  enable_injection : bool;
  opened_files : Slab File;
  opened_dirs : Slab Dir;
  injector : MultiInjector X;
  inode_map : InodeMap
}.

Definition set_enable (b : bool) (h : HookFs) : HookFs :=
  mkHookFs (mount_path h) (original_path h) b (opened_files h) (opened_dirs h) (injector h)
    (inode_map h).

Definition set_opened_files (f : Slab File) (h : HookFs) : HookFs :=
  mkHookFs (mount_path h) (original_path h) (enable_injection h) f (opened_dirs h) (injector h)
    (inode_map h).

Definition set_opened_dirs (d : Slab Dir) (h : HookFs) : HookFs :=
  mkHookFs (mount_path h) (original_path h) (enable_injection h) (opened_files h) d (injector h)
    (inode_map h).

Definition set_injector (i : MultiInjector X) (h : HookFs) : HookFs :=
  mkHookFs (mount_path h) (original_path h) (enable_injection h) (opened_files h)
    (opened_dirs h) i (inode_map h).

Definition set_inode_map (m : InodeMap) (h : HookFs) : HookFs :=
  mkHookFs (mount_path h) (original_path h) (enable_injection h) (opened_files h)
    (opened_dirs h) (injector h) m.

Definition hookfs_new (mount_path original_path : string) (inj : MultiInjector X) : HookFs :=
  {| mount_path := mount_path;
     original_path := original_path;
     enable_injection := false;
     opened_files := slab_new;
     opened_dirs := slab_new;
     injector := inj;
     inode_map := insert_path ∅ 1 original_path |}.

(** The state of a running handler: the file system and the outside. *)
Record FsState := mkFs { hook : HookFs; fs_io : IO X }.

Definition set_io (io : IO X) (s : FsState) : FsState := mkFs (hook s) io.

Definition on_hook (f : HookFs → HookFs) (s : FsState) : FsState := mkFs (f (hook s)) (fs_io s).

Definition on_io (f : IO X → IO X) (s : FsState) : FsState := mkFs (hook s) (f (fs_io s)).

Abbreviation H A := (M FsState HookFsError A).

Definition lift_io {A} (m : M (IO X) HookFsError A) : H A := zoom fs_io set_io m.

Definition call (c : syscall) : H (sys_ret c) := lift_io (sys c).

(** [lock.read().await] / [lock.write().await], the guard dropped when
    [body] is left. *)
Definition with_lock {A} (l : lock) (m : lock_mode) (body : H A) : H A :=
  modify (on_io (log (EAcquire l m))) ;;; finally body (on_io (log (ERelease l))).

(** [spawn_blocking(f).await?]: a panic of the closure is a [JoinError],
    that is [UnknownError]. *)
Definition spawn_blocking {A} (m : H A) : H A := λ s,
  match m s with
  | (Panic, s') => (Fail UnknownError, s')
  | r => r
  end.

Definition nix_outcome {A} (r : nix_result A) : outcome HookFsError A :=
  match r with
  | inl e => Fail (from_nix e)
  | inr a => Done a
  end.

(** [CString::new(s)?] *)
Definition cstring (s : string) : H unit :=
  if contains_nul s then fail InvalidStr else ret tt.

(** [Vec::resize(n, 0)], and a buffer after the kernel wrote to its front. *)
Definition vec_resize (n : nat) (l : list Z) : list Z :=
  take n l ++ replicate (n - length l) 0.

Definition overwrite (buf bytes : list Z) : list Z := bytes ++ drop (length bytes) buf.

(** ** rebuild_path and the injection macros *)

Definition rebuild_path_of (h : HookFs) (path : string) : outcome HookFsError string :=
  match strip_prefix path (original_path h) with
  | Some path_tail => Done (join (mount_path h) path_tail)
  | None => Fail StripPrefixError
  end.

Definition rebuild_path (path : string) : H string :=
  h <- gets hook ;; lift (rebuild_path_of h path).

(** inject! *)
Definition inject (method : Z) (path : string) : H unit :=
  en <- gets (λ s, enable_injection (hook s)) ;;
  if en : bool then
    with_lock InjectorLock Shared (
      p <- rebuild_path path ;;
      inj <- gets (λ s, injector (hook s)) ;;
      lift_io (multi_inject inj method p))
  else ret tt.

(** inject_with_ino! *)
Definition inject_with_ino (method ino : Z) : H unit :=
  path <- with_lock InodeMapLock Shared
            (try (m <- gets (λ s, inode_map (hook s)) ;; lift (inode_get_path m ino))) ;;
  match path with
  | Some path => inject method path
  | None => ret tt
  end.

(** inject_with_fh! *)
Definition inject_with_fh (method fh : Z) : H unit :=
  file <- with_lock OpenedFilesLock Shared
            (try (m <- gets (λ s, opened_files (hook s)) ;; lift (fh_get m fh))) ;;
  match file with
  | Some file => inject method (file_original_path file)
  | None => ret tt
  end.

(** inject_with_dir_fh! *)
Definition inject_with_dir_fh (method fh : Z) : H unit :=
  dir <- with_lock OpenedDirsLock Shared
           (try (m <- gets (λ s, opened_dirs (hook s)) ;; lift (fh_get m fh))) ;;
  match dir with
  | Some dir => inject method (dir_original_path dir)
  | None => ret tt
  end.

(** inject_with_parent_and_name! *)
Definition inject_with_parent_and_name (method parent : Z) (name : string) : H unit :=
  path <- with_lock InodeMapLock Shared
            (try (m <- gets (λ s, inode_map (hook s)) ;; lift (inode_get_path m parent))) ;;
  match path with
  | Some parent_path => inject method (join parent_path name)
  | None => ret tt
  end.

(** inject_write_data!; the handle map stays locked while the injectors
    run, and [enable_injection] is not read. *)
Definition inject_write_data (fh : Z) (data : list Z) : H (list Z) :=
  with_lock OpenedFilesLock Shared (
    file <- try (m <- gets (λ s, opened_files (hook s)) ;; lift (fh_get m fh)) ;;
    match file with
    | Some file =>
        with_lock InjectorLock Shared (
          p <- rebuild_path (file_original_path file) ;;
          inj <- gets (λ s, injector (hook s)) ;;
          lift_io (multi_inject_write_data inj p data))
    | None => ret data
    end).

(** inject_attr! *)
Definition inject_attr (attr : FileAttr) (path : string) : H FileAttr :=
  en <- gets (λ s, enable_injection (hook s)) ;;
  if en : bool then
    with_lock InjectorLock Shared (
      p <- rebuild_path path ;;
      inj <- gets (λ s, injector (hook s)) ;;
      lift_io (multi_inject_attr inj attr p))
  else ret attr.

(** inject_reply!, on the reply as a [Reply]. *)
Definition inject_reply (method : Z) (path : string) (reply : Reply) : H Reply :=
  en <- gets (λ s, enable_injection (hook s)) ;;
  if en : bool then
    with_lock InjectorLock Shared (
      p <- rebuild_path path ;;
      inj <- gets (λ s, injector (hook s)) ;;
      lift_io (multi_inject_reply inj method p reply))
  else ret reply.

(** inject_reply! through a [&mut] to a reply of one of the types. *)
Definition inject_reply_as {R} (wrap : R → Reply) (unwrap : Reply → option R)
    (method : Z) (path : string) (reply : R) : H R :=
  r <- inject_reply method path (wrap reply) ;; ret (default reply (unwrap r)).

Definition inject_reply_entry : Z → string → Entry → H Entry :=
  inject_reply_as REntry (λ r, match r with REntry e => Some e | _ => None end).

Definition inject_reply_open : Z → string → Open → H Open :=
  inject_reply_as ROpen (λ r, match r with ROpen e => Some e | _ => None end).

Definition inject_reply_attr : Z → string → Attr → H Attr :=
  inject_reply_as RAttr (λ r, match r with RAttr e => Some e | _ => None end).

Definition inject_reply_data : Z → string → Data → H Data :=
  inject_reply_as RData (λ r, match r with RData e => Some e | _ => None end).

Definition inject_reply_statfs : Z → string → StatFs → H StatFs :=
  inject_reply_as RStatFs (λ r, match r with RStatFs e => Some e | _ => None end).

Definition inject_reply_write : Z → string → Write → H Write :=
  inject_reply_as RWrite (λ r, match r with RWrite e => Some e | _ => None end).

Definition inject_reply_create : Z → string → Create → H Create :=
  inject_reply_as RCreate (λ r, match r with RCreate e => Some e | _ => None end).

Definition inject_reply_xattr : Z → string → Xattr → H Xattr :=
  inject_reply_as RXattr (λ r, match r with RXattr e => Some e | _ => None end).

(** ** The [async_*] functions *)

(** A nix call in a blocking closure, with both [?]s. *)
Definition nix_call {A} (c : syscall) (as_result : sys_ret c → nix_result A) : H A :=
  spawn_blocking (r <- call c ;; lift (nix_outcome (as_result r))).

(** [if bad(ret) { Err(Error::last()) } else { Ok(ret) }] inside the
    closure, where [errno] is the caller's. *)
Definition libc_check (bad : Z → bool) (r : libc_ret) : H libc_ret :=
  if bad (rc r) then fail (from_nix (NixSys (thread_errno r))) else ret r.

Definition is_minus_one (z : Z) : bool := z =? -1.

Definition is_nonzero (z : Z) : bool := negb (z =? 0).

Definition async_setxattr (path name : string) (data : list Z) (flags : Z) : H unit :=
  spawn_blocking (
    match data with
    | [] => panic
    | _ :: _ =>
        r <- call (SLsetxattr path name data flags) ;;
        libc_check is_minus_one r ;;; ret tt
    end).

Definition async_getxattr (path name : string) (size : Z) : H (list Z) :=
  spawn_blocking (
    let buf := vec_resize (Z.to_nat size) [] in
    r <- call (SLgetxattr path name size) ;;
    libc_check is_minus_one r ;;;
    ret (vec_resize (Z.to_nat (rc r)) (overwrite buf (written r)))).

Definition async_read (fd count offset : Z) : H (list Z) :=
  spawn_blocking (
    let buf := vec_resize (Z.to_nat count) [] in
    r <- call (SPread fd count offset) ;;
    libc_check is_minus_one r ;;;
    ret (vec_resize (Z.to_nat (rc r)) (overwrite buf (written r)))).

Definition async_write (fd : Z) (data : list Z) (offset : Z) : H Z :=
  spawn_blocking (
    r <- call (SPwrite fd data offset) ;;
    libc_check is_minus_one r ;;; ret (rc r)).

Definition async_stat (path : string) : H FileStat := nix_call (SLstat path) (λ r, r).

Definition async_lchown (path : string) (uid gid : option Z) : H unit :=
  nix_call (SFchownat path uid gid) (λ r, r).

Definition async_fchmodat (path : string) (mode : Z) : H unit :=
  nix_call (SFchmodat path (Z.land mode mode_all)) (λ r, r).

Definition async_truncate (path : string) (len : Z) : H unit :=
  nix_call (STruncate path len) (λ r, r).

Definition async_utimensat (path : string) (atime mtime : timespec) : H unit :=
  spawn_blocking (
    r <- call (SUtimensat path atime mtime) ;;
    libc_check is_nonzero r ;;; ret tt).

Definition async_readlink (path : string) : H string := nix_call (SReadlink path) (λ r, r).

Definition async_mknod (path : string) (mode rdev : Z) : H unit :=
  spawn_blocking (
    r <- call (SMknod path mode rdev) ;;
    libc_check is_nonzero r ;;; ret tt).

Definition async_mkdir (path : string) (mode : Z) : H unit :=
  nix_call (SMkdir path mode) (λ r, r).

Definition async_unlink (path : string) : H unit := nix_call (SUnlink path) (λ r, r).

Definition async_rmdir (path : string) : H unit :=
  spawn_blocking (
    r <- call (SRmdir path) ;;
    libc_check is_nonzero r ;;; ret tt).

Definition async_open (path : string) (filtered_flags mode : Z) : H Z :=
  nix_call (SOpen path filtered_flags mode) (λ r, r).

Definition async_close (fd : Z) : H unit := nix_call (SClose fd) (λ r, r).

(** [HookFs::get_file_attr] *)
Definition get_file_attr (path : string) : H FileAttr :=
  stat <- async_stat path ;;
  attr <- lift (convert_libc_stat_to_fuse_stat stat) ;;
  inject_attr attr path.

(** [inode_map.get_path(ino)?] under the guard of the map. *)
Definition get_path (ino : Z) : H string :=
  m <- gets (λ s, inode_map (hook s)) ;; lift (inode_get_path m ino).

(** [inode_map.insert_path(ino, path); inode_map.increase_ref(ino);] *)
Definition update_inode_map (f : InodeMap → InodeMap) : H unit :=
  modify (on_hook (λ h, set_inode_map (f (inode_map h)) h)).

Definition remember_path (ino : Z) (path : string) : H unit :=
  update_inode_map (λ m, insert_path m ino path) ;;;
  update_inode_map (λ m, increase_ref m ino).

(** [self.opened_files.write().await.insert(..)] and the same for
    directories: the guard is a temporary. *)
Definition insert_file (f : File) : H Z :=
  with_lock OpenedFilesLock Exclusive (
    m <- gets (λ s, opened_files (hook s)) ;;
    let '(fh, m') := slab_insert f m in
    modify (on_hook (set_opened_files m')) ;;; ret fh).

Definition insert_dir (d : Dir) : H Z :=
  with_lock OpenedDirsLock Exclusive (
    m <- gets (λ s, opened_dirs (hook s)) ;;
    let '(fh, m') := slab_insert d m in
    modify (on_hook (set_opened_dirs m')) ;;; ret fh).

End hookfs.
Arguments HookFs X : clear implicits.
Arguments FsState X : clear implicits.
