(* ===== verification/MountSession.v ===== *)
(** * Mounting and recovery

    [MountInjector::mount], [MountInjectionGuard::recover_mount] of
    [src/mount_injector.rs], [move_mount] and [bind_mount] of
    [src/mount.rs], and [inject] and [resume] of [src/main.rs], as
    programs over an interface to the calls they make. The FUSE thread is
    a program of its own; what joining it returns is up to the outside. *)

From S2P Require Import Prelude Path Float Types External Concrete Filter Injectors InodeMap.
From S2P Require Import Mount HookFs.

#[local] Open Scope Z_scope.
#[local] Open Scope string_scope.
#[local] Open Scope list_scope.

(** ** The calls *)
Inductive mcall :=
| CCanonicalize (path : string)
| CMakePrivate (path : string)
| CMountBind (source target : string)
| CMountMove (source target : string)
| CUmount (path : string)
| CMountInfo
| CCreateDirAll (path : string)
| CMknod (path : string) (kind mode major minor : Z)
| CSleep (millis : Z)
| CSpawnFuse (mount_point new_path : string)
| CWaitStop
| CDropGuard
| CFuserMount (mount_point : string)
| CDropRuntime
| CJoin
| CReplacerPrepare (detect_path new_path : string)
| CReplacerRun
| CReplacerDrop
| CPipe
| CSignal (signum : Z) (* installs [signal_handler] *)
| CSpawnServer (status : AnyhowError + unit) (hookfs : bool)
| CRead (chan len : Z)
| CWrite (chan : Z) (content : list Z).

(** What a call returns. [CJoin] is the result of [JoinHandle::join]:
    [None] if the thread panicked. *)
Definition mcall_ret (c : mcall) : Type :=
  match c with
  | CCanonicalize _ => (anyhow + string)%type
  | CMakePrivate _ | CMountBind _ _ | CMountMove _ _ | CUmount _ | CMknod _ _ _ _ _ => nix_result unit
  | CMountInfo => (anyhow + list string)%type
  | CCreateDirAll _ | CFuserMount _ => (anyhow + unit)%type
  | CSleep _ | CSpawnFuse _ _ | CWaitStop | CDropGuard | CDropRuntime => unit
  | CJoin => option (anyhow + unit)
  | CReplacerPrepare _ _ | CReplacerRun => outcome anyhow unit
  | CReplacerDrop | CSpawnServer _ _ => unit
  | CPipe => nix_result (Z * Z)
  | CSignal _ => nix_result unit
  | CRead _ _ | CWrite _ _ => nix_result Z
  end.

Class MountExt := {
  MWorld : Type;
  mcall_run : ∀ c : mcall, MWorld → mcall_ret c * MWorld;
}.

Section session.
Context `{X : Ext, MX : MountExt}.

(** The state: the outside, the calls made, and the file system once it
    has been created. *)
Record MState := mkMState {
  m_world : MWorld;
  m_calls : list mcall;
  m_hook : option (HookFs X)
}.

Abbreviation MM A := (M MState anyhow A).

Definition mcall_do (c : mcall) : MM (mcall_ret c) := λ s,
  let '(r, w) := mcall_run c (m_world s) in
  (Done r, mkMState w (m_calls s ++ [c]) (m_hook s)).

Definition set_hook (h : option (HookFs X)) (s : MState) : MState :=
  mkMState (m_world s) (m_calls s) h.

(** [?] on a result, and [.unwrap_or_else(|e| panic!(..))]. *)
Definition of_anyhow {A} (r : anyhow + A) : outcome anyhow A :=
  match r with inl e => Fail e | inr a => Done a end.

Definition of_nix {A} (r : nix_result A) : outcome anyhow A :=
  match r with inl e => Fail (ANix e) | inr a => Done a end.

Definition or_panic {A} (r : nix_result A) : outcome anyhow A :=
  match r with inl _ => Panic | inr a => Done a end.

(** The delay between two attempts. *)
Definition delay_500 : MM unit := mcall_do (CSleep 500).

Context `{RT : Retry}.

(** ** mount.rs *)

Definition parse_mounts : MM MountsInfo :=
  r <- mcall_do CMountInfo ;; l <- lift (of_anyhow r) ;; ret (mkMountsInfo l).

Definition move_mount (original_path target_path : string) : MM unit :=
  r <- mcall_do (CCreateDirAll target_path) ;; lift (of_anyhow r) ;;;
  r <- mcall_do (CMountMove original_path target_path) ;; lift (of_nix r).

(** One attempt of [umount]. *)
Definition try_umount (path : string) : MM unit :=
  r <- mcall_do (CUmount path) ;; lift (of_nix r).

Definition bind_mount (original_path target_path : string) : MM unit :=
  r <- mcall_do (CMountBind original_path target_path) ;; lift (or_panic r) ;;;
  retry delay_500 20 (try_umount original_path).

(** ** mount_injector.rs *)

Record MountInjectionGuard := mkGuard {
  g_original_path : string;
  g_new_path : string;
  g_handler : bool (* [handler.is_some()] *)
}.

(** The FUSE thread. The guard of the handshake is dropped before the
    mount, or when the closure is left early. *)
Definition fuse_thread (original_path new_path : string) : MM unit :=
  r <- mcall_do (CCreateDirAll new_path) ;;
  match r with
  | inl e => mcall_do CDropGuard ;;; fail e
  | inr _ =>
      mcall_do CDropGuard ;;;
      r <- mcall_do (CFuserMount original_path) ;; lift (of_anyhow r) ;;;
      mcall_do CDropRuntime
  end.

Definition of_build {A} (r : outcome AnyhowError A) : outcome anyhow A :=
  match r with Done a => Done a | Fail e => Fail (AMsg e) | Panic => Panic end.

(** [MountInjector::mount] *)
Definition injector_mount (self : MountInjector) : MM MountInjectionGuard :=
  let original_path := mj_original_path self in
  let new_path := mj_new_path self in
  mounts <- parse_mounts ;;
  (if non_root mounts original_path then move_mount original_path new_path
   else fail (AMsg "inject on a root mount")) ;;;
  injectors <- lift (of_build (multi_build (mj_injector_config self))) ;;
  modify (set_hook (Some (hookfs_new original_path new_path injectors))) ;;;
  mcall_do (CSpawnFuse original_path new_path) ;;;
  mcall_do CWaitStop ;;;
  mcall_do (CSleep 200) ;;;
  ret (mkGuard original_path new_path true).

(** [MountInjectionGuard::enable_injection] and [disable_injection] *)
Definition guard_enable (b : bool) : MM unit :=
  modify (λ s, set_hook (set_enable b <$> m_hook s) s).

(** [MountInjectionGuard::recover_mount] *)
Definition recover_mount (self : MountInjectionGuard) : MM unit :=
  let mount_point := g_original_path self in
  retry delay_500 20 (try_umount mount_point) ;;;
  (if g_handler self then ret tt else fail (AMsg "handler is empty")) ;;;
  r <- mcall_do CJoin ;;
  match r with
  | None => panic
  | Some r =>
      lift (of_anyhow r) ;;;
      mounts <- parse_mounts ;;
      if non_root mounts mount_point then bind_mount (g_new_path self) mount_point
      else fail (AMsg "inject on a root mount")
  end.

(** ** fuse_device.rs *)

Definition EEXIST : Errno := 17.

Definition fuse_node_call : mcall := CMknod "/dev/fuse" S_IFCHR 0x1b6 10 229.

(** The device may exist already; its mode is 0o666. *)
Definition mkfuse_node : MM unit :=
  r <- mcall_do fuse_node_call ;;
  lift (match r with
        | inr _ => Done tt
        | inl (NixSys errno) =>
            if (errno =? EEXIST)%Z then Done tt else Fail (ANix (NixSys errno))
        | inl err => Fail (ANix err)
        end).

(** ** main.rs *)

Record Options := mkOptions { opt_path : string; opt_mount_only : bool }.

(** A result that is only logged; a panic is no result. *)
Definition logged {A} (r : outcome anyhow A) : outcome anyhow unit :=
  match r with Done _ | Fail _ => Done tt | Panic => Panic end.

(** [UnionReplacer::new] and [prepare]; dropping the replacer detaches the
    processes it traces, on every way out of the scope. *)
Definition with_replacer (mount_only : bool) (detect_path new_path : string) {A}
    (body : bool → MM A) : MM A :=
  if mount_only then body false
  else
    finally (r <- mcall_do (CReplacerPrepare detect_path new_path) ;; lift r ;;; body true)
      (λ s, (mcall_do CReplacerDrop s).2).

(** [inject]; [injector_config] is used for the path as it was given, not
    for the canonical one. *)
Definition main_inject (option : Options) (injector_config : list InjectorConfig)
    : MM MountInjectionGuard :=
  r <- mcall_do (CCanonicalize (opt_path option)) ;; path <- lift (of_anyhow r) ;;
  r <- mcall_do (CMakePrivate path) ;; lift (or_panic r) ;;;
  r <- mcall_do (CMountBind path path) ;; lift (or_panic r) ;;;
  guard <- with_replacer (opt_mount_only option) path path (λ replacer,
    _ <- try mkfuse_node ;;
    injection <- lift (of_build (create_injection (opt_path option) injector_config)) ;;
    mount_guard <- injector_mount injection ;;
    (if replacer : bool then r <- mcall_do CReplacerRun ;; lift r else ret tt) ;;;
    ret mount_guard) ;;
  guard_enable true ;;;
  ret guard.

(** [resume]; the result of the replacer's run is only logged. *)
Definition main_resume (option : Options) (mount_guard : MountInjectionGuard) : MM unit :=
  guard_enable false ;;;
  r <- mcall_do (CCanonicalize (opt_path option)) ;; path <- lift (of_anyhow r) ;;
  enc <- lift (of_build (encode_path path)) ;;
  with_replacer (opt_mount_only option) path enc.2 (λ replacer,
    (if replacer : bool then r <- mcall_do CReplacerRun ;; lift (logged r) else ret tt) ;;;
    recover_mount mount_guard).

End session.
