(* ===== verification/FsImpl.v ===== *)
(** * The request handlers

    [impl AsyncFileSystemImpl for HookFs] of [src/hookfs/mod.rs], one
    definition per method, under the source's names. A handler's [?] is
    [bind], its guards are [with_lock] blocks. *)

From S2P Require Import Prelude Path Float Types External Filter Injectors InodeMap HookFs.

#[local] Open Scope Z_scope.

Module Handlers.
Section handlers.
Context `{X : Ext}.

Abbreviation H A := (M (FsState X) HookFsError A).

Definition init : H unit := call (SUmask (Z.land 0 mode_all)) ;;; ret tt.

Definition lookup (parent : Z) (name : string) : H Entry :=
  inject_with_parent_and_name Method.LOOKUP parent name ;;;
  with_lock InodeMapLock Exclusive (
    parent_path <- get_path parent ;;
    let path := join parent_path name in
    stat <- get_file_attr path ;;
    remember_path (ino stat) path ;;;
    inject_reply_entry Method.LOOKUP path (mkEntry stat 0)).

Definition forget (ino nlookup : Z) : H unit :=
  with_lock InodeMapLock Exclusive (update_inode_map (λ m, decrease_ref m ino nlookup)).

Definition getattr (ino : Z) : H Attr :=
  inject_with_ino Method.GETATTR ino ;;;
  with_lock InodeMapLock Shared (
    path <- get_path ino ;;
    stat <- get_file_attr path ;;
    inject_reply_attr Method.GETATTR path (mkAttrReply stat)).

Definition setattr (ino : Z) (mode uid gid size : option Z) (atime mtime : option TimeOrNow)
    : H Attr :=
  inject_with_ino Method.SETATTR ino ;;;
  with_lock InodeMapLock Shared (
    path <- get_path ino ;;
    async_lchown path uid gid ;;;
    match mode with Some mode => async_fchmodat path mode | None => ret tt end ;;;
    match size with Some size => async_truncate path (as_i64 size) | None => ret tt end ;;;
    at_ <- lift (convert_time atime) ;;
    mt <- lift (convert_time mtime) ;;
    cstring path ;;;
    async_utimensat path at_ mt ;;;
    stat <- get_file_attr path ;;
    inject_reply_attr Method.GETATTR path (mkAttrReply stat)).

Definition readlink (ino : Z) : H Data :=
  inject_with_ino Method.READLINK ino ;;;
  with_lock InodeMapLock Shared (
    link_path <- get_path ino ;;
    path <- async_readlink link_path ;;
    cstring path ;;;
    inject_reply_data Method.READLINK link_path (mkData (bytes_of path))).

Definition mknod (parent : Z) (name : string) (mode rdev uid gid : Z) : H Entry :=
  inject_with_parent_and_name Method.MKNOD parent name ;;;
  with_lock InodeMapLock Exclusive (
    parent_path <- get_path parent ;;
    let path := join parent_path name in
    inject Method.MKNOD path ;;;
    cstring path ;;;
    async_mknod path mode rdev ;;;
    async_lchown path (Some uid) (Some gid) ;;;
    stat <- get_file_attr path ;;
    remember_path (ino stat) path ;;;
    inject_reply_entry Method.LOOKUP path (mkEntry stat 0)).

Definition mkdir (parent : Z) (name : string) (mode uid gid : Z) : H Entry :=
  inject_with_parent_and_name Method.MKDIR parent name ;;;
  with_lock InodeMapLock Exclusive (
    parent_path <- get_path parent ;;
    let path := join parent_path name in
    async_mkdir path (Z.land mode mode_all) ;;;
    async_lchown path (Some uid) (Some gid) ;;;
    stat <- get_file_attr path ;;
    remember_path (ino stat) path ;;;
    inject_reply_entry Method.LOOKUP path (mkEntry stat 0)).

Definition unlink (parent : Z) (name : string) : H unit :=
  inject_with_parent_and_name Method.UNLINK parent name ;;;
  with_lock InodeMapLock Exclusive (
    parent_path <- get_path parent ;;
    let path := join parent_path name in
    stat <- get_file_attr path ;;
    async_unlink path ;;;
    update_inode_map (λ m, remove_path m (ino stat) path)).

Definition rmdir (parent : Z) (name : string) : H unit :=
  inject_with_parent_and_name Method.RMDIR parent name ;;;
  with_lock InodeMapLock Exclusive (
    parent_path <- get_path parent ;;
    let path := join parent_path name in
    stat <- get_file_attr path ;;
    cstring path ;;;
    async_rmdir path ;;;
    update_inode_map (λ m, remove_path m (ino stat) path)).

Definition symlink (parent : Z) (name link : string) (uid gid : Z) : H Entry :=
  inject_with_parent_and_name Method.SYMLINK parent name ;;;
  with_lock InodeMapLock Exclusive (
    parent_path <- get_path parent ;;
    let path := join parent_path name in
    nix_call (SSymlinkat link path) (λ r, r) ;;;
    async_lchown path (Some uid) (Some gid) ;;;
    stat <- get_file_attr path ;;
    remember_path (ino stat) path ;;;
    inject_reply_entry Method.LOOKUP path (mkEntry stat 0)).

(** The first computation of [old_path] is only traced; the flags of the
    request are not used. *)
Definition rename (parent : Z) (name : string) (newparent : Z) (newname : string) : H unit :=
  inject_with_parent_and_name Method.RENAME parent name ;;;
  with_lock InodeMapLock Exclusive (
    _ <- get_path parent ;;
    parent_path <- get_path parent ;;
    let old_path := join parent_path name in
    new_parent_path <- get_path newparent ;;
    let new_path := join new_parent_path newname in
    nix_call (SRenameat old_path new_path) (λ r, r) ;;;
    stat <- get_file_attr new_path ;;
    update_inode_map (λ m, remove_path m (ino stat) old_path) ;;;
    update_inode_map (λ m, insert_path m (ino stat) new_path)).

Definition link (ino_ newparent : Z) (newname : string) : H Entry :=
  inject_with_ino Method.LINK ino_ ;;;
  with_lock InodeMapLock Exclusive (
    original_path <- get_path ino_ ;;
    new_parent_path <- get_path newparent ;;
    let new_path := join new_parent_path newname in
    nix_call (SLinkat original_path new_path) (λ r, r) ;;;
    stat <- get_file_attr new_path ;;
    remember_path (ino stat) new_path ;;;
    inject_reply_entry Method.LOOKUP new_path (mkEntry stat 0)).

Definition open (ino flags : Z) : H Open :=
  inject_with_ino Method.OPEN ino ;;;
  let filtered_flags := Z.land (Z.land flags (Z.lnot O_APPEND)) (Z.lnot O_DIRECT) in
  let filtered_flags := Z.land filtered_flags oflag_all in
  with_lock InodeMapLock Shared (
    path <- get_path ino ;;
    fd <- async_open path filtered_flags S_IRWXU ;;
    fh <- insert_file (mkFile fd path) ;;
    inject_reply_open Method.OPEN path (mkOpen fh 0)).

Definition read (fh offset size : Z) : H Data :=
  inject_with_fh Method.READ fh ;;;
  with_lock OpenedFilesLock Shared (
    opened_files <- gets (λ s, opened_files (hook s)) ;;
    file <- lift (fh_get opened_files fh) ;;
    buf <- async_read (file_fd file) size offset ;;
    inject_reply_data Method.READ (file_original_path file) (mkData buf)).

Definition write (fh offset : Z) (data : list Z) : H Write :=
  inject_with_fh Method.WRITE fh ;;;
  data <- inject_write_data fh data ;;
  with_lock OpenedFilesLock Shared (
    opened_files <- gets (λ s, opened_files (hook s)) ;;
    file <- lift (fh_get opened_files fh) ;;
    size <- async_write (file_fd file) data offset ;;
    inject_reply_write Method.WRITE (file_original_path file) (mkWrite (as_u32 size))).

Definition flush (fh : Z) : H unit :=
  inject_with_fh Method.FLUSH fh ;;;
  with_lock OpenedFilesLock Shared (
    opened_files <- gets (λ s, opened_files (hook s)) ;;
    file <- lift (fh_get opened_files fh) ;;
    nix_call (SFsync (file_fd file)) (λ r, r)).

(** [Slab::remove] panics on a vacant key. *)
Definition release (fh : Z) : H unit :=
  with_lock OpenedFilesLock Exclusive (
    file <- try (m <- gets (λ s, opened_files (hook s)) ;; lift (fh_get m fh)) ;;
    match file with Some file => async_close (file_fd file) | None => ret tt end ;;;
    m <- gets (λ s, opened_files (hook s)) ;;
    match slab_remove fh m with
    | Some (_, m') => modify (on_hook (set_opened_files m'))
    | None => panic
    end).

Definition fsync (fh : Z) : H unit :=
  inject_with_fh Method.FSYNC fh ;;;
  with_lock OpenedFilesLock Shared (
    opened_files <- gets (λ s, opened_files (hook s)) ;;
    file <- lift (fh_get opened_files fh) ;;
    nix_call (SFsync (file_fd file)) (λ r, r)).

Definition opendir (ino flags : Z) : H Open :=
  inject_with_ino Method.OPENDIR ino ;;;
  with_lock InodeMapLock Shared (
    path <- get_path ino ;;
    let filtered_flags := Z.land (Z.land flags (Z.lnot O_APPEND)) oflag_all in
    dir <- nix_call (SDirOpen path filtered_flags S_IRWXU) (λ r, r) ;;
    fh <- insert_dir (mkDir dir path) ;;
    inject_reply_open Method.OPENDIR path (mkOpen fh flags)).

(** The loop over [all_entries.iter().enumerate().skip(offset)]: [index]
    counts from the start of the directory. [reply.add] says whether the
    buffer is full, in which case the entry is not added. *)
Fixpoint readdir_loop (index : Z) (entries : list (nix_result DirEntry)) (reply : list DirItem)
    : H (list DirItem) :=
  match entries with
  | [] => ret reply
  | entry :: entries' =>
      entry <- lift (nix_outcome entry) ;;
      match d_type entry with
      | None => fail UnknownFileType
      | Some t =>
          let item := mkDirItem (d_ino entry) (as_i64 (index + 1)) (convert_filetype t)
                        (d_name entry) in
          if dir_full reply item then ret reply
          else readdir_loop (index + 1) entries' (reply ++ [item])
      end
  end.

Definition readdir (fh offset : Z) (reply : list DirItem) : H (list DirItem) :=
  inject_with_dir_fh Method.READDIR fh ;;;
  let offset := as_u64 offset in
  with_lock OpenedDirsLock Exclusive (
    opened_dirs <- gets (λ s, opened_dirs (hook s)) ;;
    dir <- lift (fh_get opened_dirs fh) ;;
    all_entries <- call (SDirIter (dir_dir dir)) ;;
    if Z.of_nat (length all_entries) <=? offset then ret reply
    else readdir_loop offset (drop (Z.to_nat offset) all_entries) reply).

(** The removed [Dir] is dropped, which closes it. *)
Definition releasedir (fh : Z) : H unit :=
  with_lock OpenedDirsLock Exclusive (
    m <- gets (λ s, opened_dirs (hook s)) ;;
    match slab_remove fh m with
    | Some (dir, m') => modify (on_hook (set_opened_dirs m')) ;;; call (SDirClose (dir_dir dir))
    | None => panic
    end).

(** [std::fs::File::open(path)?.sync_all()?]; the file is closed when it
    is dropped. *)
Definition fsyncdir (ino : Z) : H unit :=
  with_lock InodeMapLock Shared (
    path <- get_path ino ;;
    spawn_blocking (
      f <- call (SFileOpen path) ;;
      match f with
      | None => fail UnknownError
      | Some fd =>
          r <- call (SSyncAll fd) ;;
          call (SFileClose fd) ;;;
          match r with None => fail UnknownError | Some _ => ret tt end
      end)).

Definition statfs (ino : Z) : H StatFs :=
  inject_with_ino Method.STATFS ino ;;;
  with_lock InodeMapLock Shared (
    path <- get_path ino ;;
    origin_path <- gets (λ s, original_path (hook s)) ;;
    stat <- nix_call (SStatfs origin_path) (λ r, r) ;;
    inject_reply_statfs Method.STATFS path
      {| sf_blocks := f_blocks stat; sf_bfree := f_bfree stat; sf_bavail := f_bavail stat;
         sf_files := f_files stat; sf_ffree := f_ffree stat;
         sf_bsize := as_u32 (f_bsize stat); sf_namelen := as_u32 (f_namelen stat);
         sf_frsize := as_u32 (f_bsize stat) |}).

Definition setxattr (ino : Z) (name : string) (value : list Z) (flags : Z) : H unit :=
  inject_with_ino Method.SETXATTR ino ;;;
  with_lock InodeMapLock Shared (
    path <- get_path ino ;;
    cstring path ;;;
    cstring name ;;;
    async_setxattr path name value flags).

Definition getxattr (ino : Z) (name : string) (size : Z) : H Xattr :=
  inject_with_ino Method.GETXATTR ino ;;;
  with_lock InodeMapLock Shared (
    path <- get_path ino ;;
    cstring path ;;;
    cstring name ;;;
    data <- async_getxattr path name size ;;
    inject_reply_xattr Method.GETXATTR path
      (if size =? 0 then XSize (as_u32 (Z.of_nat (length data))) else XData data)).

(** The error check is outside the blocking closure: [Error::last()]
    reads the [errno] of the task's thread. *)
Definition listxattr (ino size : Z) : H Xattr :=
  inject_with_ino Method.LISTXATTR ino ;;;
  with_lock InodeMapLock Shared (
    path <- get_path ino ;;
    cstring path ;;;
    let buf := vec_resize (Z.to_nat size) [] in
    ret_ <- spawn_blocking (call (SLlistxattr path size)) ;;
    (if rc ret_ =? -1 then
       e <- call SLastErrno ;; fail (from_nix (NixSys e))
     else ret tt) ;;;
    inject_reply_xattr Method.LISTXATTR path
      (if size =? 0 then XSize (as_u32 (rc ret_)) else XData (overwrite buf (written ret_)))).

Definition removexattr (ino : Z) (name : string) : H unit :=
  inject_with_ino Method.REMOVEXATTR ino ;;;
  with_lock InodeMapLock Shared (
    path <- get_path ino ;;
    cstring path ;;;
    cstring name ;;;
    ret_ <- spawn_blocking (call (SLremovexattr path name)) ;;
    if rc ret_ =? -1 then
      e <- call SLastErrno ;; fail (from_nix (NixSys e))
    else ret tt).

Definition access (ino mask : Z) : H unit :=
  inject_with_ino Method.ACCESS ino ;;;
  with_lock InodeMapLock Shared (
    path <- get_path ino ;;
    nix_call (SAccess path (Z.land mask access_all)) (λ r, r)).

Definition create (parent : Z) (name : string) (mode flags uid gid : Z) : H Create :=
  inject_with_parent_and_name Method.CREATE parent name ;;;
  with_lock InodeMapLock Exclusive (
    parent_path <- get_path parent ;;
    let path := join parent_path name in
    let filtered_flags := Z.land (Z.land flags (Z.lnot O_APPEND)) oflag_all in
    fd <- async_open path filtered_flags (Z.land mode mode_all) ;;
    async_lchown path (Some uid) (Some gid) ;;;
    stat <- get_file_attr path ;;
    fh <- insert_file (mkFile fd path) ;;
    remember_path (ino stat) path ;;;
    inject_reply_create Method.CREATE path (mkCreate stat 0 fh flags)).

Definition getlk : H Lock := fail (Sys ENOSYS).

Definition setlk : H unit := fail (Sys ENOSYS).

End handlers.
End Handlers.
