(* ===== verification/Dispatch.v ===== *)
(** * The FUSE session: requests, replies and dispatch

    [AsyncFileSystem] of [src/hookfs/async_fs.rs] and the [FsReply]
    implementations of [src/hookfs/reply.rs]. A method of the session
    spawns the handler and sends its result; the model runs the spawned
    task to its end, so a session is a sequence of whole requests. *)

From S2P Require Import Prelude Path Float Types External Filter Injectors InodeMap HookFs FsImpl.

#[local] Open Scope Z_scope.

(** ** Replies *)

(** What is sent to the kernel through a [fuser::Reply*] object. *)
Inductive FuseReply :=
| RepEntry (ttl : Z) (attr : FileAttr) (generation : Z)
| RepOpened (fh flags : Z)
| RepAttr (ttl : Z) (attr : FileAttr)
| RepData (data : list Z)
| RepStatfs (blocks bfree bavail files ffree bsize namelen frsize : Z)
| RepWritten (size : Z)
| RepCreated (ttl : Z) (attr : FileAttr) (generation fh flags : Z)
| RepLocked (start end_ typ pid : Z)
| RepXattrSize (size : Z)
| RepDirectory (entries : list DirItem)
| RepOk
| RepError (errno : Z).

Definition TTL : Z := 0.

Definition reply_ok_entry (item : Entry) : FuseReply :=
  RepEntry TTL (entry_stat item) (entry_generation item).

Definition reply_ok_open (item : Open) : FuseReply :=
  RepOpened (open_fh item) (as_u32 (open_flags item)).

Definition reply_ok_attr (item : Attr) : FuseReply := RepAttr TTL (attr_attr item).

Definition reply_ok_data (item : Data) : FuseReply := RepData (data_data item).

Definition reply_ok_statfs (item : StatFs) : FuseReply :=
  RepStatfs (sf_blocks item) (sf_bfree item) (sf_bavail item) (sf_files item) (sf_ffree item)
    (sf_bsize item) (sf_namelen item) (sf_frsize item).

Definition reply_ok_write (item : Write) : FuseReply := RepWritten (write_size item).

Definition reply_ok_create (item : Create) : FuseReply :=
  RepCreated TTL (create_attr item) (create_generation item) (create_fh item)
    (as_u32 (create_flags item)).

Definition reply_ok_lock (item : Lock) : FuseReply :=
  RepLocked (lock_start item) (lock_end item) (lock_typ item) (lock_pid item).

Definition reply_ok_xattr (item : Xattr) : FuseReply :=
  match item with
  | XData data => RepData data
  | XSize size => RepXattrSize size
  end.

Definition reply_ok_empty (_ : unit) : FuseReply := RepOk.

(** [FsReply::reply]; a task that panics does not reach it ([None]), and
    the kernel gets whatever fuser sends for a dropped reply object. *)
Definition reply {A} (reply_ok : A → FuseReply) (result : outcome HookFsError A)
    : option FuseReply :=
  match result with
  | Done item => Some (reply_ok item)
  | Fail err => Some (RepError (into_c_int err))
  | Panic => None
  end.

(** ** The session *)

(** [fuser::Request], the accessors the session calls. *)
Record Request := mkRequest { unique : Z; req_uid : Z; req_gid : Z }.

Module AsyncFs.
Section async_fs.
Context `{X : Ext}.

Abbreviation Task := (FsState X → option FuseReply * FsState X).

Definition spawn_reply {A} (reply_ok : A → FuseReply)
    (f : M (FsState X) HookFsError A) : Task := λ s,
  let '(result, s') := f s in (reply reply_ok result, s').

(** [Filesystem::init], before the first request. *)
Definition init : M (FsState X) Z unit := map_err into_c_int Handlers.init.

Definition lookup (req : Request) (parent : Z) (name : string) : Task :=
  spawn_reply reply_ok_entry (Handlers.lookup parent name).

(** No reply is sent to a forget. *)
Definition forget (ino nlookup : Z) : Task := λ s, (None, (Handlers.forget ino nlookup s).2).

Definition getattr (req : Request) (ino : Z) : Task :=
  spawn_reply reply_ok_attr (Handlers.getattr ino).

Definition setattr (req : Request) (ino : Z) (mode uid gid size : option Z)
    (atime mtime : option TimeOrNow) : Task :=
  spawn_reply reply_ok_attr (Handlers.setattr ino mode uid gid size atime mtime).

Definition readlink (req : Request) (ino : Z) : Task :=
  spawn_reply reply_ok_data (Handlers.readlink ino).

Definition mknod (req : Request) (parent : Z) (name : string) (mode umask rdev : Z) : Task :=
  spawn_reply reply_ok_entry
    (Handlers.mknod parent name mode rdev (req_uid req) (req_gid req)).

Definition mkdir (req : Request) (parent : Z) (name : string) (mode umask : Z) : Task :=
  spawn_reply reply_ok_entry (Handlers.mkdir parent name mode (req_uid req) (req_gid req)).

Definition unlink (req : Request) (parent : Z) (name : string) : Task :=
  spawn_reply reply_ok_empty (Handlers.unlink parent name).

Definition rmdir (req : Request) (parent : Z) (name : string) : Task :=
  spawn_reply reply_ok_empty (Handlers.rmdir parent name).

Definition symlink (req : Request) (parent : Z) (name link : string) : Task :=
  spawn_reply reply_ok_entry (Handlers.symlink parent name link (req_uid req) (req_gid req)).

Definition rename (req : Request) (parent : Z) (name : string) (newparent : Z)
    (newname : string) (flags : Z) : Task :=
  spawn_reply reply_ok_empty (Handlers.rename parent name newparent newname).

Definition link (req : Request) (ino newparent : Z) (newname : string) : Task :=
  spawn_reply reply_ok_entry (Handlers.link ino newparent newname).

Definition open (req : Request) (ino flags : Z) : Task :=
  spawn_reply reply_ok_open (Handlers.open ino flags).

Definition read (req : Request) (ino fh offset size : Z) : Task :=
  spawn_reply reply_ok_data (Handlers.read fh offset size).

Definition write (req : Request) (ino fh offset : Z) (data : list Z) : Task :=
  spawn_reply reply_ok_write (Handlers.write fh offset data).

Definition flush (req : Request) (ino fh : Z) : Task :=
  spawn_reply reply_ok_empty (Handlers.flush fh).

Definition release (req : Request) (ino fh : Z) : Task :=
  spawn_reply reply_ok_empty (Handlers.release fh).

Definition fsync (req : Request) (ino fh : Z) : Task :=
  spawn_reply reply_ok_empty (Handlers.fsync fh).

Definition opendir (req : Request) (ino flags : Z) : Task :=
  spawn_reply reply_ok_open (Handlers.opendir ino flags).

(** The directory buffer is new; [Ok] sends it, an error drops it. *)
Definition readdir (req : Request) (ino fh offset : Z) : Task :=
  spawn_reply RepDirectory (Handlers.readdir fh offset []).

Definition releasedir (req : Request) (ino fh : Z) : Task :=
  spawn_reply reply_ok_empty (Handlers.releasedir fh).

Definition fsyncdir (req : Request) (ino fh : Z) : Task :=
  spawn_reply reply_ok_empty (Handlers.fsyncdir ino).

Definition statfs (req : Request) (ino : Z) : Task :=
  spawn_reply reply_ok_statfs (Handlers.statfs ino).

Definition setxattr (req : Request) (ino : Z) (name : string) (value : list Z) (flags : Z)
    : Task :=
  spawn_reply reply_ok_empty (Handlers.setxattr ino name value flags).

Definition getxattr (req : Request) (ino : Z) (name : string) (size : Z) : Task :=
  spawn_reply reply_ok_xattr (Handlers.getxattr ino name size).

Definition listxattr (req : Request) (ino size : Z) : Task :=
  spawn_reply reply_ok_xattr (Handlers.listxattr ino size).

Definition removexattr (req : Request) (ino : Z) (name : string) : Task :=
  spawn_reply reply_ok_empty (Handlers.removexattr ino name).

Definition access (req : Request) (ino mask : Z) : Task :=
  spawn_reply reply_ok_empty (Handlers.access ino mask).

Definition create (req : Request) (parent : Z) (name : string) (mode umask flags : Z) : Task :=
  spawn_reply reply_ok_create
    (Handlers.create parent name mode flags (req_uid req) (req_gid req)).

Definition getlk (req : Request) : Task := spawn_reply reply_ok_lock Handlers.getlk.

Definition setlk (req : Request) : Task := spawn_reply reply_ok_empty Handlers.setlk.

(** The handler replies [ENOSYS] itself. *)
Definition bmap (ino blocksize idx : Z) : Task := λ s, (Some (RepError ENOSYS), s).

End async_fs.
End AsyncFs.

(** A request of the kernel, with the arguments the session passes on. *)
Inductive FuseOp :=
| OpLookup (parent : Z) (name : string)
| OpForget (ino nlookup : Z)
| OpGetattr (ino : Z)
| OpSetattr (ino : Z) (mode uid gid size : option Z) (atime mtime : option TimeOrNow)
| OpReadlink (ino : Z)
| OpMknod (parent : Z) (name : string) (mode umask rdev : Z)
| OpMkdir (parent : Z) (name : string) (mode umask : Z)
| OpUnlink (parent : Z) (name : string)
| OpRmdir (parent : Z) (name : string)
| OpSymlink (parent : Z) (name link : string)
| OpRename (parent : Z) (name : string) (newparent : Z) (newname : string) (flags : Z)
| OpLink (ino newparent : Z) (newname : string)
| OpOpen (ino flags : Z)
| OpRead (ino fh offset size : Z)
| OpWrite (ino fh offset : Z) (data : list Z)
| OpFlush (ino fh : Z)
| OpRelease (ino fh : Z)
| OpFsync (ino fh : Z)
| OpOpendir (ino flags : Z)
| OpReaddir (ino fh offset : Z)
| OpReleasedir (ino fh : Z)
| OpFsyncdir (ino fh : Z)
| OpStatfs (ino : Z)
| OpSetxattr (ino : Z) (name : string) (value : list Z) (flags : Z)
| OpGetxattr (ino : Z) (name : string) (size : Z)
| OpListxattr (ino size : Z)
| OpRemovexattr (ino : Z) (name : string)
| OpAccess (ino mask : Z)
| OpCreate (parent : Z) (name : string) (mode umask flags : Z)
| OpGetlk
| OpSetlk
| OpBmap (ino blocksize idx : Z).

(** The [Filesystem] method of each request. *)
Definition serve `{X : Ext} (req : Request) (op : FuseOp)
    : FsState X → option FuseReply * FsState X :=
  match op with
  | OpLookup parent name => AsyncFs.lookup req parent name
  | OpForget ino nlookup => AsyncFs.forget ino nlookup
  | OpGetattr ino => AsyncFs.getattr req ino
  | OpSetattr ino mode uid gid size at_ mt => AsyncFs.setattr req ino mode uid gid size at_ mt
  | OpReadlink ino => AsyncFs.readlink req ino
  | OpMknod parent name mode umask rdev => AsyncFs.mknod req parent name mode umask rdev
  | OpMkdir parent name mode umask => AsyncFs.mkdir req parent name mode umask
  | OpUnlink parent name => AsyncFs.unlink req parent name
  | OpRmdir parent name => AsyncFs.rmdir req parent name
  | OpSymlink parent name link => AsyncFs.symlink req parent name link
  | OpRename parent name np nn flags => AsyncFs.rename req parent name np nn flags
  | OpLink ino newparent newname => AsyncFs.link req ino newparent newname
  | OpOpen ino flags => AsyncFs.open req ino flags
  | OpRead ino fh offset size => AsyncFs.read req ino fh offset size
  | OpWrite ino fh offset data => AsyncFs.write req ino fh offset data
  | OpFlush ino fh => AsyncFs.flush req ino fh
  | OpRelease ino fh => AsyncFs.release req ino fh
  | OpFsync ino fh => AsyncFs.fsync req ino fh
  | OpOpendir ino flags => AsyncFs.opendir req ino flags
  | OpReaddir ino fh offset => AsyncFs.readdir req ino fh offset
  | OpReleasedir ino fh => AsyncFs.releasedir req ino fh
  | OpFsyncdir ino fh => AsyncFs.fsyncdir req ino fh
  | OpStatfs ino => AsyncFs.statfs req ino
  | OpSetxattr ino name value flags => AsyncFs.setxattr req ino name value flags
  | OpGetxattr ino name size => AsyncFs.getxattr req ino name size
  | OpListxattr ino size => AsyncFs.listxattr req ino size
  | OpRemovexattr ino name => AsyncFs.removexattr req ino name
  | OpAccess ino mask => AsyncFs.access req ino mask
  | OpCreate parent name mode umask flags => AsyncFs.create req parent name mode umask flags
  | OpGetlk => AsyncFs.getlk req
  | OpSetlk => AsyncFs.setlk req
  | OpBmap ino blocksize idx => AsyncFs.bmap ino blocksize idx
  end.
