(* ===== verification/Locks.v ===== *)
(** * Lock discipline of the handlers

    The maps of [HookFs] and its injectors are behind [tokio::sync::RwLock]s.
    Every handler takes them in one global order, releases them on every
    path, and never takes a lock while it holds one of the same or a
    higher rank. [Deadlock.v] draws the consequence. *)

From S2P Require Import Prelude Path Float Types External Filter Injectors InodeMap HookFs FsImpl.
From S2P Require Import Dispatch.

#[local] Open Scope Z_scope.

(** ** The discipline *)

Definition rank (l : lock) : nat :=
  match l with
  | InodeMapLock => 0
  | OpenedFilesLock => 1
  | OpenedDirsLock => 2
  | InjectorLock => 3
  end.

(** The locks held after [evs], [None] if an acquisition is out of order
    or a release does not match. *)
Fixpoint scan (held : list lock) (evs : list event) : option (list lock) :=
  match evs with
  | [] => Some held
  | EAcquire l _ :: evs' =>
      if forallb (λ h, (rank h <? rank l)%nat) held then scan (l :: held) evs' else None
  | ERelease l :: evs' =>
      match held with
      | h :: held' => if decide (h = l) then scan held' evs' else None
      | [] => None
      end
  | _ :: evs' => scan held evs'
  end.

Lemma scan_app held e1 e2 : scan held (e1 ++ e2) = h ← scan held e1; scan h e2.
Proof.
  revert held. induction e1 as [|e e1 IH]; intros held; [done|].
  destruct e as [c|n|l m|l]; simpl; auto.
  - case_match; auto.
  - destruct held as [|h held]; [done|]. by case_decide.
Qed.

(** A run that extends the trace by events that keep [held] held. *)
Definition extends (P : list event → Prop) (t t' : list event) : Prop :=
  ∃ evs, t' = t ++ evs ∧ P evs.

Definition keeps_held (held : list lock) (evs : list event) : Prop :=
  scan held evs = Some held.

#[export] Instance extends_preorder (P : list event → Prop) :
  P [] → (∀ a b, P a → P b → P (a ++ b)) → PreOrder (extends P).
Proof.
  intros Hnil Happ. split.
  - intros t. exists []. by rewrite app_nil_r.
  - intros t1 t2 t3 (e1 & -> & H1) (e2 & -> & H2). exists (e1 ++ e2).
    by rewrite app_assoc; split; [|apply Happ].
Qed.

Lemma keeps_held_nil held : keeps_held held [].
Proof. done. Qed.

Lemma keeps_held_app held a b :
  keeps_held held a → keeps_held held b → keeps_held held (a ++ b).
Proof. unfold keeps_held. intros Ha Hb. by rewrite scan_app, Ha. Qed.

(** Injectors only delay: no system call, no lock. *)
Definition is_delay (e : event) : Prop := match e with EDelay _ => True | _ => False end.

Lemma delays_keep held evs : Forall is_delay evs → keeps_held held evs.
Proof. unfold keeps_held. induction 1 as [|[] evs He _ IH]; simpl in *; done. Qed.

Section locks.
Context `{X : Ext}.

Definition disc (held : list lock) (s s' : FsState X) : Prop :=
  extends (keeps_held held) (trace (fs_io s)) (trace (fs_io s')).

#[export] Instance disc_preorder held : PreOrder (disc held).
Proof.
  assert (PreOrder (extends (keeps_held held))) as HP.
  { apply extends_preorder; [apply keeps_held_nil|apply keeps_held_app]. }
  split; [intros s; apply HP|intros s1 s2 s3; apply HP].
Qed.

Definition quiet (io io' : IO X) : Prop := extends (Forall is_delay) (trace io) (trace io').

#[export] Instance quiet_preorder : PreOrder quiet.
Proof.
  assert (PreOrder (extends (Forall is_delay))) as HP.
  { apply extends_preorder; [done|apply Forall_app_2]. }
  split; [intros s; apply HP|intros s1 s2 s3; apply HP].
Qed.

Lemma quiet_same (io : IO X) w : quiet io (set_world w io).
Proof. exists []. by rewrite app_nil_r. Qed.

(** ** The injectors are quiet *)

Lemma evolves_if {E A} {S : Type} (R : S → S → Prop) (b : bool) (m1 m2 : M S E A) :
  evolves R m1 → evolves R m2 → evolves R (if b then m1 else m2).
Proof. by destruct b. Qed.

Lemma rng_gen_quiet {E} : evolves quiet (rng_gen (E:=E)).
Proof. intros io. unfold rng_gen. destruct (gen_f64 _). apply quiet_same. Qed.

Lemma rng_gen_range_quiet {E} lo hi : evolves quiet (rng_gen_range (E:=E) lo hi).
Proof.
  intros io. unfold rng_gen_range. case_match; [|simpl; reflexivity].
  destruct (gen_range _ _ _). apply quiet_same.
Qed.

Lemma rng_fill_quiet {E} n : evolves quiet (rng_fill (E:=E) n).
Proof. intros io. unfold rng_fill. destruct (gen_bytes _ _). apply quiet_same. Qed.

Lemma delay_for_quiet {E} n : evolves quiet (delay_for (E:=E) n).
Proof. intros io. by exists [EDelay n]; split; [|repeat constructor]. Qed.

Lemma filter_quiet {E} (f : Filter X) m p : evolves quiet (filter (E:=E) f m p).
Proof. apply evolves_bind; [apply _|apply rng_gen_quiet|intros; apply evolves_ret, _]. Qed.

End locks.

#[export] Hint Resolve rng_gen_quiet rng_gen_range_quiet rng_fill_quiet delay_for_quiet
  filter_quiet evolves_if : toda.

Section injector_quiet.
Context `{X : Ext}.

Lemma inject_one_quiet (i : Injector X) m p : evolves quiet (inject_one i m p).
Proof. destruct i; cbn [inject_one]; unfold fault_inject, latency_inject; evolve. Qed.

Lemma sabotage_quiet c d : evolves quiet (sabotage (X:=X) c d).
Proof. unfold sabotage, fill_slice. evolve. Qed.

Lemma sabotage_loop_quiet n c d : evolves quiet (sabotage_loop (X:=X) n c d).
Proof.
  revert d. induction n as [|n IH]; intros d; cbn [sabotage_loop]; [evolve|].
  apply evolves_bind; [apply _|apply sabotage_quiet|done].
Qed.

Lemma handle_quiet (i : MistakeInjector X) d : evolves quiet (handle i d).
Proof.
  unfold handle. apply evolves_bind; [apply _|evolve|intros; apply sabotage_loop_quiet].
Qed.

Hint Resolve inject_one_quiet handle_quiet : toda.

Lemma multi_inject_quiet (is_ : MultiInjector X) m p : evolves quiet (multi_inject is_ m p).
Proof. unfold multi_inject. eauto with toda. Qed.

Lemma multi_inject_reply_quiet (is_ : MultiInjector X) m p r :
  evolves quiet (multi_inject_reply is_ m p r).
Proof.
  revert r. induction is_ as [|i is_ IH]; intros r; cbn [multi_inject_reply]; [evolve|].
  apply evolves_bind; [apply _| |done].
  destruct i; cbn [inject_reply_one]; unfold mistake_inject_reply; evolve.
Qed.

Lemma multi_inject_write_data_quiet (is_ : MultiInjector X) p d :
  evolves quiet (multi_inject_write_data is_ p d).
Proof.
  revert d. induction is_ as [|i is_ IH]; intros d; cbn [multi_inject_write_data]; [evolve|].
  apply evolves_bind; [apply _| |done].
  destruct i; cbn [inject_write_data_one]; unfold mistake_inject_write_data; evolve.
Qed.

Lemma multi_inject_attr_quiet (is_ : MultiInjector X) a p :
  evolves quiet (multi_inject_attr is_ a p).
Proof.
  revert a. induction is_ as [|i is_ IH]; intros a; cbn [multi_inject_attr]; [evolve|].
  apply evolves_bind; [apply _| |done].
  destruct i; cbn [inject_attr_one]; unfold attr_inject_attr; evolve.
Qed.

End injector_quiet.

#[export] Hint Resolve multi_inject_quiet multi_inject_reply_quiet multi_inject_write_data_quiet
  multi_inject_attr_quiet : toda.

(** ** The rules of the discipline *)

Section disc_rules.
Context `{X : Ext}.

Lemma lift_io_disc {A} held (m : M (IO X) HookFsError A) :
  evolves quiet m → evolves (disc held) (lift_io m).
Proof.
  intros Hm. unfold lift_io. apply (evolves_zoom _ quiet); [done|].
  intros s t (evs & Ht & Hd). exists evs. split; [done|]. by apply delays_keep.
Qed.

Lemma call_disc held c : evolves (disc held) (call (X:=X) c).
Proof.
  intros s. unfold call, lift_io, zoom, sys. destruct (kcall c (world (fs_io s))) as [r w].
  by exists [ECall c].
Qed.

Lemma with_lock_disc {A} held l m (body : M (FsState X) HookFsError A) :
  forallb (λ h, (rank h <? rank l)%nat) held = true →
  evolves (disc (l :: held)) body → evolves (disc held) (with_lock l m body).
Proof.
  intros Hl Hb s. unfold with_lock, bind, modify, finally.
  specialize (Hb (on_io (log (EAcquire l m)) s)) as (evs & Ht & Hk).
  destruct (body _) as [r s'] eqn:Hr. cbn [snd] in *. unfold disc.
  exists (EAcquire l m :: evs ++ [ERelease l]). split.
  - cbn [on_io fs_io log trace] in *. rewrite Ht. by rewrite <- !app_assoc.
  - unfold keeps_held in *. simpl. rewrite Hl, scan_app, Hk. simpl. by rewrite decide_True.
Qed.

Lemma spawn_blocking_disc {A} held (m : M (FsState X) HookFsError A) :
  evolves (disc held) m → evolves (disc held) (spawn_blocking m).
Proof. intros Hm s. specialize (Hm s). unfold spawn_blocking. by destruct (m s) as [[]]. Qed.

Lemma on_hook_disc held (f : HookFs X → HookFs X) :
  evolves (E:=HookFsError) (disc held) (modify (on_hook f)).
Proof. apply evolves_modify. intros s. exists []. by rewrite app_nil_r. Qed.

End disc_rules.

#[export] Hint Resolve lift_io_disc call_disc spawn_blocking_disc on_hook_disc : toda.

(** [evolve] with the rules that open a block. *)
Ltac disc :=
  repeat match goal with
  | |- evolves _ (with_lock _ _ _) => apply with_lock_disc; [reflexivity|]
  | |- evolves _ (spawn_blocking _) => apply spawn_blocking_disc
  | |- evolves _ (try _) => apply evolves_try
  | |- _ => evolve_step
  end.

Section disc_helpers.
Context `{X : Ext}.

Lemma rebuild_path_disc held p : evolves (disc held) (rebuild_path (X:=X) p).
Proof. unfold rebuild_path. evolve. Qed.

Hint Resolve rebuild_path_disc : toda.

(** The injection macros take the injector lock last. *)
Definition below_injector (held : list lock) : Prop :=
  forallb (λ h, (rank h <? rank InjectorLock)%nat) held = true.

Lemma inject_disc held m p : below_injector held → evolves (disc held) (inject (X:=X) m p).
Proof. intros Hh. unfold inject. evolve. apply with_lock_disc; [done|]. evolve. Qed.

Lemma inject_attr_disc held a p :
  below_injector held → evolves (disc held) (inject_attr (X:=X) a p).
Proof. intros Hh. unfold inject_attr. evolve. apply with_lock_disc; [done|]. evolve. Qed.

Lemma inject_reply_as_disc {R} held w u m p (r : R) :
  below_injector held → evolves (disc held) (inject_reply_as (X:=X) w u m p r).
Proof.
  intros Hh. unfold inject_reply_as, inject_reply. evolve.
  apply with_lock_disc; [done|]. evolve.
Qed.

Lemma cstring_disc held s : evolves (disc held) (cstring (X:=X) s).
Proof. unfold cstring. evolve. Qed.

Lemma libc_check_disc held bad r : evolves (disc held) (libc_check (X:=X) bad r).
Proof. unfold libc_check. evolve. Qed.

Lemma nix_call_disc {A} held c (f : sys_ret c → nix_result A) :
  evolves (disc held) (nix_call (X:=X) c f).
Proof. unfold nix_call. apply spawn_blocking_disc. evolve. Qed.

Hint Resolve cstring_disc libc_check_disc nix_call_disc inject_attr_disc : toda.

Lemma get_file_attr_disc held p :
  below_injector held → evolves (disc held) (get_file_attr (X:=X) p).
Proof. intros Hh. unfold get_file_attr, async_stat. evolve. Qed.

Lemma get_path_disc held i : evolves (disc held) (get_path (X:=X) i).
Proof. unfold get_path. evolve. Qed.

Lemma remember_path_disc held i p : evolves (disc held) (remember_path (X:=X) i p).
Proof. unfold remember_path, update_inode_map. evolve. Qed.

Lemma insert_file_disc held f :
  forallb (λ h, (rank h <? rank OpenedFilesLock)%nat) held = true →
  evolves (disc held) (insert_file (X:=X) f).
Proof. intros Hh. unfold insert_file. apply with_lock_disc; [done|]. evolve. Qed.

Lemma insert_dir_disc held d :
  forallb (λ h, (rank h <? rank OpenedDirsLock)%nat) held = true →
  evolves (disc held) (insert_dir (X:=X) d).
Proof. intros Hh. unfold insert_dir. apply with_lock_disc; [done|]. evolve. Qed.

End disc_helpers.

#[export] Hint Resolve rebuild_path_disc cstring_disc libc_check_disc nix_call_disc
  get_path_disc remember_path_disc : toda.
#[export] Hint Extern 2 (evolves _ (inject _ _)) => apply inject_disc; reflexivity : toda.
#[export] Hint Extern 2 (evolves _ (inject_attr _ _)) =>
  apply inject_attr_disc; reflexivity : toda.
#[export] Hint Extern 2 (evolves _ (inject_reply_as _ _ _ _ _)) =>
  apply inject_reply_as_disc; reflexivity : toda.
#[export] Hint Extern 2 (evolves _ (get_file_attr _)) =>
  apply get_file_attr_disc; reflexivity : toda.
#[export] Hint Extern 2 (evolves _ (insert_file _)) =>
  apply insert_file_disc; reflexivity : toda.
#[export] Hint Extern 2 (evolves _ (insert_dir _)) =>
  apply insert_dir_disc; reflexivity : toda.

(** The definitions that only name a composition of other statements. *)
Create HintDb toda_unfold.
#[export] Hint Unfold inject_with_ino inject_with_fh inject_with_dir_fh
  inject_with_parent_and_name inject_write_data inject_reply_entry inject_reply_open
  inject_reply_attr inject_reply_data inject_reply_statfs inject_reply_write
  inject_reply_create inject_reply_xattr async_setxattr async_getxattr async_read async_write
  async_stat async_lchown async_fchmodat async_truncate async_utimensat async_readlink
  async_mknod async_mkdir async_unlink async_rmdir async_open async_close update_inode_map
  : toda_unfold.

(** Opening a request down to the statements of its handler. *)
Ltac unfold_session :=
  unfold AsyncFs.lookup, AsyncFs.forget, AsyncFs.getattr, AsyncFs.setattr, AsyncFs.readlink,
    AsyncFs.mknod, AsyncFs.mkdir, AsyncFs.unlink, AsyncFs.rmdir, AsyncFs.symlink,
    AsyncFs.rename, AsyncFs.link, AsyncFs.open, AsyncFs.read, AsyncFs.write, AsyncFs.flush,
    AsyncFs.release, AsyncFs.fsync, AsyncFs.opendir, AsyncFs.readdir, AsyncFs.releasedir,
    AsyncFs.fsyncdir, AsyncFs.statfs, AsyncFs.setxattr, AsyncFs.getxattr, AsyncFs.listxattr,
    AsyncFs.removexattr, AsyncFs.access, AsyncFs.create, AsyncFs.getlk, AsyncFs.setlk,
    AsyncFs.bmap.

Ltac unfold_handler :=
  unfold Handlers.lookup, Handlers.forget, Handlers.getattr, Handlers.setattr,
    Handlers.readlink, Handlers.mknod, Handlers.mkdir, Handlers.unlink, Handlers.rmdir,
    Handlers.symlink, Handlers.rename, Handlers.link, Handlers.open, Handlers.read,
    Handlers.write, Handlers.flush, Handlers.release, Handlers.fsync, Handlers.opendir,
    Handlers.readdir, Handlers.releasedir, Handlers.fsyncdir, Handlers.statfs,
    Handlers.setxattr, Handlers.getxattr, Handlers.listxattr, Handlers.removexattr,
    Handlers.access, Handlers.create, Handlers.getlk, Handlers.setlk.

Section disc_handlers.
Context `{X : Ext}.

Lemma readdir_loop_disc held i es r : evolves (disc held) (Handlers.readdir_loop (X:=X) i es r).
Proof.
  revert i r. induction es as [|e es IH]; intros i r; cbn [Handlers.readdir_loop]; evolve.
Qed.

Hint Resolve readdir_loop_disc : toda.

(** A handler of the session starts and ends with no lock held. *)
Lemma serve_disc req op (s : FsState X) : disc [] s (serve req op s).2.
Proof.
  assert (∀ A (ok : A → FuseReply) (m : M (FsState X) HookFsError A),
    evolves (disc []) m → disc [] s (AsyncFs.spawn_reply ok m s).2) as Hsp.
  { intros A ok m Hm. specialize (Hm s). unfold AsyncFs.spawn_reply. by destruct (m s). }
  assert (∀ (m : M (FsState X) HookFsError unit),
    evolves (disc []) m → disc [] s (None (A:=FuseReply), (m s).2).2) as Hfg by (intros m Hm; apply Hm).
  destruct op; cbn [serve]; unfold_session; first [apply Hsp|apply Hfg|idtac];
    unfold_handler; autounfold with toda_unfold; try reflexivity; disc.
Qed.

End disc_handlers.
