(* ===== verification/PtraceProps.v ===== *)
(** * Properties of the tracer

    The reference counts of [PtraceManager], the termination of [trace],
    and what is left of an operation of [TracedProcess] in the traced
    process: its registers and the instruction it was stopped at. *)

From Stdlib Require Import Ascii.
From S2P Require Import Prelude Path Float Types Asm External Concrete Ptrace.

#[local] Open Scope Z_scope.

Section props.
Context `{PX : PtraceExt, RT : Retry}.
Abbreviation PM A := (M PState perr A).

(** ** What the programs return and leave alone *)

(** [settles m]: [m] neither panics nor waits. *)
Definition settled {A} (r : outcome perr A) : Prop :=
  match r with Done _ | Fail (Err _) => True | _ => False end.

Definition settles {A} (m : PM A) : Prop := ∀ s, settled (m s).1.

Lemma settles_bind {A B} (m : PM A) (k : A → PM B) :
  settles m → (∀ a, settles (k a)) → settles (bind m k).
Proof.
  intros Hm Hk s. unfold bind. specialize (Hm s).
  destruct (m s) as [[a|[e|]|] s']; simpl in *; try done. apply Hk.
Qed.

Lemma settles_ret {A} (a : A) : settles (ret a).
Proof. by intros s. Qed.

Lemma settles_pcall c : settles (pcall_do c).
Proof. intros s. unfold pcall_do. by destruct (pcall_run c (p_world s)). Qed.

Lemma settles_ok_proc {A} (r : ProcError + A) : settles (lift (ok_proc r)).
Proof. intros s. by destruct r. Qed.

Lemma settles_ok_nix {A} (r : nix_result A) : settles (lift (ok_nix r)).
Proof. intros s. by destruct r. Qed.

Lemma settles_try {A} (m : PM A) : settles m → settles (try_err m).
Proof.
  intros Hm s. specialize (Hm s). unfold try_err. by destruct (m s) as [[a|[e|]|] s'].
Qed.

Lemma settles_for_each {A} (f : A → PM unit) l : (∀ x, settles (f x)) → settles (for_each f l).
Proof.
  intros Hf. induction l as [|x l IH]; simpl; [apply settles_ret|]. by apply settles_bind.
Qed.

Lemma settles_retry {A} (sl : PM unit) n (op : PM A) :
  settles sl → settles op → settles (retry sl n op).
Proof.
  intros Hsl Hop. induction n as [|n IH]; intros s; [rewrite retry_last; apply Hop|].
  rewrite retry_again. specialize (Hop s). destruct (op s) as [[a|[e|]|] s']; simpl in *; try done.
  by apply settles_bind.
Qed.

Lemma settles_attach_task t : settles (attach_task t).
Proof.
  unfold attach_task. apply settles_bind; [apply settles_pcall|intros r].
  apply settles_bind; [apply settles_ok_proc|intros st].
  apply settles_bind; [apply settles_pcall|intros r'].
  apply settles_bind; [|intros _; apply settles_bind; [apply settles_pcall|intros; apply settles_ret]].
  intros s. unfold lift, attach_result. destruct r' as [[]|]; simpl; try done. by case_match.
Qed.

Lemma settles_detach_attempt pid : settles (detach_attempt pid).
Proof.
  unfold detach_attempt. apply settles_bind; [apply settles_pcall|intros [[]|]]; try done.
  apply settles_bind; [apply settles_pcall|intros [|tasks]]; [done|].
  apply settles_for_each. intros [t|]; [|apply settles_ret].
  apply settles_bind; [apply settles_pcall|intros; apply settles_ret].
Qed.

(** [same_counter]: the counter is not touched. *)
Definition same_counter (s s' : PState) : Prop := counter s' = counter s.

#[export] Instance same_counter_preorder : PreOrder same_counter.
Proof. split; [done|]. unfold same_counter. by intros s1 s2 s3 -> ->. Qed.

End props.

Section same.
Context `{PX : PtraceExt, RT : Retry}.
Abbreviation PM A := (M PState perr A).

Lemma pcall_same c : evolves same_counter (pcall_do c).
Proof. intros s. unfold pcall_do. by destruct (pcall_run c (p_world s)). Qed.

Lemma try_err_evolves (R : PState → PState → Prop) {A} (m : PM A) :
  evolves R m → evolves R (try_err m).
Proof.
  intros Hm s. specialize (Hm s). unfold try_err. by destruct (m s) as [[a|[e|]|] s'].
Qed.

Lemma nix_do_same {A} c (f : pcall_ret c → nix_result A) : evolves same_counter (nix_do c f).
Proof.
  unfold nix_do. apply (evolves_bind same_counter); [apply pcall_same|eauto with toda].
Qed.

End same.

#[export] Hint Resolve pcall_same try_err_evolves nix_do_same : toda.
#[export] Hint Resolve settles_bind settles_ret settles_pcall settles_ok_proc settles_ok_nix
  settles_try settles_for_each settles_retry settles_attach_task settles_detach_attempt : toda.

(** Running the structure of a program that leaves the counter alone. *)
Ltac same :=
  repeat match goal with
  | |- evolves _ (bind _ _) => apply evolves_bind; [apply _| |]
  | |- evolves _ (loop_upto _ _ _) => apply evolves_loop; [apply _|]
  | |- evolves _ (for_each _ _) => apply evolves_for_each; [apply _|]
  | |- evolves _ (retry _ _ _) => apply evolves_retry; [apply _| |]
  | |- ∀ _, _ => intro
  | |- _ => solve [eauto 3 with toda]
  | |- evolves _ (let _ := _ in _) => cbv zeta
  | |- evolves _ (match ?x with _ => _ end) => destruct x
  end.

(** ** The calls of a run

    A state follows another by the calls that are added to its log, one
    after the other; the counter may change. *)
Section follows.
Context `{PX : PtraceExt, RT : Retry}.
Abbreviation PM A := (M PState perr A).

Definition replay (l : list pcall) (w : PWorld) : PWorld :=
  fold_left (λ w c, (pcall_run c w).2) l w.

Definition follows (s s' : PState) : Prop :=
  ∃ l, p_calls s' = p_calls s ++ l ∧ p_world s' = replay l (p_world s).

#[export] Instance follows_preorder : PreOrder follows.
Proof.
  split; [intros s; exists []; by rewrite app_nil_r|].
  intros s1 s2 s3 (l1 & C1 & W1) (l2 & C2 & W2). exists (l1 ++ l2). split.
  - by rewrite C2, C1, <- app_assoc.
  - unfold replay in *. by rewrite fold_left_app, <- W1.
Qed.

Lemma pcall_follows c : evolves follows (pcall_do c).
Proof.
  intros s. unfold pcall_do. destruct (pcall_run c (p_world s)) as [r w] eqn:Hc. exists [c].
  split; [done|]. simpl. by rewrite Hc.
Qed.

Lemma count_follows f : evolves (E:=perr) follows (modify (set_counter f)).
Proof. apply (evolves_modify follows). intros s. exists []. by rewrite app_nil_r. Qed.

(** The outside answered the call so in the run from [s] to [s']. *)
Definition answered (s s' : PState) (c : pcall) (r : pcall_ret c) : Prop :=
  ∃ s1 s2, follows s s1 ∧ pcall_do c s1 = (Done r, s2) ∧ follows s2 s'.

Lemma answered_mono s0 s s' s1 c r : follows s0 s → follows s' s1 → answered s s' c r → answered s0 s1 c r.
Proof.
  intros H0 H1 (sa & sb & Ha & Hc & Hb). exists sa, sb. split_and!; [by etrans|done|by etrans].
Qed.

Lemma answered_run s s' c r : answered s s' c r → ∃ w w', pcall_run c w = (r, w').
Proof.
  intros (sa & sb & _ & Hc & _). unfold pcall_do in Hc.
  destruct (pcall_run c (p_world sa)) as [r' w'] eqn:Hr. injection Hc as -> _. eauto.
Qed.

End follows.

#[export] Hint Resolve pcall_follows count_follows : toda.

(** ** [trace] terminates *)
Section trace.
Context `{PX : PtraceExt, RT : Retry}.
Abbreviation PM A := (M PState perr A).

(** A set of 32-bit thread ids. *)
Definition tids (X : gset Z) : Prop := ∀ t, t ∈ X → in_s 32 t.

Lemma tids_size X : tids X → Z.of_nat (base.size X) ≤ 2 ^ 32.
Proof.
  intros HX. assert (X ⊆ list_to_set (seqZ (-2 ^ 31) (2 ^ 32))) as Hsub.
  { intros t Ht. apply elem_of_list_to_set, elem_of_seqZ. specialize (HX t Ht).
    unfold in_s in HX. simpl in HX. lia. }
  apply subseteq_size in Hsub. rewrite size_list_to_set in Hsub by apply NoDup_seqZ.
  rewrite length_seqZ in Hsub. lia.
Qed.

(** The calls of a kind that a run has added to the log. *)
Definition is_tasks (c : pcall) : bool := match c with PTasks _ => true | _ => false end.
Definition is_attach (c : pcall) : bool := match c with PAttach _ => true | _ => false end.

Definition count (f : pcall → bool) (s : PState) : Z :=
  Z.of_nat (length (List.filter f (p_calls s))).

Lemma count_pcall f c s : count f (pcall_do c s).2 = count f s + (if f c then 1 else 0).
Proof.
  unfold count, pcall_do. destruct (pcall_run c (p_world s)). simpl.
  rewrite List.filter_app, length_app. simpl. destruct (f c); simpl; lia.
Qed.

(** A program that lists no threads, and possibly attaches. *)
Definition attaching (s s' : PState) : Prop :=
  count is_tasks s' = count is_tasks s ∧ count is_attach s ≤ count is_attach s'.

#[export] Instance attaching_preorder : PreOrder attaching.
Proof.
  split; [by intros s|]. unfold attaching. intros s1 s2 s3 [-> ?] [-> ?]. split; [done|lia].
Qed.

Lemma attaching_pcall c : is_tasks c = false → evolves attaching (pcall_do c).
Proof. intros Hc s. unfold attaching. rewrite !count_pcall, Hc. destruct (is_attach c); lia. Qed.

Lemma attach_task_attaching t : evolves attaching (attach_task t).
Proof.
  unfold attach_task.
  repeat (apply (evolves_bind attaching);
    [first [by apply attaching_pcall|apply (evolves_lift attaching)]|intros ?]).
  apply (evolves_ret attaching).
Qed.

(** A thread that is attached costs an attach call. *)
Lemma attach_task_done t s s' :
  attach_task t s = (Done tt, s') → count is_attach s < count is_attach s'.
Proof.
  unfold attach_task, bind at 1. destruct (pcall_do (PProcess t) s) as [[r|?|] s1] eqn:H1; try done.
  pose proof (count_pcall is_attach (PProcess t) s) as C1. rewrite H1 in C1.
  unfold bind at 1, lift at 1. destruct (ok_proc r) as [st|?|]; try done. unfold bind at 1.
  destruct (pcall_do (PAttach t) s1) as [[r2|?|] s2] eqn:H2; try done.
  pose proof (count_pcall is_attach (PAttach t) s1) as C2. rewrite H2 in C2. simpl in C1, C2.
  match goal with |- ?m s2 = _ → _ => assert (evolves attaching m) as Hm end.
  { repeat (apply (evolves_bind attaching);
      [first [by apply attaching_pcall|apply (evolves_lift attaching)]|intros ?]).
    apply (evolves_ret attaching). }
  intros Hr. specialize (Hm s2). rewrite Hr in Hm. destruct Hm as [_ Hm]. simpl in Hm. lia.
Qed.

(** A pass over the threads: it settles, and if it finds a new thread it
    has attached to one more and the set of traced threads has grown. *)
Lemma attach_tasks_spec tasks X b s :
  tids X →
  ∃ X' b' s', attach_tasks tasks X b s = (Done (X', b'), s') ∧ tids X' ∧ X ⊆ X' ∧ attaching s s' ∧
    (b' = b ∧ X' = X ∨ b' = true ∧ (base.size X < base.size X')%nat ∧ count is_attach s < count is_attach s').
Proof.
  revert X b s. induction tasks as [|[t|] tasks IH]; intros X b s HX; simpl.
  - exists X, b, s. split_and!; try done. by left.
  - destruct (decide (as_i32 t ∈ X)) as [Ht|Ht]; [by apply IH|].
    unfold bind, try_err. pose proof (settles_attach_task (as_i32 t) s) as Hs.
    pose proof (attach_task_attaching (as_i32 t) s) as Ha.
    pose proof (attach_task_done (as_i32 t) s) as Hd.
    destruct (attach_task (as_i32 t) s) as [[[]|[e|]|] s1]; simpl in Hs, Ha; try done.
    + assert (tids ({[as_i32 t]} ∪ X)) as HX1.
      { intros t' [->%elem_of_singleton|?]%elem_of_union; [by apply swrap_in|by apply HX]. }
      destruct (IH _ true s1 HX1) as (X' & b' & s' & Hr & HX' & Hsub & Hat & Hor).
      exists X', b', s'. split_and!; [done|done|set_solver|by etrans|]. right.
      specialize (Hd s1 eq_refl). destruct Hat as [_ Hat].
      apply subseteq_size in Hsub. rewrite size_union, size_singleton in Hsub by set_solver.
      destruct Hor as [[-> ->]|(-> & Hsz & Hc)]; (split_and!; [done|lia|lia]).
    + destruct (IH X b s1 HX) as (X' & b' & s' & Hr & HX' & Hsub & Hat & Hor).
      exists X', b', s'. split_and!; [done|done|done|by etrans|]. destruct Ha as [_ Ha].
      destruct Hor as [Hor|(? & ? & ?)]; [by left|]. right. split_and!; [done..|lia].
  - by apply IH.
Qed.

(** The invariant of the loop: the rounds so far have listed the threads
    at most once per new thread, and twice more. *)
Definition round_inv (s0 : PState) (st : Z * gset Z) (s : PState) : Prop :=
  0 ≤ st.1 ≤ 2 ∧ tids st.2 ∧ counter s = counter s0 ∧
  count is_tasks s - count is_tasks s0 + st.1 ≤ count is_attach s - count is_attach s0 + 2.

(** What is left to find. *)
Definition round_measure (st : Z * gset Z) : Z := 2 ^ 32 - Z.of_nat (base.size st.2) + st.1.

(** Every call returns; it counts as what it is. *)
Lemma pcall_case c s :
  ∃ r s', pcall_do c s = (Done r, s') ∧ counter s' = counter s ∧
    count is_tasks s' = count is_tasks s + (if is_tasks c then 1 else 0) ∧
    count is_attach s' = count is_attach s + (if is_attach c then 1 else 0).
Proof.
  pose proof (count_pcall is_tasks c s) as C1. pose proof (count_pcall is_attach c s) as C2.
  pose proof (pcall_same c s) as C3. unfold pcall_do in *.
  destruct (pcall_run c (p_world s)) as [r w]. eauto 7.
Qed.

Lemma attach_tasks_same tasks X b : evolves same_counter (attach_tasks tasks X b).
Proof.
  revert X b. induction tasks as [|[t|] tasks IH]; intros X b; simpl; [eauto with toda| |auto].
  case_decide; [auto|]. apply (evolves_bind same_counter).
  - apply try_err_evolves. unfold attach_task. same.
  - intros [[]|]; auto.
Qed.

Lemma trace_round_spec pid st s0 s :
  round_inv s0 st s →
  ∃ r s', trace_round pid st s = (r, s') ∧ counter s' = counter s0 ∧ settled r ∧
    count is_tasks s' - count is_tasks s0 ≤ count is_attach s' - count is_attach s0 + 2 ∧
    match r with
    | Done (inl st') => round_inv s0 st' s' ∧ 0 ≤ round_measure st' < round_measure st
    | _ => True
    end.
Proof.
  destruct st as [it X]. intros (Hit & HX & Hcnt & Hc). unfold trace_round. simpl in *.
  destruct (Z.ltb_spec 0 it); [|exists (Done (inr tt)), s; split_and!; done || lia].
  destruct (pcall_case (PProcess pid) s) as (r1 & s1 & H1 & K1 & C1 & D1). simpl in C1, D1.
  unfold bind at 1. rewrite H1. unfold bind at 1, lift at 1.
  destruct r1 as [e|st]; cbn [ok_proc]; [eexists _, s1; split_and!; done || congruence || lia|].
  destruct (pcall_case (PTasks pid) s1) as (r2 & s2 & H2 & K2 & C2 & D2). simpl in C2, D2.
  unfold bind at 1. rewrite H2. unfold bind at 1, lift at 1.
  destruct r2 as [e|tasks]; cbn [ok_proc]; [eexists _, s2; split_and!; done || congruence || lia|].
  destruct (attach_tasks_spec tasks X false s2 HX) as (X' & b & s3 & Hr & HX' & Hsub & [Ht Ha] & Hor).
  pose proof (attach_tasks_same tasks X false s2) as K3. unfold bind at 1. rewrite Hr in *.
  unfold same_counter, ret in *. simpl in K3.
  eexists _, s3. split; [done|]. split; [congruence|]. split; [done|].
  pose proof (tids_size X' HX') as HB. unfold round_inv, round_measure. simpl.
  destruct Hor as [[-> ->]|(-> & Hsz & Hca)]; split_and!; done || congruence || lia.
Qed.

Lemma trace_loop_spec pid s :
  ∃ r s', trace_loop pid s = (r, s') ∧ counter s' = counter s ∧ settled r ∧
    count is_tasks s' - count is_tasks s ≤ count is_attach s' - count is_attach s + 2.
Proof.
  assert (round_inv s (2, ∅) s) as H0.
  { unfold round_inv. simpl. split_and!; done || lia. }
  assert (0 ≤ round_measure (2, ∅) < 4294967299) as Hμ.
  { unfold round_measure. cbn [fst snd]. rewrite size_empty. lia. }
  assert (∀ n st s1, round_inv s st s1 → 0 ≤ round_measure st →
    ∃ r s', loop_rounds n (trace_round pid) st s1 = (r, s') ∧ counter s' = counter s ∧ settled r ∧
      count is_tasks s' - count is_tasks s ≤ count is_attach s' - count is_attach s + 2 ∧
      (∀ st', r = Done (inl st') → 0 ≤ round_measure st' ≤ round_measure st - Z.of_nat n)) as Hl.
  { induction n as [|n IH]; intros st s1 Hi Hm.
    - exists (Done (inl st)), s1. destruct Hi as (? & ? & ? & ?).
      split_and!; try done; [lia|]. intros st' [= <-]. lia.
    - destruct (trace_round_spec pid st s s1 Hi) as (r & s2 & Hr & Hk & Hs & Hc & Hn).
      simpl. unfold bind. rewrite Hr. destruct r as [[st2|[]]|[e|]|]; try done.
      2-3: eexists _, s2; by split_and!.
      destruct Hn as [Hi2 Hm2]. destruct (IH st2 s2 Hi2 ltac:(lia)) as (r & s' & Hr' & Hk' & Hs' & Hc' & Hst').
      exists r, s'. split_and!; try done. intros st' Hd. specialize (Hst' st' Hd). lia. }
  unfold trace_loop, bind. rewrite loop_upto_rounds.
  destruct (Hl (Pos.to_nat trace_rounds) _ _ H0 ltac:(lia)) as (r & s' & -> & Hk & Hs & Hc & Hst).
  destruct r as [[st|[]]|[e|]|]; try done.
  2-3: eexists _, s'; by split_and!.
  specialize (Hst st eq_refl). unfold trace_rounds in *. lia.
Qed.

(** C15: tracing a process ends, however many threads it starts meanwhile:
    [trace] returns a handle or an error, without panicking and within
    the bound on its rounds, and it lists the threads at most two more
    times than it attaches to one. *)
Theorem trace_terminates pid (s : PState) :
  ∃ r s', trace pid s = (r, s') ∧ settled r ∧ (∀ p, r = Done p → p = pid) ∧
    count is_tasks s' - count is_tasks s ≤ count is_attach s' - count is_attach s + 2.
Proof.
  unfold trace, bind at 1, gets. destruct (counter s !! pid) as [c|].
  - exists (Done pid), (set_counter <[pid := as_i32 (c + 1)]> s).
    split_and!; try done; [by intros p [= <-]|]. unfold count. simpl. lia.
  - destruct (trace_loop_spec pid s) as (r & s' & Hr & _ & Hs & Hc). unfold bind. rewrite Hr.
    destruct r as [[]|[e|]|]; try done.
    + exists (Done pid), (set_counter <[pid := 1]> s'). split_and!; try done. by intros p [= <-].
    + by exists (Fail (Err e)), s'.
Qed.

End trace.

(** ** The programs of a handle, by their calls *)
Section handle_calls.
Context `{PX : PtraceExt, RT : Retry}.
Abbreviation PM A := (M PState perr A).

Lemma attach_tasks_follows tasks X b : evolves follows (attach_tasks tasks X b).
Proof.
  revert X b. induction tasks as [|[t|] tasks IH]; intros X b; simpl; [eauto with toda| |auto].
  case_decide; [auto|]. apply (evolves_bind follows); [|intros [[]|]; auto].
  apply try_err_evolves. unfold attach_task. same.
Qed.

Lemma trace_follows pid : evolves follows (trace pid).
Proof.
  unfold trace, trace_loop, trace_round. same. apply attach_tasks_follows.
Qed.

Lemma clone_follows pid : evolves follows (clone_process pid).
Proof.
  intros s. pose proof (trace_follows pid s) as H. unfold clone_process.
  by destruct (trace pid s) as [[a|[e|]|] s'].
Qed.

Lemma drop_follows pid : evolves follows (drop_process pid).
Proof.
  unfold drop_process. apply (evolves_bind follows); [|same]. apply try_err_evolves.
  unfold detach, detach_attempt, detach_tasks. same. exact (pcall_follows (PSleep 500)).
Qed.

End handle_calls.

#[export] Hint Resolve trace_follows clone_follows drop_follows : toda.
