(* ===== verification/Tracees.v ===== *)
(** * Handles on traced processes, and what operations leave behind

    The counter of [PtraceManager] is the number of live [TracedProcess]
    values of each process, through every sequence of traces, clones,
    drops and operations; and an operation on a stopped process gives it
    back its registers and the instruction it was stopped at. *)

From Stdlib Require Import Ascii.
From S2P Require Import Prelude Path Float Types Asm External Concrete Ptrace PtraceProps.

#[local] Open Scope Z_scope.

(** ** Reference counts *)
Section handles.
Context `{PX : PtraceExt, RT : Retry}.
Abbreviation PM A := (M PState perr A).

(** [live pid] handles on each process are alive. *)
Definition counted (s : PState) (live : Z → Z) : Prop :=
  ∀ pid, 0 ≤ live pid < 2 ^ 31 ∧
    counter s !! pid = if live pid =? 0 then None else Some (live pid).

Definition add_live (pid d : Z) (live : Z → Z) : Z → Z :=
  λ p, if decide (p = pid) then live p + d else live p.

Lemma counted_insert s live pid d f :
  counted s live → 0 ≤ live pid + d < 2 ^ 31 →
  f (counter s) !! pid = (if live pid + d =? 0 then None else Some (live pid + d)) →
  (∀ p, p ≠ pid → f (counter s) !! p = counter s !! p) →
  counted (set_counter f s) (add_live pid d live).
Proof.
  intros Hc Hd Hp Hne p. unfold add_live. cbn [set_counter counter].
  destruct (decide (p = pid)) as [->|Hpp]; [done|]. rewrite Hne by done. apply Hc.
Qed.

Lemma counted_same s s' live : counter s' = counter s → counted s live → counted s' live.
Proof. intros He Hc pid. rewrite He. apply Hc. Qed.

(** A process with a handle is counted up, without a call. *)
Lemma trace_live s live pid :
  counted s live → 0 < live pid →
  trace pid s = (Done pid, set_counter <[pid := as_i32 (live pid + 1)]> s).
Proof.
  intros Hc Hl. destruct (Hc pid) as [_ Hp]. unfold trace, bind, gets, modify. rewrite Hp.
  by destruct (Z.eqb_spec (live pid) 0); [lia|].
Qed.

Lemma trace_counted s live pid r s' :
  counted s live → live pid < 2 ^ 31 - 1 → trace pid s = (r, s') →
  match r with
  | Done _ => counted s' (add_live pid 1 live)
  | _ => counted s' live
  end.
Proof.
  intros Hc Hl. pose proof (proj1 (Hc pid)) as H0. destruct (Z.eq_dec (live pid) 0) as [Hz|Hz].
  - destruct (Hc pid) as [_ Hp]. rewrite Hz in Hp. simpl in Hp.
    unfold trace, bind at 1, gets. rewrite Hp.
    destruct (trace_loop_spec pid s) as (o & s1 & Ho & Hk & Hs & _). unfold bind. rewrite Ho.
    destruct o as [[]|[e|]|]; try done; intros [= <- <-]; [|by apply (counted_same s)].
    apply counted_insert; [by apply (counted_same s)|lia| |intros p Hne; by rewrite lookup_insert_ne].
    rewrite Hz. apply lookup_insert_eq.
  - rewrite (trace_live s live) by (done || lia). intros [= <- <-].
    rewrite swrap_id by (unfold in_s; simpl; lia).
    apply counted_insert; [done|lia| |intros p Hne; by rewrite lookup_insert_ne].
    destruct (Z.eqb_spec (live pid + 1) 0); [lia|]. apply lookup_insert_eq.
Qed.

Lemma clone_live s live pid :
  counted s live → 0 < live pid < 2 ^ 31 - 1 →
  ∃ s', clone_process pid s = (Done pid, s') ∧ p_calls s' = p_calls s ∧
    counted s' (add_live pid 1 live).
Proof.
  intros Hc Hl. exists (set_counter <[pid := as_i32 (live pid + 1)]> s). unfold clone_process.
  pose proof (trace_live s live pid Hc ltac:(lia)) as Ht. rewrite Ht. split_and!; [done..|].
  exact (trace_counted s live pid _ _ Hc ltac:(lia) Ht).
Qed.

(** Dropping a handle counts down; the last one starts to detach. *)
Lemma drop_live s live pid :
  counted s live → 0 < live pid →
  ∃ s', drop_process pid s = (Done tt, s') ∧ counted s' (add_live pid (-1) live) ∧
    (1 < live pid → p_calls s' = p_calls s).
Proof.
  intros Hc Hl. destruct (Hc pid) as [Hb Hp]. destruct (Z.eqb_spec (live pid) 0); [lia|].
  unfold drop_process, bind at 1, try_err, detach, bind at 1, gets. rewrite Hp.
  rewrite swrap_id by (unfold in_s; simpl; lia). unfold bind at 1, modify at 1.
  assert (∀ f, f (counter s) !! pid = (if live pid - 1 =? 0 then None else Some (live pid - 1)) →
    (∀ p, p ≠ pid → f (counter s) !! p = counter s !! p) →
    counted (set_counter f s) (add_live pid (-1) live)) as Hins.
  { intros f Hf Hne. apply counted_insert; [done|lia|by rewrite Hf|done]. }
  destruct (Z.ltb_spec (live pid - 1) 1).
  - unfold bind at 1, modify at 1.
    match goal with |- context [retry ?sl 20 ?op ?st] =>
      pose proof (settles_retry sl 20 op (settles_pcall (PSleep 500))
        (settles_detach_attempt pid) st) as Hs;
      assert (counter (retry sl 20 op st).2 = counter st) as Hk by
        (apply (evolves_retry same_counter); [exact (pcall_same (PSleep 500))|unfold detach_attempt, detach_tasks; same]);
      destruct (retry sl 20 op st) as [[[]|[e|]|] s1] end; simpl in Hs; try done;
      (eexists; split; [done|]; split; [|lia]; apply (counted_same _ _ _ Hk);
       apply (Hins (λ m, delete pid (<[pid:=live pid - 1]> m)));
       [cbn beta; rewrite lookup_delete_eq; by destruct (Z.eqb_spec (live pid - 1) 0); [|lia]
       |intros p Hne; cbn beta; by rewrite lookup_delete_ne, lookup_insert_ne]).
  - eexists. split; [done|]. split; [|done].
    apply (Hins <[pid:=live pid - 1]>); [|intros p Hne; by rewrite lookup_insert_ne].
    rewrite lookup_insert_eq. by destruct (Z.eqb_spec (live pid - 1) 0); [lia|].
Qed.

(** ** The programs of handles

    What the rest of the program does with handles: trace a process,
    clone or drop a handle it has, or anything that leaves the counter
    alone. Fewer than 2^31 handles on one process exist at a time. *)
Inductive handle_step : PState * (Z → Z) → PState * (Z → Z) → Prop :=
| HTrace pid s live p s' :
    live pid < 2 ^ 31 - 1 → trace pid s = (Done p, s') →
    handle_step (s, live) (s', add_live pid 1 live)
| HTraceFails pid s live e s' :
    live pid < 2 ^ 31 - 1 → trace pid s = (Fail e, s') → handle_step (s, live) (s', live)
| HClone pid s live p s' :
    0 < live pid < 2 ^ 31 - 1 → clone_process pid s = (Done p, s') →
    handle_step (s, live) (s', add_live pid 1 live)
| HDrop pid s live s' :
    0 < live pid → drop_process pid s = (Done tt, s') →
    handle_step (s, live) (s', add_live pid (-1) live)
| HOther (m : PM unit) s live :
    evolves same_counter m → handle_step (s, live) ((m s).2, live).

Lemma handle_step_counted s live s' live' :
  handle_step (s, live) (s', live') → counted s live → counted s' live'.
Proof.
  intros Hst Hc. inversion Hst; subst.
  - by eapply (trace_counted s live pid (Done p)).
  - by eapply (trace_counted s live' pid (Fail e)).
  - destruct (clone_live s live pid) as (s1 & H1 & _ & Hc1); [done..|]. by assert (s1 = s') as <- by congruence.
  - destruct (drop_live s live pid) as (s1 & H1 & Hc1 & _); [done..|]. by assert (s1 = s') as <- by congruence.
  - match goal with Hm : evolves _ _ |- _ => apply (counted_same s); [apply Hm|done] end.
Qed.

Definition no_handles : Z → Z := λ _, 0.

(** C6: handles are counted. In every state a program of handles reaches
    from a manager that traces nothing, the counter of a process is the
    number of its live handles; so cloning a live handle never panics,
    dropping one always finds the process in the manager, only the drop
    of the last handle of a process makes calls (and detaches), and
    neither cloning nor tracing a process again makes any. *)
Theorem handles_counted (s0 s : PState) live :
  counter s0 = ∅ → rtc handle_step (s0, no_handles) (s, live) →
  counted s live ∧
  ∀ pid, 0 < live pid < 2 ^ 31 - 1 →
    (∃ s', trace pid s = (Done pid, s') ∧ p_calls s' = p_calls s) ∧
    (∃ s', clone_process pid s = (Done pid, s') ∧ p_calls s' = p_calls s) ∧
    (∃ s', drop_process pid s = (Done tt, s') ∧ (1 < live pid → p_calls s' = p_calls s)) ∧
    is_Some (counter s !! pid).
Proof.
  intros H0 Hr.
  assert (∀ x y, rtc handle_step x y → counted x.1 x.2 → counted y.1 y.2) as Hinv.
  { intros x y Hxy. induction Hxy as [x|[s1 l1] [s2 l2] z Hst _ IH]; [done|].
    intros Hc. apply IH. by apply (handle_step_counted s1 l1). }
  assert (counted s live) as Hc.
  { apply (Hinv _ _ Hr). intros pid. simpl. split; [unfold no_handles; lia|]. rewrite H0.
    apply lookup_empty. }
  split; [done|]. intros pid Hl. split_and!.
  - eexists. split; [apply (trace_live s live); [done|lia]|done].
  - destruct (clone_live s live pid) as (s' & H1 & H2 & _); eauto.
  - destruct (drop_live s live pid) as (s' & H1 & _ & H2); [done|lia|eauto].
  - destruct (Hc pid) as [_ ->]. by destruct (Z.eqb_spec (live pid) 0); [lia|].
Qed.

End handles.

(** ** Registers and instructions of a stopped process

    What ptrace documents of the calls on a stopped process: reading its
    registers or its memory returns and changes nothing, writing one of
    them succeeds only by writing it. Nothing is said of a process that
    has been let run. *)
Definition observes (c : pcall) : bool :=
  match c with PGetregs _ | PRead _ _ => true | _ => false end.

Class TraceeLaws (PX : PtraceExt) := {
  pw_regs : PWorld → Z → regs;
  pw_word : PWorld → Z → Z → Z;
  observe_law : ∀ c w r w', observes c = true → pcall_run c w = (r, w') →
    pw_regs w' = pw_regs w ∧ pw_word w' = pw_word w;
  getregs_law : ∀ pid w r w', pcall_run (PGetregs pid) w = (inr r, w') → r = pw_regs w pid;
  read_law : ∀ pid a w v w', pcall_run (PRead pid a) w = (inr v, w') → v = pw_word w pid a;
  setregs_law : ∀ pid f w w', pcall_run (PSetregs pid f) w = (inr tt, w') →
    pw_regs w' pid = f ∧ pw_word w' pid = pw_word w pid;
  write_law : ∀ pid a v w w', pcall_run (PWrite pid a v) w = (inr tt, w') → pw_word w' pid a = v;
  vmwrite_law : ∀ pid a bs w r w', pcall_run (PVmWrite pid a bs) w = (r, w') →
    pw_regs w' pid = pw_regs w pid
}.

Section restores.
Context `{PX : PtraceExt, TL : !TraceeLaws PX}.
Abbreviation PM A := (M PState perr A).

(** The program has come to an end: it neither panicked nor waits. *)
Definition ended {A} (r : outcome perr A) : Prop := r ≠ Panic ∧ r ≠ Fail Waiting.

(** [restores pid m]: whenever [m] ends, the process has its registers. *)
Definition restores {A} (pid : Z) (m : PM A) : Prop :=
  ∀ s r s', m s = (r, s') → ended r →
    pw_regs (p_world s') pid = pw_regs (p_world s) pid.

Lemma restores_ret {A} pid (a : A) : restores pid (ret a).
Proof. by intros s r s' [= <- <-]. Qed.

Lemma restores_lift {A} pid (o : outcome perr A) : restores pid (lift o).
Proof. by intros s r s' [= <- <-]. Qed.

Lemma restores_fail {A} pid (e : perr) : restores pid (fail (A:=A) e).
Proof. by intros s r s' [= <- <-]. Qed.

Lemma restores_bind {A B} pid (m : PM A) (k : A → PM B) :
  restores pid m → (∀ a, restores pid (k a)) → restores pid (bind m k).
Proof.
  intros Hm Hk s r s'. unfold bind. destruct (m s) as [[a|e|] s1] eqn:H1.
  - intros H2 He. rewrite (Hk a _ _ _ H2 He). by apply (Hm s (Done a)).
  - intros [= <- <-] [_ He]. apply (Hm s (Fail e)); [done|]. split; [done|]. congruence.
  - by intros [= <- <-] [? ?].
Qed.

Lemma restores_observe pid c : observes c = true → restores pid (pcall_do c).
Proof.
  intros Hc s r s'. unfold pcall_do. destruct (pcall_run c (p_world s)) as [o w] eqn:Hr.
  intros [= <- <-] _. simpl. by rewrite (proj1 (observe_law c _ _ _ Hc Hr)).
Qed.

Lemma restores_vmwrite pid a bs : restores pid (pcall_do (PVmWrite pid a bs)).
Proof.
  intros s r s'. unfold pcall_do.
  destruct (pcall_run (PVmWrite pid a bs) (p_world s)) as [o w] eqn:Hr.
  intros [= <- <-] _. simpl. by apply (vmwrite_law pid a bs _ o).
Qed.

Lemma nix_do_run {A} c (f : pcall_ret c → nix_result A) s :
  ∃ r w, pcall_run c (p_world s) = (r, w) ∧
    nix_do c f s = (ok_nix (f r), mkPState w (p_calls s ++ [c]) (counter s)).
Proof.
  unfold nix_do, bind, pcall_do. destruct (pcall_run c (p_world s)) as [r w]. eauto.
Qed.

(** What [protect] saves. *)
Lemma protect_run pid s r s' :
  protect pid s = (r, s') →
  pw_regs (p_world s') = pw_regs (p_world s) ∧ pw_word (p_world s') = pw_word (p_world s) ∧
  match r with
  | Done g => tid g = pid ∧ g_regs g = pw_regs (p_world s) pid ∧
      rip_ins g = pw_word (p_world s) pid (pw_regs (p_world s) pid RIP)
  | _ => True
  end.
Proof.
  unfold protect, bind at 1.
  destruct (nix_do_run (PGetregs pid) (λ r, r) s) as (r1 & w1 & H1 & ->).
  destruct (observe_law (PGetregs pid) _ _ _ eq_refl H1) as [Hr1 Hw1].
  destruct r1 as [e|f]; cbn [ok_nix]; [by intros [= <- <-]|].
  pose proof (getregs_law _ _ _ _ H1) as ->. unfold bind at 1.
  match goal with |- context [nix_do (PRead pid ?a) _ ?s1] =>
    destruct (nix_do_run (PRead pid a) (λ r, r) s1) as (r2 & w2 & H2 & ->) end.
  destruct (observe_law (PRead _ _) _ _ _ eq_refl H2) as [Hr2 Hw2]. cbn [p_world] in *.
  destruct r2 as [e|v]; cbn [ok_nix]; intros [= <- <-]; cbn [p_world g_regs rip_ins tid].
  - by rewrite Hr2, Hw2.
  - pose proof (read_law _ _ _ _ _ H2) as ->. by rewrite Hr2, Hw2, Hr1, Hw1.
Qed.

Lemma drop_guard_run g s s' :
  drop_guard g s = (Done tt, s') →
  pw_regs (p_world s') (tid g) = g_regs g ∧
  pw_word (p_world s') (tid g) (g_regs g RIP) = rip_ins g.
Proof.
  unfold drop_guard, bind at 1, pcall_do at 1.
  destruct (pcall_run (PWrite (tid g) (g_regs g RIP) (rip_ins g)) (p_world s)) as [r1 w1] eqn:H1.
  unfold bind at 1, lift at 1. destruct r1 as [|[]]; cbn [unwrap_nix]; [done|].
  unfold bind, pcall_do. cbn [p_world].
  destruct (pcall_run (PSetregs (tid g) (g_regs g)) w1) as [r2 w2] eqn:H2.
  unfold lift. destruct r2 as [|[]]; cbn [unwrap_nix]; [done|]. intros [= <-]. cbn [p_world].
  destruct (setregs_law _ _ _ _ H2) as [-> ->]. split; [done|]. by apply (write_law _ _ _ _ _ H1).
Qed.

(** Whatever [f] does, a protected program ends with the registers, and
    the word at the instruction pointer, it began with. *)
Lemma with_protect_restores {A} pid (f : PM A) s r s' :
  with_protect pid f s = (r, s') → ended r →
  pw_regs (p_world s') pid = pw_regs (p_world s) pid ∧
  pw_word (p_world s') pid (pw_regs (p_world s) pid RIP) =
    pw_word (p_world s) pid (pw_regs (p_world s) pid RIP).
Proof.
  unfold with_protect, bind at 1. destruct (protect pid s) as [o s1] eqn:Hp.
  apply protect_run in Hp as (Hr & Hw & Ho).
  destruct o as [g|e|]; [|intros [= <- <-] _; by rewrite Hr, Hw..].
  destruct Ho as (Ht & Hg & Hi). destruct (f s1) as [o2 s2] eqn:Hf.
  assert (∀ o' : outcome perr A,
    match drop_guard g s2 with (Done _, s'') => (o', s'') | (_, s'') => (Panic, s'') end = (r, s') →
    ended r → pw_regs (p_world s') pid = pw_regs (p_world s) pid ∧
      pw_word (p_world s') pid (pw_regs (p_world s) pid RIP) =
        pw_word (p_world s) pid (pw_regs (p_world s) pid RIP)) as Hd.
  { intros o'. destruct (drop_guard g s2) as [[[]|e|] s3] eqn:Hdg;
      [|by intros [= <- <-] [? ?]..].
    apply drop_guard_run in Hdg as [H1 H2]. rewrite Ht, Hg, Hi in *. by intros [= <- <-]. }
  destruct o2 as [a|[e|]|]; try exact (Hd _). by intros [= <- <-] [? ?].
Qed.

Lemma restores_with_protect {A} pid (f : PM A) : restores pid (with_protect pid f).
Proof. intros s r s' H He. by apply (with_protect_restores pid f s r s'). Qed.

Lemma restores_nix {A} pid c (f : pcall_ret c → nix_result A) :
  restores pid (pcall_do c) → restores pid (nix_do c f).
Proof. intros Hc. apply restores_bind; [done|intros; apply restores_lift]. Qed.

Lemma restores_with_mmap {A} pid len (f : Z → PM A) :
  (∀ a, restores pid (f a)) → restores pid (with_mmap pid len f).
Proof.
  intros Hf. apply restores_bind; [apply restores_with_protect|intros a].
  apply restores_bind; [apply Hf|intros x].
  apply restores_bind; [apply restores_with_protect|intros; apply restores_ret].
Qed.

(** ** The operations of [TracedProcess] *)
Inductive traced_op :=
| OpSyscall (id : Z) (args : list Z)
| OpMmap (length fd : Z)
| OpMunmap (addr len : Z)
| OpChdir (filename : string)
| OpWriteMem (addr : Z) (content : list Z)
| OpRunCodes (codes : Z → outcome anyhow (Z * list Z)).

Definition run_op (pid : Z) (op : traced_op) : PM unit :=
  match op with
  | OpSyscall id args => syscall pid id args ;;; ret tt
  | OpMmap length fd => mmap pid length fd ;;; ret tt
  | OpMunmap addr len => munmap pid addr len ;;; ret tt
  | OpChdir filename => chdir pid filename
  | OpWriteMem addr content => write_mem pid addr content
  | OpRunCodes codes => run_codes pid codes
  end.

(** C8: a traced process does not notice. Whatever fails on the way, when
    an operation on a stopped process has ended (by an error too) the
    process has the registers it had before, and after a system call it
    also has the instruction it was stopped at. *)
Theorem operations_restore pid op (s : PState) r s' :
  run_op pid op s = (r, s') → ended r →
  pw_regs (p_world s') pid = pw_regs (p_world s) pid ∧
  match op with
  | OpSyscall _ _ | OpMmap _ _ | OpMunmap _ _ =>
      pw_word (p_world s') pid (pw_regs (p_world s) pid RIP) =
        pw_word (p_world s) pid (pw_regs (p_world s) pid RIP)
  | _ => True
  end.
Proof.
  assert (∀ A (m : PM A), (m ;;; ret tt) s = (r, s') → ended r →
    ∃ r1, m s = (r1, s') ∧ ended r1) as Hret.
  { intros A m. unfold bind, ret. destruct (m s) as [[a|e|] s1].
    - intros [= <- <-] _. by exists (Done a).
    - intros [= <- <-] [_ He]. exists (Fail e). split; [done|]. split; [done|congruence].
    - by intros [= <- <-] [? ?]. }
  destruct op as [id args|len fd|a len|fn|a bs|codes]; cbn [run_op]; intros Hr He.
  1-3: apply Hret in Hr as (r1 & Hr & He1); [|done];
    by eapply (with_protect_restores pid _ s r1 s').
  - split; [|done]. clear Hret. revert s r s' Hr He.
    change (restores pid (chdir pid fn)). unfold chdir. apply restores_bind.
    + destruct (contains_nul fn); [apply restores_fail|apply restores_ret].
    + intros _. apply restores_with_mmap. intros a.
      apply restores_bind; [apply restores_bind; [apply restores_nix, restores_vmwrite|]|intros _].
      * intros; apply restores_ret.
      * apply restores_bind; [apply restores_with_protect|intros; apply restores_ret].
  - split; [|done]. clear Hret. revert s r s' Hr He.
    change (restores pid (write_mem pid a bs)).
    apply restores_bind; [apply restores_nix, restores_vmwrite|intros; apply restores_ret].
  - split; [|done]. clear Hret. revert s r s' Hr He.
    change (restores pid (run_codes pid codes)). unfold run_codes.
    apply restores_bind; [by apply restores_nix, restores_observe|intros f].
    apply restores_bind; [apply restores_lift|intros ins].
    apply restores_with_mmap. intros a. apply restores_with_protect.
Qed.

End restores.
