(* ===== verification/TraceDemo.v ===== *)
(** * A concrete world of processes

    An executable instance of [PtraceExt] in which the laws of
    [TraceeLaws] hold: the witnesses of the theorems on the tracer run in
    it, and two behaviours of its error paths are shown in it. *)

From Stdlib Require Import Ascii.
From S2P Require Import Prelude Path Float Types Asm External Concrete Ptrace PtraceProps Tracees.

#[local] Open Scope string_scope.
#[local] Open Scope Z_scope.
#[local] Open Scope list_scope.

(** The calls made so far, which of them fail, the registers and words of
    each process, and what a system call of a traced process returns. *)
Record TWorld := mkTWorld {
  tw_time : Z;
  tw_fails : Z → pcall → bool;
  tw_regs : Z → regs;
  tw_word : Z → Z → Z;
  tw_rax : Z
}.

Definition tick (w : TWorld) : TWorld :=
  mkTWorld (tw_time w + 1) (tw_fails w) (tw_regs w) (tw_word w) (tw_rax w).

Definition put_regs (pid : Z) (f : regs) (w : TWorld) : TWorld :=
  mkTWorld (tw_time w) (tw_fails w) (λ p, if decide (p = pid) then f else tw_regs w p)
    (tw_word w) (tw_rax w).

Definition put_word (pid a v : Z) (w : TWorld) : TWorld :=
  mkTWorld (tw_time w) (tw_fails w) (tw_regs w)
    (λ p x, if decide (p = pid ∧ x = a) then v else tw_word w p x) (tw_rax w).

(** Process 7 is a server with two threads, process 9 is toda. *)
Definition demo_pcall (c : pcall) (w : TWorld) : pcall_ret c * TWorld :=
  let bad := tw_fails w (tw_time w) c in
  let w1 := tick w in
  match c return pcall_ret c * TWorld with
  | PProcess _ => (if bad then inl (ProcOther 1) else inr "S"%char, w1)
  | PTasks pid => (inr [Some pid; None; Some (pid + 1)], w1)
  | PAttach _ => (if bad then inl (NixSys ESRCH) else inr tt, w1)
  | PWait pid _ => (inr (Stopped pid SIGTRAP), w1)
  | PDetach _ => (inr tt, w1)
  | PGetregs pid => (inr (tw_regs w pid), w1)
  | PSetregs pid f => if bad then (inl (NixSys ESRCH), w1) else (inr tt, put_regs pid f w1)
  | PRead pid a => (inr (tw_word w pid a), w1)
  | PWrite pid a v => if bad then (inl (NixSys ESRCH), w1) else (inr tt, put_word pid a v w1)
  | PStep pid => (inr tt, put_regs pid (set_reg RAX (tw_rax w) (tw_regs w pid)) w1)
  | PCont _ => (inr tt, w1)
  | PVmWrite _ _ bs => (if bad then inl (NixSys 14) else inr (Z.of_nat (length bs)), w1)
  | PSleep _ => (tt, w1)
  | PAllProcesses => (inr [7; 9], w1)
  | PCmdline pid => (inr [if pid =? 9 then "/usr/bin/toda" else "/bin/server"], w1)
  | PFd _ => (inr [(0, None); (3, Some "/m/d/f"); (4, Some "/other/x")], w1)
  | PMaps _ => (inr [mkMemoryMap 4096 8192 "rw-p" 0 (Some "/m/lib"); mkMemoryMap 8192 12288 "rw-p" 0 None], w1)
  | PCwd _ => (inr "/m/sub", w1)
  end.

#[export] Instance DemoPtrace : PtraceExt := {|
  PWorld := TWorld;
  pcall_run := demo_pcall;
  patience := 10
|}.

#[export] Instance DemoTracee : TraceeLaws DemoPtrace.
Proof.
  refine {| pw_regs := (tw_regs : PWorld → Z → regs); pw_word := (tw_word : PWorld → Z → Z → Z) |}.
  - intros c w r w' Hc. destruct c; try done; simpl; by intros [= <- <-].
  - intros pid w r w'. simpl. by intros [= <- <-].
  - intros pid a w v w'. simpl. by intros [= <- <-].
  - intros pid f w w'. simpl. destruct (tw_fails _ _ _); [done|]. intros [= <-]. simpl.
    by rewrite decide_True.
  - intros pid a v w w'. simpl. destruct (tw_fails _ _ _); [done|]. intros [= <-]. simpl.
    by rewrite decide_True.
  - intros pid a bs w r w'. simpl. by intros [= <- <-].
Defined.

Definition start_regs : regs := λ r, match r with RIP => 4096 | RSP => 8192 | _ => 5 end.

Definition tracees (fails : Z → pcall → bool) (rax : Z) : PState :=
  mkPState (mkTWorld 0 fails (λ _, start_regs) (λ _ _, 144) rax) [] ∅.

Definition no_failure (t : Z) (c : pcall) : bool := false.

(** Tracing, cloning and dropping one handle. *)
Definition traced_demo : PState := (trace 7 (tracees no_failure 0)).2.

Lemma handles_counted_witness :
  counted (clone_process 7 traced_demo).2 (add_live 7 1 (add_live 7 1 no_handles)) ∧
  is_Some (counter (clone_process 7 traced_demo).2 !! 7).
Proof.
  destruct (handles_counted (tracees no_failure 0) (clone_process 7 traced_demo).2
    (add_live 7 1 (add_live 7 1 no_handles))) as [Hc Hl].
  - reflexivity.
  - eapply rtc_l; [apply (HTrace 7 _ _ 7 traced_demo); vm_compute; reflexivity|].
    eapply rtc_l; [apply (HClone 7 _ _ 7); [split; vm_compute; reflexivity|vm_compute; reflexivity]|].
    apply rtc_refl.
  - split; [exact Hc|]. apply (Hl 7). split; vm_compute; reflexivity.
Defined.

(** A call that fails half-way: the process cannot be written to. *)
Definition write_fails (t : Z) (c : pcall) : bool := match c with PVmWrite _ _ _ => true | _ => false end.

Lemma operations_restore_witness :
  pw_regs (p_world (run_op 7 (OpChdir "/m") (tracees write_fails 0)).2) 7 = start_regs.
Proof.
  refine (proj1 (operations_restore 7 (OpChdir "/m") (tracees write_fails 0) _ _
    (surjective_pairing _) _)).
  vm_compute. split; discriminate.
Defined.

(** A failed trace is not undone. There is a world in which tracing a
    process attaches to its threads and then fails: the threads stay
    attached, the manager does not know the process, and so nothing can
    detach it. *)
Theorem failed_trace_stays_attached :
  ∃ (s : PState) e,
    (trace 7 s).1 = Fail e ∧
    PAttach 7 ∈ p_calls (trace 7 s).2 ∧ PAttach 8 ∈ p_calls (trace 7 s).2 ∧
    (∀ t, PDetach t ∉ p_calls (trace 7 s).2) ∧
    counter (trace 7 s).2 !! 7 = None ∧
    (detach 7 (trace 7 s).2).1 = Fail (Err (AMsg "haven't traced this process")).
Proof.
  exists (tracees (λ t _, 8 <=? t) 0), (Err (AProc (ProcOther 1))).
  assert (p_calls (trace 7 (tracees (λ t _, 8 <=? t) 0)).2 =
    [PProcess 7; PTasks 7; PProcess 7; PAttach 7; PWait 7 true; PProcess 8; PAttach 8; PWait 8 true;
     PProcess 7]) as -> by (vm_compute; reflexivity).
  split; [vm_compute; reflexivity|]. split; [set_solver|]. split; [set_solver|].
  split; [|split; vm_compute; reflexivity].
  intros t Ht%list_elem_of_In. simpl in Ht. intuition discriminate.
Qed.

(** What a system call returned in the traced process is not looked at:
    [chdir] succeeds whatever that is, an error number included. *)
Theorem chdir_ignores_result rax :
  (chdir 7 "/m" (tracees no_failure rax)).1 = Done tt ∧
  (syscall 7 80 [4096] (tracees no_failure rax)).1 = Done rax.
Proof. split; vm_compute; reflexivity. Qed.
