(* ===== verification/Tables.v ===== *)
(** * The tables of the replacers

    What the builders of the fd and the mmap replacer leave in their
    tables, and where it lies in the memory of a process once the tables
    are written into it. *)

From S2P Require Import Prelude Path Float Types Asm External Ptrace Mount Replacer.

#[local] Open Scope Z_scope.

(** The cases that can be pushed, and their paths as they are stored. *)
Definition valid {C} (cs : list ((Z → C) * string)) : list ((Z → C) * string) :=
  List.filter (λ c, is_utf8 c.2) cs.

Definition path_bytes (path : string) : list Z := bytes_of path ++ [0].

Fixpoint layout {C} (pos : Z) (cs : list ((Z → C) * string)) : list C :=
  match cs with
  | [] => []
  | (raw, path) :: cs => raw pos :: layout (pos + Z.of_nat (length (path_bytes path))) cs
  end.

Definition all_paths {C} (cs : list ((Z → C) * string)) : list Z := concat ((λ c, path_bytes c.2) <$> cs).

Lemma cursor_write_end c bs :
  position c = Z.of_nat (length (buffer c)) →
  cursor_write_all c bs =
    mkCursor (Z.of_nat (length (buffer c ++ bs))) (buffer c ++ bs).
Proof.
  intros Hp. unfold cursor_write_all. rewrite Hp, Nat2Z.id, Nat.sub_diag. simpl.
  rewrite app_nil_r, firstn_all, drop_ge by lia. rewrite app_nil_r, length_app. f_equal. lia.
Qed.

(** Pushing cases one by one appends them with their offsets. *)
Lemma push_all_spec {C} (b : Builder C) cs :
  position (b_paths b) = Z.of_nat (length (buffer (b_paths b))) →
  b_cases (push_all b cs) = b_cases b ++ layout (position (b_paths b)) (valid cs) ∧
  buffer (b_paths (push_all b cs)) = buffer (b_paths b) ++ all_paths (valid cs).
Proof.
  revert b. induction cs as [|[raw path] cs IH]; intros b Hp; [by rewrite !app_nil_r|].
  cbn [push_all valid List.filter snd]. unfold push_case. destruct (is_utf8 path); [|by apply IH].
  rewrite cursor_write_end by done. change (bytes_of path ++ [0]) with (path_bytes path).
  match goal with |- context [push_all ?b' cs] => destruct (IH b') as [H1 H2]; [done|] end.
  rewrite H1, H2. cbn [b_cases b_paths buffer position]. change (List.filter _ cs) with (valid cs).
  unfold all_paths. rewrite fmap_cons. cbn [concat layout snd]. rewrite <- !app_assoc. simpl.
  rewrite Hp, length_app. split; [|done]. do 3 f_equal. lia.
Qed.

Lemma from_iter_spec {C} (cs : list ((Z → C) * string)) :
  b_cases (from_iter cs) = layout 0 (valid cs) ∧
  buffer (b_paths (from_iter cs)) = all_paths (valid cs).
Proof. by apply (push_all_spec builder_new). Qed.

(** [path] and its NUL byte are stored at offset [off]. *)
Definition stored (paths : list Z) (off : Z) (path : string) : Prop :=
  0 ≤ off ∧ take (length (path_bytes path)) (drop (Z.to_nat off) paths) = path_bytes path.

Lemma layout_stored {C} pre (cs : list ((Z → C) * string)) :
  Forall2 (λ case c, ∃ off, c = case.1 off ∧ stored (pre ++ all_paths cs) off case.2)
    cs (layout (Z.of_nat (length pre)) cs).
Proof.
  revert pre. induction cs as [|[raw path] cs IH]; intros pre; simpl; [constructor|]. constructor.
  - exists (Z.of_nat (length pre)). split; [done|]. split; [lia|]. unfold all_paths. simpl.
    rewrite Nat2Z.id, drop_app_length. by rewrite take_app_length.
  - specialize (IH (pre ++ path_bytes path)). rewrite length_app, Nat2Z.inj_add in IH.
    unfold all_paths in *. simpl. by rewrite <- app_assoc in IH.
Qed.

(** The tables hold what was collected. Of the cases given to a
    builder, those with a UTF-8 path and only those are in its table, in
    order, each with an offset at which its path and a NUL byte are
    stored. *)
Lemma table_holds_cases {C} (cs : list ((Z → C) * string)) :
  Forall2 (λ case c, ∃ off, c = case.1 off ∧
      stored (cursor_read_all (b_paths (from_iter cs))) off case.2)
    (List.filter (λ c, is_utf8 c.2) cs) (b_cases (from_iter cs)).
Proof.
  destruct (from_iter_spec cs) as [-> Hb]. unfold cursor_read_all. rewrite Hb.
  exact (layout_stored [] (valid cs)).
Qed.

(** ** The tables in memory *)

Lemma bytes_of_nonzero path : contains_nul path = false → Forall (λ b, b ≠ 0) (bytes_of path).
Proof.
  unfold bytes_of. induction path as [|c path IH]; simpl; [constructor|].
  intros [Hc Hp]%orb_false_iff. constructor; [|by apply IH].
  intros H0. apply Ascii.eqb_neq in Hc. apply Hc.
  change 0 with (Z.of_N (Ascii.N_of_ascii Ascii.zero)) in H0. apply N2Z.inj in H0.
  rewrite <- (Ascii.ascii_N_embedding c), H0. by rewrite Ascii.ascii_N_embedding.
Qed.

(** A path the kernel takes: no NUL byte inside, and short enough. *)
Definition path_ok (path : string) : Prop :=
  contains_nul path = false ∧ (length (bytes_of path) < PATH_MAX)%nat.

Lemma path_in_memory m a path :
  path_ok path → bytes_at m a (path_bytes path) → load_cstr PATH_MAX m a = Some (bytes_of path).
Proof. intros [Hn Hl]. apply bytes_at_cstr; [by apply bytes_of_nonzero|done]. Qed.

(** The parts of the data in memory, when it is placed at [base]. *)
Definition length_addr (base : Z) (cases : list Z) : Z := base + Z.of_nat (length cases).
Definition paths_addr (base : Z) (cases : list Z) : Z := length_addr base cases + 8.

Lemma data_bytes_eq cases paths :
  data_bytes (replacer_data cases paths) =
    cases ++ le_bytes 8 (Z.of_nat (length cases)) ++ paths ++ [144; 144].
Proof. done. Qed.

Lemma data_parts m base cases paths :
  bytes_at m base (data_bytes (replacer_data cases paths)) →
  bytes_at m base cases ∧
  bytes_at m (length_addr base cases) (le_bytes 8 (Z.of_nat (length cases))) ∧
  bytes_at m (paths_addr base cases) paths.
Proof.
  rewrite data_bytes_eq. intros H.
  apply bytes_at_app in H as [H1 H]. apply bytes_at_app in H as [H2 H].
  apply bytes_at_app in H as [H3 _]. rewrite length_le_bytes in H3. done.
Qed.

(** The address of each label. *)
Lemma data_labels base cases paths :
  data_addr base (replacer_data cases paths) Lcases = Some base ∧
  data_addr base (replacer_data cases paths) Lcases_length = Some (length_addr base cases) ∧
  data_addr base (replacer_data cases paths) Lnew_paths = Some (paths_addr base cases).
Proof.
  split_and!; [done|done|]. unfold replacer_data, paths_addr. cbn [data_addr datum_bytes decide].
  by rewrite length_le_bytes.
Qed.

Lemma length_data cases paths :
  Z.of_nat (length (data_bytes (replacer_data cases paths))) =
    Z.of_nat (length cases) + 8 + Z.of_nat (length paths) + 2.
Proof.
  rewrite data_bytes_eq, !length_app, length_le_bytes. simpl. lia.
Qed.

(** ** The loop of both programs

    Both start their rounds at position 3 and test for another round at
    position 34; r15 is the offset of the next case. *)
Section loop.
Context `{K : Kernel}.
Variables (base : Z) (table paths : list Z) (code : list item).

Hypothesis Hcode : drop 34 code =
  [CLabel Lend; Ins (MovLabel R13 Lcases_length); Ins (Cmp R15 R13); Ins (Jb Lstart); Ins Int3].
Hypothesis Hstart : code_pos 0 code Lstart = Some 3%nat.

Lemma loop_test f b k :
  load64 (k_mem k) (length_addr base table) = Some (Z.of_nat (length table)) →
  run base (replacer_data table paths) code 4 (mkCpu f b 34 k) =
    let f' := set_reg R13 (Z.of_nat (length table)) f in
    if f R15 <? Z.of_nat (length table) then Running (mkCpu f' true 3 k)
    else Running (mkCpu f' false 38 k).
Proof.
  intros Hl. destruct (data_labels base table paths) as (_ & Hlab & _).
  assert (∀ n, code !! (34 + n)%nat = drop 34 code !! n) as Hat by (intros; by rewrite lookup_drop).
  rewrite Hcode in Hat.
  eapply run_label; [exact (Hat 0%nat)|]. reg_cbn.
  eapply run_ins; [exact (Hat 1%nat)|eapply exec_MovLabel; [exact Hlab|exact Hl]|]. reg_cbn.
  eapply run_ins; [exact (Hat 2%nat)|reflexivity|]. reg_cbn. cbn [run]. unfold step. cbn [pc].
  pose proof (Hat 3%nat) as H3. cbn [Nat.add lookup list_lookup] in H3. rewrite H3.
  cbn [exec cf rf advance]. unfold jump. rewrite Hstart.
  by destruct (f R15 <? Z.of_nat (length table)).
Qed.

Lemma loop_end f b k :
  run base (replacer_data table paths) code 1 (mkCpu f b 38 k) = Trapped (mkCpu f b 38 k).
Proof.
  assert (code !! 38%nat = Some (Ins Int3)) as H38.
  { change 38%nat with (34 + 4)%nat. by rewrite <- lookup_drop, Hcode. }
  cbn [run]. unfold step. cbn [pc]. by rewrite H38.
Qed.

End loop.
