(* ===== verification/FdCode.v ===== *)
(** * The code of the fd replacer

    The machine code of [src/replacer/fd_replacer.rs], run in a process,
    performs for every case of its table the system calls that reopen the
    descriptor: a refinement of [reopen_all], which says so without
    registers and memory. *)

From S2P Require Import Prelude Path Float Types Asm External Ptrace Mount Replacer Tables.

#[local] Open Scope Z_scope.

Section spec.
Context `{K : Kernel}.

(** ** The specification

    F_GETFL is 3, SEEK_CUR 1 and SEEK_SET 0. *)
Definition reopen (fd : Z) (path : list Z) (k : kstate) : kstate :=
  let '(flags, k) := kdo (UFcntl fd 3 0) k in
  let '(new_fd, k) := kdo (UOpen path flags 0) k in
  let '(offset, k) := kdo (ULseek fd 0 1) k in
  let '(_, k) := kdo (ULseek new_fd offset 0) k in
  let '(_, k) := kdo (UDup2 new_fd fd) k in
  let '(_, k) := kdo (UClose new_fd) k in
  k.

Definition reopen_all (cases : list (Z * string)) (k : kstate) : kstate :=
  fold_left (λ k c, reopen c.1 (bytes_of c.2) k) cases k.

End spec.

Section code.
Context `{K : Kernel, KL : !KernelLaws K}.
Variables (base : Z) (table paths : list Z).

Abbreviation data := (replacer_data table paths).
Abbreviation run := (run base data Fd.code).

Hypothesis Hbase : 0 ≤ base.
Hypothesis Hsize : base + Z.of_nat (length (data_bytes data)) < 2 ^ 64.

Lemma addr_ok o disp : 0 ≤ o → 0 ≤ disp → o + disp ≤ Z.of_nat (length table) →
  as_u64 (base + o + disp) = base + o + disp.
Proof.
  intros. pose proof (length_data table paths). apply uwrap_id. unfold in_u. lia.
Qed.

(** One round of the loop, from its first label to its last. *)
Lemma fd_round f b k o fd off path :
  f R14 = base → f R15 = o → 0 ≤ o → o + 16 ≤ Z.of_nat (length table) →
  0 ≤ off → paths_addr base table + off < 2 ^ 64 →
  load64 (k_mem k) (base + o + 0) = Some fd → load64 (k_mem k) (base + o + 8) = Some off →
  load_cstr PATH_MAX (k_mem k) (paths_addr base table + off) = Some path →
  ∃ f' b', run 31 (mkCpu f b 3 k) = Running (mkCpu f' b' 34 (reopen fd path k)) ∧
    f' R14 = base ∧ f' R15 = o + 16 ∧ k_mem (reopen fd path k) = k_mem k.
Proof.
  intros H14 H15 Ho Hlen Hoff Hp Hfd Hpo Hpath.
  assert (∀ disp, 0 ≤ disp ≤ 8 → as_u64 (f R14 + f R15 + disp) = base + o + disp) as Haddr.
  { intros. rewrite H14, H15. apply addr_ok; lia. }
  assert (as_u64 (paths_addr base table + off) = paths_addr base table + off) as Hpa.
  { apply uwrap_id. unfold in_u, paths_addr, length_addr in *. lia. }
  unfold reopen.
  destruct (kdo (UFcntl fd 3 0) k) as [flags k1] eqn:E1.
  destruct (kdo (UOpen path flags 0) k1) as [nfd k2] eqn:E2.
  destruct (kdo (ULseek fd 0 1) k2) as [o3 k3] eqn:E3.
  destruct (kdo (ULseek nfd o3 0) k3) as [r4 k4] eqn:E4.
  destruct (kdo (UDup2 nfd fd) k4) as [r5 k5] eqn:E5.
  destruct (kdo (UClose nfd) k5) as [r6 k6] eqn:E6.
  pose proof (kdo_memory _ _ _ _ E1 eq_refl) as M1. pose proof (kdo_memory _ _ _ _ E2 eq_refl) as M2.
  pose proof (kdo_memory _ _ _ _ E3 eq_refl) as M3. pose proof (kdo_memory _ _ _ _ E4 eq_refl) as M4.
  pose proof (kdo_memory _ _ _ _ E5 eq_refl) as M5. pose proof (kdo_memory _ _ _ _ E6 eq_refl) as M6.
  rewrite M1 in M2. rewrite M2 in M3. rewrite M3 in M4. rewrite M4 in M5. rewrite M5 in M6.
  destruct (data_labels base table paths) as (_ & _ & Hlab).
  pose proof Hpo as Hpo1. rewrite <- M1 in Hpo1. pose proof Hfd as Hfd2. rewrite <- M2 in Hfd2.
  pose proof Hfd as Hfd4. rewrite <- M4 in Hfd4.
  eexists _, _. split.
  - asm_label.
    asm_step. asm_load ltac:(apply Haddr; lia) Hfd. asm_step. asm_step. asm_call E1. asm_step.
    asm_step. asm_lea Hlab. asm_load ltac:(apply Haddr; lia) Hpo1. rewrite Hpa. asm_step.
    asm_call E2.
    { unfold decode. reg_cbn. by rewrite M1, Hpath. }
    asm_step. asm_step. asm_load ltac:(apply Haddr; lia) Hfd2. asm_step. asm_step. asm_call E3.
    asm_step. asm_step. asm_step. asm_step. asm_call E4.
    asm_step. asm_step. asm_load ltac:(apply Haddr; lia) Hfd4. asm_call E5.
    asm_step. asm_step. asm_call E6. asm_step. reflexivity.
  - reg_cbn. split_and!; [done| |done]. rewrite H15. apply uwrap_id. unfold in_u.
    pose proof (length_data table paths). lia.
Qed.

(** What the table says of the cases from address [a] on. *)
Fixpoint fd_ready (m : gmap Z Z) (a : Z) (l : list (Z * string)) : Prop :=
  match l with
  | [] => True
  | (fd, path) :: l => ∃ off, 0 ≤ off ∧ paths_addr base table + off < 2 ^ 64 ∧
      load64 m (a + 0) = Some fd ∧ load64 m (a + 8) = Some off ∧
      load_cstr PATH_MAX m (paths_addr base table + off) = Some (bytes_of path) ∧
      fd_ready m (a + 16) l
  end.

Lemma fd_loop f b k o l :
  f R14 = base → f R15 = o → 0 ≤ o → o + 16 * Z.of_nat (length l) = Z.of_nat (length table) →
  load64 (k_mem k) (length_addr base table) = Some (Z.of_nat (length table)) →
  fd_ready (k_mem k) (base + o) l →
  ∃ c', run (35 * length l + 5) (mkCpu f b 34 k) = Trapped c' ∧ ks c' = reopen_all l k.
Proof.
  revert f b k o. induction l as [|[fd path] l IH]; intros f b k o H14 H15 Ho Hlen Hl Hr.
  - exists (mkCpu (set_reg R13 (Z.of_nat (length table)) f) false 38 k). split; [|done].
    change (35 * length (@nil (Z * string)) + 5)%nat with (4 + 1)%nat.
    erewrite run_app; [by apply loop_end|]. rewrite loop_test, H15 by done. simpl in Hlen.
    by destruct (Z.ltb_spec o (Z.of_nat (length table))); [lia|].
  - cbn [length] in *. replace (35 * S (length l) + 5)%nat with (4 + (31 + (35 * length l + 5)))%nat by lia.
    erewrite run_app; [|rewrite loop_test, H15 by done;
      destruct (Z.ltb_spec o (Z.of_nat (length table))); [reflexivity|lia]].
    destruct Hr as (off & Hoff & Hp & Hfd & Hpo & Hpath & Hr).
    destruct (fd_round (set_reg R13 (Z.of_nat (length table)) f) true k o fd off (bytes_of path))
      as (f' & b' & Hrun & H14' & H15' & Hm); try done; [lia|].
    erewrite run_app by exact Hrun. apply (IH f' b' _ (o + 16)); try done; try lia.
    + by rewrite Hm.
    + rewrite Hm. by replace (base + (o + 16)) with (base + o + 16) by lia.
Qed.

End code.

(** The table of a list of descriptors and paths. *)
Definition fd_entries (l : list (Z * string)) : list ((Z → Fd.ReplaceCase) * string) :=
  (λ c, (Fd.mkCase c.1, c.2)) <$> l.

Definition fd_table (l : list (Z * string)) : list Z :=
  concat (Fd.raw <$> b_cases (from_iter (fd_entries l))).

Definition fd_paths (l : list (Z * string)) : list Z :=
  cursor_read_all (b_paths (from_iter (fd_entries l))).

(** The cases that are in the table. *)
Definition utf8_cases (l : list (Z * string)) : list (Z * string) := List.filter (λ c, is_utf8 c.2) l.

Lemma valid_fd_entries l : valid (fd_entries l) = fd_entries (utf8_cases l).
Proof.
  unfold valid, fd_entries, utf8_cases. induction l as [|[fd path] l IH]; [done|].
  rewrite fmap_cons. cbn [List.filter snd]. rewrite IH. by destruct (is_utf8 path).
Qed.

Definition case_ok (c : Z * string) : Prop := in_u 64 c.1 ∧ path_ok c.2.

Lemma length_fd_raw c : length (Fd.raw c) = 16%nat.
Proof. unfold Fd.raw. by rewrite length_app, !length_le_bytes. Qed.

(** A table in memory is ready for the code. *)
Lemma table_fd_ready base table m a pos l :
  Forall case_ok l → 0 ≤ pos →
  paths_addr base table + pos + Z.of_nat (length (all_paths (fd_entries l))) < 2 ^ 64 →
  0 ≤ paths_addr base table →
  bytes_at m a (concat (Fd.raw <$> layout pos (fd_entries l))) →
  bytes_at m (paths_addr base table + pos) (all_paths (fd_entries l)) →
  fd_ready base table m a l.
Proof.
  intros Hok. revert pos a. induction Hok as [|[fd path] l [Hfd Hpath] Hok IH];
    intros pos a Hpos Hb Hnp Ht Hp; [done|].
  unfold all_paths in *. cbn [fd_entries fmap list_fmap concat layout snd fst] in *.
  fold (fd_entries l) in *.
  apply bytes_at_app in Ht as [Ht1 Ht]. rewrite length_fd_raw in Ht.
  apply bytes_at_app in Ht1 as [Hf1 Hf2]. rewrite length_le_bytes in Hf2.
  apply bytes_at_app in Hp as [Hp1 Hp]. rewrite length_app in Hb. cbn [fd_ready].
  assert (0 < length (path_bytes path))%nat by (unfold path_bytes; rewrite length_app; simpl; lia).
  exists pos. split_and!; [done|lia| | | |].
  - rewrite Z.add_0_r. by apply bytes_at_load64.
  - apply bytes_at_load64; [lia|done].
  - by apply path_in_memory.
  - apply (IH (pos + Z.of_nat (length (path_bytes path)))); [lia|lia|done|done|].
    by rewrite Z.add_assoc.
Qed.

(** The whole run, for the theorems that follow. *)
Lemma fd_code_run `{K : Kernel, KL : !KernelLaws K} base l f b k :
  Forall case_ok l → 0 ≤ base →
  base + Z.of_nat (length (data_bytes (replacer_data (fd_table l) (fd_paths l)))) < 2 ^ 64 →
  bytes_at (k_mem k) base (data_bytes (replacer_data (fd_table l) (fd_paths l))) →
  ∃ c', run base (replacer_data (fd_table l) (fd_paths l)) Fd.code (8 + 35 * length l)
          (mkCpu f b 0 k) = Trapped c' ∧
    ks c' = reopen_all (utf8_cases l) k.
Proof.
  intros Hok Hb Hsize Hat. set (l' := utf8_cases l). set (table := fd_table l) in *.
  set (paths := fd_paths l) in *.
  destruct (from_iter_spec (fd_entries l)) as [Hcs Hps]. rewrite valid_fd_entries in Hcs, Hps.
  fold l' in Hcs, Hps.
  assert (length table = 16 * length l')%nat as Hlen.
  { unfold table, fd_table. rewrite Hcs. clear. generalize 0. induction l' as [|[fd p] l' IH]; intros pos; [done|].
    cbn [fd_entries fmap list_fmap layout concat length fst snd]. rewrite length_app, length_fd_raw.
    fold (fd_entries l'). rewrite IH. lia. }
  assert (length l' ≤ length l)%nat as Hle by apply List.filter_length_le.
  assert (Forall case_ok l') as Hok'.
  { apply Forall_forall. intros c Hc%list_elem_of_In. apply List.filter_In in Hc as [Hc _].
    rewrite Forall_forall in Hok. by apply Hok, list_elem_of_In. }
  rewrite length_data in Hsize. apply data_parts in Hat as (Ht & Hl & Hp).
  destruct (data_labels base table paths) as (Hlab & _ & _).
  destruct (fd_loop base table paths Hb ltac:(rewrite length_data; lia)
    (set_reg R14 base (set_reg R15 (Z.lxor (f R15) (f R15)) f)) false k 0 l') as (c' & Hrun & Hks);
    [done|reg_cbn; apply Z.lxor_nilpotent|lia|lia| | |].
  - apply bytes_at_load64; [lia|done].
  - rewrite Z.add_0_r. unfold paths, fd_paths, cursor_read_all in *. simpl in Hp, Hsize.
    rewrite drop_0, Hps in *. unfold paths_addr, length_addr in *.
    apply (table_fd_ready base table _ base 0 l'); [done|lia|unfold paths_addr, length_addr; lia|
      unfold paths_addr, length_addr; lia| |].
    + unfold table, fd_table in Ht. by rewrite Hcs in Ht.
    + unfold paths_addr, length_addr. by rewrite Z.add_0_r.
  - exists c'. split; [|done].
    replace (8 + 35 * length l)%nat with (3 + ((35 * length l' + 5) + (35 * (length l - length l'))))%nat by lia.
    asm_step. asm_lea Hlab. asm_step. by apply run_trapped.
Qed.

(** C3: the injected code does what it is for. Once the data of the fd
    replacer lies in the memory of a process, at [base], and the process
    is started on the code, it runs to its final [int3] within a number
    of steps proportional to the table, and has then performed exactly
    the calls of [reopen_all]: for every descriptor of the table, in
    order, it has opened the new path with the old flags, moved the new
    file to the old offset, and put it in place of the descriptor. *)
Theorem fd_code_refines_reopen `{K : Kernel, KL : !KernelLaws K} base l f b k :
  Forall case_ok l → 0 ≤ base →
  base + Z.of_nat (length (data_bytes (replacer_data (fd_table l) (fd_paths l)))) < 2 ^ 64 →
  bytes_at (k_mem k) base (data_bytes (replacer_data (fd_table l) (fd_paths l))) →
  ∃ c', run base (replacer_data (fd_table l) (fd_paths l)) Fd.code (8 + 35 * length l)
          (mkCpu f b 0 k) = Trapped c' ∧
    ks c' = reopen_all (utf8_cases l) k.
Proof. apply fd_code_run. Qed.
