(* ===== verification/MmapCode.v ===== *)
(** * The code of the mmap replacer

    The machine code of [src/replacer/mmap_replacer.rs], run in a process,
    unmaps every mapping of its table, opens the new file, maps it and
    closes it. The program never sets the address argument of mmap: it is
    still the address of the path. The descriptor is kept on the stack of
    the process. *)

From S2P Require Import Prelude Path Float Types Asm External Ptrace Mount Replacer Tables.

#[local] Open Scope Z_scope.

Section spec.
Context `{K : Kernel}.

(** ** The specification

    O_RDWR is 2. [slot] is the stack slot the descriptor is kept in and
    [hint] the address mmap is given. *)
Definition write64 (a v : Z) (k : kstate) : kstate :=
  set_mem (default (k_mem k) (store64 (k_mem k) a v)) k.

Definition remap (slot hint : Z) (c : Mmap.RawReplaceCase) (path : list Z) (k : kstate) : kstate :=
  let '(_, k) := kdo (UMunmap (Mmap.memory_addr c) (Mmap.length c)) k in
  let '(fd, k) := kdo (UOpen path 2 0) k in
  let k := write64 slot fd k in
  let '(_, k) := kdo (UMmap hint (Mmap.length c) (Mmap.prot c) (Mmap.flags c) fd (Mmap.offset c)) k in
  let '(_, k) := kdo (UClose fd) k in
  k.

(** The paths are stored one after the other, from [hint] on. *)
Fixpoint remap_all (slot hint : Z) (l : list (Mmap.RawReplaceCase * string)) (k : kstate) : kstate :=
  match l with
  | [] => k
  | (c, path) :: l =>
      remap_all slot (hint + Z.of_nat (length (path_bytes path))) l
        (remap slot hint c (bytes_of path) k)
  end.

End spec.

(** ** Memory that stays in place *)
Section code.
Context `{K : Kernel, KL : !KernelLaws K}.
Variables (base : Z) (table paths : list Z) (slot : Z).

Abbreviation data := (replacer_data table paths).
Abbreviation run := (run base data Mmap.code).

Hypothesis Hbase : 0 ≤ base.
Hypothesis Hsize : base + Z.of_nat (length (data_bytes data)) < 2 ^ 64.
Hypothesis Hslot : 0 ≤ slot ∧ slot + 8 < 2 ^ 64.
Hypothesis Hdisj : slot + 8 ≤ base ∨ base + Z.of_nat (length (data_bytes data)) ≤ slot.

(** The bytes of the data, and those of the stack slot. *)
Definition in_data (x : Z) : Prop := base ≤ x < base + Z.of_nat (length (data_bytes data)).
Definition in_slot (x : Z) : Prop := slot ≤ x < slot + 8.

(** The data is in memory and the slot is mapped. *)
Definition loaded (m : gmap Z Z) : Prop :=
  bytes_at m base (data_bytes data) ∧ ∃ bs, length bs = 8%nat ∧ bytes_at m slot bs.

Lemma loaded_keep m m' :
  (∀ x b, in_data x ∨ in_slot x → m !! x = Some b → m' !! x = Some b) → loaded m → loaded m'.
Proof.
  intros Hk [Hd (bs & Hl & Hs)]. split; [|exists bs; split; [done|]].
  - apply (bytes_at_agree m); [|done]. intros x b Hx. apply Hk. by left.
  - apply (bytes_at_agree m); [|done]. intros x b Hx. apply Hk. right. unfold in_slot. lia.
Qed.

(** A mapping that is replaced: its pages hold neither. *)
Definition apart (c : Mmap.RawReplaceCase) : Prop :=
  ∀ x, in_data x ∨ in_slot x →
    ¬ (Mmap.memory_addr c ≤ x < Mmap.memory_addr c + page_ceil (Mmap.length c)).

Lemma loaded_munmap c k r k' :
  apart c → kdo (UMunmap (Mmap.memory_addr c) (Mmap.length c)) k = (r, k') →
  loaded (k_mem k) → loaded (k_mem k').
Proof.
  intros Hc. unfold kdo. destruct (ksys _ (k_mem k) (k_world k)) as [[r0 m] w] eqn:Hk.
  intros [= _ <-]. apply loaded_keep. intros x b Hx Hb. cbn [k_mem].
  by rewrite (ksys_munmap _ _ _ _ _ _ _ x Hk (Hc x Hx)).
Qed.

Lemma loaded_other c k r k' :
  kdo c k = (r, k') → maps_memory c = false → loaded (k_mem k) → loaded (k_mem k').
Proof. intros Hk Hm. by rewrite (kdo_memory _ _ _ _ Hk Hm). Qed.

Lemma mmap_keeps a l p f fd o k r k' x b :
  Z.land f 16 = 0 → kdo (UMmap a l p f fd o) k = (r, k') →
  k_mem k !! x = Some b → k_mem k' !! x = Some b.
Proof.
  intros Hf. unfold kdo. destruct (ksys _ (k_mem k) (k_world k)) as [[r0 m] w] eqn:Hk.
  intros [= _ <-]. by apply (ksys_mmap _ _ _ _ _ _ _ _ _ _ _ _ _ Hf Hk).
Qed.

(** A store in the slot succeeds, and its value is there. *)
Lemma loaded_store m v :
  loaded m → ∃ m', store64 m slot v = Some m' ∧ loaded m' ∧ bytes_at m' slot (le_bytes 8 v).
Proof.
  intros [Hd (bs & Hl & Hs)]. unfold store64.
  destruct (store_bytes_spec m slot bs (le_bytes 8 v) Hs) as (m' & Hst & Hat & Hfr);
    [by rewrite length_le_bytes|].
  rewrite length_le_bytes in Hfr. exists m'. split_and!; [done| |done]. split.
  - apply (bytes_at_agree m); [|done]. intros x b Hx Hb. rewrite Hfr; [done|lia].
  - exists (le_bytes 8 v). by rewrite length_le_bytes.
Qed.

(** The addresses a round computes. *)
Lemma case_addr o d :
  0 ≤ o → 0 ≤ d → o + d ≤ Z.of_nat (length table) → as_u64 (base + (o + d) + 0) = base + o + d.
Proof.
  intros. pose proof (length_data table paths). rewrite uwrap_id; [lia|unfold in_u; lia].
Qed.

Lemma offset_add o d :
  0 ≤ o + d → o + d ≤ Z.of_nat (length table) → as_u64 (o + d) = o + d.
Proof. intros. pose proof (length_data table paths). apply uwrap_id. unfold in_u. lia. Qed.

(** What the table says of the case at address [a]. *)
Record case_at (m : gmap Z Z) (a : Z) (c : Mmap.RawReplaceCase) (path : list Z) : Prop := {
  at_addr : load64 m a = Some (Mmap.memory_addr c);
  at_length : load64 m (a + 8) = Some (Mmap.length c);
  at_prot : load64 m (a + 16) = Some (Mmap.prot c);
  at_flags : load64 m (a + 24) = Some (Mmap.flags c);
  at_path : load64 m (a + 32) = Some (Mmap.new_path_offset c);
  at_offset : load64 m (a + 40) = Some (Mmap.offset c);
  at_cstr : load_cstr PATH_MAX m (paths_addr base table + Mmap.new_path_offset c) = Some path
}.

Lemma kdo_u64 c k r k' : kdo c k = (r, k') → in_u 64 r.
Proof.
  unfold kdo. destruct (ksys c (k_mem k) (k_world k)) as [[r0 m] w]. intros [= <- _].
  by apply uwrap_in.
Qed.

(** The offset in r15 after an addition or a subtraction. *)
Ltac asm_offset H z o d :=
  replace (as_u64 z) with (o + d) by (etrans; [symmetry; apply (H d); lia|f_equal; lia]).

(** One round of the loop, from its first label to its last. *)
Lemma mmap_round f b k o c path :
  f R14 = base → f R15 = o → f RSP = slot + 8 →
  0 ≤ o → o + 48 ≤ Z.of_nat (length table) →
  0 ≤ Mmap.new_path_offset c → paths_addr base table + Mmap.new_path_offset c < 2 ^ 64 →
  Z.land (Mmap.flags c) 16 = 0 → apart c →
  (∀ m, loaded m → case_at m (base + o) c path) → loaded (k_mem k) →
  let k' := remap slot (paths_addr base table + Mmap.new_path_offset c) c path k in
  ∃ f' b', run 31 (mkCpu f b 3 k) = Running (mkCpu f' b' 34 k') ∧
    f' R14 = base ∧ f' R15 = o + 48 ∧ f' RSP = slot + 8 ∧ loaded (k_mem k').
Proof.
  intros H14 H15 Hsp Ho Hlen Hoff Hp Hfl Hap Hcase HL. unfold remap, write64. cbv zeta.
  destruct (kdo (UMunmap (Mmap.memory_addr c) (Mmap.length c)) k) as [r1 k1] eqn:E1.
  destruct (kdo (UOpen path 2 0) k1) as [fd k2] eqn:E2.
  pose proof (loaded_munmap _ _ _ _ Hap E1 HL) as HL1.
  pose proof (loaded_other _ _ _ _ E2 eq_refl HL1) as HL2.
  destruct (loaded_store (k_mem k2) fd HL2) as (m3 & Hst & HL3 & Hfd3). rewrite Hst.
  change (set_mem (default (k_mem k2) (Some m3)) k2) with (set_mem m3 k2). set (k3 := set_mem m3 k2).
  destruct (kdo (UMmap (paths_addr base table + Mmap.new_path_offset c) (Mmap.length c)
    (Mmap.prot c) (Mmap.flags c) fd (Mmap.offset c)) k3) as [r4 k4] eqn:E4.
  destruct (kdo (UClose fd) k4) as [r5 k5] eqn:E5.
  assert (∀ x y, k_mem k3 !! x = Some y → k_mem k4 !! x = Some y) as Hkeep
    by (intros x y; apply (mmap_keeps _ _ _ _ _ _ _ _ _ x y Hfl E4)).
  assert (loaded (k_mem k4)) as HL4 by (apply (loaded_keep (k_mem k3)); eauto).
  pose proof (loaded_other _ _ _ _ E5 eq_refl HL4) as HL5.
  assert (load64 (k_mem k4) slot = Some fd) as Hpop.
  { apply bytes_at_load64; [exact (kdo_u64 _ _ _ _ E2)|]. apply (bytes_at_agree m3); [|done].
    intros x y _. apply Hkeep. }
  destruct (data_labels base table paths) as (_ & _ & Hlab).
  assert (∀ d, 0 ≤ d ≤ 40 → as_u64 (base + (o + d) + 0) = base + o + d) as Haddr
    by (intros; apply case_addr; lia).
  assert (∀ d, 0 ≤ d ≤ 48 → as_u64 (o + d) = o + d) as Hadd by (intros; apply offset_add; lia).
  assert (as_u64 (f R14 + f R15 + 0) = base + o ∧ as_u64 (f R14 + f R15 + 8) = base + o + 8) as [Ha0 Ha8].
  { rewrite H14, H15. replace (base + o + 0) with (base + (o + 0) + 0) by lia.
    replace (base + o + 8) with (base + (o + 8) + 0) at 1 by lia. rewrite !Haddr; lia. }
  assert (as_u64 (paths_addr base table + Mmap.new_path_offset c) =
    paths_addr base table + Mmap.new_path_offset c) as Hpa.
  { apply uwrap_id. unfold in_u, paths_addr, length_addr in *. lia. }
  destruct (Hcase _ HL) as [C1 C2 _ _ _ _ _]. destruct (Hcase _ HL1) as [_ _ _ _ C5 _ C7].
  destruct (Hcase _ HL3) as [_ C2' C3 C4 _ C6 _].
  eexists _, _. split.
  - asm_label. asm_step. asm_load ltac:(exact Ha0) C1. asm_load ltac:(exact Ha8) C2. asm_step.
    asm_call E1. asm_step. asm_lea Hlab. asm_step. rewrite H15, Hadd by lia.
    asm_load ltac:(rewrite H14; apply Haddr; lia) C5. rewrite Hpa. asm_step.
    asm_offset Hadd (o + 8 * 4 - 8 * 4) o 0. asm_step. asm_step. asm_call E2.
    { unfold decode. reg_cbn. by rewrite C7. }
    asm_push ltac:(rewrite Hsp; replace (slot + 8 - 8) with slot by lia; apply uwrap_id; unfold in_u; lia) Hst.
    fold k3. asm_step. asm_step. asm_step. asm_offset Hadd (o + 0 + 8) o 8.
    asm_load ltac:(rewrite H14; apply Haddr; lia) C2'. asm_step. asm_offset Hadd (o + 8 + 8) o 16.
    asm_load ltac:(rewrite H14; apply Haddr; lia) C3. asm_step. asm_offset Hadd (o + 16 + 8) o 24.
    asm_load ltac:(rewrite H14; apply Haddr; lia) C4. asm_step. asm_offset Hadd (o + 24 + 16) o 40.
    asm_load ltac:(rewrite H14; apply Haddr; lia) C6. asm_call E4.
    asm_step. asm_offset Hadd (o + 40 - 8 * 5) o 0. asm_step.
    asm_pop Hpop ltac:(apply uwrap_id; unfold in_u; lia). asm_call E5. asm_step.
    asm_offset Hadd (o + 0 + 48) o 48. reflexivity.
  - reg_cbn. split_and!; done.
Qed.

(** The cases from address [a] on, with their paths from [pos] on. *)
Definition with_offset (c : Mmap.RawReplaceCase) (pos : Z) : Mmap.RawReplaceCase :=
  Mmap.mkCase (Mmap.memory_addr c) (Mmap.length c) (Mmap.prot c) (Mmap.flags c) pos (Mmap.offset c).

Fixpoint mmap_ready (a pos : Z) (l : list (Mmap.RawReplaceCase * string)) : Prop :=
  match l with
  | [] => True
  | (c, path) :: l =>
      0 ≤ pos ∧ paths_addr base table + pos < 2 ^ 64 ∧
      (∀ m, loaded m → case_at m a (with_offset c pos) (bytes_of path)) ∧
      mmap_ready (a + 48) (pos + Z.of_nat (length (path_bytes path))) l
  end.

Lemma mmap_loop f b k o pos l :
  f R14 = base → f R15 = o → f RSP = slot + 8 → 0 ≤ o →
  o + 48 * Z.of_nat (length l) = Z.of_nat (length table) →
  Forall (λ c, Z.land (Mmap.flags c.1) 16 = 0 ∧ apart c.1) l →
  loaded (k_mem k) → mmap_ready (base + o) pos l →
  ∃ c', run (35 * length l + 5) (mkCpu f b 34 k) = Trapped c' ∧
    ks c' = remap_all slot (paths_addr base table + pos) l k ∧ rf c' RSP = slot + 8.
Proof.
  revert f b k o pos. induction l as [|[c path] l IH];
    intros f b k o pos H14 H15 Hsp Ho Hlen Hl HL Hr;
    pose proof (data_parts _ _ _ _ (proj1 HL)) as (_ & Hn & _);
    apply bytes_at_load64 in Hn; try (pose proof (length_data table paths); lia).
  - exists (mkCpu (set_reg R13 (Z.of_nat (length table)) f) false 38 k). split; [|by split; [|reg_cbn]].
    change (35 * length (@nil (Mmap.RawReplaceCase * string)) + 5)%nat with (4 + 1)%nat.
    erewrite run_app; [by apply loop_end|]. rewrite loop_test, H15 by done. simpl in Hlen.
    by destruct (Z.ltb_spec o (Z.of_nat (length table))); [lia|].
  - cbn [length] in *. replace (35 * S (length l) + 5)%nat with (4 + (31 + (35 * length l + 5)))%nat by lia.
    erewrite run_app; [|rewrite loop_test, H15 by done;
      destruct (Z.ltb_spec o (Z.of_nat (length table))); [reflexivity|lia]].
    apply Forall_cons in Hl as [[Hf Hap] Hl]. destruct Hr as (Hpos & Hp & Hcase & Hr).
    destruct (mmap_round (set_reg R13 (Z.of_nat (length table)) f) true k o (with_offset c pos) (bytes_of path))
      as (f' & b' & Hrun & H14' & H15' & Hsp' & HL'); try done; [lia|].
    erewrite run_app by exact Hrun.
    destruct (IH f' b' (remap slot (paths_addr base table + pos) c (bytes_of path) k) (o + 48)
      (pos + Z.of_nat (length (path_bytes path)))) as (c' & Hr' & Hk' & Hs'); try done; try lia.
    + by replace (base + (o + 48)) with (base + o + 48) by lia.
    + exists c'. split; [exact Hr'|]. split; [|done]. rewrite Hk'. cbn [remap_all].
      by rewrite Z.add_assoc.
Qed.

End code.

(** ** Where the new mappings are requested *)
Section hints.
Context `{K : Kernel}.
Variable slot : Z.

Lemma kdo_log c k r k' : kdo c k = (r, k') → k_log k' = k_log k ++ [(c, r)].
Proof.
  unfold kdo. destruct (ksys c (k_mem k) (k_world k)) as [[r0 m] w]. by intros [= <- <-].
Qed.

Definition is_mmap (c : ucall) : option Z := match c with UMmap a _ _ _ _ _ => Some a | _ => None end.

Lemma remap_log hint c path k :
  omap (λ e, is_mmap e.1) (k_log (remap slot hint c path k)) =
    omap (λ e, is_mmap e.1) (k_log k) ++ [hint].
Proof.
  unfold remap, write64.
  destruct (kdo (UMunmap _ _) k) as [r1 k1] eqn:E1. destruct (kdo (UOpen _ _ _) k1) as [fd k2] eqn:E2.
  destruct (kdo (UMmap _ _ _ _ _ _) _) as [r4 k4] eqn:E4. destruct (kdo (UClose fd) k4) as [r5 k5] eqn:E5.
  apply kdo_log in E1, E2, E4, E5. rewrite E5, E4. cbn [set_mem k_log]. rewrite E2, E1.
  rewrite !omap_app. simpl. by rewrite !app_nil_r.
Qed.

Lemma remap_all_log hint l k :
  ∃ hints, omap (λ e, is_mmap e.1) (k_log (remap_all slot hint l k)) =
      omap (λ e, is_mmap e.1) (k_log k) ++ hints ∧
    ∀ a, a ∈ hints → hint ≤ a < hint + Z.of_nat (length (concat ((λ c, path_bytes c.2) <$> l))).
Proof.
  revert hint k. induction l as [|[c path] l IH]; intros hint k.
  - exists []. rewrite app_nil_r. split; [done|]. by intros a Ha%elem_of_nil.
  - cbn [remap_all]. destruct (IH (hint + Z.of_nat (length (path_bytes path)))
      (remap slot hint c (bytes_of path) k)) as (hints & Hh & Hb).
    exists (hint :: hints). rewrite Hh, remap_log, <- app_assoc. split; [done|].
    rewrite fmap_cons. cbn [concat snd]. rewrite length_app.
    assert (0 < length (path_bytes path))%nat by (unfold path_bytes; rewrite length_app; simpl; lia).
    intros a [->|Ha]%elem_of_cons; [lia|]. specialize (Hb a Ha). lia.
Qed.

End hints.

(** ** The table in memory *)
Definition mmap_entries (l : list (Mmap.RawReplaceCase * string)) : list ((Z → Mmap.RawReplaceCase) * string) :=
  (λ c, (with_offset c.1, c.2)) <$> l.

Definition mmap_table (l : list (Mmap.RawReplaceCase * string)) : list Z :=
  concat (Mmap.raw <$> b_cases (from_iter (mmap_entries l))).

Definition mmap_paths (l : list (Mmap.RawReplaceCase * string)) : list Z :=
  cursor_read_all (b_paths (from_iter (mmap_entries l))).

Definition utf8_mappings (l : list (Mmap.RawReplaceCase * string)) : list (Mmap.RawReplaceCase * string) :=
  List.filter (λ c, is_utf8 c.2) l.

Lemma valid_mmap_entries l : valid (mmap_entries l) = mmap_entries (utf8_mappings l).
Proof.
  unfold valid, mmap_entries, utf8_mappings. induction l as [|[c path] l IH]; [done|].
  rewrite fmap_cons. cbn [List.filter snd]. rewrite IH. by destruct (is_utf8 path).
Qed.

(** A mapping as procfs and [get_prot_and_flags_from_perms] report it. *)
Definition mapping_ok (c : Mmap.RawReplaceCase * string) : Prop :=
  in_u 64 (Mmap.memory_addr c.1) ∧ in_u 64 (Mmap.length c.1) ∧ in_u 64 (Mmap.prot c.1) ∧
  in_u 64 (Mmap.flags c.1) ∧ in_u 64 (Mmap.offset c.1) ∧
  Z.land (Mmap.flags c.1) 16 = 0 ∧ path_ok c.2.

Lemma length_mmap_raw c : length (Mmap.raw c) = 48%nat.
Proof. unfold Mmap.raw. by rewrite !length_app, !length_le_bytes. Qed.

Lemma raw_fields m a c :
  bytes_at m a (Mmap.raw c) → in_u 64 (Mmap.memory_addr c) → in_u 64 (Mmap.length c) →
  in_u 64 (Mmap.prot c) → in_u 64 (Mmap.flags c) → in_u 64 (Mmap.new_path_offset c) →
  in_u 64 (Mmap.offset c) →
  load64 m a = Some (Mmap.memory_addr c) ∧ load64 m (a + 8) = Some (Mmap.length c) ∧
  load64 m (a + 16) = Some (Mmap.prot c) ∧ load64 m (a + 24) = Some (Mmap.flags c) ∧
  load64 m (a + 32) = Some (Mmap.new_path_offset c) ∧ load64 m (a + 40) = Some (Mmap.offset c).
Proof.
  unfold Mmap.raw. rewrite !bytes_at_app, !length_le_bytes.
  replace (a + Z.of_nat 8 + Z.of_nat 8) with (a + 16) by lia.
  replace (a + 16 + Z.of_nat 8) with (a + 24) by lia.
  replace (a + 24 + Z.of_nat 8) with (a + 32) by lia.
  replace (a + 32 + Z.of_nat 8) with (a + 40) by lia.
  intros (? & ? & ? & ? & ? & ?) ? ? ? ? ? ?. split_and!; by apply bytes_at_load64.
Qed.

Lemma table_mmap_ready base table paths slot a pos l :
  Forall mapping_ok l → 0 ≤ pos → 0 ≤ paths_addr base table →
  paths_addr base table + pos + Z.of_nat (length (all_paths (mmap_entries l))) < 2 ^ 64 →
  (∀ m, loaded base table paths slot m →
    bytes_at m a (concat (Mmap.raw <$> layout pos (mmap_entries l))) ∧
    bytes_at m (paths_addr base table + pos) (all_paths (mmap_entries l))) →
  mmap_ready base table paths slot a pos l.
Proof.
  intros Hok. revert pos a.
  induction Hok as [|[c path] l (H1 & H2 & H3 & H4 & H5 & _ & Hpath) Hok IH];
    intros pos a Hpos Hnp Hb Hm; [done|].
  unfold all_paths in *. cbn [mmap_entries fmap list_fmap concat layout snd fst] in *.
  fold (mmap_entries l) in *. rewrite length_app in Hb. cbn [mmap_ready].
  assert (0 < length (path_bytes path))%nat by (unfold path_bytes; rewrite length_app; simpl; lia).
  split; [done|]. split; [lia|]. split.
  - intros m HL. destruct (Hm m HL) as [Ht Hp].
    apply bytes_at_app in Ht as [Ht _]. apply bytes_at_app in Hp as [Hp _].
    apply raw_fields in Ht as (? & ? & ? & ? & ? & ?); try done; [|unfold in_u; simpl; lia].
    split; try done. by apply path_in_memory.
  - apply IH; [lia|done|lia|]. intros m HL. destruct (Hm m HL) as [Ht Hp].
    apply bytes_at_app in Ht as [_ Ht]. apply bytes_at_app in Hp as [_ Hp].
    rewrite length_mmap_raw in Ht. split; [exact Ht|]. by rewrite Z.add_assoc.
Qed.

(** The data has been written into a stopped process, at [base]: apart
    from the stack slot below its stack pointer, and from the pages of the
    mappings to be replaced. *)
Record mmap_injected `{K : Kernel} (base : Z) (l : list (Mmap.RawReplaceCase * string))
    (f : regs) (k : kstate) (slot : Z) : Prop := {
  inj_ok : Forall mapping_ok l;
  inj_base : 0 ≤ base;
  inj_size : base + Z.of_nat (length (data_bytes (replacer_data (mmap_table l) (mmap_paths l)))) < 2 ^ 64;
  inj_rsp : f RSP = slot + 8;
  inj_slot : 0 ≤ slot ∧ slot + 8 < 2 ^ 64;
  inj_disjoint : slot + 8 ≤ base ∨
    base + Z.of_nat (length (data_bytes (replacer_data (mmap_table l) (mmap_paths l)))) ≤ slot;
  inj_apart : Forall (λ c, apart base (mmap_table l) (mmap_paths l) slot c.1) l;
  inj_loaded : loaded base (mmap_table l) (mmap_paths l) slot (k_mem k)
}.

(** The whole run, for the two theorems that follow. *)
Lemma mmap_code_run `{K : Kernel, KL : !KernelLaws K} base l f b k slot :
  mmap_injected base l f k slot →
  ∃ c', run base (replacer_data (mmap_table l) (mmap_paths l)) Mmap.code (8 + 35 * length l)
          (mkCpu f b 0 k) = Trapped c' ∧
    ks c' = remap_all slot (paths_addr base (mmap_table l)) (utf8_mappings l) k ∧
    rf c' RSP = f RSP.
Proof.
  intros [Hok Hb Hsize Hsp [Hs0 Hs1] Hdisj Hap HL]. set (l' := utf8_mappings l).
  set (table := mmap_table l) in *. set (paths := mmap_paths l) in *.
  destruct (from_iter_spec (mmap_entries l)) as [Hcs Hps]. rewrite valid_mmap_entries in Hcs, Hps.
  fold l' in Hcs, Hps.
  assert (length table = 48 * length l')%nat as Hlen.
  { unfold table, mmap_table. rewrite Hcs. clear. generalize 0. induction l' as [|[c p] l' IH]; intros pos; [done|].
    cbn [mmap_entries fmap list_fmap layout concat length fst snd]. rewrite length_app, length_mmap_raw.
    fold (mmap_entries l'). rewrite IH. lia. }
  assert (length l' ≤ length l)%nat as Hle by apply List.filter_length_le.
  assert (∀ c, c ∈ l' → c ∈ l) as Hsub.
  { intros c Hc%list_elem_of_In. apply List.filter_In in Hc as [Hc _]. by apply list_elem_of_In. }
  rewrite !Forall_forall in *. destruct (data_labels base table paths) as (Hlab & _ & _).
  pose proof (length_data table paths) as Hld.
  destruct (mmap_loop base table paths slot Hb Hsize ltac:(lia) Hdisj
    (set_reg R14 base (set_reg R15 (Z.lxor (f R15) (f R15)) f)) false k 0 0 l')
    as (c' & Hrun & Hks & Hsp'); [done|reg_cbn; apply Z.lxor_nilpotent|done|lia|lia| |done| |].
  - apply Forall_forall. intros c Hc. split; [apply (Hok c); auto|auto].
  - rewrite Z.add_0_r. apply table_mmap_ready.
    + apply Forall_forall. auto.
    + lia.
    + unfold paths_addr, length_addr. lia.
    + unfold paths, mmap_paths, cursor_read_all in *. simpl in Hld. rewrite drop_0, Hps in *.
      unfold paths_addr, length_addr. lia.
    + intros m [Hd _]. apply data_parts in Hd as (Ht & _ & Hp).
      unfold table, mmap_table in Ht. rewrite Hcs in Ht. split; [done|].
      unfold paths, mmap_paths, cursor_read_all in Hp. simpl in Hp. rewrite drop_0, Hps in Hp.
      by rewrite Z.add_0_r.
  - exists c'. rewrite Hsp. rewrite Z.add_0_r in Hks. split; [|done].
    replace (8 + 35 * length l)%nat with (3 + ((35 * length l' + 5) + (35 * (length l - length l'))))%nat by lia.
    asm_step. asm_lea Hlab. asm_step. by apply run_trapped.
Qed.

(** C11: the injected code of the mmap replacer, once its data lies in the
    memory of a stopped process, runs to its final
    [int3] and has then performed exactly the calls of [remap_all] for the
    mappings of the table, in order; the stack pointer is as before. *)
Theorem mmap_code_refines_remap `{K : Kernel, KL : !KernelLaws K} base l f b k slot :
  mmap_injected base l f k slot →
  ∃ c', run base (replacer_data (mmap_table l) (mmap_paths l)) Mmap.code (8 + 35 * length l)
          (mkCpu f b 0 k) = Trapped c' ∧
    ks c' = remap_all slot (paths_addr base (mmap_table l)) (utf8_mappings l) k ∧
    rf c' RSP = f RSP.
Proof. apply mmap_code_run. Qed.

(** The mmap replacer does not put mappings back. Under the same
    conditions every mmap call the code makes asks for an address inside
    the injected data (that of the path), so for none of the mappings it
    has removed does it ask for an address in its pages. *)
Theorem mmap_code_misplaces_mappings `{K : Kernel, KL : !KernelLaws K} base l f b k slot :
  mmap_injected base l f k slot → k_log k = [] →
  ∃ c', run base (replacer_data (mmap_table l) (mmap_paths l)) Mmap.code (8 + 35 * length l)
          (mkCpu f b 0 k) = Trapped c' ∧
    ∀ a len prot flags fd off r, (UMmap a len prot flags fd off, r) ∈ k_log (ks c') →
      in_data base (mmap_table l) (mmap_paths l) a ∧
      ∀ c, c ∈ l → ¬ (Mmap.memory_addr c.1 ≤ a < Mmap.memory_addr c.1 + page_ceil (Mmap.length c.1)).
Proof.
  intros Hin0 Hlog. pose proof (inj_apart _ _ _ _ _ Hin0) as Hap.
  destruct (mmap_code_run base l f b k slot Hin0)
    as (c' & Hr & Hk & _).
  exists c'. split; [done|]. intros a len prot flags fd off r Hin.
  assert (in_data base (mmap_table l) (mmap_paths l) a) as Hd; [|split; [done|]].
  - destruct (remap_all_log slot (paths_addr base (mmap_table l)) (utf8_mappings l) k) as (hints & Hh & Hb').
    rewrite <- Hk, Hlog in Hh. simpl in Hh.
    assert (a ∈ hints) as Ha.
    { rewrite <- Hh. apply list_elem_of_omap. exists (UMmap a len prot flags fd off, r). done. }
    specialize (Hb' a Ha). unfold in_data. rewrite length_data.
    destruct (from_iter_spec (mmap_entries l)) as [_ Hps]. rewrite valid_mmap_entries in Hps.
    assert (mmap_paths l = concat ((λ c, path_bytes c.2) <$> utf8_mappings l)) as Hp.
    { unfold mmap_paths, cursor_read_all. rewrite Hps. simpl. unfold all_paths, mmap_entries.
      by rewrite drop_0, <- list_fmap_compose. }
    rewrite <- Hp in Hb'. unfold paths_addr, length_addr in Hb'. lia.
  - intros c Hc. rewrite Forall_forall in Hap. apply (Hap c Hc). by left.
Qed.
