(* ===== verification/Descriptors.v ===== *)
(** * What the reopened descriptors lead to

    Over a kernel with descriptors and open file descriptions, the code of
    the fd replacer moves the descriptors of its cases to the new paths,
    with their flags and offsets, and touches no other; what fails leaves a
    descriptor open. A concrete kernel in which the laws hold, and the
    witnesses of the theorems on the injected code. *)

From S2P Require Import Prelude Path Float Types Asm External Ptrace Mount Replacer Tables FdCode.
From S2P Require Import MmapCode.

#[local] Open Scope Z_scope.

(** ** Kernels with a descriptor table

    A descriptor leads to an open file description, which several
    descriptors may share: the file, its status flags and its offset. *)
Record open_file := mkOpen { of_path : list Z; of_flags : Z; of_offset : Z }.

(** The result of a call that failed. *)
Definition failed (r : Z) : Prop := -4096 < r < 0.

(** The descriptors of a process, the descriptions they lead to, and the
    flags of [open] that are status flags. *)
Class FdWorld (K : Kernel) := {
  fd_of : KWorld → Z → option Z;
  file_of : KWorld → Z → open_file;
  status : Z → Z
}.

Section tables.
Context `{FW : FdWorld}.

(** Some descriptor leads to the description; one that none leads to is
    gone. *)
Definition live (w : KWorld) (d : Z) : Prop := ∃ x, fd_of w x = Some d.

(** The descriptions that are left are as they were. *)
Definition same_files (w w' : KWorld) : Prop := ∀ d, live w' d → file_of w' d = file_of w d.

Definition same_table (w w' : KWorld) : Prop := (∀ x, fd_of w' x = fd_of w x) ∧ same_files w w'.

End tables.

(** What POSIX and the Linux manual say of the calls. A call that fails
    changes nothing (but [close], which always releases the descriptor);
    F_GETFL reports the status flags of the description; [open] makes a new
    description on a descriptor that was not in use, with the status flags
    among those it is given, and those F_GETFL reported are all status
    flags; [lseek] moves the offset of one description, which all its
    descriptors see; [dup2] makes the second descriptor lead where the
    first does. *)
Class FdTable (K : Kernel) (FW : FdWorld K) := {
  fds_range : ∀ w x d, fd_of w x = Some d →
    0 ≤ x < 2 ^ 31 ∧ in_u 64 (of_flags (file_of w d)) ∧ 0 ≤ of_offset (file_of w d) < 2 ^ 63 ∧
    status (of_flags (file_of w d)) = of_flags (file_of w d);
  fcntl_law : ∀ fd m w r m' w', ksys (UFcntl fd 3 0) m w = (r, m', w') →
    same_table w w' ∧ ∀ d, fd_of w fd = Some d → r = of_flags (file_of w d);
  open_law : ∀ p fl md m w r m' w', ksys (UOpen p fl md) m w = (r, m', w') →
    (failed r ∧ same_table w w') ∨
    (0 ≤ r < 2 ^ 31 ∧ fd_of w r = None ∧ ∃ d, ¬ live w d ∧
     (∀ x, fd_of w' x = if decide (x = r) then Some d else fd_of w x) ∧
     file_of w' d = mkOpen p (status fl) 0 ∧ ∀ d', live w d' → file_of w' d' = file_of w d');
  lseek_cur_law : ∀ fd m w r m' w', ksys (ULseek fd 0 1) m w = (r, m', w') →
    same_table w w' ∧
    (failed r ∨ ∃ d, fd_of w fd = Some d ∧ r = of_offset (file_of w d));
  lseek_set_law : ∀ fd off m w r m' w', ksys (ULseek fd off 0) m w = (r, m', w') →
    (failed r ∧ same_table w w') ∨
    (r = off ∧ 0 ≤ off < 2 ^ 63 ∧ ∃ d, fd_of w fd = Some d ∧ (∀ x, fd_of w' x = fd_of w x) ∧
     file_of w' d = mkOpen (of_path (file_of w d)) (of_flags (file_of w d)) off ∧
     ∀ d', live w' d' → d' ≠ d → file_of w' d' = file_of w d');
  dup2_law : ∀ a b m w r m' w', ksys (UDup2 a b) m w = (r, m', w') →
    (failed r ∧ same_table w w') ∨
    (r = b ∧ same_files w w' ∧ ∃ d, fd_of w a = Some d ∧
     ∀ x, fd_of w' x = if decide (x = b) then Some d else fd_of w x);
  close_law : ∀ fd m w r m' w', ksys (UClose fd) m w = (r, m', w') →
    same_files w w' ∧ ∀ x, fd_of w' x = if decide (x = fd) then None else fd_of w x
}.

Section descriptors.
Context `{K : Kernel, KL : !KernelLaws K, FW : !FdWorld K, FT : !FdTable K FW}.

(** The file a descriptor leads to. *)
Definition file (k : kstate) (x : Z) : option open_file := file_of (k_world k) <$> fd_of (k_world k) x.







(** Descriptor [x] leads where it did, to a file that is as it was. *)
Definition unmoved (k k' : kstate) (x : Z) : Prop :=
  fd_of (k_world k') x = fd_of (k_world k) x ∧ file k' x = file k x.




(** The descriptors but [n] are those of [k], and only [n] leads to the
    description [d], of the file [o]. *)
Definition only_to (k k' : kstate) (n d : Z) (o : open_file) : Prop :=
  (∀ x, x ≠ n → unmoved k k' x ∧ fd_of (k_world k') x ≠ Some d) ∧
  fd_of (k_world k') n = Some d ∧ file_of (k_world k') d = o.

Lemma only_to_file k k' n d o : only_to k k' n d o → file k' n = Some o.
Proof. intros (_ & Hn & <-). unfold file. by rewrite Hn. Qed.














End descriptors.

(** ** A concrete kernel

    Its world is a table of descriptors and one of descriptions; an empty
    path does not exist, every flag is a status flag, and what it maps is
    not filled in. *)
Record demo_world := mkWorld { dw_fds : gmap Z Z; dw_files : gmap Z open_file }.

Definition entry_ok (x : Z) (o : open_file) : bool :=
  (0 <=? x) && (x <? 2 ^ 31) && (0 <=? of_flags o) && (of_flags o <? 2 ^ 64) &&
  (0 <=? of_offset o) && (of_offset o <? 2 ^ 63).

Definition demo_file (w : demo_world) (d : Z) : open_file :=
  default (mkOpen [] 0 0) (dw_files w !! d).

Definition demo_fd (w : demo_world) (x : Z) : option Z :=
  match dw_fds w !! x with
  | Some d => if entry_ok x (demo_file w d) then Some d else None
  | None => None
  end.

Definition above (l : list Z) : Z := foldr Z.max 2 l + 1.

Definition next_fd (w : demo_world) : Z := above (map_to_list (dw_fds w)).*1.

Definition next_file (w : demo_world) : Z := above (map_to_list (dw_fds w)).*2.

Definition demo_ksys (c : ucall) (m : gmap Z Z) (w : demo_world) : Z * gmap Z Z * demo_world :=
  match c with
  | UFcntl fd _ _ => (match demo_fd w fd with Some d => of_flags (demo_file w d) | None => -9 end, m, w)
  | UOpen p fl _ =>
      let n := next_fd w in
      if negb (bool_decide (p = [])) && entry_ok n (mkOpen p fl 0)
      then (n, m, mkWorld (<[n := next_file w]> (dw_fds w)) (<[next_file w := mkOpen p fl 0]> (dw_files w)))
      else (-2, m, w)
  | ULseek fd off whence =>
      match demo_fd w fd with
      | Some d =>
          let o := demo_file w d in
          if whence =? 1 then (of_offset o, m, w)
          else if (0 <=? off) && (off <? 2 ^ 63)
          then (off, m, mkWorld (dw_fds w) (<[d := mkOpen (of_path o) (of_flags o) off]> (dw_files w)))
          else (-22, m, w)
      | None => (-9, m, w)
      end
  | UDup2 a b =>
      match demo_fd w a with
      | Some d => if (0 <=? b) && (b <? 2 ^ 31) then (b, m, mkWorld (<[b := d]> (dw_fds w)) (dw_files w))
                  else (-9, m, w)
      | None => (-9, m, w)
      end
  | UClose fd => (0, m, mkWorld (delete fd (dw_fds w)) (dw_files w))
  | UMunmap a l => (0, base.filter (λ p, ¬ (a ≤ p.1 < a + page_ceil l)) m, w)
  | UMmap _ _ _ _ _ _ => (2 ^ 46, m, w)
  end.

#[export] Instance DemoKernel : Kernel := {| KWorld := demo_world; ksys := demo_ksys |}.

#[export] Instance DemoKernelLaws : KernelLaws DemoKernel.
Proof.
  split.
  - intros c m w r m' w' Hc. destruct c; try done; simpl; repeat case_match; by intros [= <- <- <-].
  - intros a l m w r m' w' x. simpl. intros [= <- <- <-] Hx.
    destruct (m !! x) as [b|] eqn:Hb.
    + by apply map_lookup_filter_Some.
    + apply map_lookup_filter_None. by left.
  - intros. simpl in *. by simplify_eq.
Qed.

Lemma entry_ok_spec x o : entry_ok x o = true ↔
  0 ≤ x < 2 ^ 31 ∧ in_u 64 (of_flags o) ∧ 0 ≤ of_offset o < 2 ^ 63.
Proof. unfold entry_ok, in_u. rewrite !andb_true_iff, !Z.leb_le, !Z.ltb_lt. lia. Qed.

Lemma above_fresh l x : x ∈ l → x < above l.
Proof.
  unfold above. induction l as [|y l IH]; [by intros ?%elem_of_nil|].
  intros [->|Hx]%elem_of_cons; simpl; [lia|]. specialize (IH Hx). lia.
Qed.

Lemma next_fd_fresh w : dw_fds w !! next_fd w = None.
Proof.
  destruct (dw_fds w !! next_fd w) as [d|] eqn:Hw; [|done]. exfalso.
  assert (next_fd w < next_fd w) as ?; [|lia]. apply above_fresh, list_elem_of_fmap.
  exists (next_fd w, d). split; [done|]. by apply elem_of_map_to_list.
Qed.

Lemma next_file_fresh w x : dw_fds w !! x ≠ Some (next_file w).
Proof.
  intros Hw. assert (next_file w < next_file w) as ?; [|lia]. apply above_fresh, list_elem_of_fmap.
  exists (x, next_file w). split; [done|]. by apply elem_of_map_to_list.
Qed.

#[export] Instance DemoFdWorld : FdWorld DemoKernel :=
  {| fd_of := demo_fd : @KWorld DemoKernel → Z → option Z; file_of := demo_file; status := λ fl, fl |}.

Lemma demo_fd_spec w x d :
  demo_fd w x = Some d ↔ dw_fds w !! x = Some d ∧ entry_ok x (demo_file w d) = true.
Proof.
  unfold demo_fd. destruct (dw_fds w !! x) as [d'|]; [|split; [done|intros [? _]; done]].
  destruct (entry_ok x (demo_file w d')) eqn:He; (split; [intros [=]; subst; auto|intros [[= <-] Hok]; congruence]).
Qed.

Lemma demo_fd_insert w x d y :
  demo_fd (mkWorld (<[x := d]> (dw_fds w)) (dw_files w)) y =
  if decide (y = x) then (if entry_ok x (demo_file w d) then Some d else None) else demo_fd w y.
Proof.
  unfold demo_fd. cbn [dw_fds]. case_decide; [subst; by rewrite lookup_insert_eq|].
  by rewrite lookup_insert_ne.
Qed.

Lemma demo_file_insert fs w d o d' :
  demo_file (mkWorld fs (<[d := o]> (dw_files w))) d' = if decide (d' = d) then o else demo_file w d'.
Proof.
  unfold demo_file. cbn [dw_files]. case_decide; [subst; by rewrite lookup_insert_eq|].
  by rewrite lookup_insert_ne.
Qed.

(** Another description for an entry of the table that is as good. *)
Lemma demo_fd_file w d o y :
  (dw_fds w !! y = Some d → entry_ok y o = entry_ok y (demo_file w d)) →
  demo_fd (mkWorld (dw_fds w) (<[d := o]> (dw_files w))) y = demo_fd w y.
Proof.
  intros He. unfold demo_fd. cbn [dw_fds]. destruct (dw_fds w !! y) as [d'|]; [|done].
  rewrite demo_file_insert. case_decide; [subst|done]. by rewrite He.
Qed.

Lemma demo_open p fl md m w r m' w' :
  demo_ksys (UOpen p fl md) m w = (r, m', w') →
  (failed r ∧ w' = w) ∨
  (0 ≤ r < 2 ^ 31 ∧ demo_fd w r = None ∧
   (∀ x, demo_fd w' x = if decide (x = r) then Some (next_file w) else demo_fd w x) ∧
   ∀ d, demo_file w' d = if decide (d = next_file w) then mkOpen p fl 0 else demo_file w d).
Proof.
  simpl. destruct (_ && _) eqn:Hc; intros [= <- <- <-]; [|left; split; [unfold failed; lia|done]].
  right. apply andb_prop in Hc as [_ Hc]. split; [apply entry_ok_spec in Hc; tauto|].
  split; [unfold demo_fd; by rewrite next_fd_fresh|].
  split; [|intros d; apply demo_file_insert]. intros x. unfold demo_fd at 1. cbn [dw_fds]. case_decide as Hx.
  - subst. by rewrite lookup_insert_eq, demo_file_insert, decide_True, Hc.
  - rewrite lookup_insert_ne by done. unfold demo_fd. destruct (dw_fds w !! x) as [d|] eqn:Hd; [|done].
    rewrite demo_file_insert, decide_False; [done|]. intros ->. by apply next_file_fresh in Hd.
Qed.

#[export] Instance DemoFdTable : FdTable DemoKernel DemoFdWorld.
Proof.
  split; unfold live, same_table, same_files, live; cbn [ksys DemoKernel fd_of file_of status DemoFdWorld].
  - intros w x d (_ & H%entry_ok_spec)%demo_fd_spec. tauto.
  - intros fd m w r m' w' [= <- <- <-]. split; [done|]. by intros d ->.
  - intros p fl md m w r m' w' [[Hf ->]|(Hr & Hn & Hx & Hd)]%demo_open; [by left|]. right.
    split_and!; [lia..|done|]. exists (next_file w). split_and!; [|done| |].
    + intros (x & (H & _)%demo_fd_spec). by apply next_file_fresh in H.
    + by rewrite Hd, decide_True.
    + intros d (x & (H & _)%demo_fd_spec). rewrite Hd, decide_False; [done|].
      intros ->. by apply next_file_fresh in H.
  - intros fd m w r m' w'. simpl. destruct (demo_fd w fd) as [d|]; intros [= <- <- <-]; split; try done.
    + right. by exists d.
    + left. unfold failed. lia.
  - intros fd off m w r m' w'. simpl. destruct (demo_fd w fd) as [d|] eqn:Hfd.
    + destruct (_ && _) eqn:Hoff; intros [= <- <- <-]; [right|left; split; [unfold failed; lia|done]].
      apply andb_prop in Hoff as [Hlo Hhi]. apply Z.leb_le in Hlo. apply Z.ltb_lt in Hhi.
      split; [done|]. split; [lia|]. exists d. split_and!; [done| | |].
      * intros x. apply demo_fd_file. intros Hx. apply demo_fd_spec in Hfd as (_ & Hok%entry_ok_spec).
        apply eq_iff_eq_true. rewrite !entry_ok_spec. simpl. unfold in_u in *. lia.
      * by rewrite demo_file_insert, decide_True.
      * intros d' _ Hne. by rewrite demo_file_insert, decide_False.
    + intros [= <- <- <-]. left. split; [unfold failed; lia|done].
  - intros a b m w r m' w'. simpl. destruct (demo_fd w a) as [d|] eqn:Ha.
    + destruct (_ && _) eqn:Hb; intros [= <- <- <-]; [right|left; split; [unfold failed; lia|done]].
      apply andb_prop in Hb as [Hlo Hhi]. apply Z.leb_le in Hlo. apply Z.ltb_lt in Hhi.
      split; [done|]. split; [done|]. exists d. split; [done|]. intros x. rewrite demo_fd_insert.
      apply demo_fd_spec in Ha as (_ & Hok%entry_ok_spec).
      by rewrite (proj2 (entry_ok_spec b (demo_file w d))) by (unfold in_u in *; lia).
    + intros [= <- <- <-]. left. split; [unfold failed; lia|done].
  - intros fd m w r m' w' [= <- <- <-]. split; [done|]. intros x. unfold demo_fd. cbn [dw_fds].
    case_decide; [subst; by rewrite lookup_delete_eq|]. by rewrite lookup_delete_ne.
Qed.

(** ** Runs in the concrete kernel *)

(** Bytes placed in memory. *)
Fixpoint place (m : gmap Z Z) (a : Z) (bs : list Z) : gmap Z Z :=
  match bs with
  | [] => m
  | b :: bs => <[a := b]> (place m (a + 1) bs)
  end.

Lemma place_other m a bs x : ¬ (a ≤ x < a + Z.of_nat (length bs)) → place m a bs !! x = m !! x.
Proof.
  revert a. induction bs as [|b bs IH]; intros a Hx; simpl in *; [done|].
  rewrite lookup_insert_ne by lia. apply IH. lia.
Qed.

Lemma place_bytes_at m a bs : bytes_at (place m a bs) a bs.
Proof.
  revert a. induction bs as [|b bs IH]; intros a; simpl; [done|]. split; [apply lookup_insert_eq|].
  apply (bytes_at_agree (place m (a + 1) bs)); [|apply IH].
  intros x v Hx Hv. by rewrite lookup_insert_ne by lia.
Qed.

(** Descriptors 3 and 5 are open on two files, at offset 7, for reading and
    writing. *)
Definition demo_table : demo_world :=
  mkWorld {[3 := 0; 5 := 1]} {[0 := mkOpen [47; 111] 2 7; 1 := mkOpen [47; 112] 2 7]}.

Definition demo_fd_cases : list (Z * string) := [(3, "/m/f")].

Definition demo_fd_state : kstate :=
  mkK (place ∅ 4096 (data_bytes (replacer_data (fd_table demo_fd_cases) (fd_paths demo_fd_cases))))
    demo_table [].

Definition zero_regs : regs := λ _, 0.

Lemma demo_fd_cases_ok : Forall case_ok demo_fd_cases.
Proof. repeat constructor; simpl; unfold PATH_MAX; lia. Defined.

Lemma fd_code_refines_reopen_witness :
  ∃ c', run 4096 (replacer_data (fd_table demo_fd_cases) (fd_paths demo_fd_cases)) Fd.code 43
      (mkCpu zero_regs false 0 demo_fd_state) = Trapped c' ∧
    ks c' = reopen_all demo_fd_cases demo_fd_state.
Proof.
  apply (fd_code_refines_reopen 4096 demo_fd_cases zero_regs false demo_fd_state).
  - apply demo_fd_cases_ok.
  - lia.
  - vm_compute. reflexivity.
  - apply place_bytes_at.
Defined.



(** Two descriptors that share a description, as after a [dup] or a
    [fork], no longer do when the code has reopened them: a move of the
    offset through one was seen through the other, and is not any more. *)
Definition shared_state : kstate :=
  mkK ∅ (mkWorld {[3 := 0; 5 := 0]} {[0 := mkOpen [47; 111] 2 7]}) [].

Lemma reopening_splits_shared_offset :
  let moved k := of_offset <$> file (kdo (ULseek 3 0 0) k).2 5 in
  moved shared_state = Some 0 ∧
  moved (reopen_all [(3, "/m/f"); (5, "/m/f")] shared_state) = Some 7.
Proof. vm_compute. split; reflexivity. Qed.

(** A private mapping of two pages, to be replaced. *)
Definition demo_mappings : list (Mmap.RawReplaceCase * string) :=
  [(Mmap.mkCase 65536 8192 5 2 0 4096, "/m/lib")].

Definition demo_mmap_state : kstate :=
  mkK (place (place ∅ 8184 [1; 2; 3; 4; 5; 6; 7; 8]) 16384
        (data_bytes (replacer_data (mmap_table demo_mappings) (mmap_paths demo_mappings))))
    demo_table [].

Definition demo_mmap_regs : regs := set_reg RSP 8192 zero_regs.

Lemma demo_mmap_injected : mmap_injected 16384 demo_mappings demo_mmap_regs demo_mmap_state 8184.
Proof.
  assert (Z.of_nat (length (data_bytes (replacer_data (mmap_table demo_mappings)
    (mmap_paths demo_mappings)))) = 65) as Hlen by (vm_compute; reflexivity).
  split; rewrite ?Hlen; try lia.
  - repeat constructor; simpl; unfold PATH_MAX; lia.
  - reflexivity.
  - repeat constructor. intros x Hx. unfold in_data, in_slot in Hx. rewrite Hlen in Hx.
    simpl. change (page_ceil 8192) with 8192. lia.
  - split; [apply place_bytes_at|]. exists [1; 2; 3; 4; 5; 6; 7; 8]. split; [reflexivity|].
    apply (bytes_at_agree (place ∅ 8184 [1; 2; 3; 4; 5; 6; 7; 8])); [|apply place_bytes_at].
    intros x v Hx Hv. unfold demo_mmap_state. cbn [k_mem]. rewrite place_other; [exact Hv|].
    rewrite Hlen. simpl in Hx. lia.
Defined.

Lemma mmap_code_refines_remap_witness :
  ∃ c', run 16384 (replacer_data (mmap_table demo_mappings) (mmap_paths demo_mappings)) Mmap.code 43
      (mkCpu demo_mmap_regs false 0 demo_mmap_state) = Trapped c' ∧
    ks c' = remap_all 8184 (paths_addr 16384 (mmap_table demo_mappings)) demo_mappings demo_mmap_state.
Proof.
  destruct (mmap_code_refines_remap 16384 demo_mappings demo_mmap_regs false demo_mmap_state 8184)
    as (c' & H1 & H2 & _); [apply demo_mmap_injected|].
  exists c'. split; [exact H1|exact H2].
Defined.

Lemma mmap_code_misplaces_mappings_witness :
  ∃ c' : cpu, ∀ a len prot flags fd off r, (UMmap a len prot flags fd off, r) ∈ k_log (ks c') →
    ¬ (65536 ≤ a < 65536 + page_ceil 8192).
Proof.
  destruct (mmap_code_misplaces_mappings 16384 demo_mappings demo_mmap_regs false demo_mmap_state 8184)
    as (c' & _ & H); [apply demo_mmap_injected|reflexivity|].
  exists c'. intros a len prot flags fd off r Hin. destruct (H a len prot flags fd off r Hin) as [_ Hn].
  apply (Hn (Mmap.mkCase 65536 8192 5 2 0 4096, "/m/lib")). constructor.
Defined.

(** The calls of the code: the new mapping is asked for at the address of
    the path, and not at 65536. *)
Lemma mmap_code_demo :
  match run 16384 (replacer_data (mmap_table demo_mappings) (mmap_paths demo_mappings)) Mmap.code 43
      (mkCpu demo_mmap_regs false 0 demo_mmap_state) with
  | Trapped c => fst <$> k_log (ks c)
  | _ => []
  end = [UMunmap 65536 8192; UOpen (bytes_of "/m/lib") 2 0; UMmap 16440 8192 5 2 6 4096; UClose 6].
Proof. vm_compute. reflexivity. Qed.
