(* ===== verification/ReplacerProps.v ===== *)
(** * What the replacers hold and collect

    The handles a replacer holds while it is prepared, run and dropped,
    the tables [prepare] makes of what procfs lists, and the paths they
    lead to. *)

From Stdlib Require Import Ascii.
From S2P Require Import Prelude Path Float Types Asm External Ptrace Mount Replacer PtraceProps.
From S2P Require Import Tracees.

#[local] Open Scope Z_scope.
#[local] Open Scope list_scope.

(** What procfs promises of its listings: a process is listed once, and
    the permissions of a mapping have four letters. *)
Class ProcfsLaws (PX : PtraceExt) := {
  processes_distinct : ∀ w l w', pcall_run PAllProcesses w = (inr l, w') → NoDup l;
  perms_letters : ∀ pid w l w', pcall_run (PMaps pid) w = (inr l, w') →
    Forall (λ m, (4 ≤ length (bytes_of (mm_perms m)))%nat) l
}.

(** ** Rebasing paths *)

Lemma rebase_inv detect_path new_path path q :
  components detect_path ≠ [] → rebase detect_path new_path path = Some q →
  ∃ rest, components path = components detect_path ++ rest ∧
    components q = components new_path ++ rest.
Proof.
  intros Hd. unfold rebase. destruct (starts_with path detect_path); [|done].
  destruct (strip_prefix path detect_path) as [t|] eqn:Ht; [|done]. simpl. intros [= <-].
  destruct (strip_prefix_components path detect_path t Hd Ht) as [Hs Hp].
  exists (components t). by rewrite components_join.
Qed.

Lemma rebase_is_some detect_path new_path path :
  is_Some (rebase detect_path new_path path) ↔ starts_with path detect_path = true.
Proof.
  unfold rebase. destruct (starts_with path detect_path) eqn:Hs.
  - rewrite fmap_is_Some, strip_prefix_is_some. by rewrite Hs.
  - split; [by intros [? ?]|done].
Qed.

(** C28: a path that is moved can be moved back. A path is rebased exactly
    when it is below [detect_path] (component by component, not as a
    string); the result is the same tail below [new_path], and rebasing
    it from [new_path] to [detect_path] gives the components of the path
    again. So what [inject] does to a path, [resume] undoes. *)
Theorem rebase_round_trip detect_path new_path path :
  components detect_path ≠ [] → components new_path ≠ [] →
  (is_Some (rebase detect_path new_path path) ↔
     ∃ rest, components path = components detect_path ++ rest) ∧
  ∀ q, rebase detect_path new_path path = Some q →
    starts_with q new_path = true ∧
    ∃ p, rebase new_path detect_path q = Some p ∧ components p = components path.
Proof.
  intros Hd Hn. split; [by rewrite rebase_is_some, starts_with_app|]. intros q Hq.
  destruct (rebase_inv _ _ _ _ Hd Hq) as (rest & Hp & Hq').
  assert (starts_with q new_path = true) as Hs by (apply starts_with_app; eauto).
  split; [done|]. apply (rebase_is_some new_path detect_path) in Hs as [p Hb]. exists p.
  split; [done|]. destruct (rebase_inv _ _ _ _ Hn Hb) as (rest' & Hq2 & ->).
  rewrite Hq' in Hq2. apply app_inv_head in Hq2 as ->. done.
Qed.

Lemma rebase_round_trip_witness :
  rebase "/mnt/data" "/mnt/__chaosfs__data__" "/mnt/data/a/b" = Some "/mnt/__chaosfs__data__/a/b" ∧
  ∃ p, rebase "/mnt/__chaosfs__data__" "/mnt/data" "/mnt/__chaosfs__data__/a/b" = Some p ∧
    components p = components "/mnt/data/a/b".
Proof.
  split; [vm_compute; reflexivity|].
  refine (proj2 (proj2 (rebase_round_trip "/mnt/data" "/mnt/__chaosfs__data__" "/mnt/data/a/b" _ _) _ _));
    vm_compute; [discriminate..|reflexivity].
Defined.

(** ** Handles *)
Section held.
Context `{PX : PtraceExt, RT : Retry, RX : ReplacerExt}.
Abbreviation PM A := (M PState perr A).

(** The number of times a process occurs among handles. *)
Definition handles (l : list Z) (p : Z) : Z := Z.of_nat (count_occ Z.eq_dec l p).

(** The handles a replacer holds. *)
Definition held (r : Replacer) : list Z :=
  match r with
  | FdReplacer ps => (λ p, process p.2) <$> map_order ps
  | CwdReplacer_ r => processes r
  | MmapReplacer ps => (λ p, process p.2) <$> map_order ps
  end.

Definition held_all (rs : list Replacer) : list Z := rs ≫= held.

(** The live handles, and those of a list more. *)
Definition plus (live : Z → Z) (d : Z → Z) : Z → Z := λ p, live p + d p.

Lemma counted_ext s l l' : (∀ p, l p = l' p) → counted s l → counted s l'.
Proof. intros He Hc pid. rewrite <- He. apply Hc. Qed.

Lemma add_live_back pid live : ∀ p, add_live pid (-1) (add_live pid 1 live) p = live p.
Proof. intros p. unfold add_live. case_decide; lia. Qed.

Lemma add_live_at pid d live : add_live pid d live pid = live pid + d.
Proof. unfold add_live. by rewrite decide_True. Qed.

Lemma handles_cons p l q : handles (p :: l) q = (if decide (q = p) then 1 else 0) + handles l q.
Proof.
  unfold handles. simpl. destruct (Z.eq_dec p q) as [->|]; [rewrite decide_True by done; lia|].
  rewrite decide_False by done. lia.
Qed.

Lemma handles_app l l' q : handles (l ++ l') q = handles l q + handles l' q.
Proof. unfold handles. rewrite count_occ_app. lia. Qed.

Lemma handles_perm l l' q : l ≡ₚ l' → handles l q = handles l' q.
Proof. intros H. unfold handles. by rewrite (proj1 (Permutation_count_occ Z.eq_dec l l') H q). Qed.

Lemma handles_pos l q : 0 ≤ handles l q.
Proof. unfold handles. lia. Qed.

(** Dropping handles one after the other. *)
Lemma drop_handles {A} (f : A → Z) (l : list A) s live :
  counted s (plus live (handles (f <$> l))) → (∀ p, 0 ≤ live p) →
  ∃ s', for_each (λ a, drop_process (f a)) l s = (Done tt, s') ∧ counted s' live.
Proof.
  intros Hc Hl. revert s Hc. induction l as [|a l IH]; intros s Hc.
  - exists s. split; [done|]. apply (counted_ext s _ _ (λ p, Z.add_0_r (live p)) Hc).
  - rewrite fmap_cons in Hc.
    assert (∀ q, plus live (handles (f a :: (f <$> l))) q =
      live q + ((if decide (q = f a) then 1 else 0) + handles (f <$> l) q)) as He.
    { intros q. unfold plus. by rewrite handles_cons. }
    destruct (drop_live s _ (f a) Hc) as (s1 & Hd & Hc1 & _).
    { rewrite He, decide_True by done. pose proof (handles_pos (f <$> l) (f a)). specialize (Hl (f a)). lia. }
    simpl. unfold bind. rewrite Hd. apply IH. revert Hc1. apply counted_ext. intros q.
    unfold add_live. rewrite He. unfold plus. case_decide; lia.
Qed.

(** The counter after a program that leaves it alone. *)
Lemma counted_after {A} (m : PM A) s live :
  evolves same_counter m → counted s live → counted (m s).2 live.
Proof. intros Hm. apply counted_same, Hm. Qed.

Lemma settles_trace pid : settles (trace pid).
Proof.
  intros s. unfold trace, bind at 1, gets. destruct (counter s !! pid) as [c|]; [done|].
  destruct (trace_loop_spec pid s) as (r & s' & Hr & _ & Hs & _). unfold bind. rewrite Hr.
  by destruct r as [[]|[e|]|].
Qed.

Lemma trace_done pid s p s' : trace pid s = (Done p, s') → p = pid.
Proof.
  unfold trace, bind at 1, gets. destruct (counter s !! pid) as [c|].
  - by intros [= <- <-].
  - unfold bind. destruct (trace_loop pid s) as [[[]|[e|]|] s1]; try done. by intros [= <- <-].
Qed.

Lemma try_trace s live pid :
  counted s live → live pid < 2 ^ 31 - 1 →
  ∃ o s', try_err (trace pid) s = (Done o, s') ∧
    match o with
    | Some p => p = pid ∧ counted s' (add_live pid 1 live)
    | None => counted s' live
    end.
Proof.
  intros Hc Hl. pose proof (settles_trace pid s) as Hs. unfold try_err.
  destruct (trace pid s) as [r s'] eqn:Hr. pose proof (trace_counted s live pid r s' Hc Hl Hr) as Ht.
  destruct r as [p|[e|]|]; simpl in Hs; try done.
  - exists (Some p), s'. split; [done|]. split; [by eapply trace_done|done].
  - by exists None, s'.
Qed.

(** ** Preparing one process *)

Definition is_done {E A} (r : outcome E A) : Prop := match r with Done _ => True | _ => False end.

(** The cases among the entries of a process. *)
Definition collected {C} (entries : list (outcome perr (option C))) : list C :=
  omap (λ e, match e with Done o => o | _ => None end) entries.

(** Does a group come of the entries? *)
Definition one_if {C} (l : list C) : Z := match l with [] => 0 | _ => 1 end.

(** Collecting changes no count but that of the group's handle, and makes
    no call: the process is traced already. *)
Lemma collect_group_spec {C} pid (entries : list (outcome perr (option C))) (b : bool) acc s live :
  Forall is_done entries → counted s live →
  0 < live pid < 2 ^ 31 - (if b then 2 else 3) →
  ∃ g s', collect_group pid entries (if b then Some (Some pid) else None) acc s =
      (Done (g, acc ++ collected entries), s') ∧ p_calls s' = p_calls s ∧
    (if b then g = Some (Some pid) ∧ counted s' live
     else g = (match collected entries with [] => None | _ => Some (Some pid) end) ∧
       counted s' (add_live pid (one_if (collected entries)) live)).
Proof.
  intros He. revert b acc s live. induction He as [|e entries Hd He IH]; intros b acc s live Hc Hl.
  - eexists _, s. simpl. rewrite app_nil_r. split; [done|]. split; [done|].
    destruct b; (split; [done|]); [done|]. revert Hc. apply counted_ext. intros p.
    unfold add_live. simpl. case_decide; lia.
  - destruct e as [o|e|]; [|done..]. cbn [collect_group].
    unfold bind at 1, lift at 1. unfold bind at 1.
    destruct (clone_live s live pid Hc ltac:(destruct b; lia)) as (s1 & -> & Hk1 & Hc1).
    assert (0 < add_live pid 1 live pid) as Hpos by (rewrite add_live_at; lia).
    destruct o as [case|]; csimpl.
    + assert (∃ s2, (if b return PM (option Z) then ret (Some pid) else try_err (trace pid)) s1 =
        (Done (Some pid), s2) ∧ p_calls s2 = p_calls s1 ∧
        counted s2 (add_live pid (if b then 1 else 2) live)) as (s2 & Ht & Hk2 & Hc2).
      { destruct b; [by exists s1|]. unfold try_err.
        pose proof (trace_live s1 _ pid Hc1 Hpos) as Ht. rewrite Ht. eexists. split; [done|].
        split; [done|].
        pose proof (trace_counted s1 _ pid _ _ Hc1 ltac:(rewrite add_live_at; lia) Ht) as Hc2.
        revert Hc2. apply counted_ext. intros p. unfold add_live. case_decide; lia. }
      destruct (drop_live s2 _ pid Hc2) as (s3 & Hdr & Hc3 & Hk3); [rewrite add_live_at; destruct b; lia|].
      specialize (Hk3 ltac:(rewrite add_live_at; destruct b; lia)).
      destruct (IH true (acc ++ [case]) s3 (add_live pid (if b then 0 else 1) live))
        as (g & s' & Hr & Hk & -> & Hc'); [|rewrite add_live_at; destruct b; lia|].
      { revert Hc3. apply counted_ext. intros p. unfold add_live. destruct b; case_decide; lia. }
      exists (Some (Some pid)), s'. rewrite <- app_assoc in Hr.
      split; [|split; [congruence|]].
      * destruct b; unfold bind; cbn [ret]; [injection Ht as ->|rewrite Ht]; by rewrite Hdr, Hr.
      * destruct b; (split; [done|]); [|done]. revert Hc'. apply counted_ext. intros p.
        unfold add_live. case_decide; lia.
    + destruct (drop_live s1 _ pid Hc1 Hpos) as (s2 & Hdr & Hc2 & Hk2).
      specialize (Hk2 ltac:(rewrite add_live_at; lia)).
      apply (counted_ext _ _ _ (add_live_back pid live)) in Hc2.
      destruct (IH b acc s2 live Hc2 Hl) as (g & s' & Hr & Hk & Hg). exists g, s'.
      unfold bind. rewrite Hdr. split; [done|]. split; [congruence|done].
Qed.

Lemma collect_group_follows {C} pid (entries : list (outcome perr (option C))) g acc :
  evolves follows (collect_group pid entries g acc).
Proof.
  revert g acc. induction entries as [|e entries IH]; intros g acc; simpl; [eauto with toda|].
  same; auto using try_err_evolves, trace_follows.
Qed.

(** The outside may answer the call so. *)
Definition possible (c : pcall) (r : pcall_ret c) : Prop := ∃ w w', pcall_run c w = (r, w').

(** What a table holds: the cases of the entries procfs answered with in
    the run from [s] to [s']. *)
Definition table_of {R C} (read : pcall) (result : pcall_ret read → ProcError + R)
    (entries : R → list (outcome perr (option ((Z → C) * string)))) (s s' : PState) (pid : Z)
    (a : ProcessAccessor C) : Prop :=
  ∃ ans r, answered s s' read ans ∧ result ans = inr r ∧ collected (entries r) ≠ [] ∧
    a = build (from_iter (collected (entries r))) pid.

Lemma table_of_mono {R C} read result (entries : R → list (outcome perr (option ((Z → C) * string))))
    s0 s s' s1 pid a :
  follows s0 s → follows s' s1 →
  table_of read result entries s s' pid a → table_of read result entries s0 s1 pid a.
Proof. intros H0 H1 (ans & r & Ha & H). exists ans, r. split; [by eapply answered_mono|done]. Qed.

Lemma answers_call c s :
  ∃ r s', pcall_do c s = (Done r, s') ∧ possible c r ∧ follows s s' ∧ counter s' = counter s.
Proof.
  pose proof (pcall_follows c s) as F. unfold pcall_do in *.
  destruct (pcall_run c (p_world s)) as [r w] eqn:Hr. eexists _, _. split; [done|].
  split; [by exists (p_world s), w|done].
Qed.

Lemma prepare_process_spec {R C} read (result : pcall_ret read → ProcError + R)
    (entries : R → list (outcome perr (option ((Z → C) * string)))) pid ps s live :
  (∀ ans r, possible read ans → result ans = inr r → Forall is_done (entries r)) →
  counted s live → live pid < 2 ^ 31 - 4 →
  ∃ ps' s', prepare_process read result entries pid ps s = (Done ps', s') ∧ follows s s' ∧
    (ps' = ps ∧ counted s' live ∨
     ∃ a, table_of read result entries s s' pid a ∧ ps' = <[pid := a]> ps ∧ counted s' (add_live pid 1 live)).
Proof.
  intros He Hc Hl. pose proof (proj1 (Hc pid)) as H0.
  destruct (try_trace s live pid Hc ltac:(lia)) as (o & s1 & Ht & Ho).
  pose proof (try_err_evolves follows _ (trace_follows pid) s) as F1. rewrite Ht in F1. simpl in F1.
  unfold prepare_process, bind at 1. rewrite Ht.
  destruct o as [p|]; [|by exists ps, s1; split_and!; [..|left]].
  destruct Ho as [-> Hc1]. unfold bind at 1. destruct (answers_call read s1) as (ans & s1' & Hans & Ha & F2 & Hk).
  rewrite Hans. apply (counted_same _ s1') in Hc1; [|done].
  assert (0 < add_live pid 1 live pid) as Hpos by (rewrite add_live_at; lia).
  destruct (result ans) as [e|r] eqn:Hr.
  - destruct (drop_live _ _ pid Hc1 Hpos) as (s2 & Hdr & Hc2 & _).
    pose proof (drop_follows pid s1') as F3. rewrite Hdr in F3.
    apply (counted_ext _ _ _ (add_live_back pid live)) in Hc2. unfold bind. rewrite Hdr.
    exists ps, s2. split; [done|]. split; [do 2 (etrans; [eassumption|]); done|by left].
  - destruct (collect_group_spec pid (entries r) false [] _ _ (He ans r Ha Hr) Hc1
      ltac:(rewrite add_live_at; lia)) as (g & s2 & Hg & _ & -> & Hc2).
    pose proof (collect_group_follows pid (entries r) None [] s1') as F3.
    unfold bind at 1. simpl in Hg. rewrite Hg in *. unfold bind.
    destruct (drop_live _ _ pid Hc2) as (s3 & Hdr & Hc3 & _).
    { rewrite !add_live_at. unfold one_if. case_match; lia. }
    pose proof (drop_follows pid s2) as F4. rewrite Hdr in *. simpl in F3, F4.
    assert (follows s1' s3) as F by (by etrans).
    assert (follows s s3) as F0 by (do 2 (etrans; [eassumption|]); done).
    unfold ret. destruct (collected (entries r)) as [|c cs] eqn:Hcs.
    + exists ps, s3. split; [done|]. split; [done|]. left. split; [done|]. revert Hc3. apply counted_ext. intros p.
      unfold add_live, one_if. case_decide; lia.
    + eexists _, s3. split; [done|]. split; [done|]. right. eexists. split_and!; [|done|].
      * exists ans, r. rewrite Hcs. split_and!; [by exists s1, s1'|done..].
      * revert Hc3. apply counted_ext. intros p. unfold add_live, one_if. case_decide; lia.
Qed.

(** ** Preparing all processes *)

(** The handles of a map of tables. *)
Definition in_map {C} (ps : gmap Z (ProcessAccessor C)) : Z → Z :=
  λ p, match ps !! p with Some _ => 1 | None => 0 end.

Lemma is_candidate_spec pid s :
  ∃ b s', is_candidate pid s = (Done b, s') ∧ counter s' = counter s ∧ follows s s'.
Proof.
  destruct (answers_call (PCmdline pid) s) as (r & s' & Hr & _ & F & Hk).
  unfold is_candidate, bind, ret. rewrite Hr. eauto.
Qed.

(** A loop over processes keeps what each of its steps keeps. *)
Lemma over_processes_inv {A} (f : Z → A → PM A) (I : A → list Z → PState → Prop) pids acc s :
  (∀ a pid pids s, I a (pid :: pids) s → I a pids s) →
  (∀ a pids s s', counter s' = counter s → follows s s' → I a pids s → I a pids s') →
  (∀ a pid pids s, I a (pid :: pids) s → ∃ a' s', f pid a s = (Done a', s') ∧ I a' pids s') →
  I acc pids s → ∃ acc' s', over_processes f pids acc s = (Done acc', s') ∧ I acc' [] s'.
Proof.
  intros Hskip Hsame Hf. revert acc s. induction pids as [|pid pids IH]; intros acc s HI; simpl.
  { by exists acc, s. }
  destruct (is_candidate_spec pid s) as (b & s1 & Hb & Hk & F). unfold bind at 1. rewrite Hb.
  apply (Hsame _ _ _ s1 Hk F) in HI. unfold bind at 1. destruct b.
  - destruct (Hf acc pid pids s1 HI) as (a' & s2 & -> & HI2). by apply IH.
  - apply IH. by apply Hskip with pid.
Qed.

Lemma all_processes_inv `{PL : !ProcfsLaws PX} {A} (f : Z → A → PM A)
    (I : A → list Z → PState → Prop) acc s :
  (∀ a pid pids s, I a (pid :: pids) s → I a pids s) →
  (∀ a pids s s', counter s' = counter s → follows s s' → I a pids s → I a pids s') →
  (∀ a pid pids s, I a (pid :: pids) s → ∃ a' s', f pid a s = (Done a', s') ∧ I a' pids s') →
  (∀ pids, NoDup pids → I acc pids s) →
  ∃ r s', all_processes f acc s = (r, s') ∧ settled r ∧
    match r with Done a => I a [] s' | _ => I acc [] s' end.
Proof.
  intros Hskip Hsame Hf HI. unfold all_processes, bind at 1.
  destruct (answers_call PAllProcesses s) as (ans & s1 & -> & Hans & F & Hk). unfold bind at 1, lift.
  destruct ans as [e|pids]; cbn [ok_proc].
  - eexists _, _. split; [done|]. split; [done|]. eapply Hsame; [done..|]. apply HI. constructor.
  - destruct (over_processes_inv f I pids acc s1 Hskip Hsame Hf) as (a & s' & Hr & Ha);
      [|by exists (Done a), s'].
    eapply Hsame; [done..|]. apply HI. destruct Hans as (w & w' & Hans). by eapply processes_distinct.
Qed.

(** The tables are those of distinct processes, each with one handle. *)
Definition tables_inv {C} (live : Z → Z) (s0 : PState)
    (P : PState → PState → Z → ProcessAccessor C → Prop)
    (ps : gmap Z (ProcessAccessor C)) (pids : list Z) (s : PState) : Prop :=
  follows s0 s ∧ counted s (plus live (in_map ps)) ∧ NoDup pids ∧ (∀ pid, pid ∈ pids → ps !! pid = None) ∧
  ∀ pid a, ps !! pid = Some a → P s0 s pid a.

Lemma prepare_tables `{PL : !ProcfsLaws PX} {R C} (read : Z → pcall)
    (result : ∀ pid, pcall_ret (read pid) → ProcError + R)
    (entries : R → list (outcome perr (option ((Z → C) * string)))) s live :
  (∀ pid ans r, possible (read pid) ans → result pid ans = inr r → Forall is_done (entries r)) →
  counted s live → (∀ pid, live pid < 2 ^ 31 - 4) →
  ∃ r s', all_processes (λ pid, prepare_process (read pid) (result pid) entries pid) ∅ s = (r, s') ∧
    settled r ∧ follows s s' ∧
    match r with
    | Done ps => counted s' (plus live (in_map ps)) ∧
        ∀ pid a, ps !! pid = Some a → table_of (read pid) (result pid) entries s s' pid a
    | _ => counted s' live
    end.
Proof.
  intros He Hc Hl.
  assert (∀ s, counted s (plus live (in_map (C:=C) ∅)) ↔ counted s live) as H0.
  { intros s1. split; apply counted_ext; intros p; unfold plus, in_map; rewrite lookup_empty; lia. }
  destruct (all_processes_inv (λ pid, prepare_process (read pid) (result pid) entries pid)
    (tables_inv live s (λ s0 s1 pid, table_of (read pid) (result pid) entries s0 s1 pid)) ∅ s)
    as (r & s' & Hr & Hs & HI).
  - intros a pid pids s1 (? & ? & [? ?]%NoDup_cons & Hn & ?). split_and!; try done.
    intros p Hp. apply Hn. by right.
  - intros a pids s1 s2 Hk F12 (F & Hc1 & Hnd & Hn & Ht).
    split_and!; [by etrans|by apply (counted_same s1)|done..|].
    intros pid t Hp. eapply table_of_mono; [reflexivity|done|by apply Ht].
  - intros ps pid pids s1 (F & Hc1 & [Hnin Hnd]%NoDup_cons & Hn & Ht).
    assert (ps !! pid = None) as Hpid by (apply Hn; by left).
    assert (∀ p, p ∈ pids → ps !! p = None) as Hn' by (intros p Hp; apply Hn; by right).
    destruct (prepare_process_spec (read pid) (result pid) entries pid ps s1 _ (He pid) Hc1)
      as (ps' & s2 & Hp & F12 & [[-> Hc2]|(a & Ha & -> & Hc2)]).
    { unfold plus, in_map. rewrite Hpid. specialize (Hl pid). lia. }
    + exists ps, s2. split; [done|]. split_and!; [by etrans|done..|].
      intros p t Hp'. eapply table_of_mono; [reflexivity|done|by apply Ht].
    + eexists _, s2. split; [exact Hp|]. split_and!; [by etrans| |done| |].
      * revert Hc2. apply counted_ext. intros p. unfold add_live, plus, in_map. case_decide as Hd.
        { subst p. rewrite lookup_insert_eq, Hpid. lia. }
        by rewrite lookup_insert_ne by congruence.
      * intros p Hp'. rewrite lookup_insert_ne by (intros ->; done). by apply Hn'.
      * intros p a'. destruct (decide (p = pid)) as [->|Hne].
        { rewrite lookup_insert_eq. intros [= <-]. eapply table_of_mono; [done|reflexivity|done]. }
        rewrite lookup_insert_ne by done. intros Hp'. eapply table_of_mono; [reflexivity|done|by apply Ht].
  - intros pids Hnd. split_and!; [done|by apply H0|done|intros; apply lookup_empty|].
    intros p a. by rewrite lookup_empty.
  - exists r, s'. split; [done|]. split; [done|]. destruct r as [ps|e|].
    + by destruct HI as (? & ? & _ & _ & ?).
    + split; [apply HI|apply H0, HI].
    + split; [apply HI|apply H0, HI].
Qed.

(** ** The three replacers *)
Section prepared.
Context `{PL : !ProcfsLaws PX}.

Definition fd_entries (detect_path new_path : string) (fds : list (Z * option string))
    : list (outcome perr (option ((Z → Fd.ReplaceCase) * string))) :=
  (λ case, Done (Some case)) <$> omap (Fd.select detect_path new_path) fds.

Lemma collected_done {C} (cs : list C) : collected ((λ c, Done (Some c)) <$> cs) = cs.
Proof. unfold collected. induction cs as [|c cs IH]; csimpl; [done|]. by rewrite IH. Qed.

(** The table of a process made of a list of its descriptors. *)
Definition fd_table (detect_path new_path : string) (s s' : PState) (pid : Z)
    (a : ProcessAccessor Fd.ReplaceCase) : Prop :=
  ∃ fds, answered s s' (PFd pid) (inr fds) ∧ omap (Fd.select detect_path new_path) fds ≠ [] ∧
    a = build (from_iter (omap (Fd.select detect_path new_path) fds)) pid.

Definition mmap_table (detect_path new_path : string) (s s' : PState) (pid : Z)
    (a : ProcessAccessor Mmap.RawReplaceCase) : Prop :=
  ∃ maps, answered s s' (PMaps pid) (inr maps) ∧
    collected (omap (Mmap.select detect_path new_path) maps) ≠ [] ∧
    a = build (from_iter (collected (omap (Mmap.select detect_path new_path) maps))) pid.

Lemma fd_prepare_spec detect_path new_path s live :
  counted s live → (∀ pid, live pid < 2 ^ 31 - 4) →
  ∃ r s', fd_prepare detect_path new_path s = (r, s') ∧ settled r ∧ follows s s' ∧
    match r with
    | Done ps => counted s' (plus live (in_map ps)) ∧
        ∀ pid a, ps !! pid = Some a → fd_table detect_path new_path s s' pid a
    | _ => counted s' live
    end.
Proof.
  intros Hc Hl.
  destruct (prepare_tables PFd (λ _ r, r) (fd_entries detect_path new_path) s live)
    as (r & s' & Hr & Hs & F & Hd); [|done..|].
  { intros pid ans r _ _. unfold fd_entries. by apply Forall_fmap, Forall_true. }
  exists r, s'. split_and!; [done..|]. destruct r as [ps|e|]; [|done..].
  destruct Hd as [Hc' Ht]. split; [done|]. intros pid a Ha.
  destruct (Ht pid a Ha) as (ans & fds & Hans & Hf & Hne & ->). simpl in Hf. subst ans.
  unfold fd_entries in *. rewrite collected_done in *. by exists fds.
Qed.

Lemma mmap_prepare_spec detect_path new_path s live :
  counted s live → (∀ pid, live pid < 2 ^ 31 - 4) →
  ∃ r s', mmap_prepare detect_path new_path s = (r, s') ∧ settled r ∧ follows s s' ∧
    match r with
    | Done ps => counted s' (plus live (in_map ps)) ∧
        ∀ pid a, ps !! pid = Some a → mmap_table detect_path new_path s s' pid a
    | _ => counted s' live
    end.
Proof.
  intros Hc Hl.
  destruct (prepare_tables PMaps (λ _ r, r) (λ maps, omap (Mmap.select detect_path new_path) maps) s live)
    as (r & s' & Hr & Hs & F & Hd); [|done..|].
  { intros pid ans maps (w & w' & Hans) Hm. simpl in Hm. subst ans.
    pose proof (perms_letters _ _ _ _ Hans) as Hp. apply Forall_forall. intros e He.
    apply list_elem_of_omap in He as (m & Hm & Hsel). rewrite Forall_forall in Hp.
    specialize (Hp m Hm). unfold Mmap.select, Mmap.get_prot_and_flags_from_perms in Hsel.
    destruct (mm_path m); [|done].
    destruct (bytes_of (mm_perms m)) as [|b0 [|b1 [|b2 [|b3 bs]]]]; simpl in Hp; try lia.
    by injection Hsel as <-. }
  exists r, s'. split_and!; [done..|]. destruct r as [ps|e|]; [|done..].
  destruct Hd as [Hc' Ht]. split; [done|]. intros pid a Ha.
  destruct (Ht pid a Ha) as (ans & maps & Hans & Hf & Hne & ->). simpl in Hf. subst ans.
  by exists maps.
Qed.

Lemma cwd_prepare_spec detect_path new_path s live :
  counted s live → (∀ pid, live pid < 2 ^ 31 - 4) →
  ∃ r s', cwd_prepare detect_path new_path s = (r, s') ∧ settled r ∧ follows s s' ∧
    match r with
    | Done c => counted s' (plus live (handles (processes c))) ∧ NoDup (processes c) ∧
        cwd_new_path c = new_path ∧
        ∀ pid, pid ∈ processes c →
          ∃ cwd, answered s s' (PCwd pid) (inr cwd) ∧ starts_with cwd detect_path = true
    | _ => counted s' live
    end.
Proof.
  intros Hc Hl. unfold cwd_prepare, bind at 1.
  match goal with |- context [all_processes ?f [] s] =>
    destruct (all_processes_inv f (λ acc pids s',
      follows s s' ∧ counted s' (plus live (handles acc)) ∧ NoDup acc ∧ NoDup pids ∧
      (∀ pid, pid ∈ pids → pid ∉ acc) ∧
      ∀ pid, pid ∈ acc → ∃ cwd, answered s s' (PCwd pid) (inr cwd) ∧ starts_with cwd detect_path = true) [] s)
    as (r & s' & Hr & Hs & HI) end.
  - intros a pid pids s1 (? & ? & ? & [? ?]%NoDup_cons & Hn & ?). split_and!; try done.
    intros p Hp. apply Hn. by right.
  - intros a pids s1 s2 Hk F12 (F & Hc1 & ? & ? & ? & Hin).
    split_and!; [by etrans|by apply (counted_same s1)|done..|].
    intros p Hp. destruct (Hin p Hp) as (cwd & Ha & ?). exists cwd. split; [|done].
    eapply answered_mono; [reflexivity|done..].
  - intros acc pid pids s1 (F & Hc1 & Hacc & [Hnin Hnd]%NoDup_cons & Hn & Hin).
    assert (pid ∉ acc) as Hpid by (apply Hn; by left).
    assert (∀ p, p ∈ pids → p ∉ acc) as Hn' by (intros p Hp; apply Hn; by right).
    unfold bind at 1. destruct (answers_call (PCwd pid) s1) as (ans & s1' & Hans & _ & F1 & Hk).
    rewrite Hans. apply (counted_same _ s1') in Hc1; [|done].
    assert (∀ s2, follows s1' s2 → ∀ p, p ∈ acc →
      ∃ cwd, answered s s2 (PCwd p) (inr cwd) ∧ starts_with cwd detect_path = true) as Hin2.
    { intros s2 F2 p Hp. destruct (Hin p Hp) as (cwd & Ha & ?). exists cwd. split; [|done].
      eapply answered_mono; [reflexivity|exact (transitivity F1 F2)|done]. }
    assert (follows s s1') as F01 by (by etrans).
    destruct ans as [e|cwd]; [exists acc, s1'; split_and!; try done; by apply Hin2|].
    destruct (starts_with cwd detect_path) eqn:Hcwd;
      [|exists acc, s1'; split_and!; try done; by apply Hin2].
    assert (handles acc pid = 0) as Hz.
    { unfold handles. rewrite (proj1 (count_occ_not_In Z.eq_dec acc pid)); [done|].
      by rewrite <- list_elem_of_In. }
    destruct (try_trace _ _ pid Hc1) as (o & s2 & Ht & Ho).
    { unfold plus. rewrite Hz. specialize (Hl pid). lia. }
    pose proof (try_err_evolves follows _ (trace_follows pid) s1') as F2. rewrite Ht in F2. simpl in F2.
    assert (follows s s2) as F02 by (by etrans).
    unfold bind. rewrite Ht. destruct o as [p|]; [|exists acc, s2; split_and!; try done; by apply Hin2].
    destruct Ho as [-> Hc2]. eexists _, s2. split; [done|]. split_and!; [done|..|done| |].
    + revert Hc2. apply counted_ext. intros p. unfold add_live, plus.
      rewrite handles_app, handles_cons. change (handles [] p) with 0. case_decide; lia.
    + apply NoDup_app. split; [done|]. split; [|apply NoDup_singleton].
      intros p Hp ->%list_elem_of_singleton. done.
    + intros p Hp [?|?%list_elem_of_singleton]%elem_of_app; [by apply (Hn' p)|congruence].
    + intros p [?| ->%list_elem_of_singleton]%elem_of_app; [by apply Hin2|]. exists cwd.
      split; [by exists s1, s1'|done].
  - intros pids Hnd. split_and!; [done| |constructor|done|by intros ? ? ?%elem_of_nil|by intros ? ?%elem_of_nil].
    revert Hc. apply counted_ext. intros p. unfold plus. change (handles [] p) with 0. lia.
  - assert (counted s' (plus live (handles [])) → counted s' live) as H0.
    { apply counted_ext. intros p. unfold plus. change (handles [] p) with 0. lia. }
    rewrite Hr. destruct r as [l|[e|]|]; try done.
    + eexists _, s'. split; [done|]. split; [done|]. by destruct HI as (? & ? & ? & _ & _ & ?).
    + eexists _, s'. split; [done|]. split; [done|]. split; [apply HI|apply H0, HI].
Qed.

End prepared.

End held.
