(* ===== verification/Replacing.v ===== *)
(** * Preparing, running and dropping the replacers

    The life of a [UnionReplacer] in [inject] and [resume] of
    [src/main.rs]: what it has collected when it is prepared, and that
    the handles it took are all given back when it is dropped. *)

From Stdlib Require Import Ascii.
From S2P Require Import Prelude Path Float Types Asm External Concrete Ptrace Mount Replacer.
From S2P Require Import PtraceProps Tracees TraceDemo Tables ReplacerProps.

#[local] Open Scope Z_scope.
#[local] Open Scope list_scope.

Section union.
Context `{PX : PtraceExt, RT : Retry, RX : ReplacerExt, PL : !ProcfsLaws PX, RL : !ReplacerLaws RX}.
Abbreviation PM A := (M PState perr A).

(** ** Handles of the tables *)

Lemma held_map {C} (ps : gmap Z (ProcessAccessor C)) q :
  (∀ pid a, ps !! pid = Some a → process a = pid) →
  handles ((λ p, process p.2) <$> map_order ps) q = in_map ps q.
Proof.
  intros Hp. rewrite (handles_perm _ (fst <$> map_to_list ps)).
  - pose proof (NoDup_fst_map_to_list ps) as Hnd. unfold handles, in_map.
    destruct (ps !! q) as [a|] eqn:Hq.
    + rewrite (proj1 (NoDup_count_occ' Z.eq_dec (fst <$> map_to_list ps))); [done|by apply NoDup_ListNoDup|].
      apply list_elem_of_In, list_elem_of_fmap. exists (q, a). split; [done|]. by apply elem_of_map_to_list.
    + rewrite (proj1 (count_occ_not_In Z.eq_dec _ q)); [done|].
      rewrite <- list_elem_of_In, list_elem_of_fmap. intros ([k a] & -> & Hk).
      apply elem_of_map_to_list in Hk. simpl in Hq. congruence.
  - rewrite (map_order_perm _ ps). apply reflexive_eq, list_fmap_ext. intros i [k a] Hi.
    apply Hp, elem_of_map_to_list. by eapply list_elem_of_lookup_2.
Qed.

Lemma in_map_bound {C} (ps : gmap Z (ProcessAccessor C)) q : 0 ≤ in_map ps q ≤ 1.
Proof. unfold in_map. case_match; lia. Qed.

Lemma handles_nodup l q : NoDup l → 0 ≤ handles l q ≤ 1.
Proof.
  intros Hl. split; [apply handles_pos|]. unfold handles.
  apply NoDup_ListNoDup in Hl. pose proof (proj1 (NoDup_count_occ Z.eq_dec l) Hl q). lia.
Qed.

Lemma built_process {C} (b : Builder C) pid : process (build b pid) = pid.
Proof. done. Qed.

(** ** What running leaves alone *)

Lemma with_protect_same {A} pid (f : PM A) :
  evolves same_counter f → evolves same_counter (with_protect pid f).
Proof.
  intros Hf. unfold with_protect. apply (evolves_bind same_counter).
  - unfold protect. same.
  - intros g s. specialize (Hf s). unfold same_counter in *.
    assert (∀ (o : outcome perr A) s1,
      counter (match drop_guard g s1 with (Done _, s'') => (o, s'') | (_, s'') => (Panic, s'') end).2 =
        counter s1) as Hd.
    { intros o s1. assert (evolves same_counter (drop_guard g)) as Hg by (unfold drop_guard; same).
      specialize (Hg s1). unfold same_counter in Hg. by destruct (drop_guard g s1) as [[]]. }
    destruct (f s) as [[a|[e|]|] s1]; simpl in *; rewrite ?Hd; done.
Qed.

Lemma wait_loop_same (body : PM (unit + unit)) :
  evolves same_counter body → evolves same_counter (wait_loop body).
Proof. intros Hb. unfold wait_loop. same. Qed.

Lemma syscall_same pid id args : evolves same_counter (syscall pid id args).
Proof.
  apply with_protect_same. same. apply wait_loop_same. same.
Qed.

Lemma with_mmap_same {A} pid len (f : Z → PM A) :
  (∀ a, evolves same_counter (f a)) → evolves same_counter (with_mmap pid len f).
Proof.
  intros Hf. unfold with_mmap, mmap, munmap. same; apply syscall_same.
Qed.

Lemma write_mem_same pid a bs : evolves same_counter (write_mem pid a bs).
Proof. unfold write_mem. same. Qed.

Lemma chdir_same pid path : evolves same_counter (chdir pid path).
Proof.
  unfold chdir. apply (evolves_bind same_counter); [destruct (contains_nul path); same|intros _].
  apply with_mmap_same. intros a. same; auto using write_mem_same, syscall_same.
Qed.

Lemma run_codes_same pid codes : evolves same_counter (run_codes pid codes).
Proof.
  unfold run_codes. same. apply with_mmap_same. intros addr. apply with_protect_same.
  same; auto using write_mem_same; apply wait_loop_same; same.
Qed.

Lemma union_run_same rs : evolves same_counter (union_run rs).
Proof.
  unfold union_run. same. destruct x; simpl; same; unfold accessor_run; auto using run_codes_same, chdir_same.
Qed.

(** ** The union of the three *)

(** What a replacer has been made of that was prepared between two
    states. *)
Definition prepared (detect_path new_path : string) (s s' : PState) (r : Replacer) : Prop :=
  match r with
  | FdReplacer ps => ∀ pid a, ps !! pid = Some a → fd_table detect_path new_path s s' pid a
  | CwdReplacer_ c => NoDup (processes c) ∧ cwd_new_path c = new_path ∧
      ∀ pid, pid ∈ processes c →
        ∃ cwd, answered s s' (PCwd pid) (inr cwd) ∧ starts_with cwd detect_path = true
  | MmapReplacer ps => ∀ pid a, ps !! pid = Some a → mmap_table detect_path new_path s s' pid a
  end.

Lemma prepared_mono detect_path new_path s0 s s' s1 r :
  follows s0 s → follows s' s1 →
  prepared detect_path new_path s s' r → prepared detect_path new_path s0 s1 r.
Proof.
  intros H0 H1. destruct r as [ps|c|ps]; simpl.
  - intros Hp pid a Ha. destruct (Hp pid a Ha) as (fds & Hf & H). exists fds.
    split; [by eapply answered_mono|done].
  - intros (? & ? & Hp). split_and!; [done..|]. intros pid Hpid. destruct (Hp pid Hpid) as (cwd & Ha & ?).
    exists cwd. split; [by eapply answered_mono|done].
  - intros Hp pid a Ha. destruct (Hp pid a Ha) as (maps & Hf & H). exists maps.
    split; [by eapply answered_mono|done].
Qed.

Lemma prepared_held detect_path new_path s s' r q :
  prepared detect_path new_path s s' r →
  handles (held r) q = match r with
    | FdReplacer ps => in_map ps q | CwdReplacer_ c => handles (processes c) q
    | MmapReplacer ps => in_map ps q end ∧ 0 ≤ handles (held r) q ≤ 1.
Proof.
  intros Hp. destruct r as [ps|c|ps]; simpl in *.
  - rewrite held_map; [by split; [|apply in_map_bound]|]. intros pid a Ha. by destruct (Hp pid a Ha) as (? & _ & _ & ->).
  - split; [done|]. apply handles_nodup, Hp.
  - rewrite held_map; [by split; [|apply in_map_bound]|]. intros pid a Ha. by destruct (Hp pid a Ha) as (? & _ & _ & ->).
Qed.

Definition list_of {A} (mk : A → Replacer) (o : option A) : list Replacer :=
  match o with Some a => [mk a] | None => [] end.

Lemma try_prepare {A} (m : PM A) (mk : A → Replacer) detect_path new_path s live :
  (∃ r s', m s = (r, s') ∧ settled r ∧ follows s s' ∧
    match r with
    | Done a => counted s' (plus live (handles (held (mk a)))) ∧ prepared detect_path new_path s s' (mk a)
    | _ => counted s' live
    end) →
  ∃ o s', try_err m s = (Done o, s') ∧ follows s s' ∧
    counted s' (plus live (handles (held_all (list_of mk o)))) ∧
    Forall (prepared detect_path new_path s s') (list_of mk o) ∧
    ∀ q, 0 ≤ handles (held_all (list_of mk o)) q ≤ 1.
Proof.
  intros (r & s' & Hr & Hs & F & Hd). unfold try_err. rewrite Hr.
  destruct r as [a|[e|]|]; simpl in Hs; try done.
  - destruct Hd as [Hc Hp]. exists (Some a), s'. unfold held_all. csimpl. rewrite app_nil_r.
    split_and!; [done|done|done|by apply Forall_singleton|].
    intros q. apply (prepared_held _ _ _ _ _ q Hp).
  - exists None, s'. unfold held_all. csimpl. split_and!; [done|done| |constructor|by intros q].
    revert Hd. apply counted_ext. intros q. unfold plus. change (handles [] q) with 0. lia.
Qed.

Lemma union_prepare_spec detect_path new_path s live :
  counted s live → (∀ pid, live pid < 2 ^ 31 - 8) →
  ∃ rs s', union_prepare detect_path new_path s = (Done rs, s') ∧
    counted s' (plus live (handles (held_all rs))) ∧ Forall (prepared detect_path new_path s s') rs ∧
    ∀ q, 0 ≤ handles (held_all rs) q ≤ 3.
Proof.
  intros Hc Hl. unfold union_prepare.
  destruct (try_prepare (fd_prepare detect_path new_path) FdReplacer detect_path new_path s live)
    as (o1 & s1 & H1 & F1 & Hc1 & Hp1 & Hh1).
  { destruct (fd_prepare_spec detect_path new_path s live Hc) as (r & s' & Hr & Hs & F & Hd).
    { intros pid. specialize (Hl pid). lia. }
    exists r, s'. split_and!; [done..|]. destruct r as [ps| |]; [|done..]. destruct Hd as [Hd Ht].
    split; [|done]. revert Hd. apply counted_ext. intros q. unfold plus.
    by rewrite (proj1 (prepared_held detect_path new_path _ _ (FdReplacer ps) q Ht)). }
  set (live1 := plus live _) in Hc1.
  assert (∀ q, live1 q < 2 ^ 31 - 7) as Hl1.
  { intros q. unfold live1, plus. specialize (Hl q). specialize (Hh1 q). lia. }
  destruct (try_prepare (cwd_prepare detect_path new_path) CwdReplacer_ detect_path new_path s1 live1)
    as (o2 & s2 & H2 & F2 & Hc2 & Hp2 & Hh2).
  { destruct (cwd_prepare_spec detect_path new_path s1 _ Hc1) as (r & s' & Hr & Hs & F & Hd).
    { intros pid. specialize (Hl1 pid). lia. }
    exists r, s'. split_and!; [done..|]. destruct r as [c| |]; [|done..]. by destruct Hd as (? & ? & ? & ?). }
  set (live2 := plus live1 _) in Hc2.
  assert (∀ q, live2 q < 2 ^ 31 - 6) as Hl2.
  { intros q. unfold live2, plus. specialize (Hl1 q). specialize (Hh2 q). lia. }
  destruct (try_prepare (mmap_prepare detect_path new_path) MmapReplacer detect_path new_path s2 live2)
    as (o3 & s3 & H3 & F3 & Hc3 & Hp3 & Hh3).
  { destruct (mmap_prepare_spec detect_path new_path s2 _ Hc2) as (r & s' & Hr & Hs & F & Hd).
    { intros pid. specialize (Hl2 pid). lia. }
    exists r, s'. split_and!; [done..|]. destruct r as [ps| |]; [|done..]. destruct Hd as [Hd Ht].
    split; [|done]. revert Hd. apply counted_ext. intros q. unfold plus.
    by rewrite (proj1 (prepared_held detect_path new_path _ _ (MmapReplacer ps) q Ht)). }
  exists (list_of FdReplacer o1 ++ list_of CwdReplacer_ o2 ++ list_of MmapReplacer o3), s3.
  assert (∀ q, handles (held_all (list_of FdReplacer o1 ++ list_of CwdReplacer_ o2 ++
      list_of MmapReplacer o3)) q =
    handles (held_all (list_of FdReplacer o1)) q + handles (held_all (list_of CwdReplacer_ o2)) q +
    handles (held_all (list_of MmapReplacer o3)) q) as Hh.
  { intros q. unfold held_all. rewrite !bind_app, !handles_app. lia. }
  split_and!.
  - unfold bind. rewrite H1, H2, H3. unfold ret. by destruct o1, o2, o3.
  - revert Hc3. apply counted_ext. intros q. unfold live2, live1, plus. rewrite Hh. lia.
  - assert (follows s1 s3) as F13 by (by etrans).
    repeat apply Forall_app_2; (eapply Forall_impl; [eassumption|]); intros r; apply prepared_mono;
      done || (by etrans).
  - intros q. rewrite Hh. specialize (Hh1 q). specialize (Hh2 q). specialize (Hh3 q). lia.
Qed.

(** Dropping the union drops what it holds. *)
Lemma union_drop_spec rs s live :
  counted s (plus live (handles (held_all rs))) → (∀ p, 0 ≤ live p) →
  ∃ s', for_each replacer_drop rs s = (Done tt, s') ∧ counted s' live.
Proof.
  intros Hc Hl. revert s Hc. induction rs as [|r rs IH]; intros s Hc; simpl.
  - exists s. split; [done|]. revert Hc. apply counted_ext. intros q. unfold plus.
    change (handles (held_all []) q) with 0. lia.
  - assert (∃ s1, replacer_drop r s = (Done tt, s1) ∧
      counted s1 (plus live (handles (held_all rs)))) as (s1 & Hd & Hc1).
    { assert (counted s (plus (plus live (handles (held_all rs))) (handles (held r)))) as Hc0.
      { revert Hc. apply counted_ext. intros q. unfold plus, held_all. csimpl. rewrite handles_app. lia. }
      assert (∀ p, 0 ≤ plus live (handles (held_all rs)) p) as H0.
      { intros p. unfold plus. pose proof (handles_pos (held_all rs) p). specialize (Hl p). lia. }
      destruct r as [ps|c|ps]; simpl in *; [by apply drop_handles| |by apply drop_handles].
      destruct (drop_handles id (processes c) s (plus live (handles (held_all rs)))) as (s1 & ? & ?); [|exact H0|by exists s1].
      by rewrite list_fmap_id. }
    unfold bind. rewrite Hd. by apply IH.
Qed.

(** C9: the replacers leave no trace of themselves. Preparing the union
    always succeeds (what fails is left out), holds at most three handles
    on a process and counts each of them; running it, whatever it returns
    and however far it comes, keeps the counts; dropping it gives back
    every handle, so every process has the handles it had before. *)
Theorem replacers_give_handles_back detect_path new_path (s : PState) live :
  counted s live → (∀ pid, live pid < 2 ^ 31 - 8) →
  ∃ rs s1, union_prepare detect_path new_path s = (Done rs, s1) ∧
    (∀ pid, 0 ≤ handles (held_all rs) pid ≤ 3) ∧
    counted s1 (plus live (handles (held_all rs))) ∧
    counted (union_run rs s1).2 (plus live (handles (held_all rs))) ∧
    ∃ s3, union_drop rs (union_run rs s1).2 = (Done tt, s3) ∧ counted s3 live.
Proof.
  intros Hc Hl. destruct (union_prepare_spec detect_path new_path s live Hc Hl)
    as (rs & s1 & Hr & Hc1 & _ & Hh).
  pose proof (counted_after (union_run rs) s1 _ (union_run_same rs) Hc1) as Hc2.
  exists rs, s1. split_and!; [done..|]. apply union_drop_spec; [done|]. intros p. apply Hc.
Qed.

(** ** The tables and the listings *)

(** The entries whose new path can be written down. *)
Definition fd_selected (detect_path new_path : string) (entry : Z * option string) : bool :=
  match entry.2 with
  | Some path => match rebase detect_path new_path path with Some q => is_utf8 q | None => false end
  | None => false
  end.

Definition mmap_selected (detect_path new_path : string) (m : MemoryMap) : bool :=
  match mm_path m with
  | Some path => match rebase detect_path new_path path with Some q => is_utf8 q | None => false end
  | None => false
  end.

Lemma Forall2_filter_omap {X Y Z} (g : X → option Y) (f : Y → bool) (P : Y → Z → Prop) (l : list X) l' :
  Forall2 P (List.filter f (omap g l)) l' →
  Forall2 (λ x z, ∃ y, g x = Some y ∧ P y z)
    (List.filter (λ x, match g x with Some y => f y | None => false end) l) l'.
Proof.
  revert l'. induction l as [|x l IH]; intros l'; csimpl; [by intros H; inversion H|].
  destruct (g x) as [y|] eqn:Hg; [|apply IH]. simpl. destruct (f y); [|apply IH].
  intros H. inversion H; subst. constructor; eauto.
Qed.

Lemma fd_table_entries detect_path new_path pid (fds : list (Z * option string)) :
  let a := build (from_iter (omap (Fd.select detect_path new_path) fds)) pid in
  Forall2 (λ entry case, ∃ path q, entry.2 = Some path ∧
      rebase detect_path new_path path = Some q ∧ Fd.fd case = as_u64 entry.1 ∧
      stored (cursor_read_all (new_paths a)) (Fd.new_path_offset case) q)
    (List.filter (fd_selected detect_path new_path) fds) (cases a).
Proof.
  intros a. pose proof (table_holds_cases (omap (Fd.select detect_path new_path) fds)) as H.
  apply Forall2_filter_omap in H. erewrite List.filter_ext.
  - eapply Forall2_impl; [exact H|]. intros [d [path|]] case (c & Hc & off & -> & Hs); [|done].
    unfold Fd.select in Hc. cbn [fst snd] in Hc. destruct (rebase _ _ path) as [q|] eqn:Hq; [|done].
    injection Hc as <-. exists path, q. by split_and!.
  - intros [d [path|]]; [|done]. unfold fd_selected, Fd.select. simpl. by destruct (rebase _ _ path).
Qed.

Lemma collected_omap {A C} (f : A → option (outcome perr (option C))) (l : list A) :
  collected (omap f l) = omap (λ x, match f x with Some (Done o) => o | _ => None end) l.
Proof.
  unfold collected. induction l as [|x l IH]; csimpl; [done|].
  destruct (f x) as [[o|e|]|]; csimpl; by rewrite IH.
Qed.

Lemma mmap_table_entries detect_path new_path pid (maps : list MemoryMap) :
  Forall (λ m, (4 ≤ length (bytes_of (mm_perms m)))%nat) maps →
  let a := build (from_iter (collected (omap (Mmap.select detect_path new_path) maps))) pid in
  Forall2 (λ m case, ∃ path q, mm_path m = Some path ∧
      rebase detect_path new_path path = Some q ∧
      Mmap.memory_addr case = mm_start m ∧
      Mmap.length case = as_u64 (mm_end m - mm_start m) ∧
      Mmap.get_prot_and_flags_from_perms (E:=perr) (mm_perms m) =
        Done (Mmap.prot case, Mmap.flags case) ∧
      Mmap.offset case = mm_offset m ∧
      stored (cursor_read_all (new_paths a)) (Mmap.new_path_offset case) q)
    (List.filter (mmap_selected detect_path new_path) maps) (cases a).
Proof.
  intros Hperm a. subst a. rewrite collected_omap.
  match goal with |- context [from_iter ?l] => pose proof (table_holds_cases l) as H end.
  apply Forall2_filter_omap in H. erewrite (List.filter_ext_in (mmap_selected _ _)).
  - eapply Forall2_impl; [exact H|]. intros m case (c & Hc & off & -> & Hs).
    unfold Mmap.select in Hc. destruct (mm_path m) as [path|]; [|done].
    destruct (Mmap.get_prot_and_flags_from_perms (mm_perms m)) as [[prot flags]| |] eqn:Hg; [|done..].
    destruct (rebase _ _ path) as [q|] eqn:Hq; [|done].
    injection Hc as <-. exists path, q. by split_and!.
  - intros m Hm%list_elem_of_In. rewrite Forall_forall in Hperm. specialize (Hperm m Hm).
    unfold mmap_selected, Mmap.select, Mmap.get_prot_and_flags_from_perms.
    destruct (mm_path m) as [path|]; [|done].
    destruct (bytes_of (mm_perms m)) as [|b0 [|b1 [|b2 [|b3 bs]]]]; simpl in Hperm; try lia.
    by destruct (rebase _ _ path).
Qed.

(** C14: the tables are the listings. Every table of a prepared
    [FdReplacer] was made of a listing that procfs gave of the process in
    this very run: it holds one case for each listed descriptor whose path
    is below [detect_path] and whose path below [new_path] is UTF-8 (none
    of the others; those that are below but not UTF-8 are logged and left
    out), in the order of the listing, with the number of the descriptor,
    and at the case's offset the new path followed by a NUL byte. Every
    table of a prepared [MmapReplacer] does so for the mappings, with their
    address, size, offset, and the protection and sharing of their
    permissions. [CwdReplacer] holds processes whose working directory was
    answered to be below [detect_path] in this run. *)
Theorem prepared_tables_list_the_entries detect_path new_path (s : PState) live :
  counted s live → (∀ pid, live pid < 2 ^ 31 - 8) →
  ∃ rs s1, union_prepare detect_path new_path s = (Done rs, s1) ∧
    Forall (λ r, match r with
    | FdReplacer ps => ∀ pid a, ps !! pid = Some a → process a = pid ∧
        ∃ fds, answered s s1 (PFd pid) (inr fds) ∧
          Forall2 (λ entry case, ∃ path q, entry.2 = Some path ∧
              rebase detect_path new_path path = Some q ∧
              Fd.fd case = as_u64 entry.1 ∧
              stored (cursor_read_all (new_paths a)) (Fd.new_path_offset case) q)
            (List.filter (fd_selected detect_path new_path) fds) (cases a)
    | MmapReplacer ps => ∀ pid a, ps !! pid = Some a → process a = pid ∧
        ∃ maps, answered s s1 (PMaps pid) (inr maps) ∧
          Forall2 (λ m case, ∃ path q, mm_path m = Some path ∧
              rebase detect_path new_path path = Some q ∧
              Mmap.memory_addr case = mm_start m ∧
              Mmap.length case = as_u64 (mm_end m - mm_start m) ∧
              Mmap.get_prot_and_flags_from_perms (E:=perr) (mm_perms m) =
                Done (Mmap.prot case, Mmap.flags case) ∧
              Mmap.offset case = mm_offset m ∧
              stored (cursor_read_all (new_paths a)) (Mmap.new_path_offset case) q)
            (List.filter (mmap_selected detect_path new_path) maps) (cases a)
    | CwdReplacer_ c => cwd_new_path c = new_path ∧ ∀ pid, pid ∈ processes c →
        ∃ cwd, answered s s1 (PCwd pid) (inr cwd) ∧ starts_with cwd detect_path = true
    end) rs.
Proof.
  intros Hc Hl. destruct (union_prepare_spec detect_path new_path s live Hc Hl)
    as (rs & s1 & Hr & _ & Hp & _).
  exists rs, s1. split; [done|]. apply (Forall_impl _ _ _ Hp). clear Hp. intros [ps|c|ps] Hp.
  - intros pid a Ha. destruct (Hp pid a Ha) as (fds & Hf & _ & ->). split; [done|]. exists fds.
    split; [done|]. apply fd_table_entries.
  - by destruct Hp as (_ & ? & ?).
  - intros pid a Ha. destruct (Hp pid a Ha) as (maps & Hm & _ & ->). split; [done|]. exists maps.
    split; [done|]. apply mmap_table_entries. destruct (answered_run _ _ _ _ Hm) as (w & w' & Hm').
    by eapply perms_letters.
Qed.

End union.

(** ** A concrete run *)

#[export] Instance DemoProcfs : ProcfsLaws DemoPtrace.
Proof.
  split.
  - intros w l w'. simpl. intros [= <- <-]. apply (bool_decide_unpack _). by vm_compute.
  - intros pid w l w'. simpl. intros [= <- <-]. repeat constructor; vm_compute; lia.
Defined.

(** The data, then a breakpoint in the place of the code. *)
#[export] Instance DemoReplacer : ReplacerExt := {|
  assemble _ data _ := Done (data_bytes data ++ [204]);
  map_order A m := map_to_list m
|}.

#[export] Instance DemoReplacerLaws : ReplacerLaws DemoReplacer.
Proof.
  split.
  - intros base data code ins. simpl. intros [= <-]. eauto.
  - done.
Defined.

Lemma no_handles_counted fails rax : counted (tracees fails rax) no_handles.
Proof. intros pid. split; [unfold no_handles; lia|]. apply lookup_empty. Qed.

(** Process 7 is traced by the three replacers, toda itself by none. *)
Example union_demo :
  held_all match (union_prepare "/m" "/n" (tracees no_failure 0)).1 with Done rs => rs | _ => [] end
    = [7; 7; 7].
Proof. vm_compute. reflexivity. Qed.

Lemma replacers_give_handles_back_witness :
  ∃ rs s1, union_prepare "/m" "/n" (tracees no_failure 0) = (Done rs, s1) ∧
    ∃ s3, union_drop rs (union_run rs s1).2 = (Done tt, s3) ∧ counted s3 no_handles.
Proof.
  destruct (replacers_give_handles_back "/m" "/n" (tracees no_failure 0) no_handles)
    as (rs & s1 & Hr & _ & _ & _ & Hd).
  - apply no_handles_counted.
  - intros pid. reflexivity.
  - exists rs, s1. split; [exact Hr|exact Hd].
Defined.

(** The tables of process 7: of its three descriptors one is open below
    the path, of its two mappings one has a file. *)
Definition demo_prepared : list Replacer :=
  match (union_prepare "/m" "/n" (tracees no_failure 0)).1 with Done rs => rs | _ => [] end.

Definition demo_fds : gmap Z (ProcessAccessor Fd.ReplaceCase) :=
  match demo_prepared with FdReplacer ps :: _ => ps | _ => ∅ end.

Definition demo_maps : gmap Z (ProcessAccessor Mmap.RawReplaceCase) :=
  match demo_prepared with [_; _; MmapReplacer ps] => ps | _ => ∅ end.

Example prepared_demo :
  (cases <$> demo_fds !! 7) = Some [Fd.mkCase 3 0] ∧
  (cursor_read_all ∘ new_paths <$> demo_fds !! 7) = Some (bytes_of "/n/d/f" ++ [0]) ∧
  (cases <$> demo_maps !! 7) = Some [Mmap.mkCase 4096 4096 3 2 0 0] ∧
  (cursor_read_all ∘ new_paths <$> demo_maps !! 7) = Some (bytes_of "/n/lib" ++ [0]).
Proof. by vm_compute. Qed.

Lemma demo_prepared_tables : FdReplacer demo_fds ∈ demo_prepared ∧ MmapReplacer demo_maps ∈ demo_prepared.
Proof.
  assert (demo_prepared = [FdReplacer demo_fds; CwdReplacer_ (mkCwd [7] "/n"); MmapReplacer demo_maps]) as ->
    by (vm_compute; reflexivity).
  split; [left|right; right; left].
Qed.

(** The descriptor of process 7 that is listed below the path is in its
    table, and the mapping. *)
Lemma prepared_tables_list_the_entries_witness :
  ∃ s1, union_prepare "/m" "/n" (tracees no_failure 0) = (Done demo_prepared, s1) ∧
    (∀ a, demo_fds !! 7 = Some a → ∃ case, cases a = [case] ∧ Fd.fd case = 3 ∧
       stored (cursor_read_all (new_paths a)) (Fd.new_path_offset case) "/n/d/f") ∧
    ∀ a, demo_maps !! 7 = Some a → ∃ case, cases a = [case] ∧ Mmap.memory_addr case = 4096 ∧
      stored (cursor_read_all (new_paths a)) (Mmap.new_path_offset case) "/n/lib".
Proof.
  destruct (prepared_tables_list_the_entries "/m" "/n" (tracees no_failure 0) no_handles)
    as (rs & s1 & Hr & Hf).
  - apply no_handles_counted.
  - intros pid. reflexivity.
  - assert (rs = demo_prepared) as -> by (unfold demo_prepared; rewrite Hr; reflexivity).
    exists s1. rewrite Forall_forall in Hf. destruct demo_prepared_tables as [Hfd Hm].
    apply Hf in Hfd, Hm. split_and!; [exact Hr| |].
    + intros a Ha. destruct (Hfd 7 a Ha) as (_ & l & Hl & Hcs).
      destruct (answered_run _ _ _ _ Hl) as (w & w' & [= <- _]).
      apply Forall2_cons_inv_l in Hcs as (case & cs & (path & q & Hp & Hq & Hcase & Hst) & Hnil & ->).
      apply Forall2_nil_inv_l in Hnil as ->. exists case. split; [reflexivity|]. split; [exact Hcase|].
      injection Hp as <-. vm_compute in Hq. injection Hq as <-. exact Hst.
    + intros a Ha. destruct (Hm 7 a Ha) as (_ & l & Hl & Hcs).
      destruct (answered_run _ _ _ _ Hl) as (w & w' & [= <- _]).
      apply Forall2_cons_inv_l in Hcs as (case & cs & (path & q & Hp & Hq & Haddr & _ & _ & _ & Hst) & Hnil & ->).
      apply Forall2_nil_inv_l in Hnil as ->. exists case. split; [reflexivity|]. split; [exact Haddr|].
      injection Hp as <-. vm_compute in Hq. injection Hq as <-. exact Hst.
Defined.
