(* ===== verification/Transparency.v ===== *)
(** * Disabled injection is transparent

    While [enable_injection] is false the configured injectors have no
    effect on any request but a write: same reply, same system calls in
    the same order, same file-system state. The write path is different:
    [inject_write_data!] does not read the flag. *)

From S2P Require Import Prelude Path Float Types External Filter Injectors InodeMap HookFs FsImpl.
From S2P Require Import Dispatch Locks.

#[local] Open Scope Z_scope.

(** Two states that differ in the configured injectors only ([i] in the
    second), with injection disabled. *)
Definition same_but_injector `{X : Ext} (i : MultiInjector X) (s t : FsState X) : Prop :=
  enable_injection (hook s) = false ∧ t = on_hook (set_injector i) s.

Section rules.
Context `{X : Ext} (i : MultiInjector X).
Abbreviation R := (same_but_injector i).

Lemma disabled_gets {A} (f : FsState X → A) :
  (∀ s, f (on_hook (set_injector i) s) = f s) →
  agree (E:=HookFsError) R (gets f) (gets f).
Proof. intros Hf. apply agree_gets. intros s t [_ ->]. by rewrite Hf. Qed.

Lemma disabled_on_hook (f : HookFs X → HookFs X) :
  (∀ h, f (set_injector i h) = set_injector i (f h)) →
  (∀ h, enable_injection (f h) = enable_injection h) →
  agree (E:=HookFsError) R (modify (on_hook f)) (modify (on_hook f)).
Proof.
  intros Hf He. apply agree_modify. intros s t [Hen ->].
  split; [simpl; by rewrite He|]. unfold on_hook. simpl. by rewrite Hf.
Qed.

Lemma disabled_lift_io {A} (m : M (IO X) HookFsError A) : agree R (lift_io m) (lift_io m).
Proof.
  intros s t [Hen ->]. unfold lift_io, zoom. simpl.
  destruct (m (fs_io s)) as [r io']. done.
Qed.

Lemma disabled_with_lock {A} l m (b : M (FsState X) HookFsError A) :
  agree R b b → agree R (with_lock l m b) (with_lock l m b).
Proof.
  intros Hb. apply agree_bind; [apply agree_modify|intros _; apply agree_finally; [done|]];
    intros s t [Hen ->]; done.
Qed.

Lemma disabled_spawn_blocking {A} (m : M (FsState X) HookFsError A) :
  agree R m m → agree R (spawn_blocking m) (spawn_blocking m).
Proof.
  intros Hm s t HR. destruct (Hm s t HR) as [Ho HR']. unfold spawn_blocking.
  by destruct (m s) as [[]], (m t) as [[]]; simpl in *; simplify_eq.
Qed.

(** With the flag off an injection macro is a no-op. *)
Lemma inject_disabled m p (s : FsState X) :
  enable_injection (hook s) = false → inject m p s = (Done tt, s).
Proof. intros He. unfold inject, bind, gets. by rewrite He. Qed.

Lemma inject_attr_disabled a p (s : FsState X) :
  enable_injection (hook s) = false → inject_attr a p s = (Done a, s).
Proof. intros He. unfold inject_attr, bind, gets. by rewrite He. Qed.

Lemma inject_reply_disabled m p r (s : FsState X) :
  enable_injection (hook s) = false → inject_reply m p r s = (Done r, s).
Proof. intros He. unfold inject_reply, bind, gets. by rewrite He. Qed.

Lemma disabled_inject m p : agree R (inject m p) (inject m p).
Proof. intros s t [He ->]. rewrite !inject_disabled by done. done. Qed.

Lemma disabled_inject_attr a p : agree R (inject_attr a p) (inject_attr a p).
Proof.
  intros s t [He ->]. rewrite !inject_attr_disabled by done. done.
Qed.

Lemma disabled_inject_reply_as {A} w u m p (r : A) :
  agree R (inject_reply_as w u m p r) (inject_reply_as w u m p r).
Proof.
  apply agree_bind; [|intros; apply agree_ret].
  intros s t [He ->]. rewrite !inject_reply_disabled by done. done.
Qed.

End rules.

#[export] Hint Resolve disabled_lift_io disabled_inject disabled_inject_attr
  disabled_inject_reply_as : toda.

(** The structure of a handler, run on both sides at once. *)
Ltac agreeing :=
  repeat match goal with
  | |- agree _ (bind _ _) _ => apply agree_bind
  | |- agree _ (with_lock _ _ _) _ => apply disabled_with_lock
  | |- agree _ (spawn_blocking _) _ => apply disabled_spawn_blocking
  | |- agree _ (try _) _ => apply agree_try
  | |- agree _ (gets _) _ => apply disabled_gets; done
  | |- agree _ (call _) _ => apply disabled_lift_io
  | |- agree _ (modify (on_hook _)) _ => apply disabled_on_hook; done
  | |- ∀ _, _ => intro
  | |- _ => solve [eauto 2 with toda]
  | |- agree _ (match ?x with _ => _ end) _ => destruct x
  end.

#[export] Hint Unfold nix_call libc_check cstring get_path get_file_attr remember_path
  insert_file insert_dir : toda_unfold.

Section handlers.
Context `{X : Ext} (i : MultiInjector X).
Abbreviation R := (same_but_injector i).

Lemma disabled_readdir_loop n es r :
  agree R (Handlers.readdir_loop n es r) (Handlers.readdir_loop n es r).
Proof.
  revert n r. induction es as [|e es IH]; intros n r; cbn [Handlers.readdir_loop]; agreeing.
Qed.

Hint Resolve disabled_readdir_loop : toda.

Lemma disabled_spawn_reply {A} (ok : A → FuseReply) (m : M (FsState X) HookFsError A) s :
  agree R m m → enable_injection (hook s) = false →
  AsyncFs.spawn_reply ok m (on_hook (set_injector i) s) =
    ((AsyncFs.spawn_reply ok m s).1, on_hook (set_injector i) (AsyncFs.spawn_reply ok m s).2).
Proof.
  intros Hm He. destruct (Hm s (on_hook (set_injector i) s)) as [Ho [_ Hs]]; [done|].
  unfold AsyncFs.spawn_reply.
  destruct (m s) as [r s'], (m (on_hook (set_injector i) s)) as [r' s'']; simpl in *.
  by subst.
Qed.

Lemma disabled_no_reply (m : M (FsState X) HookFsError unit) s :
  agree R m m → enable_injection (hook s) = false →
  (None (A:=FuseReply), (m (on_hook (set_injector i) s)).2) =
    ((None (A:=FuseReply), (m s).2).1, on_hook (set_injector i) (None (A:=FuseReply), (m s).2).2).
Proof. intros Hm He. by destruct (Hm s (on_hook (set_injector i) s)) as [Ho [_ ->]]. Qed.

End handlers.

#[export] Hint Resolve disabled_readdir_loop : toda.

Definition is_write (op : FuseOp) : bool :=
  match op with OpWrite _ _ _ _ => true | _ => false end.

(** C1: with injection disabled, a request that is not a write gives the
    same reply, performs the same system calls and leaves the same state
    whatever injectors [i] are configured in place of the current ones:
    the file system is transparent. *)
Theorem disabled_injection_is_transparent `{X : Ext} req op (s : FsState X) (i : MultiInjector X) :
  enable_injection (hook s) = false →
  is_write op = false →
  serve req op (on_hook (set_injector i) s) =
    ((serve req op s).1, on_hook (set_injector i) (serve req op s).2).
Proof.
  intros He Hw. destruct op; cbn [serve]; try discriminate Hw; clear Hw; unfold_session;
    first [apply disabled_spawn_reply; [|done] | apply disabled_no_reply; [|done] | done];
    unfold_handler; autounfold with toda_unfold; agreeing.
Qed.
