(* ===== verification/InjectorProps.v ===== *)
(** * What the injectors do

    Functional properties of the filters and of the fault and mistake
    injectors, under the laws of the random generator. *)

From Stdlib Require Import Ascii.
From S2P Require Import Prelude Float Types External Filter Injectors.

#[local] Open Scope Z_scope.

(** ** Filters *)

(** The operations of FUSE, in the order of their flags. *)
Definition operations : list string :=
  ["lookup"; "forget"; "getattr"; "setattr"; "readlink"; "mknod"; "mkdir"; "unlink"; "rmdir";
   "symlink"; "rename"; "link"; "open"; "read"; "write"; "flush"; "release"; "fsync"; "opendir";
   "readdir"; "releasedir"; "fsyncdir"; "statfs"; "setxattr"; "getxattr"; "listxattr";
   "removexattr"; "access"; "create"; "getlk"; "setlk"; "bmap"]%string.

Definition upper : string := "ABCDEFGHIJKLMNOPQRSTUVWXYZ".
Definition lower : string := "abcdefghijklmnopqrstuvwxyz".

(** What is written names an operation: letter for letter, in either case;
    the Kelvin sign (U+212A, the bytes E2 84 AA) is an upper-case k. *)
Inductive spells : string → string → Prop :=
| spells_nil : spells "" ""
| spells_same c s t : spells s t → spells (String c s) (String c t)
| spells_upper i a b s t :
    String.get i upper = Some a → String.get i lower = Some b →
    spells s t → spells (String a s) (String b t)
| spells_kelvin s t :
    spells s t →
    spells (String (ascii_of_N 226) (String (ascii_of_N 132) (String (ascii_of_N 170) s)))
      (String "k"%char t).

Definition is_lower (c : ascii) : bool := existsb (Ascii.eqb c) (String.list_ascii_of_string lower).

Definition lower_case (t : string) : bool := forallb is_lower (String.list_ascii_of_string t).

Lemma ascii_lower_upper c :
  ascii_lower c ≠ c →
  ∃ i, String.get i upper = Some c ∧ String.get i lower = Some (ascii_lower c).
Proof.
  intros H. exists (nat_of_ascii c - 65)%nat.
  by destruct c as [[] [] [] [] [] [] [] []]; first [exfalso; by apply H|vm_compute].
Qed.

Lemma ascii_lower_of_upper i a b :
  String.get i upper = Some a → String.get i lower = Some b →
  ascii_lower a = b ∧ is_byte 226 a = false.
Proof.
  do 26 (destruct i as [|i]; [intros [= <-] [= <-]; by vm_compute|]). by destruct i.
Qed.

Lemma is_lower_fixed c : is_lower c = true → ascii_lower c = c ∧ is_byte 226 c = false.
Proof. by destruct c as [[] [] [] [] [] [] [] []]; vm_compute. Qed.

Lemma to_lowercase_cons c s :
  is_byte 226 c = false → to_lowercase (String c s) = String (ascii_lower c) (to_lowercase s).
Proof. intros Hc. cbn [to_lowercase]. by destruct s as [|c2 [|c3 s]]; [..|rewrite Hc]. Qed.

Lemma is_byte_eq n c : is_byte n c = true → c = ascii_of_N (Z.to_N n).
Proof. unfold is_byte. intros <-%Z.eqb_eq. by rewrite N2Z.id, ascii_N_embedding. Qed.

Lemma spells_lowercase s t : spells s t → lower_case t = true → to_lowercase s = t.
Proof.
  induction 1 as [|c s t Hs IH|i a b s t Ha Hb Hs IH|s t Hs IH]; [done|..];
    unfold lower_case in *; cbn [String.list_ascii_of_string forallb]; intros [Hl Ht]%andb_prop.
  - destruct (is_lower_fixed c Hl) as [Hc H226]. by rewrite to_lowercase_cons, Hc, IH.
  - destruct (ascii_lower_of_upper i a b Ha Hb) as [<- H226]. by rewrite to_lowercase_cons, IH.
  - simpl. by rewrite IH.
Qed.

Lemma lowercase_spells s : spells s (to_lowercase s).
Proof.
  assert (∀ n s, (String.length s ≤ n)%nat → spells s (to_lowercase s)) as H; [|by eapply H].
  clear s. induction n as [|n IH]; intros [|c s] Hn; simpl in Hn; [constructor|lia|constructor|].
  assert (spells (String c s) (String (ascii_lower c) (to_lowercase s))) as Hone.
  { specialize (IH s ltac:(lia)). destruct (decide (ascii_lower c = c)) as [->|Hc]; [by constructor|].
    apply ascii_lower_upper in Hc as (i & Hu & Hl). by eapply spells_upper. }
  cbn [to_lowercase]. destruct s as [|c2 [|c3 s]]; [exact Hone..|].
  destruct (_ && _ && _) eqn:Hk; [|exact Hone].
  apply andb_prop in Hk as [[->%is_byte_eq ->%is_byte_eq]%andb_prop ->%is_byte_eq].
  apply spells_kelvin, IH. simpl in Hn. lia.
Qed.

Lemma operations_lower_case : Forall (λ name, lower_case name = true) operations.
Proof. by repeat constructor. Qed.

(** The table of the source is the list of the operations, each with the
    bit of its place. *)
Lemma names_operations : Method.names = imap (λ i name, (name, 2 ^ Z.of_nat i)) operations.
Proof. reflexivity. Qed.

Lemma assoc_string_nodup name (l : list (string * Z)) m :
  NoDup l.*1 → assoc_string name l = Some m ↔ (name, m) ∈ l.
Proof.
  intros Hnd. induction l as [|[n m'] l IH]; simpl.
  { split; [done|by intros ?%elem_of_nil]. }
  apply NoDup_cons in Hnd as [Hn Hnd]. rewrite elem_of_cons. destruct (String.eqb_spec name n) as [->|Hne].
  - split; [intros [= ->]; by left|]. intros [[= ->]|Hin]; [done|]. exfalso. apply Hn.
    apply list_elem_of_fmap. by exists (n, m).
  - rewrite IH by done. split; [by right|]. intros [[= -> ->]|Hin]; done.
Qed.

Lemma method_try_from_spec written i name :
  operations !! i = Some name →
  method_try_from written = Some (2 ^ Z.of_nat i) ↔ spells written name.
Proof.
  intros Hi. pose proof operations_lower_case as Hlow. rewrite Forall_lookup in Hlow.
  unfold method_try_from. rewrite assoc_string_nodup; [|apply (bool_decide_unpack _); by vm_compute].
  rewrite names_operations. split.
  - intros (j & nm & [= H Hj] & Hnm)%elem_of_lookup_imap.
    apply (Z.pow_inj_r 2) in Hj; [|lia..]. assert (j = i) as -> by lia.
    assert (nm = name) as -> by congruence. rewrite <- H. apply lowercase_spells.
  - intros Hs. apply elem_of_lookup_imap. exists i, name. split; [|done].
    by rewrite (spells_lowercase written name Hs (Hlow i name Hi)).
Qed.

(** C18: a filter built from a non-empty list of method names accepts the
    operation of the i-th flag exactly if one of the names spells the
    operation's name, letter for letter in either case; so what spells no
    operation selects nothing. An absent or empty list selects every
    operation. *)
Theorem filter_methods_spec `{X : Ext} (conf : FilterConfig) (i : nat) (operation : string)
    (f : Filter X) :
  operations !! i = Some operation →
  filter_build (E:=AnyhowError) conf = Done f →
  match_method f (2 ^ Z.of_nat i) = true ↔
    match fc_methods conf with
    | Some (n :: ns) => ∃ written, written ∈ n :: ns ∧ spells written operation
    | _ => True
    end.
Proof.
  intros Hi [= <-]. unfold match_method. cbn [methods].
  assert (2 ^ Z.of_nat i ∈ Method.names.*2) as Hfl.
  { apply list_elem_of_fmap. exists (operation, 2 ^ Z.of_nat i). split; [done|].
    rewrite names_operations. apply elem_of_lookup_imap. eauto. }
  set (fl := 2 ^ Z.of_nat i) in *. pose proof (flag_pow2 fl Hfl) as [Hp Hb]. rewrite Hp at 1.
  rewrite land_pow2, negb_involutive by lia.
  assert (Z.testbit Method.all (Z.log2 fl) = true) as Hall.
  { change Method.all with (2 ^ 32 - 1). rewrite Z.sub_1_r, <- Z.ones_equiv.
    apply Z.ones_spec_low. lia. }
  destruct (fc_methods conf) as [[|n ns]|]; cbn [build_methods]; try by rewrite Hall.
  rewrite testbit_fold_lor, Z.bits_0, orb_false_l, existsb_exists. split.
  - intros (m & Hm & Ht). apply list_elem_of_In, list_elem_of_omap in Hm as (name & Hn & Hf).
    exists name. split; [done|]. apply (method_try_from_spec name i operation Hi).
    rewrite testbit_flag in Ht by (done || by eapply method_try_from_flag).
    apply bool_decide_eq_true in Ht. by rewrite Hf, Ht.
  - intros (name & Hn & Hf%(method_try_from_spec name i operation Hi)). exists fl. split.
    + apply list_elem_of_In, list_elem_of_omap. eauto.
    + rewrite testbit_flag by done. by apply bool_decide_eq_true.
Qed.

(** C19: the random test of a filter. At 100 percent it always passes, at
    0 percent it never does, and between them raising the percentage only
    adds draws that pass. *)
Theorem filter_percent_spec `{X : Ext, !RandLaws X} (path : string) (method : Z)
    (f : Filter X) (io : IO X) :
  (probability f = percent_probability 100 →
   (filter (E:=HookFsError) f method path io).1 = Done (match_path f path && match_method f method)) ∧
  (probability f = percent_probability 0 →
   (filter (E:=HookFsError) f method path io).1 = Done false) ∧
  (∀ a b, 0 ≤ a ≤ b → b ≤ 100 → probability f = percent_probability a →
   (filter (E:=HookFsError) f method path io).1 = Done true →
   (filter (E:=HookFsError)
      (mkFilter (path_filter f) (methods f) (percent_probability b)) method path io).1
     = Done true).
Proof.
  destruct (filter_run (E:=HookFsError) f method path io) as (k & w & Hk & Hrun). split_and!.
  - intros Hp. rewrite Hrun, Hp. cbn [fst].
    change (percent_probability 100) with (f64_of_int 1).
    by rewrite unit_float_lt_one, andb_true_r.
  - intros Hp. rewrite Hrun, Hp. cbn [fst].
    change (percent_probability 0) with (f64_of_int 0).
    by rewrite unit_float_not_lt_zero, andb_false_r.
  - intros a b Hab Hb Hp. unfold filter, bind, rng_gen.
    destruct (gen_f64 (world io)) as [p w']. cbn [fst ret]. unfold match_path, match_method.
    cbn [path_filter methods probability]. intros [= H]. apply andb_prop in H as [H1 H2].
    rewrite H1, (percent_probability_mono p a b) by (done || by rewrite <- Hp). done.
Qed.

(** ** Faults *)

Definition total_weight (l : list (Errno * Z)) : Z := foldr (λ p acc, p.2 + acc) 0 l.

Definition weights_nonneg (l : list (Errno * Z)) : Prop := Forall (λ p, 0 ≤ p.2) l.

Lemma total_weight_nonneg l : weights_nonneg l → 0 ≤ total_weight l.
Proof. induction 1; simpl; lia. Qed.

(** The loop subtracts weights until the attempt turns negative: it picks
    the fault whose cumulative range contains the attempt. *)
Lemma fault_loop_spec l a :
  weights_nonneg l → total_weight l < 2 ^ 31 → 0 ≤ a < total_weight l →
  ∃ l1 err w l2, l = l1 ++ (err, w) :: l2 ∧
    total_weight l1 ≤ a < total_weight l1 + w ∧ fault_loop a l = Some err.
Proof.
  intros Hw. revert a. induction Hw as [|[err w] l Hw0 Hw IH]; intros a Hs Ha; simpl in *; [lia|].
  pose proof (total_weight_nonneg l Hw) as Hl.
  rewrite (swrap_id 32) by (unfold in_s; simpl; lia).
  destruct (Z.ltb_spec (a - w) 0).
  - exists [], err, w, l. simpl. split_and!; done || lia.
  - destruct (IH (a - w)) as (l1 & err' & w' & l2 & -> & Hr & Hf); [lia..|].
    exists ((err, w) :: l1), err', w', l2. simpl. split_and!; done || lia.
Qed.

(** The sum the injector stores is the total of the weights when that
    fits in an [i32]. *)
Lemma fold_sum_total l acc :
  weights_nonneg l → 0 ≤ acc → acc + total_weight l < 2 ^ 31 →
  fold_left (λ acc w, as_i32 (acc + w.2)) l acc = acc + total_weight l.
Proof.
  intros Hw. revert acc. induction Hw as [|[err w] l Hw0 Hw IH]; intros acc Ha Hs; simpl in *; [lia|].
  pose proof (total_weight_nonneg l Hw).
  rewrite (swrap_id 32) by (unfold in_s; simpl; lia). rewrite IH by lia. lia.
Qed.

(** Weights that are all zero never exhaust the attempt 0. *)
Lemma fault_loop_zero l : weights_nonneg l → total_weight l = 0 → fault_loop 0 l = None.
Proof.
  induction 1 as [|[err w] l Hw0 Hw IH]; intros Ht; simpl in *; [done|].
  pose proof (total_weight_nonneg l Hw). assert (w = 0) as -> by lia.
  change (as_i32 (0 - 0)) with 0. simpl. apply IH. lia.
Qed.

Section faults.
Context `{X : Ext, !RandLaws X}.

(** The faults of a configuration, as the injector stores them. *)
Definition config_faults (conf : FaultsConfig) : list (Errno * Z) :=
  map (λ item, (errno_from_i32 (fault_errno item), fault_weight item)) (fsc_faults conf).

Lemma fault_build_eq conf :
  weights_nonneg (config_faults conf) → total_weight (config_faults conf) < 2 ^ 31 →
  fault_build conf =
    Done {| fi_filter := mkFilter (build_path_filter (fc_path (fsc_filter conf)))
                           (build_methods (fc_methods (fsc_filter conf)))
                           (percent_probability (fc_percent (fsc_filter conf)));
            errnos := config_faults conf; sum := total_weight (config_faults conf) |}.
Proof.
  intros Hw Hs. unfold fault_build. fold (config_faults conf).
  by rewrite (fold_sum_total (config_faults conf) 0), Z.add_0_l by (done || lia).
Qed.

(** The loop picks faults of its list only. *)
Lemma fault_loop_listed l a err : fault_loop a l = Some err → ∃ w, (err, w) ∈ l.
Proof.
  revert a. induction l as [|[e w] l IH]; intros a; simpl; [done|].
  destruct (_ <? 0); [intros [= ->]; exists w; by left|].
  intros H. destruct (IH _ H) as [w' Hin]. exists w'. by right.
Qed.

(** An injection of faults run: the filter draws first; if it matches, a
    second draw, scaled by the sum, goes through the loop. *)
Lemma fault_inject_run (fi : FaultInjector X) method path io :
  let draw := gen_f64 (gen_f64 (world io)).2 in
  fault_inject fi method path io =
    if match_path (fi_filter fi) path && match_method (fi_filter fi) method &&
       f64_ltb (gen_f64 (world io)).1 (probability (fi_filter fi))
    then (match fault_loop (f64_to_i32 (f64_mul draw.1 (f64_of_int (sum fi)))) (errnos fi) with
          | Some err => Fail (Sys err)
          | None => Done tt
          end, set_world draw.2 io)
    else (Done tt, set_world (gen_f64 (world io)).2 io).
Proof.
  unfold fault_inject, filter, bind, rng_gen, ret, fail.
  destruct (gen_f64 (world io)) as [p w]. cbn [fst snd world set_world].
  destruct (_ && _ && _); [|done]. change (world (set_world w io)) with w.
  destruct (gen_f64 w) as [p2 w2]. cbn [fst snd]. by destruct (fault_loop _ _).
Qed.

(** C16: a fault injector at 100 percent whose filter matches always
    injects a fault, if its weights are not negative and their total is
    positive and fits in an [i32]. The draw after the filter's, times the
    total as floats multiply and cut to an integer, is never negative and
    never rounds up to the total; the fault is the one whose range of the
    cumulative weights it falls in, so a fault of weight 0 is never
    picked. The two draws are all that is done. *)
Theorem fault_injector_always_fires (conf : FaultsConfig) (fi : FaultInjector X)
    (method : Z) (path : string) (io : IO X) :
  let total := total_weight (config_faults conf) in
  let draw := gen_f64 (gen_f64 (world io)).2 in
  let attempt := f64_to_i32 (f64_mul draw.1 (f64_of_int total)) in
  weights_nonneg (config_faults conf) → 0 < total < 2 ^ 31 →
  fc_percent (fsc_filter conf) = 100 →
  fault_build conf = Done fi →
  match_path (fi_filter fi) path && match_method (fi_filter fi) method = true →
  0 ≤ attempt < total ∧
  ∃ l1 err w l2,
    config_faults conf = l1 ++ (err, w) :: l2 ∧
    total_weight l1 ≤ attempt < total_weight l1 + w ∧
    fault_inject fi method path io = (Fail (Sys err), set_world draw.2 io).
Proof.
  intros total draw attempt Hw Hs Hp Hb Hm. rewrite fault_build_eq in Hb by (done || lia).
  injection Hb as <-. cbn [fi_filter] in Hm.
  assert (0 ≤ attempt < total) as Ha.
  { unfold attempt, draw. destruct (gen_f64_unit (gen_f64 (world io)).2) as (k & Hk & ->).
    by apply scaled_draw_range. }
  split; [done|]. destruct (fault_loop_spec (config_faults conf) attempt Hw (proj2 Hs) Ha)
    as (l1 & err & w & l2 & Hl & Hr & Hf).
  exists l1, err, w, l2. split; [done|]. split; [done|]. rewrite fault_inject_run. cbn [fi_filter errnos sum probability].
  rewrite Hm, Hp. change (percent_probability 100) with (f64_of_int 1).
  destruct (gen_f64_unit (world io)) as (k & Hk & ->). rewrite unit_float_lt_one by done. cbn [andb].
  fold total. fold draw. fold attempt. by rewrite Hf.
Qed.

(** C17: no fault comes out of thin air. Whatever its configuration, a
    fault injector does nothing or fails with one of the configured
    errnos, and the latter only where its filter's path and methods match;
    it never panics. If the weights are not negative and their total fits
    in an [i32], the errno has a positive weight. *)
Theorem fault_injector_only_configured (conf : FaultsConfig) (fi : FaultInjector X)
    (method : Z) (path : string) (io : IO X) :
  fault_build conf = Done fi →
  (fault_inject fi method path io).1 = Done tt ∨
  ∃ err w, (err, w) ∈ config_faults conf ∧
    (fault_inject fi method path io).1 = Fail (Sys err) ∧
    match_path (fi_filter fi) path = true ∧ match_method (fi_filter fi) method = true ∧
    (weights_nonneg (config_faults conf) → total_weight (config_faults conf) < 2 ^ 31 →
     ∃ w', (err, w') ∈ config_faults conf ∧ 0 < w').
Proof.
  intros Hb. assert (errnos fi = config_faults conf) as He by (by injection Hb as <-).
  rewrite fault_inject_run, He. destruct (_ && _ && _) eqn:Hm; [|by left].
  apply andb_prop in Hm as [[Hm1 Hm2]%andb_prop _]. cbn [fst].
  destruct (fault_loop _ _) as [err|] eqn:Hf; [|by left]. right.
  destruct (fault_loop_listed _ _ _ Hf) as [w Hin]. exists err, w. split_and!; [done..|].
  intros Hw Hs. rewrite fault_build_eq in Hb by done. injection Hb as <-. cbn [sum] in Hf.
  destruct (gen_f64_unit (gen_f64 (world io)).2) as (k & Hk & Hg). rewrite Hg in Hf.
  pose proof (total_weight_nonneg _ Hw) as H0.
  destruct (decide (total_weight (config_faults conf) = 0)) as [Hz|Hne].
  - exfalso. rewrite Hz in Hf. change (f64_of_int 0) with (SpecFloat.S754_zero false) in Hf.
    assert (f64_to_i32 (f64_mul (unit_float k) (SpecFloat.S754_zero false)) = 0) as Hz0.
    { unfold f64_mul. destruct (unit_float_finite k Hk) as [[s ->]|(s & m & e & ->)]; done. }
    rewrite Hz0, fault_loop_zero in Hf; done.
  - pose proof (scaled_draw_range k _ Hk ltac:(split; [|exact Hs]; lia)) as Ha.
    destruct (fault_loop_spec (config_faults conf) _ Hw Hs Ha) as (l1 & err' & w' & l2 & Hl & Hr & Hf').
    rewrite Hf' in Hf. injection Hf as <-. exists w'. split; [|lia].
    rewrite Hl. apply elem_of_app. right. by left.
Qed.

End faults.
