(* ===== verification/Mistakes.v ===== *)
(** * What the mistake injector does to data

    [MistakeInjector::handle] on a buffer: it returns, keeps the length,
    and rewrites at most [max_occurrences * max_length] bytes. *)

From S2P Require Import Prelude Float Types External Concrete Filter Injectors.

#[local] Open Scope Z_scope.

(** The number of positions at which two buffers differ. *)
Fixpoint changed (d d' : list Z) : nat :=
  match d, d' with
  | x :: d, y :: d' => ((if bool_decide (x = y) then 0 else 1) + changed d d')%nat
  | _, _ => 0%nat
  end.

Lemma changed_refl d : changed d d = 0%nat.
Proof. induction d; simpl; [done|]. by rewrite bool_decide_eq_true_2. Qed.

Lemma changed_le d d' : (changed d d' ≤ length d)%nat.
Proof.
  revert d'. induction d as [|x d IH]; intros [|y d']; simpl; try lia.
  specialize (IH d'). case_bool_decide; lia.
Qed.

Lemma changed_app a b a' b' :
  length a = length a' → changed (a ++ b) (a' ++ b') = (changed a a' + changed b b')%nat.
Proof.
  revert a'. induction a as [|x a IH]; intros [|y a'] Hl; simpl in *; try lia.
  rewrite IH by lia. lia.
Qed.

Lemma changed_trans a b c :
  length a = length b → length b = length c →
  (changed a c ≤ changed a b + changed b c)%nat.
Proof.
  revert b c. induction a as [|x a IH]; intros [|y b] [|z c] H1 H2; simpl in *; try lia.
  specialize (IH b c). repeat case_bool_decide; simplify_eq; lia.
Qed.

(** [d'] is [d] with the slice [pos, pos + length mid) replaced. *)
Definition patch (pos : nat) (mid d : list Z) : list Z :=
  take pos d ++ mid ++ drop (pos + length mid) d.

Lemma length_patch pos mid d :
  (pos + length mid ≤ length d)%nat → length (patch pos mid d) = length d.
Proof. intros. unfold patch. rewrite !length_app, length_take, length_drop. lia. Qed.

Lemma changed_patch pos mid d :
  (pos + length mid ≤ length d)%nat → (changed d (patch pos mid d) ≤ length mid)%nat.
Proof.
  intros Hl. unfold patch. rewrite <- (take_drop pos d) at 1.
  rewrite changed_app by done. rewrite changed_refl.
  rewrite <- (take_drop (length mid) (drop pos d)) at 1.
  rewrite changed_app by (rewrite length_take, length_drop; lia).
  rewrite drop_drop, changed_refl.
  pose proof (changed_le (take (length mid) (drop pos d)) mid).
  rewrite length_take, length_drop in H. lia.
Qed.

Lemma lookup_patch pos mid d k :
  (pos + length mid ≤ length d)%nat →
  patch pos mid d !! k = d !! k ∨
  (∃ j, k = (pos + j)%nat ∧ (j < length mid)%nat ∧ patch pos mid d !! k = mid !! j).
Proof.
  intros Hl. unfold patch. destruct (decide (k < pos)%nat).
  - left. rewrite lookup_app_l by (rewrite length_take; lia). by rewrite lookup_take_lt.
  - rewrite lookup_app_r by (rewrite length_take; lia). rewrite length_take, Nat.min_l by lia.
    destruct (decide (k - pos < length mid)%nat).
    + right. exists (k - pos)%nat. rewrite lookup_app_l by done. split_and!; lia || done.
    + left. rewrite lookup_app_r by lia. rewrite lookup_drop. f_equal. lia.
Qed.

(** Inside the replaced slice a patched buffer holds [mid]. *)
Lemma lookup_patch_in pos mid d j :
  (pos + length mid ≤ length d)%nat → (j < length mid)%nat →
  patch pos mid d !! (pos + j)%nat = mid !! j.
Proof.
  intros Hl Hj. unfold patch. rewrite lookup_app_r by (rewrite length_take; lia).
  rewrite length_take, Nat.min_l, lookup_app_l by lia. f_equal. lia.
Qed.

Lemma zero_loop_patch n pos d :
  (pos + n ≤ length d)%nat →
  zero_loop n (Z.of_nat pos) d = Done (patch pos (replicate n 0) d).
Proof.
  revert pos d. induction n as [|n IH]; intros pos d Hl; cbn [zero_loop].
  - unfold patch. simpl. rewrite Nat.add_0_r. by rewrite take_drop.
  - destruct (Z.ltb_spec (Z.of_nat pos) (Z.of_nat (length d))); [|lia].
    replace (Z.of_nat pos + 1) with (Z.of_nat (S pos)) by lia. rewrite Nat2Z.id.
    rewrite IH by (rewrite length_insert; lia). f_equal. unfold patch.
    rewrite !length_replicate.
    rewrite (drop_insert_lt d (S pos + n) pos 0) by lia.
    assert (is_Some (d !! pos)) as [x Hx] by (apply lookup_lt_is_Some; lia).
    rewrite (take_S_r (<[pos:=0]> d) pos 0) by (apply list_lookup_insert_eq; lia).
    rewrite take_insert_ge by lia. rewrite <- app_assoc.
    by replace (pos + S n)%nat with (S pos + n)%nat by lia.
Qed.

Section mistakes.
Context `{X : Ext, !RandLaws X}.

Lemma rng_gen_range_ok lo hi (io : IO X) :
  lo < hi → ∃ z w, lo ≤ z < hi ∧
    rng_gen_range (E:=HookFsError) lo hi io = (Done z, set_world w io).
Proof.
  intros Hlt. unfold rng_gen_range. destruct (Z.ltb_spec lo hi); [|lia].
  pose proof (gen_range_in lo hi (world io) Hlt) as Hr.
  destruct (gen_range lo hi (world io)) as [z w]. eauto.
Qed.

(** A mistake: where it starts and the bytes it writes. In a buffer of
    length [n] it stays within the buffer and the configured length; it
    writes at least one byte if it may, and zeros for the [Zero] filling. *)
Definition slice (c : MistakeConfig) (n : nat) (m : nat * list Z) : Prop :=
  (m.1 + length m.2 ≤ n)%nat ∧ Z.of_nat (length m.2) ≤ max_length c ∧
  (filling c = Zero → m.2 = replicate (length m.2) 0) ∧
  (0 < max_length c → (0 < n)%nat → (0 < length m.2)%nat).

Lemma sabotage_patch c n (io : IO X) :
  0 ≤ max_length c → Z.of_nat n < 2 ^ 64 - 1 →
  ∃ m io', slice c n m ∧
    ∀ d, length d = n → sabotage c d io = (Done (patch m.1 m.2 d), io').
Proof.
  intros Hm Hd. unfold sabotage.
  destruct (rng_gen_range_ok 0 (Z.max (Z.of_nat n) 1) io) as (pos & w & Hp & Hr); [lia|].
  set (l := Z.min (max_length c) (as_u64 (Z.of_nat n - pos))).
  assert (l = Z.min (max_length c) (Z.of_nat n - pos) ∨ (l = 0 ∧ n = 0%nat)) as Hl.
  { unfold l. destruct n as [|n]; simpl in Hp |- *.
    - right. assert (pos = 0) as -> by lia. rewrite uwrap_id by (unfold in_u; lia). split; [lia|done].
    - left. rewrite uwrap_id by (unfold in_u; lia). done. }
  assert (∃ k w', (l = 0 ∧ k = 0 ∨ 1 ≤ k ≤ l) ∧
    (if l =? 0 then ret 0 else rng_gen_range (E:=HookFsError) 1 (as_u64 (l + 1))) (set_world w io)
      = (Done k, set_world w' io)) as (k & w' & Hk & Hlen).
  { destruct (Z.eqb_spec l 0) as [H0|H0]; [by exists 0, w; split; [left|]|].
    rewrite (uwrap_id 64 (l + 1)) by (unfold in_u; lia).
    destruct (rng_gen_range_ok 1 (l + 1) (set_world w io)) as (k & w' & Hk & Hr'); [lia|].
    exists k, w'. split; [right; lia|done]. }
  assert (0 ≤ k ∧ k ≤ max_length c ∧ pos + k ≤ Z.of_nat n) as (Hk0 & Hk1 & Hk2).
  { destruct Hl as [Hl|[Hl ->]]; simpl in *; lia. }
  assert (0 < max_length c → (0 < n)%nat → 0 < k) as Hpos by (intros; lia).
  destruct (filling c) eqn:Hf.
  - exists (Z.to_nat pos, replicate (Z.to_nat k) 0), (set_world w' io). split.
    + unfold slice. cbn [fst snd]. rewrite length_replicate. split_and!; [lia..|done|lia].
    + intros d <-. unfold bind at 1. rewrite Hr. fold l. unfold bind at 1. rewrite Hlen.
      pose proof (zero_loop_patch (Z.to_nat k) (Z.to_nat pos) d) as Hzl.
      rewrite Z2Nat.id in Hzl by lia. unfold lift. by rewrite Hzl by lia.
  - destruct (gen_bytes (Z.to_nat k) (world (set_world w' io))) as [bs w3] eqn:Hg.
    pose proof (gen_bytes_length (Z.to_nat k) (world (set_world w' io))) as Hb.
    rewrite Hg in Hb. simpl in Hb. exists (Z.to_nat pos, bs), (set_world w3 (set_world w' io)). split.
    + unfold slice. cbn [fst snd]. rewrite Hb, Hf. split_and!; [lia..|done|lia].
    + intros d <-. unfold bind at 1. rewrite Hr. fold l. unfold bind at 1. rewrite Hlen.
      unfold fill_slice. destruct (Z.leb_spec (pos + k) (Z.of_nat (length d))); [|lia].
      unfold bind, rng_fill. rewrite Hg. unfold patch, ret. cbn [fst snd]. rewrite Hb.
      by rewrite Z2Nat.inj_add by lia.
Qed.

(** The mistakes written one after the other, and the positions they
    cover. *)
Definition overlay (ms : list (nat * list Z)) (d : list Z) : list Z :=
  fold_left (λ d m, patch m.1 m.2 d) ms d.

Definition covered (ms : list (nat * list Z)) (k : nat) : bool :=
  existsb (λ m, (m.1 <=? k)%nat && (k <? m.1 + length m.2)%nat) ms.

Lemma sabotage_loop_overlay c k n (io : IO X) :
  0 ≤ max_length c → Z.of_nat n < 2 ^ 64 - 1 →
  ∃ ms io', length ms = k ∧ Forall (slice c n) ms ∧
    ∀ d, length d = n → sabotage_loop k c d io = (Done (overlay ms d), io').
Proof.
  intros Hm Hn. revert io. induction k as [|k IH]; intros io.
  - exists [], io. split_and!; [done|constructor|done].
  - destruct (sabotage_patch c n io Hm Hn) as (m & io1 & Hsl & Hs).
    destruct (IH io1) as (ms & io2 & Hk & Hms & Hl). exists (m :: ms), io2.
    split_and!; [simpl; lia|by constructor|]. intros d Hd. cbn [sabotage_loop]. unfold bind.
    rewrite (Hs d Hd). apply Hl. destruct Hsl. rewrite length_patch; lia.
Qed.

Lemma overlay_length c ms d : Forall (slice c (length d)) ms → length (overlay ms d) = length d.
Proof.
  intros H. remember (length d) as n eqn:Hn. revert d Hn.
  induction H as [|m ms [Hm _] H IH]; intros d Hn; [done|]. simpl. apply IH. rewrite length_patch; lia.
Qed.

(** What an overlay changes: [max_length] bytes per mistake at most, and
    none outside the positions covered. *)
Lemma overlay_changed c ms d :
  Forall (slice c (length d)) ms →
  Z.of_nat (changed d (overlay ms d)) ≤ Z.of_nat (length ms) * max_length c.
Proof.
  intros H. remember (length d) as n eqn:Hn. revert d Hn.
  induction H as [|m ms (Hm & Hlen & _) H IH]; intros d Hn.
  - simpl. rewrite changed_refl. lia.
  - assert (length (patch m.1 m.2 d) = n) as Hp by (rewrite length_patch; lia).
    specialize (IH (patch m.1 m.2 d) (eq_sym Hp)).
    pose proof (changed_patch m.1 m.2 d ltac:(lia)) as Hc.
    pose proof (overlay_length c ms (patch m.1 m.2 d)) as Hol. rewrite Hp in Hol. specialize (Hol H).
    pose proof (changed_trans d (patch m.1 m.2 d) (overlay ms (patch m.1 m.2 d))) as Ht.
    cbn [overlay fold_left length]. fold (overlay ms (patch m.1 m.2 d)). nia.
Qed.

Lemma overlay_lookup c ms d k :
  Forall (slice c (length d)) ms →
  (covered ms k = false → overlay ms d !! k = d !! k) ∧
  (filling c = Zero → covered ms k = true → overlay ms d !! k = Some 0).
Proof.
  intros H. remember (length d) as n eqn:Hn. revert d Hn.
  assert (∀ d, n = length d → (covered ms k = false → overlay ms d !! k = d !! k) ∧
    (filling c = Zero → covered ms k = true ∨ d !! k = Some 0 → overlay ms d !! k = Some 0)) as Hg.
  { induction H as [|m ms (Hm & _ & Hz & _) H IH]; intros d Hn; [by split; [|intros _ [?|?]]|].
    assert (n = length (patch m.1 m.2 d)) as Hp by (rewrite length_patch; lia).
    destruct (IH _ Hp) as [IH1 IH2]. cbn [overlay fold_left covered existsb].
    fold (overlay ms (patch m.1 m.2 d)) (covered ms k).
    destruct (lookup_patch m.1 m.2 d k ltac:(lia)) as [Hk|(j & Hj & Hlt & Hk)].
    - split.
      + intros [_ Hc]%orb_false_elim. by rewrite IH1.
      + intros Hf Hor. apply IH2; [done|]. rewrite Hk. destruct Hor as [Hor|?]; [|by right].
        apply orb_prop in Hor as [Hin|?]; [|by left]. right.
        apply andb_prop in Hin as [Hlo%Nat.leb_le Hhi%Nat.ltb_lt].
        pose proof (lookup_patch_in m.1 m.2 d (k - m.1) ltac:(lia) ltac:(lia)) as Hin.
        replace (m.1 + (k - m.1))%nat with k in Hin by lia. rewrite <- Hk, Hin, (Hz Hf).
        apply lookup_replicate_2. lia.
    - split.
      + intros [Hin _]%orb_false_elim. exfalso. apply andb_false_iff in Hin as [Hin|Hin].
        * apply Nat.leb_gt in Hin. lia.
        * apply Nat.ltb_ge in Hin. lia.
      + intros Hf _. apply IH2; [done|]. right. rewrite Hk, (Hz Hf). by apply lookup_replicate_2. }
  intros d Hn. destruct (Hg d Hn) as [H1 H2]. auto.
Qed.

(** C20: what a mistake injector does to a buffer, for lengths and a number
    of occurrences below [usize::MAX] (of which [mo + 1] would wrap): it
    does not fail or panic. It draws a list of mistakes that depends on
    the length of the buffer and not on its bytes: at most
    [max_occurrences] (and at least one, if that is not 0), each a slice of
    at most [max_length] bytes within the buffer (and of at least one, if
    neither is empty), all zeros for the [Zero] filling. The buffer is then
    the old one with the slices written over it: its length is kept, at
    most [max_occurrences * max_length] bytes differ, the bytes that no
    slice covers are the old ones, and for the [Zero] filling those that a
    slice covers are 0. *)
Theorem mistake_handle_damage (i : MistakeInjector X) (n : nat) (io : IO X) :
  let c := mistake i in
  0 ≤ max_length c → 0 ≤ max_occurrences c < 2 ^ 64 - 1 → Z.of_nat n < 2 ^ 64 - 1 →
  ∃ ms io', Forall (slice c n) ms ∧ Z.of_nat (length ms) ≤ max_occurrences c ∧
    (0 < max_occurrences c → ms ≠ []) ∧
    ∀ d, length d = n →
      handle i d io = (Done (overlay ms d), io') ∧ length (overlay ms d) = n ∧
      Z.of_nat (changed d (overlay ms d)) ≤ max_occurrences c * max_length c ∧
      ∀ k, (covered ms k = false → overlay ms d !! k = d !! k) ∧
           (filling c = Zero → covered ms k = true → overlay ms d !! k = Some 0).
Proof.
  intros c Hm Ho Hn.
  assert (∃ k w, 0 ≤ k ≤ max_occurrences c ∧ (0 < max_occurrences c → 0 < k) ∧
    (if max_occurrences c =? 0 then ret 0
     else rng_gen_range (E:=HookFsError) 1 (as_u64 (max_occurrences c + 1))) io
      = (Done k, set_world w io)) as (k & w & Hk & Hpos & Hr).
  { destruct (Z.eqb_spec (max_occurrences c) 0) as [->|H0].
    - exists 0, (world io). split_and!; [lia..|]. by destruct io.
    - rewrite uwrap_id by (unfold in_u; lia).
      destruct (rng_gen_range_ok 1 (max_occurrences c + 1) io) as (k & w & Hk & Hr); [lia|].
      exists k, w. split_and!; [lia..|done]. }
  destruct (sabotage_loop_overlay c (Z.to_nat k) n (set_world w io) Hm Hn) as (ms & io' & Hl & Hms & Hs).
  exists ms, io'. split_and!; [done|lia|intros H0 ->; simpl in Hl; lia|]. intros d Hd. split_and!.
  - unfold handle. fold c. unfold bind. rewrite Hr. by apply Hs.
  - rewrite (overlay_length c); [done|by rewrite Hd].
  - pose proof (overlay_changed c ms d) as Hc. rewrite Hd in Hc. specialize (Hc Hms). nia.
  - intros j. apply (overlay_lookup c). by rewrite Hd.
Qed.

End mistakes.

Definition demo_mistakes : MistakeInjector Demo :=
  mkMistakeInjector (mkMistakeConfig Zero 2 3) (mkFilter None Method.all (f64_of_int 1)).

(** Of the bytes 5, 6, 7, 8 at least one is overwritten with zero, and of
    1, 2, 3, 4 the same ones. *)
Lemma mistake_handle_damage_witness :
  ∃ d d' io' k, handle demo_mistakes [5; 6; 7; 8] (mkIO (X:=Demo) 1 []) = (Done d, io') ∧
    handle demo_mistakes [1; 2; 3; 4] (mkIO (X:=Demo) 1 []) = (Done d', io') ∧
    d !! k = Some 0 ∧ d' !! k = Some 0.
Proof.
  destruct (mistake_handle_damage demo_mistakes 4 (mkIO (X:=Demo) 1 []))
    as (ms & io' & Hms & _ & Hne & H); [simpl; lia..|].
  destruct ms as [|m ms]; [by destruct Hne|].
  apply Forall_cons in Hms as [(_ & _ & _ & Hpos) _].
  assert (covered (m :: ms) m.1 = true) as Hc.
  { unfold covered. simpl. rewrite Nat.leb_refl. simpl.
    assert ((m.1 <? m.1 + length m.2)%nat = true) as ->; [|reflexivity].
    apply Nat.ltb_lt. specialize (Hpos ltac:(simpl; lia) ltac:(lia)). lia. }
  destruct (H [5; 6; 7; 8] eq_refl) as (H1 & _ & _ & Hz1).
  destruct (H [1; 2; 3; 4] eq_refl) as (H2 & _ & _ & Hz2).
  exists (overlay (m :: ms) [5; 6; 7; 8]), (overlay (m :: ms) [1; 2; 3; 4]), io', m.1.
  split; [exact H1|]. split; [exact H2|]. split; [by apply Hz1|by apply Hz2].
Defined.
