(* ===== verification/FaultAbort.v ===== *)
(** * An injected error aborts the request

    Each request has one injection point: the method and the path with
    which its handler calls the injectors first. When an injector fails
    there, the request is answered with that error before any system
    call, and the file-system state is unchanged. *)

From S2P Require Import Prelude Path Float Types External Concrete Filter Injectors InodeMap.
From S2P Require Import HookFs FsImpl Dispatch Locks.

#[local] Open Scope Z_scope.
#[local] Open Scope string_scope.
#[local] Open Scope Z_scope.
#[local] Open Scope list_scope.

Section points.
Context `{X : Ext}.

Definition ino_point (h : HookFs X) (method ino : Z) : option (Z * string) :=
  match inode_get_path (inode_map h) ino with Done p => Some (method, p) | _ => None end.

Definition name_point (h : HookFs X) (method parent : Z) (name : string) : option (Z * string) :=
  match inode_get_path (inode_map h) parent with
  | Done p => Some (method, join p name)
  | _ => None
  end.

Definition fh_point (h : HookFs X) (method fh : Z) : option (Z * string) :=
  match fh_get (opened_files h) fh with
  | Done f => Some (method, file_original_path f)
  | _ => None
  end.

Definition dir_fh_point (h : HookFs X) (method fh : Z) : option (Z * string) :=
  match fh_get (opened_dirs h) fh with
  | Done d => Some (method, dir_original_path d)
  | _ => None
  end.

(** The injection point of a request, [None] for the requests that are
    never injected or whose inode or handle is unknown. *)
Definition injection_point (h : HookFs X) (op : FuseOp) : option (Z * string) :=
  match op with
  | OpLookup parent name => name_point h Method.LOOKUP parent name
  | OpGetattr ino => ino_point h Method.GETATTR ino
  | OpSetattr ino _ _ _ _ _ _ => ino_point h Method.SETATTR ino
  | OpReadlink ino => ino_point h Method.READLINK ino
  | OpMknod parent name _ _ _ => name_point h Method.MKNOD parent name
  | OpMkdir parent name _ _ => name_point h Method.MKDIR parent name
  | OpUnlink parent name => name_point h Method.UNLINK parent name
  | OpRmdir parent name => name_point h Method.RMDIR parent name
  | OpSymlink parent name _ => name_point h Method.SYMLINK parent name
  | OpRename parent name _ _ _ => name_point h Method.RENAME parent name
  | OpLink ino _ _ => ino_point h Method.LINK ino
  | OpOpen ino _ => ino_point h Method.OPEN ino
  | OpRead _ fh _ _ => fh_point h Method.READ fh
  | OpWrite _ fh _ _ => fh_point h Method.WRITE fh
  | OpFlush _ fh => fh_point h Method.FLUSH fh
  | OpFsync _ fh => fh_point h Method.FSYNC fh
  | OpOpendir ino _ => ino_point h Method.OPENDIR ino
  | OpReaddir _ fh _ => dir_fh_point h Method.READDIR fh
  | OpStatfs ino => ino_point h Method.STATFS ino
  | OpSetxattr ino _ _ _ => ino_point h Method.SETXATTR ino
  | OpGetxattr ino _ _ => ino_point h Method.GETXATTR ino
  | OpListxattr ino _ => ino_point h Method.LISTXATTR ino
  | OpRemovexattr ino _ => ino_point h Method.REMOVEXATTR ino
  | OpAccess ino _ => ino_point h Method.ACCESS ino
  | OpCreate parent name _ _ _ => name_point h Method.CREATE parent name
  | OpForget _ _ | OpRelease _ _ | OpReleasedir _ _ | OpFsyncdir _ _
  | OpGetlk | OpSetlk | OpBmap _ _ _ => None
  end.

(** ** The injectors do not look at the trace *)

Definition same_world (io1 io2 : IO X) : Prop := world io1 = world io2.

Lemma rng_gen_world {E} : agree same_world (rng_gen (E:=E)) rng_gen.
Proof.
  intros io1 io2 Hw. unfold rng_gen. rewrite Hw. by destruct (gen_f64 (world io2)).
Qed.

Lemma delay_for_world {E} n : agree same_world (delay_for (E:=E) n) (delay_for n).
Proof. by apply agree_modify. Qed.

Lemma filter_world {E} (f : Filter X) m p : agree same_world (filter (E:=E) f m p) (filter f m p).
Proof. apply agree_bind; [apply rng_gen_world|intros; apply agree_ret]. Qed.

Lemma inject_one_world (i : Injector X) m p :
  agree same_world (inject_one i m p) (inject_one i m p).
Proof.
  destruct i; cbn [inject_one]; unfold fault_inject, latency_inject; try apply agree_ret;
    (apply agree_bind; [apply filter_world|intros []; [|apply agree_ret]]).
  - apply agree_bind; [apply rng_gen_world|intros a].
    destruct (fault_loop _ _); [apply agree_fail|apply agree_ret].
  - apply delay_for_world.
Qed.

Lemma multi_inject_world (is_ : MultiInjector X) m p :
  agree same_world (multi_inject is_ m p) (multi_inject is_ m p).
Proof. apply agree_for_each. intros i. apply inject_one_world. Qed.

(** ** An error at the injection point *)

Definition no_call (e : event) : Prop := match e with ECall _ => False | _ => True end.

(** The state [s'] is [s] after events without a system call, in the
    world [w]. *)
Definition undone (w : World) (s s' : FsState X) : Prop :=
  hook s' = hook s ∧ world (fs_io s') = w ∧
  extends (Forall no_call) (trace (fs_io s)) (trace (fs_io s')).

Definition aborts {A} (e : HookFsError) (w : World) (m : M (FsState X) HookFsError A)
    (s : FsState X) : Prop :=
  ∃ s', m s = (Fail e, s') ∧ undone w s s'.

Lemma aborts_bind {A B} e w (m : M (FsState X) HookFsError A) (k : A → M (FsState X) HookFsError B) s :
  aborts e w m s → aborts e w (bind m k) s.
Proof. intros (s' & Hm & Hu). exists s'. unfold bind. by rewrite Hm. Qed.

Lemma undone_extends w s s1 s' :
  hook s1 = hook s → extends (Forall no_call) (trace (fs_io s)) (trace (fs_io s1)) →
  undone w s1 s' → undone w s s'.
Proof.
  intros Hh (e1 & Ht1 & Hf1) (Hh' & Hw & e2 & Ht2 & Hf2).
  split_and!; [congruence|done|]. exists (e1 ++ e2).
  split; [by rewrite app_assoc, <- Ht1|by apply Forall_app_2].
Qed.

(** What the injectors say at a path of the file system. *)
Definition injectors_fail (h : HookFs X) (m : Z) (path : string) (w : World)
    (e : HookFsError) (w' : World) : Prop :=
  enable_injection h = true ∧
  ∃ p, rebuild_path_of h path = Done p ∧
    (multi_inject (injector h) m p (mkIO w [])).1 = Fail e ∧
    world (multi_inject (injector h) m p (mkIO w [])).2 = w'.

Lemma inject_aborts m path s e w :
  injectors_fail (hook s) m path (world (fs_io s)) e w → aborts e w (inject m path) s.
Proof.
  intros (He & p & Hp & Hm & <-). unfold aborts, inject, bind at 1, gets at 1. rewrite He.
  unfold with_lock, bind, modify, finally, rebuild_path, bind, gets, lift.
  cbn [hook on_io]. rewrite Hp. unfold lift_io, zoom. cbn [fs_io].
  set (io1 := log (EAcquire InjectorLock Shared) (fs_io s)).
  pose proof (multi_inject_world (injector (hook s)) m p io1 (mkIO (world (fs_io s)) []) eq_refl)
    as [Ho Hw].
  pose proof (multi_inject_quiet (injector (hook s)) m p io1) as (evs & Ht & Hf).
  change (fs_io (on_io (log (EAcquire InjectorLock Shared)) s)) with io1.
  rewrite Hm in Ho. destruct (multi_inject _ m p io1) as [r io2]. simpl in Ho, Hw, Ht.
  subst r. eexists. split; [done|]. split_and!; [done|done|].
  exists (EAcquire InjectorLock Shared :: evs ++ [ERelease InjectorLock]). split.
  - simpl. rewrite Ht. by rewrite <- !app_assoc.
  - constructor; [done|]. apply Forall_app_2; [|by repeat constructor].
    eapply Forall_impl; [done|]. by intros [].
Qed.

(** The lookup before the injection: a guard is taken and dropped. *)
Lemma peek_aborts {A} l (look : HookFs X → outcome HookFsError A) m path
    (f : A → string) (s : FsState X) e w a :
  look (hook s) = Done a → path = f a →
  injectors_fail (hook s) m path (world (fs_io s)) e w →
  aborts e w
    (x <- with_lock l Shared (try (y <- gets (λ s, hook s) ;; lift (look y))) ;;
     match x with Some a => inject m (f a) | None => ret tt end) s.
Proof.
  intros Hl -> Hi.
  set (s1 := on_io (log (ERelease l)) (on_io (log (EAcquire l Shared)) s)).
  destruct (inject_aborts m (f a) s1 e w) as (s' & Hr & Hu); [done|].
  exists s'. split.
  - unfold with_lock, bind at 1, bind at 1, modify, finally, try, bind at 1, gets, lift.
    cbn [hook on_io]. rewrite Hl. apply Hr.
  - apply (undone_extends w s s1); [done| |done].
    exists [EAcquire l Shared; ERelease l]. split; [|by repeat constructor].
    unfold s1. simpl. by rewrite <- app_assoc.
Qed.

Lemma inject_with_ino_aborts m ino s e w m' path :
  ino_point (hook s) m ino = Some (m', path) →
  injectors_fail (hook s) m' path (world (fs_io s)) e w → aborts e w (inject_with_ino m ino) s.
Proof.
  unfold ino_point. intros Hp Hi. destruct (inode_get_path _ _) eqn:Hg; simplify_eq.
  by apply (peek_aborts InodeMapLock (λ h, inode_get_path (inode_map h) ino) _ path (λ p, p)
    s e w path).
Qed.

Lemma inject_with_name_aborts m parent name s e w m' path :
  name_point (hook s) m parent name = Some (m', path) →
  injectors_fail (hook s) m' path (world (fs_io s)) e w →
  aborts e w (inject_with_parent_and_name m parent name) s.
Proof.
  unfold name_point. intros Hp Hi. destruct (inode_get_path _ _) as [p| |] eqn:Hg; simplify_eq.
  by apply (peek_aborts InodeMapLock (λ h, inode_get_path (inode_map h) parent) _
    (join p name) (λ p, join p name) s e w p).
Qed.

Lemma inject_with_fh_aborts m fh s e w m' path :
  fh_point (hook s) m fh = Some (m', path) →
  injectors_fail (hook s) m' path (world (fs_io s)) e w → aborts e w (inject_with_fh m fh) s.
Proof.
  unfold fh_point. intros Hp Hi. destruct (fh_get _ _) as [f| |] eqn:Hg; simplify_eq.
  by apply (peek_aborts OpenedFilesLock (λ h, fh_get (opened_files h) fh) _ (file_original_path f)
    file_original_path s e w f).
Qed.

Lemma inject_with_dir_fh_aborts m fh s e w m' path :
  dir_fh_point (hook s) m fh = Some (m', path) →
  injectors_fail (hook s) m' path (world (fs_io s)) e w → aborts e w (inject_with_dir_fh m fh) s.
Proof.
  unfold dir_fh_point. intros Hp Hi. destruct (fh_get _ _) as [f| |] eqn:Hg; simplify_eq.
  by apply (peek_aborts OpenedDirsLock (λ h, fh_get (opened_dirs h) fh) _ (dir_original_path f)
    dir_original_path s e w f).
Qed.

Lemma spawn_reply_aborts {A} (ok : A → FuseReply) m s e w :
  aborts e w m s →
  ∃ s', AsyncFs.spawn_reply ok m s = (Some (RepError (into_c_int e)), s') ∧ undone w s s'.
Proof. intros (s' & Hm & Hu). exists s'. unfold AsyncFs.spawn_reply. by rewrite Hm. Qed.

(** C2: an injected error is the answer. If injection is enabled and the
    injectors fail with [e] at the injection point of a request, the
    request is answered with the errno of [e], no system call is made
    (only locks and the delays of other injectors) and the inode map, the
    handles and the configuration are as before. *)
Theorem injected_error_aborts_request req op (s : FsState X) m path e w :
  injection_point (hook s) op = Some (m, path) →
  injectors_fail (hook s) m path (world (fs_io s)) e w →
  ∃ s', serve req op s = (Some (RepError (into_c_int e)), s') ∧
    hook s' = hook s ∧ world (fs_io s') = w ∧
    ∃ evs, trace (fs_io s') = trace (fs_io s) ++ evs ∧ Forall no_call evs.
Proof.
  intros Hp Hi. change (∃ s', serve req op s = (Some (RepError (into_c_int e)), s') ∧ undone w s s').
  destruct op; cbn [injection_point serve] in *; try discriminate Hp; unfold_session;
    apply spawn_reply_aborts; unfold_handler; apply aborts_bind;
    eauto using inject_with_ino_aborts, inject_with_name_aborts, inject_with_fh_aborts,
      inject_with_dir_fh_aborts.
Qed.

End points.

(** A file system over "/d" mounted at "/m" whose injector fails every
    request with EIO. *)
Definition demo_fault : Injector Demo :=
  IFault {| fi_filter := mkFilter None Method.all (f64_of_int 1); errnos := [(5, 1)]; sum := 1 |}.

Definition demo_fs (i : MultiInjector Demo) (enabled : bool) : FsState Demo :=
  mkFs (set_enable enabled (hookfs_new "/m" "/d" i)) (mkIO (X:=Demo) 0 []).

Definition demo_req : Request := mkRequest 1 0 0.

Lemma injected_error_aborts_request_witness :
  ∃ s', serve demo_req (OpMkdir 1 "x" 0 0) (demo_fs [demo_fault] true) = (Some (RepError 5), s') ∧
    hook s' = hook (demo_fs [demo_fault] true).
Proof.
  destruct (injected_error_aborts_request demo_req (OpMkdir 1 "x" 0 0)
    (demo_fs [demo_fault] true) Method.MKDIR "/d/x" (Sys 5) 2) as (s' & Hs & Hh & _).
  - vm_compute. reflexivity.
  - split; [reflexivity|]. exists "/m/x". split_and!; vm_compute; reflexivity.
  - exists s'. split; assumption.
Defined.
