(* ===== verification/Rpc.v ===== *)
(** * The JSON-RPC interface

    [RpcImpl] of [src/jsonrpc.rs]: the status of the mount, which a client
    polls, and the update of the injectors of a running file system. *)

From S2P Require Import Prelude Path Float Types External Concrete Filter Injectors InodeMap.
From S2P Require Import HookFs FaultAbort.

#[local] Open Scope Z_scope.
#[local] Open Scope string_scope.

Inductive Comm := Shutdown.

(** [RpcImpl]: the status is fixed when the server starts; the file
    system is absent when the mount failed. *)
Record RpcImpl := mkRpcImpl {
  rpc_status : (AnyhowError + unit)%type;
  rpc_hookfs : bool
}.

Section rpc.
Context `{X : Ext}.

(** The shared state: the file system, what was sent on the channel to
    [main], and whether [main] still holds the receiver. *)
Record RpcState := mkRpcState {
  rpc_fs : FsState X;
  rpc_sent : list Comm;
  rpc_receiver : bool
}.

Abbreviation R A := (M RpcState AnyhowError A).

(** [tx.send(msg).expect(..)] *)
Definition rpc_send (c : Comm) : R unit := λ s,
  if rpc_receiver s then (Done tt, mkRpcState (rpc_fs s) (rpc_sent s ++ [c]) true)
  else (Panic, s).

Definition get_status (self : RpcImpl) (inst : string) : R string :=
  match rpc_status self with
  | inr _ => ret "ok"
  | inl e => rpc_send Shutdown ;;; ret e
  end.

(** [*hookfs.injector.write().await = injectors] *)
Definition install_injectors (i : MultiInjector X) : M (FsState X) HookFsError unit :=
  with_lock InjectorLock Exclusive (modify (on_hook (set_injector i))).

Definition update (self : RpcImpl) (config : list InjectorConfig) : R string :=
  match rpc_status self with
  | inl e => ret e
  | inr _ =>
      match multi_build config with
      | Fail e => ret e
      | Panic => panic
      | Done injectors =>
          if rpc_hookfs self then
            (λ s, let '(_, fs) := install_injectors injectors (rpc_fs s) in
                  (Done tt, mkRpcState fs (rpc_sent s) (rpc_receiver s))) ;;;
            ret "ok"
          else panic
      end
  end.

(** ** Properties *)

(** The injectors of a configuration are built one by one, in order. *)
Lemma multi_build_spec (config : list InjectorConfig) :
  ∃ i : MultiInjector X, multi_build config = Done i ∧
    Forall2 (λ c x, build_one c = Done x) config i.
Proof.
  induction config as [|c config (i & Hi & HF)]; [by exists []|].
  assert (∃ x : Injector X, build_one c = Done x) as [x Hx] by (destruct c; by eexists).
  exists (x :: i). cbn [multi_build]. rewrite Hx, Hi. by split; [|constructor].
Qed.

(** C27: an update. When the mount succeeded, an update answers "ok",
    replaces the injectors by those of the configuration (one per entry,
    in order) under the exclusive lock, and changes nothing else; when the
    mount failed it answers with the failure and changes nothing. *)
Theorem rpc_update_spec (self : RpcImpl) (config : list InjectorConfig) (s : RpcState) :
  match rpc_status self with
  | inl e => update self config s = (Done e, s)
  | inr _ =>
      rpc_hookfs self = true →
      ∃ i, Forall2 (λ c x, build_one c = Done x) config i ∧
      update self config s =
        (Done "ok",
         mkRpcState
           (mkFs (set_injector i (hook (rpc_fs s)))
              (log (ERelease InjectorLock)
                (log (EAcquire InjectorLock Exclusive) (fs_io (rpc_fs s)))))
           (rpc_sent s) (rpc_receiver s))
  end.
Proof.
  unfold update. destruct (rpc_status self) as [e|[]]; [done|]. intros Hh.
  destruct (multi_build_spec config) as (i & Hi & HF). exists i. split; [done|].
  by rewrite Hi, Hh.
Qed.

(** The status. A client that asks a healthy server gets "ok" and
    nothing is sent to [main]; after a failed mount it gets the failure
    and [main] is told to shut down, once per request. *)
Theorem rpc_get_status_spec (self : RpcImpl) (inst : string) (s : RpcState) :
  rpc_receiver s = true →
  get_status self inst s =
    match rpc_status self with
    | inr _ => (Done "ok", s)
    | inl e => (Done e, mkRpcState (rpc_fs s) (rpc_sent s ++ [Shutdown]) true)
    end.
Proof.
  intros Hr. unfold get_status, rpc_send, bind. destruct (rpc_status self); [|done].
  by rewrite Hr.
Qed.

End rpc.
Arguments RpcState X : clear implicits.

Definition demo_rpc : RpcState Demo := mkRpcState (demo_fs [] true) [] true.

Lemma rpc_update_spec_witness :
  ∃ i, (update (mkRpcImpl (inr tt) true)
     [CFault (mkFaultsConfig (mkFilterConfig None None 100) [mkFaultConfig 5 1])] demo_rpc).1
    = Done "ok" ∧
  length i = 1%nat ∧ injector (hook (rpc_fs (update (mkRpcImpl (inr tt) true)
     [CFault (mkFaultsConfig (mkFilterConfig None None 100) [mkFaultConfig 5 1])] demo_rpc).2)) = i.
Proof.
  destruct (rpc_update_spec (mkRpcImpl (inr tt) true)
    [CFault (mkFaultsConfig (mkFilterConfig None None 100) [mkFaultConfig 5 1])] demo_rpc eq_refl)
    as (i & HF & Hu).
  exists i. rewrite Hu. split; [reflexivity|]. split; [|reflexivity].
  symmetry. apply (Forall2_length _ _ _ HF).
Defined.

Lemma rpc_get_status_spec_witness :
  get_status (mkRpcImpl (inl "mount failed") false) "" demo_rpc =
    (Done "mount failed", mkRpcState (demo_fs [] true) [Shutdown] true).
Proof. apply (rpc_get_status_spec (mkRpcImpl (inl "mount failed") false) "" demo_rpc eq_refl). Defined.
