(* ===== verification/Deadlock.v ===== *)
(** * Interleavings of requests

    The tasks of the session and of the RPC server, interleaved at their
    lock operations over the fair [RwLock]s of tokio: no interleaving
    deadlocks, and every one comes to an end. *)

From S2P Require Import Prelude Path Float Types External Concrete Filter Injectors InodeMap HookFs.
From S2P Require Import FsImpl Dispatch Locks FaultAbort Rpc.

#[local] Open Scope Z_scope.

(** ** The locks

    [tokio::sync::RwLock] queues its waiters first in, first out. The one
    at the head gets the lock once its mode allows: a writer when nobody
    holds it, a reader when no writer does and fewer than [max_reads]
    readers do. A task that holds a lock is no exception for itself: if it
    asks for the lock again it waits like any other. *)

(** A task: the locks it holds, whether it waits for the lock it asks for
    next, and the events it has still to perform. *)
Record task := mkTask { held : list (lock * lock_mode); waiting : bool; todo : list event }.

Record lock_state := mkLocks { tasks : list task; queue : lock → list nat }.

Definition set_queue (l : lock) (q : list nat) (f : lock → list nat) : lock → list nat :=
  λ l', if decide (l' = l) then q else f l'.

(** The modes in which a lock is held. *)
Definition modes_of (l : lock) (t : task) : list lock_mode :=
  omap (λ p, if decide (p.1 = l) then Some p.2 else None) (held t).

Definition holders (l : lock) (ts : list task) : list lock_mode := ts ≫= modes_of l.

Definition is_shared (m : lock_mode) : bool := match m with Shared => true | Exclusive => false end.

(** Dropping the guard of a lock. *)
Fixpoint drop_guard_of (l : lock) (h : list (lock * lock_mode)) : list (lock * lock_mode) :=
  match h with
  | [] => []
  | p :: h => if decide (p.1 = l) then h else p :: drop_guard_of l h
  end.

Section steps.
Variable max_reads : nat.

Definition grants (m : lock_mode) (hs : list lock_mode) : bool :=
  match m with
  | Exclusive => (length hs =? 0)%nat
  | Shared => forallb is_shared hs && (length hs <? max_reads)%nat
  end.

Inductive lock_step : lock_state → lock_state → Prop :=
| StepAsk st i h l m evs :
    tasks st !! i = Some (mkTask h false (EAcquire l m :: evs)) →
    lock_step st (mkLocks (<[i := mkTask h true (EAcquire l m :: evs)]> (tasks st))
                    (set_queue l (queue st l ++ [i]) (queue st)))
| StepGrant st i q h l m evs :
    queue st l = i :: q →
    tasks st !! i = Some (mkTask h true (EAcquire l m :: evs)) →
    grants m (holders l (tasks st)) = true →
    lock_step st (mkLocks (<[i := mkTask ((l, m) :: h) false evs]> (tasks st))
                    (set_queue l q (queue st)))
| StepRelease st i h l evs :
    tasks st !! i = Some (mkTask h false (ERelease l :: evs)) →
    lock_step st (mkLocks (<[i := mkTask (drop_guard_of l h) false evs]> (tasks st)) (queue st))
| StepOther st i h e evs :
    tasks st !! i = Some (mkTask h false (e :: evs)) →
    (∀ l m, e ≠ EAcquire l m) → (∀ l, e ≠ ERelease l) →
    lock_step st (mkLocks (<[i := mkTask h false evs]> (tasks st)) (queue st)).

(** ** The invariant *)

(** A task is disciplined, and waits only for a lock it asks for next. *)
Definition well_behaved (t : task) : Prop :=
  scan (held t).*1 (todo t) = Some [] ∧
  (waiting t = true → ∃ l m evs, todo t = EAcquire l m :: evs).

(** The queues hold the waiting tasks, each once. *)
Definition queued (st : lock_state) : Prop :=
  ∀ l, NoDup (queue st l) ∧
    ∀ i, i ∈ queue st l ↔ ∃ t m evs, tasks st !! i = Some t ∧ waiting t = true ∧
      todo t = EAcquire l m :: evs.

Definition locks_inv (st : lock_state) : Prop :=
  Forall well_behaved (tasks st) ∧ queued st.

(** A step of one task that neither enters nor leaves a queue. *)
Lemma queued_insert st i t t' :
  tasks st !! i = Some t → waiting t = false → waiting t' = false → queued st →
  queued (mkLocks (<[i := t']> (tasks st)) (queue st)).
Proof.
  intros Hi Hw Hw' Hq l. destruct (Hq l) as [Hn He]. split; [done|]. intros j. cbn [queue tasks].
  rewrite He. destruct (decide (j = i)) as [->|Hne].
  - rewrite list_lookup_insert_eq by (by eapply lookup_lt_Some). split.
    + intros (u & m & evs & Hu & ? & ?). congruence.
    + intros (u & m & evs & [= <-] & ? & ?). congruence.
  - by rewrite list_lookup_insert_ne.
Qed.

(** Two descriptions of the task at one index that disagree. *)
Ltac other_task Hi :=
  let Ht := fresh in let Hw := fresh in let He := fresh in
  intros (? & ? & ? & Ht & Hw & He); rewrite ?Hi in Ht; injection Ht as <-; simpl in *; congruence.

Lemma drop_guard_head l m (h : list (lock * lock_mode)) : drop_guard_of l ((l, m) :: h) = h.
Proof. simpl. by rewrite decide_True. Qed.

Lemma lock_step_inv st st' : lock_step st st' → locks_inv st → locks_inv st'.
Proof.
  intros Hs [HF Hq].
  destruct Hs as [st i h l m evs Hi|st i q h l m evs Hl Hi Hg|st i h l evs Hi|st i h e evs Hi Ha Hr];
    pose proof (Forall_lookup_1 _ _ _ _ HF Hi) as [Hd Hw]; pose proof (lookup_lt_Some _ _ _ Hi) as Hlt;
    cbn [held todo waiting] in *; split; cbn [tasks].
  - apply Forall_insert; [done|]. split; [done|]. simpl. eauto.
  - intros l'. cbn [queue tasks]. unfold set_queue. destruct (Hq l') as [Hn He].
    case_decide as Hll; [subst l'|].
    + assert (i ∉ queue st l) as Hni by (rewrite He; other_task Hi).
      split; [apply NoDup_app; split; [done|]; split;
        [intros x Hx ->%list_elem_of_singleton; done|apply NoDup_singleton]|].
      intros j. rewrite elem_of_app, list_elem_of_singleton, He.
      destruct (decide (j = i)) as [->|Hne].
      * rewrite list_lookup_insert_eq by done. split; [intros _|by right].
        eexists _, m, evs. by split_and!.
      * rewrite list_lookup_insert_ne by done. intuition.
    + split; [done|]. intros j. rewrite He. destruct (decide (j = i)) as [->|Hne].
      * rewrite list_lookup_insert_eq by done. split.
        -- other_task Hi.
        -- other_task Hi.
      * by rewrite list_lookup_insert_ne.
  - apply Forall_insert; [done|]. split; [|done]. simpl in *.
    by destruct (forallb _ _).
  - intros l'. cbn [queue tasks]. unfold set_queue. destruct (Hq l') as [Hn He].
    case_decide as Hll; [subst l'|].
    + rewrite Hl in Hn, He. apply NoDup_cons in Hn as [Hni Hn]. split; [done|]. intros j.
      destruct (decide (j = i)) as [->|Hne].
      * rewrite list_lookup_insert_eq by done. split; [done|other_task Hi].
      * rewrite list_lookup_insert_ne, <- He by done. rewrite elem_of_cons. intuition.
    + split; [done|]. intros j. rewrite He. destruct (decide (j = i)) as [->|Hne].
      * rewrite list_lookup_insert_eq by done. split; other_task Hi.
      * by rewrite list_lookup_insert_ne.
  - apply Forall_insert; [done|]. split; [|done]. cbn [held todo]. simpl in Hd.
    destruct h as [|[l' m] h]; [done|]. simpl in Hd. case_decide as Heq; [|done]. subst l'.
    by rewrite drop_guard_head.
  - by eapply queued_insert.
  - apply Forall_insert; [done|]. split; [|done].
    cbn [held todo]. destruct e; [done|done|by edestruct Ha|by edestruct Hr].
  - by eapply queued_insert.
Qed.

Lemma lock_steps_inv st st' : rtc lock_step st st' → locks_inv st → locks_inv st'.
Proof. induction 1; eauto using lock_step_inv. Qed.

(** ** Progress *)

(** A task that asks for a lock wants one of higher rank than all it
    holds: in particular none of those it holds. *)
Lemma wanted_above t l m evs l' :
  well_behaved t → todo t = EAcquire l m :: evs → l' ∈ (held t).*1 → (rank l' < rank l)%nat.
Proof.
  intros [Hd _] Ht Hl'. rewrite Ht in Hd. simpl in Hd.
  destruct (forallb _ (held t).*1) eqn:Hf; [|done].
  rewrite forallb_forall in Hf. apply list_elem_of_In in Hl'. apply Nat.ltb_lt, Hf, Hl'.
Qed.

(** A task that holds a lock is not finished. *)
Lemma holder_unfinished t l : well_behaved t → l ∈ (held t).*1 → todo t ≠ [].
Proof.
  intros [Hd _] Hl Ht. rewrite Ht in Hd. simpl in Hd. injection Hd as Hd. rewrite Hd in Hl.
  by apply elem_of_nil in Hl.
Qed.

Hypothesis Hreads : (0 < max_reads)%nat.

(** A lock that is not granted has a holder. *)
Lemma not_granted_held m l ts :
  grants m (holders l ts) = false → ∃ j u, ts !! j = Some u ∧ l ∈ (held u).*1.
Proof.
  intros Hg. destruct (holders l ts) as [|m' hs] eqn:Hh.
  - exfalso. destruct m; simpl in Hg; [|done]. apply Nat.ltb_ge in Hg. lia.
  - assert (m' ∈ holders l ts) as Hin by (rewrite Hh; left).
    apply list_elem_of_bind in Hin as (u & Hm & Hu). apply list_elem_of_lookup in Hu as [j Hj].
    exists j, u. split; [done|]. apply list_elem_of_omap in Hm as ([l' m''] & Hp & Hd).
    case_decide; simplify_eq/=. apply list_elem_of_fmap. by exists (l, m').
Qed.

(** From any unfinished task, follow the chain of holders upwards. *)
Lemma some_task_steps st n :
  locks_inv st →
  ∀ i t, tasks st !! i = Some t → todo t ≠ [] →
  (∀ l m evs, todo t = EAcquire l m :: evs → (4 ≤ rank l + n)%nat) →
  ∃ st', lock_step st st'.
Proof.
  intros [HF Hq]. induction n as [|n IH]; intros i t Hi Ht Hn;
    destruct t as [h w evs]; simpl in Ht; destruct evs as [|e evs]; try done.
  all: pose proof (Forall_lookup_1 _ _ _ _ HF Hi) as [Hd Hw]; simpl in Hw.
  all: destruct e as [c|ns|l m|l];
    try (destruct w; [by destruct (Hw eq_refl) as (? & ? & ? & ?)|]; eexists;
         first [by eapply StepRelease|by eapply StepOther]).
  - specialize (Hn l m evs eq_refl). destruct l; simpl in Hn; lia.
  - destruct w; [|eexists; by eapply StepAsk].
    assert (i ∈ queue st l) as Hin by (apply Hq; by exists (mkTask h true (EAcquire l m :: evs)), m, evs).
    destruct (queue st l) as [|j q] eqn:Hl; [by apply elem_of_nil in Hin|].
    assert (∃ hj mj ej, tasks st !! j = Some (mkTask hj true (EAcquire l mj :: ej))) as (hj & mj & ej & Hj).
    { destruct (proj1 (proj2 (Hq l) j)) as ([hj wj tj] & mj & ej & Hj & Hwj & Htj); [rewrite Hl; left|].
      simpl in *. subst. eauto. }
    destruct (grants mj (holders l (tasks st))) eqn:Hg; [eexists; by eapply StepGrant|].
    apply not_granted_held in Hg as (k & u & Hk & Hu).
    pose proof (Forall_lookup_1 _ _ _ _ HF Hk) as Hwb.
    apply (IH k u Hk); [by eapply holder_unfinished|]. intros l' m' ev' Hu'.
    specialize (Hn l m evs eq_refl). pose proof (wanted_above u l' m' ev' l Hwb Hu' Hu). lia.
Qed.

(** ** An end *)

(** What is left to do: each event is a step, an acquisition two. *)
Definition work_of (t : task) : nat := (2 * length (todo t) - (if waiting t then 1 else 0))%nat.

Definition work (st : lock_state) : nat := sum_list_with work_of (tasks st).

Lemma work_insert ts i t t' :
  ts !! i = Some t → (work_of t' < work_of t)%nat →
  (sum_list_with work_of (<[i := t']> ts) < sum_list_with work_of ts)%nat.
Proof.
  revert i. induction ts as [|u ts IH]; intros [|i] Hi Hw; simplify_eq/=; [lia|].
  specialize (IH i Hi Hw). lia.
Qed.

Lemma lock_step_work st st' : lock_step st st' → (work st' < work st)%nat.
Proof.
  intros Hs. destruct Hs; unfold work; cbn [tasks];
    (eapply work_insert; [eassumption|]); unfold work_of; simpl; lia.
Qed.

End steps.

(** ** The requests of a session *)

(** A request of the kernel, or an update over RPC, and the state of the
    file system it works on. *)
Inductive job `{X : Ext} :=
| Serve (req : Request) (op : FuseOp) (s : FsState X)
| Update (i : MultiInjector X) (s : FsState X).

(** The events a job appends to the trace. *)
Definition job_task `{X : Ext} (j : job) : task :=
  mkTask [] false
    match j with
    | Serve req op s => drop (length (trace (fs_io s))) (trace (fs_io (serve req op s).2))
    | Update i s => drop (length (trace (fs_io s))) (trace (fs_io (install_injectors i s).2))
    end.

Definition start (ts : list task) : lock_state := mkLocks ts (λ _, []).

Lemma job_task_well_behaved `{X : Ext} (j : job) : well_behaved (job_task j).
Proof.
  split; [|done]. destruct j as [req op s|i s]; cbn [job_task held todo].
  - destruct (serve_disc req op s) as (evs & -> & Hk). rewrite drop_app_length. apply Hk.
  - assert (disc [] s (install_injectors i s).2) as (evs & -> & Hk).
    { revert s. change (evolves (disc []) (install_injectors i)). unfold install_injectors. disc. }
    rewrite drop_app_length. apply Hk.
Qed.

Lemma start_inv `{X : Ext} (js : list job) : locks_inv (start (job_task <$> js)).
Proof.
  split; [apply Forall_fmap, Forall_true, job_task_well_behaved|]. intros l. split; [constructor|].
  intros i. split; [by intros ?%elem_of_nil|]. intros (t & m & evs & Ht & Hw & _). simpl in Ht.
  rewrite list_lookup_fmap in Ht. by destruct (js !! i); simplify_eq/=.
Qed.

(** C4: no interleaving of requests deadlocks. Take any requests of the
    kernel and updates of the injectors, each with the lock operations its
    handler performs from some state of the file system, on locks with
    readers, writers and fair queues. Whatever the interleaving has done
    so far, if one of them is unfinished then some step is possible; and
    every step lowers a bound, so every interleaving ends, with all of
    them finished. *)
Theorem requests_never_deadlock `{X : Ext} max_reads (js : list job) st :
  (0 < max_reads)%nat →
  rtc (lock_step max_reads) (start (job_task <$> js)) st →
  ((∃ t, t ∈ tasks st ∧ todo t ≠ []) → ∃ st', lock_step max_reads st st') ∧
  (∀ st', lock_step max_reads st st' → (work st' < work st)%nat).
Proof.
  intros Hr Hsteps. split; [|intros; by eapply lock_step_work].
  intros (t & Ht & Hne). apply list_elem_of_lookup in Ht as [i Hi].
  eapply (some_task_steps max_reads Hr st 4); [|done..|intros; lia].
  eapply lock_steps_inv; [done|apply start_inv].
Qed.

(** A reader, a writer and an update of the injectors at their start. *)
Definition demo_jobs : list (job (X:=Demo)) :=
  [Serve demo_req (OpLookup 1 "x"%string) (demo_fs [] true);
   Serve demo_req (OpOpen 1 0) (demo_fs [] false); Update [] (demo_fs [] true)].

Lemma requests_never_deadlock_witness :
  ∃ st', lock_step 32 (start (job_task <$> demo_jobs)) st'.
Proof.
  apply (requests_never_deadlock 32 demo_jobs (start (job_task <$> demo_jobs))).
  - lia.
  - apply rtc_refl.
  - exists (job_task (Serve demo_req (OpLookup 1 "x"%string) (demo_fs [] true))). split; [left|].
    vm_compute. discriminate.
Defined.

(** A lock that is asked for while it is held does deadlock here. *)
Example reentrant_write_deadlocks st' :
  ¬ lock_step 32
      (mkLocks [mkTask [(InodeMapLock, Shared)] true [EAcquire InodeMapLock Exclusive]]
         (set_queue InodeMapLock [0%nat] (λ _, []))) st'.
Proof.
  intros Hs. inversion Hs as [? i ? ? ? ? Hi|? i ? ? ? ? ? Hq Hi Hg|? i ? ? ? Hi|? i ? ? ? Hi]; subst;
    simpl in *; destruct i as [|[|i]]; simplify_eq/=.
Qed.

(** Two readers hold a lock at once. *)
Example readers_share :
  ∃ st, rtc (lock_step 32) (start (replicate 2 (mkTask [] false [EAcquire InodeMapLock Shared]))) st ∧
    holders InodeMapLock (tasks st) = [Shared; Shared].
Proof.
  eexists. split.
  - eapply rtc_l; [eapply (StepAsk _ _ 0); reflexivity|].
    eapply rtc_l; [eapply (StepAsk _ _ 1); reflexivity|].
    eapply rtc_l; [eapply (StepGrant _ _ 0 [1%nat] [] InodeMapLock Shared []); reflexivity|].
    eapply rtc_l; [eapply (StepGrant _ _ 1 [] [] InodeMapLock Shared []); reflexivity|]. apply rtc_refl.
  - reflexivity.
Qed.
