(* ===== verification/Invariant.v ===== *)
(** * The invariant of the path maps

    Every path the file system remembers, in the inode map or behind a
    file or directory handle, lies under [original_path], and an inode
    never holds the same path twice. Every request keeps this, so a path
    can always be rebuilt under the mount point and an injector is never
    skipped or mistargeted by a [StripPrefixError]. *)

From S2P Require Import Prelude Path Float Types External Concrete Filter Injectors InodeMap.
From S2P Require Import HookFs FsImpl Dispatch Locks FaultAbort Rpc.

#[local] Open Scope string_scope.
#[local] Open Scope Z_scope.
#[local] Open Scope list_scope.

Definition under (orig p : string) : Prop := starts_with p orig = true.

Lemma under_refl orig : under orig orig.
Proof. apply starts_with_app. exists []. by rewrite app_nil_r. Qed.

Lemma under_join orig p n : plain_name n = true → under orig p → under orig (join p n).
Proof.
  unfold under. intros Hn Hp. apply starts_with_app in Hp as [rest Hp]. apply starts_with_app.
  exists (rest ++ [Normal n]). by rewrite components_join_name, Hp, app_assoc.
Qed.

(** ** The inode map *)

Definition node_ok (orig : string) (n : Node) : Prop :=
  Forall (under orig) (paths n) ∧ NoDup (components <$> paths n).

Definition map_ok (orig : string) (m : InodeMap) : Prop :=
  ∀ i n, m !! i = Some n → node_ok orig n.

Lemma node_insert_ok orig n p : node_ok orig n → under orig p → node_ok orig (node_insert n p).
Proof.
  intros [Hu Hd] Hp. unfold node_insert. destruct (existsb _ _) eqn:He; [done|].
  split; simpl; [by apply Forall_app_2; [|constructor]|].
  rewrite fmap_app. apply NoDup_app. split_and!; [done| |apply NoDup_singleton].
  intros c (q & -> & Hq)%list_elem_of_fmap Hc. apply list_elem_of_singleton in Hc.
  apply not_true_iff_false in He. apply He, existsb_exists.
  exists q. split; [by apply list_elem_of_In|]. by apply bool_decide_eq_true.
Qed.

Lemma node_remove_ok orig n p : node_ok orig n → node_ok orig (node_remove n p).
Proof.
  intros [Hu Hd]. split; simpl.
  - apply Forall_forall. intros q Hq. apply list_elem_of_In, filter_In in Hq as [Hq _].
    eapply Forall_forall in Hu; [done|]. by apply list_elem_of_In.
  - eapply sublist_NoDup; [done|]. apply fmap_sublist.
    clear. induction (paths n) as [|q l IH]; simpl; [constructor|].
    destruct (negb _); by constructor.
Qed.

Lemma node_default_ok orig : node_ok orig node_default.
Proof. split; constructor. Qed.

Lemma insert_path_ok orig m i p : map_ok orig m → under orig p → map_ok orig (insert_path m i p).
Proof.
  intros Hm Hp j n. unfold insert_path. rewrite lookup_insert_Some. intros [[<- <-]|[_ Hj]].
  - apply node_insert_ok; [|done]. destruct (m !! i) eqn:Hi; [by eapply Hm|apply node_default_ok].
  - by eapply Hm.
Qed.

Lemma remove_path_ok orig m i p : map_ok orig m → map_ok orig (remove_path m i p).
Proof.
  intros Hm j n. unfold remove_path. destruct (m !! i) eqn:Hi; [|by apply Hm].
  rewrite lookup_insert_Some. intros [[<- <-]|[_ Hj]]; [|by eapply Hm].
  by apply node_remove_ok, (Hm i).
Qed.

Lemma increase_ref_ok orig m i : map_ok orig m → map_ok orig (increase_ref m i).
Proof.
  intros Hm j n. unfold increase_ref. destruct (m !! i) eqn:Hi; [|by apply Hm].
  rewrite lookup_insert_Some. intros [[<- <-]|[_ Hj]]; [|by eapply Hm]. exact (Hm i _ Hi).
Qed.

Lemma decrease_ref_ok orig m i k : map_ok orig m → map_ok orig (decrease_ref m i k).
Proof.
  intros Hm j n. unfold decrease_ref. destruct (m !! i) eqn:Hi; [|by apply Hm].
  destruct (_ <=? _); [|by apply Hm]. rewrite lookup_delete_Some. intros [_ ?]. by eapply Hm.
Qed.

Lemma inode_get_path_ok orig m i p :
  map_ok orig m → inode_get_path m i = Done p → under orig p.
Proof.
  intros Hm. unfold inode_get_path, node_get_path.
  destruct (m !! i) as [n|] eqn:Hi; [|done]. simpl.
  destruct (last (paths n)) as [q|] eqn:Hl; [|done]. intros [= <-].
  apply last_Some in Hl as [l Hl]. destruct (Hm i n Hi) as [Hu _]. rewrite Hl in Hu.
  by apply Forall_app in Hu as [_ [Hu _]%Forall_cons].
Qed.

#[export] Hint Resolve insert_path_ok remove_path_ok increase_ref_ok decrease_ref_ok
  under_join under_refl : toda.

(** ** The state *)

Section invariant.
Context `{X : Ext, !SlabLaws X} (mount orig : string).

Definition configured (h : HookFs X) : Prop := mount_path h = mount ∧ original_path h = orig.

Definition files_ok (m : Slab File) : Prop :=
  ∀ k f, slab_get k m = Some f → under orig (file_original_path f).

Definition dirs_ok (m : Slab Dir) : Prop :=
  ∀ k d, slab_get k m = Some d → under orig (dir_original_path d).

Definition fs_ok (s : FsState X) : Prop :=
  configured (hook s) ∧ map_ok orig (inode_map (hook s)) ∧
  files_ok (opened_files (hook s)) ∧ dirs_ok (opened_dirs (hook s)).

Abbreviation H A := (M (FsState X) HookFsError A).

(** Statements that leave the file system as it is. *)
Definition frozen (s s' : FsState X) : Prop := hook s' = hook s.

#[export] Instance frozen_preorder : PreOrder frozen.
Proof. split; [done|intros ??? H1 H2; unfold frozen in *; congruence]. Qed.

Lemma frozen_keeps {A} (m : H A) : evolves frozen m → keeps fs_ok m (λ _, True).
Proof. intros Hm s Hs. split; [|done]. unfold fs_ok. by rewrite (Hm s). Qed.

Lemma frozen_lift_io {A} (m : M (IO X) HookFsError A) : evolves frozen (lift_io m).
Proof. intros s. unfold lift_io, zoom. by destruct (m (fs_io s)). Qed.

Lemma frozen_with_lock {A} l md (m : H A) : evolves frozen m → evolves frozen (with_lock l md m).
Proof.
  intros Hm s. unfold with_lock, bind, modify, finally.
  specialize (Hm (on_io (log (EAcquire l md)) s)). by destruct (m _).
Qed.

Lemma frozen_spawn_blocking {A} (m : H A) : evolves frozen m → evolves frozen (spawn_blocking m).
Proof. intros Hm s. specialize (Hm s). unfold spawn_blocking. by destruct (m s) as [[]]. Qed.

Lemma keeps_with_lock {A} l md (m : H A) Q :
  keeps fs_ok m Q → keeps fs_ok (with_lock l md m) Q.
Proof.
  intros Hm. apply (keeps_bind _ _ _ (λ _, True)); [by apply keeps_modify|intros _ _].
  by apply keeps_finally.
Qed.

Lemma get_path_keeps i : keeps fs_ok (get_path i) (under orig).
Proof.
  apply (keeps_bind _ _ _ (map_ok orig)); [apply keeps_gets; by intros s (_ & ? & _)|].
  intros m Hm. apply keeps_lift. intros p. by apply inode_get_path_ok.
Qed.

Lemma update_inode_map_keeps f :
  (∀ m, map_ok orig m → map_ok orig (f m)) → keeps fs_ok (update_inode_map f) (λ _, True).
Proof. intros Hf. apply keeps_modify; [|done]. intros s (? & ? & ? & ?). split_and!; simpl; auto. Qed.

Lemma remember_path_keeps i p : under orig p → keeps fs_ok (remember_path i p) (λ _, True).
Proof.
  intros Hp. apply (keeps_bind _ _ _ (λ _, True)); [|intros _ _];
    apply update_inode_map_keeps; auto with toda.
Qed.

Lemma insert_file_keeps f :
  under orig (file_original_path f) → keeps fs_ok (insert_file f) (λ _, True).
Proof.
  intros Hf. apply keeps_with_lock, (keeps_bind _ _ _ files_ok);
    [apply keeps_gets; by intros s (_ & _ & ? & _)|].
  intros m Hm. destruct (slab_insert f m) as [k m'] eqn:Hi.
  apply (keeps_bind _ _ _ (λ _, True)); [|intros _ _; by apply keeps_ret].
  apply keeps_modify; [|done]. intros s (? & ? & ? & ?). split_and!; simpl; [done..| |done].
  intros j g Hj. change m' with (k, m').2 in Hj. rewrite <- Hi, slab_insert_get in Hj.
  case_bool_decide; simplify_eq; [done|by eapply Hm].
Qed.

Lemma insert_dir_keeps d :
  under orig (dir_original_path d) → keeps fs_ok (insert_dir d) (λ _, True).
Proof.
  intros Hf. apply keeps_with_lock, (keeps_bind _ _ _ dirs_ok);
    [apply keeps_gets; by intros s (_ & _ & _ & ?)|].
  intros m Hm. destruct (slab_insert d m) as [k m'] eqn:Hi.
  apply (keeps_bind _ _ _ (λ _, True)); [|intros _ _; by apply keeps_ret].
  apply keeps_modify; [|done]. intros s (? & ? & ? & ?). split_and!; simpl; [done..|].
  intros j g Hj. change m' with (k, m').2 in Hj. rewrite <- Hi, slab_insert_get in Hj.
  case_bool_decide; simplify_eq; [done|by eapply Hm].
Qed.

(** What is left in a slab was there before. *)
Lemma slab_remove_sub {A} k (m m' : Slab A) x j y :
  slab_remove k m = Some (x, m') → slab_get j m' = Some y → slab_get j m = Some y.
Proof.
  intros Hr Hj. pose proof (slab_remove_get A k m) as Hl.
  destruct (slab_get k m) as [z|] eqn:Hg; [|by rewrite Hr in Hl].
  destruct Hl as (m'' & Hr' & Hl). rewrite Hr in Hr'. simplify_eq. rewrite Hl in Hj.
  by case_bool_decide.
Qed.

End invariant.

#[export] Hint Resolve frozen_lift_io : toda.

(** Running a statement that does not touch the file system. *)
Ltac freeze :=
  repeat match goal with
  | |- evolves _ (with_lock _ _ _) => apply frozen_with_lock
  | |- evolves _ (spawn_blocking _) => apply frozen_spawn_blocking
  | |- evolves _ (try _) => apply evolves_try
  | |- evolves _ (call _) => apply frozen_lift_io
  | |- _ => evolve_step
  end.

Section frozen_helpers.
Context `{X : Ext}.

Lemma rebuild_path_frozen p : evolves frozen (rebuild_path (X:=X) p).
Proof. unfold rebuild_path. freeze. Qed.

Lemma inject_frozen m p : evolves frozen (inject (X:=X) m p).
Proof. unfold inject, rebuild_path. freeze. Qed.

Lemma inject_attr_frozen a p : evolves frozen (inject_attr (X:=X) a p).
Proof. unfold inject_attr, rebuild_path. freeze. Qed.

Lemma inject_reply_as_frozen {R} w u m p (r : R) :
  evolves frozen (inject_reply_as (X:=X) w u m p r).
Proof. unfold inject_reply_as, inject_reply, rebuild_path. freeze. Qed.

Lemma nix_call_frozen {A} c (f : sys_ret c → nix_result A) : evolves frozen (nix_call (X:=X) c f).
Proof. unfold nix_call. freeze. Qed.

Lemma libc_check_frozen bad r : evolves frozen (libc_check (X:=X) bad r).
Proof. unfold libc_check. freeze. Qed.

Lemma cstring_frozen s : evolves frozen (cstring (X:=X) s).
Proof. unfold cstring. freeze. Qed.

Lemma get_file_attr_frozen p : evolves frozen (get_file_attr (X:=X) p).
Proof.
  unfold get_file_attr, async_stat.
  apply evolves_bind; [apply _|apply nix_call_frozen|intros st].
  apply evolves_bind; [apply _|apply evolves_lift, _|intros a; apply inject_attr_frozen].
Qed.

Lemma readdir_loop_frozen n es r : evolves frozen (Handlers.readdir_loop (X:=X) n es r).
Proof.
  revert n r. induction es as [|e es IH]; intros n r; cbn [Handlers.readdir_loop]; freeze.
Qed.

End frozen_helpers.

#[export] Hint Resolve rebuild_path_frozen inject_frozen inject_attr_frozen inject_reply_as_frozen nix_call_frozen
  libc_check_frozen cstring_frozen get_file_attr_frozen readdir_loop_frozen : toda.

(** Running a handler that keeps the invariant. *)
Ltac keeping :=
  repeat match goal with
  | |- keeps _ (bind (get_path _) _) _ =>
      eapply keeps_bind; [apply get_path_keeps|intros ? ?]
  | |- keeps _ (with_lock _ _ _) _ => apply keeps_with_lock
  | |- keeps _ (remember_path _ _) _ => apply remember_path_keeps; auto with toda
  | |- keeps _ (modify (on_hook _)) _ =>
      apply keeps_modify; [intros ? (? & ? & ? & ?); split_and!; simpl; auto with toda|done]
  | |- keeps _ (insert_file _) _ => apply insert_file_keeps; simpl; auto with toda
  | |- keeps _ (insert_dir _) _ => apply insert_dir_keeps; simpl; auto with toda
  | |- keeps _ _ (λ _, True) => apply frozen_keeps; solve [freeze]
  | |- keeps _ (bind _ _) _ => apply (keeps_bind _ _ _ (λ _, True)); [|intros ? _]
  end.

(** The kernel passes names of one component. *)
Definition plain_op (op : FuseOp) : bool :=
  match op with
  | OpLookup _ name | OpMknod _ name _ _ _ | OpMkdir _ name _ _ | OpUnlink _ name
  | OpRmdir _ name | OpSymlink _ name _ | OpLink _ _ name | OpCreate _ name _ _ _ =>
      plain_name name
  | OpRename _ name _ newname _ => plain_name name && plain_name newname
  | _ => true
  end.

Section handlers_keep.
Context `{X : Ext, !SlabLaws X} (mount orig : string).
Abbreviation ok := (fs_ok mount orig).

Lemma release_keeps fh : keeps ok (Handlers.release (X:=X) fh) (λ _, True).
Proof.
  unfold Handlers.release, async_close. apply keeps_with_lock.
  apply (keeps_bind _ _ _ (λ _, True)); [apply frozen_keeps; freeze|intros f _].
  apply (keeps_bind _ _ _ (λ _, True)); [apply frozen_keeps; freeze|intros _ _].
  apply (keeps_bind _ _ _ (files_ok orig)); [apply keeps_gets; by intros s (_ & _ & ? & _)|].
  intros m Hm. destruct (slab_remove fh m) as [[f' m']|] eqn:Hr; [|apply keeps_panic].
  apply keeps_modify; [|done]. intros s (? & ? & ? & ?). split_and!; simpl; [done..| |done].
  intros k g Hg. eapply (Hm k), slab_remove_sub; done.
Qed.

Lemma releasedir_keeps fh : keeps ok (Handlers.releasedir (X:=X) fh) (λ _, True).
Proof.
  unfold Handlers.releasedir. apply keeps_with_lock.
  apply (keeps_bind _ _ _ (dirs_ok orig)); [apply keeps_gets; by intros s (_ & _ & _ & ?)|].
  intros m Hm. destruct (slab_remove fh m) as [[d m']|] eqn:Hr; [|apply keeps_panic].
  apply (keeps_bind _ _ _ (λ _, True)); [|intros _ _; apply frozen_keeps; freeze].
  apply keeps_modify; [|done]. intros s (? & ? & ? & ?). split_and!; simpl; [done..|].
  intros k g Hg. eapply (Hm k), slab_remove_sub; done.
Qed.

Lemma serve_keeps req op (s : FsState X) :
  plain_op op = true → ok s → ok (serve req op s).2.
Proof.
  intros Hp Hs.
  assert (∀ A (rep : A → FuseReply) (m : M (FsState X) HookFsError A),
    keeps ok m (λ _, True) → ok (AsyncFs.spawn_reply rep m s).2) as Hsp.
  { intros A rep m Hm. destruct (Hm s Hs) as [Hk _]. unfold AsyncFs.spawn_reply. by destruct (m s). }
  assert (∀ (m : M (FsState X) HookFsError unit),
    keeps ok m (λ _, True) → ok (None (A:=FuseReply), (m s).2).2) as Hfg
    by (intros m Hm; by apply (Hm s)).
  destruct op; cbn [serve plain_op] in *; unfold_session; first [apply Hsp|apply Hfg|done];
    try apply release_keeps; try apply releasedir_keeps;
    try match type of Hp with
        | plain_name _ && plain_name _ = true => apply andb_prop in Hp as [Hp1 Hp2]
        end;
    unfold_handler; autounfold with toda_unfold; keeping.
Qed.

End handlers_keep.

(** ** Runs of the file system

    A run starts from a new file system and takes any sequence of
    requests, switches of the injection flag, updates of the injectors
    over JSON-RPC, and changes of the outside world by others. *)
Section runs.
Context `{X : Ext}.

Inductive fs_step : FsState X → FsState X → Prop :=
| StepServe req op s : plain_op op = true → fs_step s (serve req op s).2
| StepEnable b s : fs_step s (on_hook (set_enable b) s)
| StepUpdate self config s sent rx :
    fs_step s (rpc_fs (update self config (mkRpcState s sent rx)).2)
| StepOutside w s : fs_step s (on_io (set_world w) s).

Definition reachable (mount orig : string) (i : MultiInjector X) (s : FsState X) : Prop :=
  ∃ io, rtc fs_step (mkFs (hookfs_new mount orig i) io) s.

Context `{!SlabLaws X}.

Lemma hookfs_new_ok mount orig i io : fs_ok mount orig (mkFs (hookfs_new mount orig i) io).
Proof.
  split_and!; [done| | |].
  - apply insert_path_ok; [|apply under_refl]. by intros j n.
  - intros k f. simpl. by rewrite slab_get_new.
  - intros k f. simpl. by rewrite slab_get_new.
Qed.

Lemma fs_step_ok mount orig s s' : fs_step s s' → fs_ok mount orig s → fs_ok mount orig s'.
Proof.
  destruct 1 as [req op s Hp|b s|self config s sent rx|w s]; try done.
  - by apply serve_keeps.
  - unfold update. destruct (multi_build_spec (X:=X) config) as (i & -> & _).
    by destruct (rpc_status self), (rpc_hookfs self).
Qed.

Lemma reachable_ok mount orig i s : reachable mount orig i s → fs_ok mount orig s.
Proof.
  intros [io Hr]. pose proof (hookfs_new_ok mount orig i io) as H0.
  induction Hr; eauto using fs_step_ok.
Qed.

(** C7: the inode map and the handles stay inside the hooked tree. In
    every reachable state each remembered path, of an inode, a file handle
    or a directory handle, starts with [original_path]; no inode holds two
    paths with the same components; and the two roots never change. *)
Theorem reachable_paths_contained mount orig i s : reachable mount orig i s → fs_ok mount orig s.
Proof. apply reachable_ok. Qed.

Lemma rebuild_path_under mount orig (h : HookFs X) path :
  configured mount orig h → components orig ≠ [] → under orig path →
  ∃ p rest, rebuild_path_of h path = Done p ∧
    components path = components orig ++ rest ∧ components p = components mount ++ rest.
Proof.
  intros [Hm Ho] Hne Hu. unfold rebuild_path_of. rewrite Hm, Ho.
  apply strip_prefix_is_some in Hu as [t Ht]. rewrite Ht.
  destruct (strip_prefix_components path orig t Hne Ht) as [Hst Hc].
  exists (join mount t), (components t). split_and!; [done|done|]. by apply components_join.
Qed.

Lemma injection_point_under mount orig op s m path :
  fs_ok mount orig s → plain_op op = true →
  injection_point (hook s) op = Some (m, path) → under orig path.
Proof.
  intros (_ & Hmap & Hf & Hd) Hp.
  destruct op; cbn [injection_point plain_op] in *;
    unfold ino_point, name_point, fh_point, dir_fh_point, fh_get; repeat case_match; intros;
    simplify_eq;
    try match type of Hp with
        | plain_name _ && plain_name _ = true => apply andb_prop in Hp as [Hp _]
        end;
    eauto using under_join, inode_get_path_ok.
Qed.

(** C12: the injectors always see the right path. In every reachable state,
    the path of a request's injection point is rebuilt without error, and
    the path handed to the injectors is the original one with the
    components of [original_path] replaced by those of the mount point. *)
Theorem injection_path_rebuilt mount orig i s op m path :
  reachable mount orig i s → components orig ≠ [] → plain_op op = true →
  injection_point (hook s) op = Some (m, path) →
  ∃ p rest, rebuild_path_of (hook s) path = Done p ∧
    components path = components orig ++ rest ∧ components p = components mount ++ rest.
Proof.
  intros Hok%reachable_ok Hne Hp Hi.
  apply rebuild_path_under; [apply Hok|done|]. by eapply injection_point_under.
Qed.

End runs.

Definition demo_ops : FsState Demo :=
  (serve demo_req (OpMkdir 1 "x" 493 0) (demo_fs [] false)).2.

Lemma demo_ops_reachable : reachable "/m" "/d" ([] : MultiInjector Demo) demo_ops.
Proof. exists (mkIO (X:=Demo) 0 []). eapply rtc_once, (StepServe demo_req (OpMkdir 1 "x" 493 0)). reflexivity. Defined.

Lemma reachable_paths_contained_witness : fs_ok "/m" "/d" demo_ops.
Proof. apply (reachable_paths_contained "/m" "/d" [] demo_ops demo_ops_reachable). Defined.

(** The new directory "/d/x" has inode 4; a file created in it is seen by
    the injectors as "/m/x/f". *)
Lemma injection_path_rebuilt_witness :
  injection_point (hook demo_ops) (OpCreate 4 "f" 420 0 0) = Some (Method.CREATE, "/d/x/f") ∧
  ∃ p rest, rebuild_path_of (hook demo_ops) "/d/x/f" = Done p ∧
    components "/d/x/f" = components "/d" ++ rest ∧ components p = components "/m" ++ rest.
Proof.
  split; [vm_compute; reflexivity|].
  apply (injection_path_rebuilt "/m" "/d" [] demo_ops (OpCreate 4 "f" 420 0 0) Method.CREATE
    "/d/x/f" demo_ops_reachable); [discriminate|reflexivity|vm_compute; reflexivity].
Defined.
