(* ===== verification/Entries.v ===== *)
(** * Replies that name an inode

    The kernel may use every inode number the file system gives it: the
    number of an entry reply is in the inode map, with the path that was
    looked up or created. *)

From S2P Require Import Prelude Path Float Types External Concrete Filter Injectors InodeMap.
From S2P Require Import HookFs FsImpl Dispatch Locks FaultAbort Rpc Invariant.

#[local] Open Scope string_scope.
#[local] Open Scope Z_scope.
#[local] Open Scope list_scope.

(** [ensures m s Q]: if [m] returns from [s], its value and last state
    satisfy [Q]. *)
Definition ensures {S E A} (m : M S E A) (s : S) (Q : A → S → Prop) : Prop :=
  ∀ a s', m s = (Done a, s') → Q a s'.

Lemma ensures_bind {S E A B} (m : M S E A) (k : A → M S E B) s Q :
  (∀ a s1, m s = (Done a, s1) → ensures (k a) s1 Q) → ensures (bind m k) s Q.
Proof.
  intros Hk b s'. unfold bind. destruct (m s) as [[a|e|] s1] eqn:Hm; [|done..]. by apply Hk.
Qed.

Section entries.
Context `{X : Ext}.
Abbreviation H A := (M (FsState X) HookFsError A).

(** A statement that does not touch the file system. *)
Lemma ensures_frozen {A B} (m : H A) (k : A → H B) s Q :
  evolves frozen m → (∀ a s1, hook s1 = hook s → ensures (k a) s1 Q) → ensures (bind m k) s Q.
Proof.
  intros Hm Hk. apply ensures_bind. intros a s1 Hr. apply Hk.
  specialize (Hm s). by rewrite Hr in Hm.
Qed.

Lemma ensures_with_lock {A} l md (m : H A) s (Q : A → HookFs X → Prop) :
  (∀ s1, hook s1 = hook s → ensures m s1 (λ a s', Q a (hook s'))) →
  ensures (with_lock l md m) s (λ a s', Q a (hook s')).
Proof.
  intros Hm a s'. unfold with_lock, bind, modify, finally.
  specialize (Hm (on_io (log (EAcquire l md)) s) eq_refl).
  destruct (m _) as [r s1] eqn:Hr. intros [= -> <-]. exact (Hm a s1 Hr).
Qed.

Lemma get_path_ensures {B} i (k : string → H B) s Q :
  (∀ p, inode_get_path (inode_map (hook s)) i = Done p → ensures (k p) s Q) →
  ensures (bind (get_path i) k) s Q.
Proof.
  intros Hk. apply ensures_bind. intros p s1. unfold get_path, bind, gets, lift.
  intros [= Hp <-]. by apply Hk.
Qed.

(** Only data is sabotaged. *)
Lemma multi_inject_reply_other (is_ : MultiInjector X) m p r io :
  (∀ d, r ≠ RData d) → ensures (multi_inject_reply is_ m p r) io (λ r' _, r' = r).
Proof.
  intros Hr. revert io. induction is_ as [|i is_ IH]; intros io; cbn [multi_inject_reply].
  { by intros ? ? [= <- <-]. }
  apply ensures_bind. intros r' io'. destruct i as [| | |mi]; cbn [inject_reply_one];
    try (intros [= <- <-]; apply IH).
  intros Hm. assert (r' = r) as ->; [|apply IH].
  revert Hm. unfold mistake_inject_reply, filter, rng_gen. do 2 unfold bind at 1. unfold ret.
  destruct (gen_f64 (world io)) as [q w]. destruct (_ && f64_ltb q _).
  - destruct r; try (intros [= <- _]; done). exfalso. by eapply Hr.
  - intros Heq. by injection Heq.
Qed.

Lemma inject_reply_as_ensures {R} (wrap : R → Reply) unwrap m p (r : R) s :
  unwrap (wrap r) = Some r → (∀ d, wrap r ≠ RData d) →
  ensures (inject_reply_as wrap unwrap m p r) s (λ r' s', r' = r ∧ hook s' = hook s).
Proof.
  intros Hu Hw r' s' Hr. split.
  - revert r' s' Hr. apply ensures_bind. intros x s1. unfold inject_reply.
    enough (ensures (inject_reply m p (wrap r)) s (λ x _, x = wrap r)) as He.
    { intros Hx. apply He in Hx as ->. intros ? ? [= <- <-]. by rewrite Hu. }
    unfold inject_reply. apply ensures_bind. intros en s2 _. destruct en; [|by intros ? ? [= <- <-]].
    apply (ensures_with_lock _ _ _ _ (λ x _, x = wrap r)). intros s3 _.
    apply ensures_bind. intros p' s4 _. apply ensures_bind. intros is_ s5 _.
    intros x' s6. unfold lift_io, zoom.
    pose proof (multi_inject_reply_other is_ m p' (wrap r) (fs_io s5) Hw) as Ho.
    destruct (multi_inject_reply _ _ _ _ _) as [o io] eqn:Hq.
    intros [= -> <-]. exact (Ho _ _ Hq).
  - pose proof (inject_reply_as_frozen wrap unwrap m p r s) as Hf. by rewrite Hr in Hf.
Qed.

(** ** Remembering a path *)

Definition knows (h : HookFs X) (i : Z) (path : string) : Prop :=
  ∃ node, inode_map h !! i = Some node ∧ existsb (λ p, path_eqb p path) (paths node) = true.

Lemma path_eqb_refl p : path_eqb p p = true.
Proof. by apply bool_decide_eq_true. Qed.

Lemma node_insert_knows n p : existsb (λ q, path_eqb q p) (paths (node_insert n p)) = true.
Proof.
  unfold node_insert. destruct (existsb _ (paths n)) eqn:He; [done|]. cbn [paths].
  apply existsb_exists. exists p. split; [|apply path_eqb_refl].
  apply in_or_app. right. by left.
Qed.

Lemma remember_path_ensures {B} i p (k : unit → H B) s Q :
  (∀ u s1, knows (hook s1) i p → ensures (k u) s1 Q) →
  ensures (bind (remember_path i p) k) s Q.
Proof.
  intros Hk. apply ensures_bind. intros u s1. unfold remember_path, update_inode_map, bind, modify.
  intros [= <- <-]. apply Hk. unfold knows, increase_ref, insert_path. simpl.
  rewrite !lookup_insert_eq. eexists. split; [done|]. apply node_insert_knows.
Qed.

Lemma knows_get_path h i path :
  knows h i path → ∃ p, inode_get_path (inode_map h) i = Done p.
Proof.
  intros (n & Hn & He). unfold inode_get_path. rewrite Hn. simpl. unfold node_get_path.
  destruct (last (paths n)) eqn:Hl; [by eexists|]. apply last_None in Hl. by rewrite Hl in He.
Qed.

(** ** The requests that reply with an entry *)

(** The directory and name a request looks up or creates. *)
Definition entry_target (op : FuseOp) : option (Z * string) :=
  match op with
  | OpLookup parent name | OpMknod parent name _ _ _ | OpMkdir parent name _ _
  | OpSymlink parent name _ | OpLink _ parent name | OpCreate parent name _ _ _ =>
      Some (parent, name)
  | _ => None
  end.

(** The inode number a reply gives to the kernel. *)
Definition reply_ino (r : FuseReply) : option Z :=
  match r with
  | RepEntry _ attr _ => Some (ino attr)
  | RepCreated _ attr _ _ _ => Some (ino attr)
  | _ => None
  end.

Definition names_entry (h : HookFs X) (parent : Z) (name : string) (i : Z) (h' : HookFs X) : Prop :=
  ∃ dir, inode_get_path (inode_map h) parent = Done dir ∧ knows h' i (join dir name).

End entries.

(** The statements of a handler, up to the reply. *)
Ltac entry_steps :=
  repeat match goal with
  | |- ensures (bind (get_path _) _) _ _ => apply get_path_ensures; intros ? ?
  | |- ensures (bind (remember_path _ _) _) _ _ => apply remember_path_ensures; intros ? ? ?
  | |- ensures (bind (insert_file _) _) _ _ => apply ensures_bind; intros ? ? ?
  | |- ensures (bind _ _) _ _ => apply ensures_frozen; [solve [freeze]|intros ? ? ?]
  end.

Section entry_replies.
Context `{X : Ext}.

(** A handler: an injection, then a block that looks the directory up,
    does its work, remembers the path and replies. *)
Lemma handler_names_entry {A} (inj : M (FsState X) HookFsError unit) body (get : A → Z) s parent name :
  evolves frozen inj →
  (∀ s1, hook s1 = hook s →
    ensures body s1 (λ a s', names_entry (hook s) parent name (get a) (hook s'))) →
  ensures (inj ;;; with_lock InodeMapLock Exclusive body) s
    (λ a s', names_entry (hook s) parent name (get a) (hook s')).
Proof.
  intros Hi Hb. apply ensures_frozen; [done|]. intros _ s1 H1.
  apply (ensures_with_lock _ _ _ _ (λ a h, names_entry (hook s) parent name (get a) h)).
  intros s2 H2. apply Hb. congruence.
Qed.

Lemma reply_names_entry {R} wrap unwrap m path (r : R) (get : R → Z) h dir name parent s :
  inode_get_path (inode_map h) parent = Done dir →
  knows (hook s) (get r) (join dir name) →
  unwrap (wrap r) = Some r → (∀ d, wrap r ≠ RData d) →
  ensures (inject_reply_as (X:=X) wrap unwrap m path r) s
    (λ a s', names_entry h parent name (get a) (hook s')).
Proof.
  intros Hd Hk Hu Hw a s' Hr.
  destruct (inject_reply_as_ensures wrap unwrap m path r s Hu Hw a s' Hr) as [-> ->].
  by exists dir.
Qed.

Lemma spawn_reply_inv {A} (ok : A → FuseReply) (m : M (FsState X) HookFsError A) s r s' :
  AsyncFs.spawn_reply ok m s = (Some r, s') →
  (∃ a, m s = (Done a, s') ∧ r = ok a) ∨ (∃ e, r = RepError e).
Proof.
  unfold AsyncFs.spawn_reply. destruct (m s) as [[a|e|] s1]; simpl; intros [= <- <-]; eauto.
Qed.

(** A request whose successful reply names no inode. *)
Lemma spawn_reply_no_ino {A} (ok : A → FuseReply) (m : M (FsState X) HookFsError A) s r s' i :
  (∀ a, reply_ino (ok a) = None) →
  AsyncFs.spawn_reply ok m s = (Some r, s') → reply_ino r ≠ Some i.
Proof. intros Hok [(a & _ & ->)|(e & ->)]%spawn_reply_inv; [by rewrite Hok|done]. Qed.

(** A request that replies with what its handler found. *)
Lemma spawn_reply_entry {A} (ok : A → FuseReply) (m : M (FsState X) HookFsError A) (get : A → Z)
    s r s' i parent name :
  (∀ a, reply_ino (ok a) = Some (get a)) →
  ensures m s (λ a s', names_entry (hook s) parent name (get a) (hook s')) →
  AsyncFs.spawn_reply ok m s = (Some r, s') → reply_ino r = Some i →
  names_entry (hook s) parent name i (hook s').
Proof.
  intros Hok Hm [(a & Ha & ->)|(e & ->)]%spawn_reply_inv; [|done].
  rewrite Hok. intros [= <-]. by apply Hm.
Qed.

Lemma xattr_no_ino a : reply_ino (reply_ok_xattr a) = None.
Proof. by destruct a. Qed.

(** C13: every inode number given to the kernel is usable. If a reply
    carries an entry with inode number [i], the request looked up or
    created a name in a directory, and afterwards the inode map knows [i]
    under that directory's path joined with the name, so that a request on
    [i] finds a path. *)
Theorem entry_replies_addressable req op (s s' : FsState X) r i :
  serve req op s = (Some r, s') → reply_ino r = Some i →
  ∃ parent name dir p,
    entry_target op = Some (parent, name) ∧
    inode_get_path (inode_map (hook s)) parent = Done dir ∧
    knows (hook s') i (join dir name) ∧
    inode_get_path (inode_map (hook s')) i = Done p.
Proof.
  intros Hs Hi.
  enough (∃ parent name, entry_target op = Some (parent, name) ∧
    names_entry (hook s) parent name i (hook s')) as (parent & name & Ht & dir & Hd & Hk).
  { destruct (knows_get_path _ _ _ Hk) as [p Hp]. by exists parent, name, dir, p. }
  revert Hs. destruct op; cbn [serve entry_target]; unfold_session; intros Hs;
    try (exfalso; eapply spawn_reply_no_ino; [|exact Hs|exact Hi]; first [done|apply xattr_no_ino]);
    try (simplify_eq; discriminate Hi);
    eexists _, _; (split; [reflexivity|]).
  all: (eapply spawn_reply_entry; [| |exact Hs|exact Hi]; [done|]).
  all: unfold_handler; autounfold with toda_unfold.
  all: apply handler_names_entry; [freeze|intros s1 Hh; rewrite <- Hh].
  all: entry_steps.
  all: eapply reply_names_entry; [eassumption|eassumption|reflexivity|discriminate].
Qed.

End entry_replies.

Lemma entry_replies_addressable_witness :
  ∃ r parent name dir p,
    (serve demo_req (OpMkdir 1 "x" 493 0) (demo_fs [] false)).1 = Some r ∧
    reply_ino r = Some 4 ∧
    entry_target (OpMkdir 1 "x" 493 0) = Some (parent, name) ∧
    knows (hook demo_ops) 4 (join dir name) ∧
    inode_get_path (inode_map (hook demo_ops)) 4 = Done p.
Proof.
  set (run := serve demo_req (OpMkdir 1 "x" 493 0) (demo_fs [] false)).
  assert (∃ a, run.1 = Some (RepEntry 0 a 0) ∧ ino a = 4) as (a & Ha & Hi).
  { eexists. split; vm_compute; reflexivity. }
  destruct (entry_replies_addressable demo_req (OpMkdir 1 "x" 493 0) (demo_fs [] false) run.2
    (RepEntry 0 a 0) 4) as (parent & name & dir & p & Ht & _ & Hk & Hp).
  - fold run. rewrite <- Ha. apply surjective_pairing.
  - simpl. by rewrite Hi.
  - exists (RepEntry 0 a 0), parent, name, dir, p. split; [done|]. split; [simpl; by rewrite Hi|].
    split; [done|]. split; done.
Defined.
