(* ===== verification/SessionProps.v ===== *)
(** * Properties of mounting and recovery

    What [inject] and [resume] of main.rs guarantee on every way out:
    when injection is enabled, in which order the calls are made, how
    often an unmount is tried, and what is left behind by a failure. *)

From S2P Require Import Prelude Path Float Types External Concrete Filter Injectors InodeMap.
From S2P Require Import Mount HookFs MountSession FsImpl Dispatch Locks FaultAbort Rpc Invariant.
From S2P Require Import Entries.

#[local] Open Scope Z_scope.
#[local] Open Scope string_scope.
#[local] Open Scope list_scope.

Section session.
Context `{X : Ext, MX : MountExt, RT : Retry}.

Abbreviation MM A := (M MState anyhow A).

(** ** Injection stays disabled *)

Definition quiet_hook (s : MState) : Prop :=
  ∀ h, m_hook s = Some h → enable_injection h = false.

Definition keeps_quiet (s s' : MState) : Prop := quiet_hook s → quiet_hook s'.

#[export] Instance keeps_quiet_preorder : PreOrder keeps_quiet.
Proof. split; [by intros s H|]. intros s1 s2 s3 H1 H2 H. auto. Qed.

Lemma mcall_do_quiet c : evolves keeps_quiet (mcall_do c).
Proof. intros s Hq h. unfold mcall_do. destruct (mcall_run c (m_world s)). apply Hq. Qed.

End session.

#[export] Hint Resolve mcall_do_quiet : toda.

Ltac quieten :=
  repeat match goal with
  | |- evolves _ (finally _ _) => apply evolves_finally
  | |- _ => evolve_step
  end.

Section quiet.
Context `{X : Ext, MX : MountExt, RT : Retry}.
Abbreviation MM A := (M MState anyhow A).

Lemma try_umount_quiet p : evolves keeps_quiet (try_umount p).
Proof. unfold try_umount. quieten. Qed.

Lemma umount_quiet n p : evolves keeps_quiet (retry delay_500 n (try_umount p)).
Proof. apply evolves_retry; [apply _|exact (mcall_do_quiet _)|apply try_umount_quiet]. Qed.

Lemma bind_mount_quiet a b : evolves keeps_quiet (bind_mount a b).
Proof. unfold bind_mount. quieten. apply umount_quiet. Qed.

Lemma parse_mounts_quiet : evolves keeps_quiet parse_mounts.
Proof. unfold parse_mounts. quieten. Qed.

Lemma mkfuse_quiet : evolves keeps_quiet mkfuse_node.
Proof. unfold mkfuse_node. quieten. Qed.

Lemma move_mount_quiet a b : evolves keeps_quiet (move_mount a b).
Proof. unfold move_mount. quieten. Qed.

Hint Resolve bind_mount_quiet mkfuse_quiet parse_mounts_quiet move_mount_quiet : toda.

Lemma injector_mount_quiet self : evolves keeps_quiet (injector_mount self).
Proof.
  unfold injector_mount. quieten. apply evolves_modify. by intros s _ h [= <-].
Qed.

Lemma recover_mount_quiet g : evolves keeps_quiet (recover_mount g).
Proof. unfold recover_mount. quieten. apply umount_quiet. Qed.

Lemma with_replacer_quiet {A} mo p q (body : bool → MM A) :
  (∀ b, evolves keeps_quiet (body b)) → evolves keeps_quiet (with_replacer mo p q body).
Proof.
  intros Hb. unfold with_replacer. destruct mo; [apply Hb|]. apply evolves_finally. intros s.
  etrans; [|apply mcall_do_quiet].
  repeat (apply (evolves_bind keeps_quiet); [eauto with toda|intros ?]). apply Hb.
Qed.

(** ** The calls of a successful start *)

(** Running a call. *)
Lemma mcall_do_ensures {A} c (k : mcall_ret c → MM A) s Q :
  (∀ r w, ensures (k r) (mkMState w (m_calls s ++ [c]) (m_hook s)) Q) →
  ensures (bind (mcall_do c) k) s Q.
Proof.
  intros Hk a s'. unfold bind, mcall_do. destruct (mcall_run c (m_world s)) as [r w]. apply Hk.
Qed.

Lemma lift_ensures {S A B} (o : outcome anyhow A) (k : A → M S anyhow B) s Q :
  (∀ a, o = Done a → ensures (k a) s Q) → ensures (bind (lift o) k) s Q.
Proof. intros Hk b s'. unfold bind, lift. destruct o; [by apply Hk|done..]. Qed.

Lemma assoc_ensures {S A B C} (m : M S anyhow A) (f : A → M S anyhow B) (k : B → M S anyhow C) s Q :
  ensures (bind m (λ a, bind (f a) k)) s Q → ensures (bind (bind m f) k) s Q.
Proof.
  intros H c s' Hr. apply (H c s'). revert Hr. unfold bind. by destruct (m s) as [[]].
Qed.

Lemma ret_ensures {S A B} (a : A) (k : A → M S anyhow B) s Q :
  ensures (k a) s Q → ensures (bind (ret a) k) s Q.
Proof. done. Qed.

Lemma modify_ensures {S A} f (k : unit → M S anyhow A) s Q :
  ensures (k tt) (f s) Q → ensures (bind (modify f) k) s Q.
Proof. done. Qed.

Lemma drop_ensures {A B} c (m : MM A) (k : A → MM B) s Q :
  ensures m s (λ a s', ∀ w,
    ensures (k a) (mkMState w (m_calls s' ++ [c]) (m_hook s')) Q) →
  ensures (bind (finally m (λ s, (mcall_do c s).2)) k) s Q.
Proof.
  intros H b s'. unfold bind, finally, mcall_do.
  destruct (m s) as [[a|e|] s1] eqn:Hm; destruct (mcall_run c (m_world s1)); [|done..].
  by apply (H a s1 Hm).
Qed.

(** What fails is given up; the device node costs one call either way. *)
Lemma mkfuse_ensures {A} (k : option unit → MM A) s Q :
  (∀ o w, ensures (k o) (mkMState w (m_calls s ++ [fuse_node_call]) (m_hook s)) Q) →
  ensures (bind (try mkfuse_node) k) s Q.
Proof.
  intros Hk a s'. unfold bind at 1, try, mkfuse_node, bind at 1, mcall_do.
  destruct (mcall_run fuse_node_call (m_world s)) as [[[errno| | |]|[]] w];
    unfold lift; try destruct (errno =? EEXIST)%Z; apply Hk.
Qed.

Lemma fail_ensures {S A B} (e : anyhow) (k : A → M S anyhow B) s Q : ensures (bind (fail e) k) s Q.
Proof. by intros b s'. Qed.

End quiet.

#[export] Hint Resolve mkfuse_quiet : toda.

(** Symbolic execution of a program of the session. *)
Ltac session_step :=
  match goal with
  | |- ensures (bind (mcall_do _) _) _ _ => apply mcall_do_ensures; intros ? ?
  | |- ensures (bind (lift _) _) _ _ => apply lift_ensures; intros ? ?
  | |- ensures (bind (ret _) _) _ _ => apply ret_ensures
  | |- ensures (bind (modify _) _) _ _ => apply modify_ensures
  | |- ensures (bind (try mkfuse_node) _) _ _ => apply mkfuse_ensures; intros ? ?
  | |- ensures (bind (fail _) _) _ _ => apply fail_ensures
  | |- ensures (bind (bind _ _) _) _ _ => apply assoc_ensures
  | |- ensures (bind (finally _ _) _) _ _ => apply drop_ensures
  | |- ensures (ret _) _ _ => intros ? ? [= <- <-]
  | |- ∀ _ : MWorld, _ => intros ?
  | |- ensures (bind (if ?b then _ else _) _) _ _ => destruct b
  end.

(** A call is not among those listed. *)
Ltac not_in := intros ?%list_elem_of_In; simpl in *; intuition discriminate.

Section start.
Context `{X : Ext, MX : MountExt, RT : Retry}.
Abbreviation MM A := (M MState anyhow A).

Lemma of_build_done {A} (r : outcome AnyhowError A) a : of_build r = Done a → r = Done a.
Proof. destruct r; simpl; congruence. Qed.

Definition mount_calls (orig new : string) : list mcall :=
  [CMountInfo; CCreateDirAll new; CMountMove orig new; CSpawnFuse orig new; CWaitStop; CSleep 200].

Lemma injector_mount_ensures {A} self (k : MountInjectionGuard → MM A) s Q :
  (∀ w inj, multi_build (mj_injector_config self) = Done inj →
   ensures (k (mkGuard (mj_original_path self) (mj_new_path self) true))
     (mkMState w (m_calls s ++ mount_calls (mj_original_path self) (mj_new_path self))
        (Some (hookfs_new (mj_original_path self) (mj_new_path self) inj))) Q) →
  ensures (bind (injector_mount self) k) s Q.
Proof.
  intros Hk. unfold injector_mount, parse_mounts, move_mount. cbv zeta.
  repeat session_step. cbn [m_calls m_hook set_hook]. rewrite <- !app_assoc. apply Hk.
  by apply of_build_done.
Qed.

(** The calls of a start: with the replacer, the processes are traced
    before the file system is mounted and moved over before the end. *)
Definition start_calls (option : Options) (path new : string) : list mcall :=
  [CCanonicalize (opt_path option); CMakePrivate path; CMountBind path path] ++
  (if opt_mount_only option then [] else [CReplacerPrepare path path]) ++
  [fuse_node_call] ++ mount_calls (opt_path option) new ++
  (if opt_mount_only option then [] else [CReplacerRun; CReplacerDrop]).

Lemma create_injection_done path conf inj :
  create_injection path conf = Done inj →
  inj = mkMountInjector path (mj_new_path inj) conf.
Proof.
  unfold create_injection. destruct (pop path) as [base []]; [|done].
  destruct (file_name path); [|done]. destruct (is_utf8 _); [|done]. by intros [= <-].
Qed.

Lemma main_inject_ensures option conf s :
  ensures (main_inject option conf) s (λ g s',
    ∃ path new inj, create_injection (opt_path option) conf =
        Done (mkMountInjector (opt_path option) new conf) ∧
      multi_build conf = Done inj ∧
      g = mkGuard (opt_path option) new true ∧
      m_calls s' = m_calls s ++ start_calls option path new ∧
      m_hook s' = Some (set_enable true (hookfs_new (opt_path option) new inj))).
Proof.
  unfold main_inject, with_replacer, guard_enable, start_calls.
  destruct (opt_mount_only option); repeat session_step;
    match goal with H : of_build (create_injection _ _) = Done ?j |- _ =>
      apply of_build_done in H as Hc; pose proof (create_injection_done _ _ _ Hc) as Hj;
      destruct j as [orig n c]; injection Hj as -> -> end;
    apply injector_mount_ensures; intros w' inj' Hb; repeat session_step.
  - eexists _, n, inj'. split_and!; [exact Hc|exact Hb|reflexivity| |reflexivity].
    cbn [set_hook m_calls]. rewrite <- !app_assoc. reflexivity.
  - eexists _, n, inj'. split_and!; [exact Hc|exact Hb|reflexivity| |reflexivity].
    cbn [set_hook m_calls]. rewrite <- !app_assoc. reflexivity.
Qed.

(** C37: the order of a start. When [inject] succeeds it has made exactly
    these calls: the canonical path is made private and bind-mounted, the
    processes are traced before the tree is moved away and the file system
    mounted in its place, and they are moved over after that; the file
    system mirrors the moved tree at the given path, with the configured
    injectors, and injection is enabled. *)
Theorem start_sequence option conf s g s' :
  main_inject option conf s = (Done g, s') →
  ∃ path new inj,
    encode_path (opt_path option) = Done (opt_path option, new) ∧
    multi_build conf = Done inj ∧
    g = mkGuard (opt_path option) new true ∧
    m_calls s' = m_calls s ++ start_calls option path new ∧
    m_hook s' = Some (set_enable true (hookfs_new (opt_path option) new inj)).
Proof.
  intros Hr. destruct (main_inject_ensures option conf s g s' Hr)
    as (path & new & inj & Hc & Hb & Hg & Ht & Hh).
  exists path, new, inj. split_and!; try done. revert Hc. unfold create_injection, encode_path.
  destruct (pop (opt_path option)) as [base []]; [|done].
  destruct (file_name _); [|done]. destruct (is_utf8 _); [|done]. by intros [= <-].
Qed.

(** A program whose failures leave injection off. *)
Definition fails_quiet {A} (m : MM A) : Prop :=
  ∀ s, quiet_hook s → match (m s).1 with Done _ => True | _ => quiet_hook (m s).2 end.

Lemma fails_quiet_bind {A B} (m : MM A) (k : A → MM B) :
  evolves keeps_quiet m → (∀ a, fails_quiet (k a)) → fails_quiet (bind m k).
Proof.
  intros Hm Hk s Hs. specialize (Hm s Hs). unfold bind.
  destruct (m s) as [[a|e|] s1]; simpl in *; [by apply Hk|done|done].
Qed.

Lemma main_inject_fails_quiet option conf : fails_quiet (main_inject option conf).
Proof.
  unfold main_inject.
  repeat (apply fails_quiet_bind; [solve [quieten]|intros ?]).
  apply fails_quiet_bind; [|intros g s _; exact I].
  apply with_replacer_quiet. intros b. quieten. apply injector_mount_quiet.
Qed.

Lemma guard_disable_quiet s : quiet_hook (guard_enable false s).2.
Proof. intros h. simpl. destruct (m_hook s); [by intros [= <-]|done]. Qed.

Lemma main_resume_quiet option g s : quiet_hook (main_resume option g s).2.
Proof.
  unfold main_resume, bind at 1. destruct (guard_enable false s) as [o s1] eqn:Hg.
  pose proof (guard_disable_quiet s) as Hq. rewrite Hg in Hq. injection Hg as <- <-.
  match goal with |- quiet_hook (?m ?s1).2 => enough (evolves keeps_quiet m) as Hm by by apply Hm end.
  quieten. apply with_replacer_quiet. intros b. quieten. apply recover_mount_quiet.
Qed.

(** C39: faults are injected only while the program is fully up. Starting
    from no file system, a start that does not succeed leaves injection
    disabled whatever it has done so far; and once a recovery has begun
    injection is disabled, whatever happens in it. *)
Theorem injection_enabled_only_when_up option conf g (s : MState) :
  (m_hook s = None →
   match (main_inject option conf s).1 with
   | Done _ => True
   | _ => quiet_hook (main_inject option conf s).2
   end) ∧
  quiet_hook (main_resume option g s).2.
Proof.
  split.
  - intros H0. apply main_inject_fails_quiet. intros h. by rewrite H0.
  - apply main_resume_quiet.
Qed.

(** ** Retries *)

(** [k] failed attempts at a call, each followed by a delay, and one
    more attempt. *)
Definition attempts (c : mcall) (k : nat) : list mcall :=
  concat (replicate k [c; CSleep 500]) ++ [c].

Lemma try_umount_run p s :
  ∃ r s', try_umount p s = (r, s') ∧ m_calls s' = m_calls s ++ [CUmount p] ∧ r ≠ Panic.
Proof.
  unfold try_umount, bind, mcall_do. destruct (mcall_run (CUmount p) (m_world s)) as [r w].
  destruct r; by eexists _, _.
Qed.

Lemma retry_umount_run n p s :
  ∃ r k s', retry delay_500 n (try_umount p) s = (r, s') ∧ (k ≤ n)%nat ∧ r ≠ Panic ∧
    m_calls s' = m_calls s ++ attempts (CUmount p) k ∧
    (∀ e, r = Fail e → k = n).
Proof.
  revert s. induction n as [|n IH]; intros s.
  - destruct (try_umount_run p s) as (r & s1 & Hr & Hc & Hp).
    exists r, 0%nat, s1. rewrite retry_last. by split_and!.
  - rewrite retry_again. destruct (try_umount_run p s) as (r & s1 & Hr & Hc & Hp). rewrite Hr.
    destruct r as [[]|e|]; [|clear Hp|done].
    + exists (Done tt), 0%nat, s1. split_and!; [done|lia|done|done|done].
    + unfold delay_500, bind, mcall_do. destruct (mcall_run (CSleep 500) (m_world s1)) as [u w'].
      destruct (IH (mkMState w' (m_calls s1 ++ [CSleep 500]) (m_hook s1)))
        as (r & k & s2 & H1 & H2 & H3 & H4 & H5).
      exists r, (S k), s2. split_and!; [done|lia|done| |].
      * rewrite H4. cbn [m_calls]. rewrite Hc. unfold attempts. simpl. by rewrite <- !app_assoc.
      * intros e' He. by rewrite (H5 e' He).
Qed.

(** The calls of a recovery after the unmount, up to the second one. *)
Definition rejoin (g : MountInjectionGuard) : list mcall :=
  [CJoin; CMountInfo; CMountBind (g_new_path g) (g_original_path g)].

(** C40: recovery. Unmounting the file system is tried at most 21 times
    with a delay in between; if all attempts fail, recovery ends with the
    last error and does nothing else. If one succeeds, it goes on to join
    the FUSE thread, to look for the mount point in the mount table, to
    bind the moved tree back onto the original path and to unmount the
    place it was moved to, again in at most 21 attempts. It either stops
    within the first three of these, without success and so without
    unmounting a tree that is not bound back, or it comes to the attempts;
    then it succeeds, or it has made all 21 and reports the last error. *)
Theorem recover_mount_calls g (s : MState) :
  ∃ r k s1,
    retry delay_500 20 (try_umount (g_original_path g)) s = (r, s1) ∧ (k ≤ 20)%nat ∧
    m_calls s1 = m_calls s ++ attempts (CUmount (g_original_path g)) k ∧
    (∀ e, r = Fail e → k = 20%nat ∧ recover_mount g s = (Fail e, s1)) ∧
    (r = Done tt →
     (∃ n, (n ≤ 3)%nat ∧ (recover_mount g s).1 ≠ Done tt ∧
        m_calls (recover_mount g s).2 = m_calls s1 ++ take n (rejoin g)) ∨
     ∃ j, (j ≤ 20)%nat ∧
       m_calls (recover_mount g s).2 = m_calls s1 ++ rejoin g ++ attempts (CUmount (g_new_path g)) j ∧
       ((recover_mount g s).1 = Done tt ∨ j = 20%nat ∧ ∃ e, (recover_mount g s).1 = Fail e)).
Proof.
  destruct (retry_umount_run 20 (g_original_path g) s) as (r & k & s1 & Hr & Hk & Hp & Hc & Hf).
  exists r, k, s1. split_and!; [done|done|done| |].
  - intros e ->. split; [by eapply Hf|]. unfold recover_mount, bind at 1. by rewrite Hr.
  - intros ->. remember (recover_mount g s) as p eqn:Hrec.
    unfold recover_mount, bind at 1 in Hrec. rewrite Hr in Hrec. clear Hr.
    destruct (g_handler g); [|by left; exists 0%nat; subst p; rewrite app_nil_r; split_and!; [lia|..]].
    unfold bind at 1, ret at 1 in Hrec. unfold bind at 1, mcall_do at 1 in Hrec.
    destruct (mcall_run CJoin (m_world s1)) as [[[e|u]|] w1];
      [by left; exists 1%nat; subst p; split_and!; [lia|..]| |by left; exists 1%nat; subst p; split_and!; [lia|..]].
    unfold bind at 1, lift at 1 in Hrec. cbn [of_anyhow] in Hrec.
    unfold parse_mounts, bind at 1, bind at 1, mcall_do at 1 in Hrec. cbn [m_world] in Hrec.
    destruct (mcall_run CMountInfo w1) as [[e|l] w2];
      [left; exists 2%nat; subst p; split_and!; [lia|done|simpl; by rewrite <- app_assoc]|].
    unfold bind at 1, lift at 1, ret at 1 in Hrec. cbn [of_anyhow] in Hrec.
    destruct (non_root _ _);
      [|left; exists 2%nat; subst p; split_and!; [lia|done|simpl; by rewrite <- app_assoc]].
    unfold bind_mount, bind at 1, mcall_do at 1 in Hrec. cbn [m_world] in Hrec.
    destruct (mcall_run (CMountBind (g_new_path g) (g_original_path g)) w2) as [[e|u3] w3];
      [left; exists 3%nat; subst p; split_and!; [lia|done|simpl; by rewrite <- !app_assoc]|].
    unfold bind at 1, lift at 1 in Hrec. cbn [or_panic] in Hrec.
    match type of Hrec with context [retry _ 20 _ ?st] =>
      destruct (retry_umount_run 20 (g_new_path g) st) as (r' & j & s3 & Hr' & Hj & Hp' & Hc' & Hf')
    end.
    rewrite Hr' in Hrec. subst p. right. exists j. split; [done|]. split.
    + cbn [snd]. rewrite Hc'. cbn [m_calls]. unfold rejoin. by rewrite <- !app_assoc.
    + destruct r' as [[]|e|]; [by left|right; split; [by eapply Hf'|by exists e]|done].
Qed.

(** ** The FUSE thread *)

(** The handshake is always released. Whatever the calls of the FUSE
    thread return, it drops the guard [main] waits for exactly once, and
    before it mounts. *)
Theorem fuse_thread_drops_guard orig new (s : MState) :
  ∃ pre post, m_calls (fuse_thread orig new s).2 = m_calls s ++ pre ++ CDropGuard :: post ∧
    (CDropGuard ∉ pre) ∧ (CDropGuard ∉ post) ∧ (CFuserMount orig ∉ pre).
Proof.
  unfold fuse_thread, bind at 1, mcall_do at 1.
  destruct (mcall_run (CCreateDirAll new) (m_world s)) as [[e|[]] w].
  - exists [CCreateDirAll new], []. unfold bind, mcall_do.
    destruct (mcall_run CDropGuard _) as [[] w2]. simpl. rewrite <- app_assoc.
    split_and!; [done|not_in..].
  - unfold bind at 1, mcall_do at 1. cbn [m_world].
    destruct (mcall_run CDropGuard w) as [[] w2]. unfold bind at 1, mcall_do at 1. cbn [m_world].
    destruct (mcall_run (CFuserMount orig) w2) as [[e|[]] w3]; unfold bind, lift; cbn [of_anyhow].
    + exists [CCreateDirAll new], [CFuserMount orig]. simpl. rewrite <- !app_assoc.
      split_and!; [done|not_in..].
    + exists [CCreateDirAll new], [CFuserMount orig; CDropRuntime]. unfold mcall_do.
      destruct (mcall_run CDropRuntime _) as [[] w4]. simpl. rewrite <- !app_assoc.
      split_and!; [done|not_in..].
Qed.

End start.

(** ** In a concrete world

    Every call succeeds but those the world refuses; "/a/link" is a
    symbolic link to "/b/c", and the root is mounted. *)
Definition demo_mcall (refused : mcall → bool) (c : mcall) : mcall_ret c :=
  match c with
  | CCanonicalize path => inr (if String.eqb path "/a/link" then "/b/c" else path)
  | CMakePrivate _ | CMountBind _ _ | CMountMove _ _ | CUmount _ =>
      if refused c then inl (NixSys 16) else inr tt
  | CMountInfo => inr ["/"]
  | CMknod _ _ _ _ _ => if refused c then inl (NixSys 13) else inl (NixSys EEXIST)
  | CCreateDirAll _ | CFuserMount _ => if refused c then inl (AOther 1) else inr tt
  | CSleep _ | CSpawnFuse _ _ | CWaitStop | CDropGuard | CDropRuntime => tt
  | CJoin => Some (inr tt)
  | CReplacerPrepare _ _ | CReplacerRun => if refused c then Fail (AOther 2) else Done tt
  | CReplacerDrop | CSpawnServer _ _ => tt
  | CPipe => if refused c then inl (NixSys 24) else inr (3, 4)
  | CSignal _ => if refused c then inl (NixSys 22) else inr tt
  | CRead _ n => if refused c then inl (NixSys 4) else inr n
  | CWrite _ bs => if refused c then inl (NixSys 9) else inr (Z.of_nat (length bs))
  end.

#[export] Instance DemoMount : MountExt := {|
  MWorld := mcall → bool;
  mcall_run c w := (demo_mcall w c, w)
|}.

Definition demo_mstate (refused : mcall → bool) : MState (X:=Demo) := mkMState refused [] None.

Definition none_refused : mcall → bool := λ _, false.

Definition run_refused : mcall → bool := λ c, match c with CReplacerRun => true | _ => false end.

Definition demo_guard : MountInjectionGuard := mkGuard "/a/data" "/a/__chaosfs__data__" true.

Lemma start_sequence_witness :
  ∃ path new inj,
    encode_path "/a/data" = Done ("/a/data", new) ∧
    m_calls (main_inject (mkOptions "/a/data" false) [] (demo_mstate none_refused)).2 =
      start_calls (mkOptions "/a/data" false) path new ∧
    m_hook (main_inject (mkOptions "/a/data" false) [] (demo_mstate none_refused)).2 =
      Some (set_enable true (hookfs_new "/a/data" new inj)).
Proof.
  destruct (start_sequence (mkOptions "/a/data" false) [] (demo_mstate none_refused) demo_guard
    (main_inject (mkOptions "/a/data" false) [] (demo_mstate none_refused)).2)
    as (path & new & inj & He & _ & _ & Hc & Hh).
  - reflexivity.
  - exists path, new, inj. split; [exact He|]. split; [exact Hc|exact Hh].
Defined.

Lemma injection_enabled_only_when_up_witness :
  quiet_hook (main_inject (mkOptions "/a/data" false) [] (demo_mstate run_refused)).2.
Proof.
  exact (proj1 (injection_enabled_only_when_up (mkOptions "/a/data" false) [] demo_guard
    (demo_mstate run_refused)) eq_refl).
Defined.

(** A start that fails late is not undone. There is a world in which
    [inject] fails because the replacer does, and leaves the tree moved
    away and the FUSE thread started, having unmounted nothing; [main]
    recovers only from a start that succeeded. *)
Theorem failed_start_leaves_mount :
  ∃ (s : MState (X:=Demo)) e pre post,
    (main_inject (mkOptions "/a/data" false) [] s).1 = Fail e ∧
    m_calls (main_inject (mkOptions "/a/data" false) [] s).2 =
      pre ++ CMountMove "/a/data" "/a/__chaosfs__data__" ::
             CSpawnFuse "/a/data" "/a/__chaosfs__data__" :: post ∧
    ∀ path, CUmount path ∉ pre ++ post.
Proof.
  exists (demo_mstate run_refused), (AOther 2),
    [CCanonicalize "/a/data"; CMakePrivate "/a/data"; CMountBind "/a/data" "/a/data";
     CReplacerPrepare "/a/data" "/a/data"; fuse_node_call; CMountInfo;
     CCreateDirAll "/a/__chaosfs__data__"],
    [CWaitStop; CSleep 200; CReplacerRun; CReplacerDrop].
  split; [vm_compute; reflexivity|]. split; [vm_compute; reflexivity|].
  intros path. not_in.
Qed.

(** The path as given and the canonical path are mixed up. Started
    on a symbolic link, [inject] traces the processes under the link's
    target but mounts over the link and moves the tree to a sibling of
    the link, while [resume] looks for it beside the target. *)
Theorem symlink_start_and_recovery_differ :
  ∃ (s : MState (X:=Demo)) g pre mid post,
    (main_inject (mkOptions "/a/link" false) [] s).1 = Done g ∧
    m_calls (main_inject (mkOptions "/a/link" false) [] s).2 =
      pre ++ CReplacerPrepare "/b/c" "/b/c" :: mid ++
      CSpawnFuse "/a/link" "/a/__chaosfs__link__" :: post ∧
    m_calls (main_resume (mkOptions "/a/link" false) g
        (main_inject (mkOptions "/a/link" false) [] s).2).2 =
      m_calls (main_inject (mkOptions "/a/link" false) [] s).2 ++
      [CCanonicalize "/a/link"; CReplacerPrepare "/b/c" "/b/__chaosfs__c__"; CReplacerRun;
       CUmount "/a/link"; CJoin; CMountInfo; CMountBind "/a/__chaosfs__link__" "/a/link";
       CUmount "/a/__chaosfs__link__"; CReplacerDrop].
Proof.
  exists (demo_mstate none_refused),
    (mkGuard "/a/link" "/a/__chaosfs__link__" true),
    [CCanonicalize "/a/link"; CMakePrivate "/b/c"; CMountBind "/b/c" "/b/c"],
    [fuse_node_call; CMountInfo; CCreateDirAll "/a/__chaosfs__link__";
     CMountMove "/a/link" "/a/__chaosfs__link__"],
    [CWaitStop; CSleep 200; CReplacerRun; CReplacerDrop].
  split_and!; vm_compute; reflexivity.
Qed.

(** A recovery in which every call succeeds. *)
Lemma recover_mount_calls_witness :
  (recover_mount demo_guard (demo_mstate none_refused)).1 = Done tt ∧
  m_calls (recover_mount demo_guard (demo_mstate none_refused)).2 =
    [CUmount "/a/data"; CJoin; CMountInfo; CMountBind "/a/__chaosfs__data__" "/a/data";
     CUmount "/a/__chaosfs__data__"] ∧
  ∃ k s1, m_calls s1 = attempts (CUmount "/a/data") k ∧
    ∃ j, m_calls (recover_mount demo_guard (demo_mstate none_refused)).2 =
      m_calls s1 ++ rejoin demo_guard ++ attempts (CUmount "/a/__chaosfs__data__") j.
Proof.
  assert ((recover_mount demo_guard (demo_mstate none_refused)).1 = Done tt) as Hd
    by (vm_compute; reflexivity).
  split; [exact Hd|]. split; [vm_compute; reflexivity|].
  destruct (recover_mount_calls demo_guard (demo_mstate none_refused))
    as (r & k & s1 & Hr & _ & Hc & Hf & Hs).
  exists k, s1. split; [exact Hc|]. destruct r as [[]|e|].
  - destruct (Hs eq_refl) as [(n & _ & Hn & _)|(j & _ & Hj & _)]; [by destruct Hn|].
    exists j. exact Hj.
  - destruct (Hf e eq_refl) as [_ He]. rewrite He in Hd. discriminate Hd.
  - assert ((retry delay_500 20 (try_umount (g_original_path demo_guard))
      (demo_mstate none_refused)).1 = Done tt) as E by (vm_compute; reflexivity).
    rewrite Hr in E. discriminate E.
Defined.
