(* ===== verification/Main.v ===== *)
(** * The main program

    [main] of [src/main.rs]: the signal handlers and their pipe, the start,
    the RPC server, the wait for a signal and the recovery. [Options] is
    an argument of the model; the set-up of the log is left out. *)

From S2P Require Import Prelude Path Float Types External Concrete Filter Injectors InodeMap.
From S2P Require Import Mount HookFs MountSession Rpc Entries SessionProps.

#[local] Open Scope Z_scope.
#[local] Open Scope list_scope.

(** The [Display] of an error; a message displays as it is. *)
Class ErrorText := {
  to_string : anyhow → string;
  to_string_msg : ∀ s, to_string (AMsg s) = s
}.

Definition SIGINT : Z := 2.
Definition SIGTERM : Z := 15.

(** b"SIGNAL" *)
Definition SIGNAL_MSG : list Z := bytes_of "SIGNAL".

Section main.
Context `{X : Ext, MX : MountExt, RT : Retry, ET : ErrorText}.

(** The session, and the static of the signal handler. *)
Record MainState := mkMain { session : MState; SIGNAL_PIPE_WRITER : Z }.

Abbreviation MM A := (M MState anyhow A).
Abbreviation MainM A := (M MainState anyhow A).

Definition in_session {A} (m : MM A) : MainM A :=
  zoom session (λ t s, mkMain t (SIGNAL_PIPE_WRITER s)) m.

(** A [Result] that is kept. *)
Definition result_of {A} (m : MainM A) : MainM (anyhow + A) := λ s,
  match m s with
  | (Done a, s') => (Done (inr a), s')
  | (Fail e, s') => (Done (inl e), s')
  | (Panic, s') => (Panic, s')
  end.

(** [write(..).unwrap()] *)
Definition signal_handler : MainM unit :=
  writer <- gets SIGNAL_PIPE_WRITER ;;
  r <- in_session (mcall_do (CWrite writer SIGNAL_MSG)) ;; lift (or_panic r) ;;; ret tt.

(** Fewer bytes than six end the wait too. *)
Definition wait_for_signal (chan : Z) : MainM unit :=
  r <- in_session (mcall_do (CRead chan 6)) ;; lift (of_nix r) ;;; ret tt.

Definition main (option : Options) : MainM unit :=
  r <- in_session (mcall_do CPipe) ;;
  pipe <- lift (of_nix r) ;;
  let '(reader, writer) := pipe in
  modify (λ s, mkMain (session s) writer) ;;;
  r <- in_session (mcall_do (CSignal SIGINT)) ;; lift (of_nix r) ;;;
  r <- in_session (mcall_do (CSignal SIGTERM)) ;; lift (of_nix r) ;;;
  mount_injector <- result_of (in_session (main_inject option [])) ;;
  let status := match mount_injector with inr _ => inr tt | inl e => inl (to_string e) end in
  let rpc := mkRpcImpl status (match mount_injector with inr _ => true | inl _ => false end) in
  in_session (mcall_do (CSpawnServer (rpc_status rpc) (rpc_hookfs rpc))) ;;;
  wait_for_signal reader ;;;
  match mount_injector with
  | inr v => in_session (main_resume option v)
  | inl _ => ret tt
  end.

(** ** Properties *)

Lemma call_ensures {A} c (k : mcall_ret c → MainM A) s Q :
  (∀ r w, ensures (k r)
     (mkMain (mkMState w (m_calls (session s) ++ [c]) (m_hook (session s))) (SIGNAL_PIPE_WRITER s)) Q) →
  ensures (bind (in_session (mcall_do c)) k) s Q.
Proof.
  intros Hk a s'. unfold bind, in_session, zoom, mcall_do.
  destruct (mcall_run c (m_world (session s))) as [r w]. apply Hk.
Qed.

Lemma result_ensures {A B} (m : MM A) (k : anyhow + A → MainM B) s Q :
  (∀ a s2, m (session s) = (Done a, s2) → ensures (k (inr a)) (mkMain s2 (SIGNAL_PIPE_WRITER s)) Q) →
  (∀ e s2, m (session s) = (Fail e, s2) → ensures (k (inl e)) (mkMain s2 (SIGNAL_PIPE_WRITER s)) Q) →
  ensures (bind (result_of (in_session m)) k) s Q.
Proof.
  intros Hd Hf b s'. unfold bind, result_of, in_session, zoom.
  destruct (m (session s)) as [[a|e|] s2] eqn:Hm; [by apply Hd|by apply Hf|done].
Qed.

Definition signal_calls : list mcall := [CPipe; CSignal SIGINT; CSignal SIGTERM].

Definition serve_calls (status : AnyhowError + unit) (hookfs : bool) (reader : Z) : list mcall :=
  [CSpawnServer status hookfs; CRead reader 6].

Lemma serve_ensures {A} status hookfs reader (k : MainM A) s Q :
  (∀ w, ensures k (mkMain (mkMState w (m_calls (session s) ++ serve_calls status hookfs reader)
     (m_hook (session s))) (SIGNAL_PIPE_WRITER s)) Q) →
  ensures (in_session (mcall_do (CSpawnServer status hookfs)) ;;; wait_for_signal reader ;;; k) s Q.
Proof.
  intros Hk. apply call_ensures; intros ? ?. unfold wait_for_signal.
  apply assoc_ensures, call_ensures; intros ? ?. apply assoc_ensures, lift_ensures; intros ? _.
  apply ret_ensures. cbn [session SIGNAL_PIPE_WRITER m_calls m_hook]. rewrite <- app_assoc. apply Hk.
Qed.

(** How [main] has come to its end without an error. *)
Definition outcome_of (option : Options) (s s' : MainState) : Prop :=
  ∃ reader s1, m_calls s1 = m_calls (session s) ++ signal_calls ∧
    match main_inject option [] s1 with
    | (Done g, s2) => ∃ s3, m_calls s3 = m_calls s2 ++ serve_calls (inr tt) true reader ∧
        m_hook s3 = m_hook s2 ∧ main_resume option g s3 = (Done tt, session s')
    | (Fail e, s2) =>
        m_calls (session s') = m_calls s2 ++ serve_calls (inl (to_string e)) false reader
    | (Panic, _) => False
    end.

(** C38: the life of the program. [main] starts once its signal handlers
    are installed; then, whether the start succeeded or not, it serves
    the outcome over RPC and waits for a signal. It exits without an
    error in exactly two ways: after a recovery that succeeded from a
    start that succeeded, and, doing nothing more, after a start that
    failed. Either way faults are no longer injected at the end. *)
Theorem main_exits (option : Options) (s s' : MainState) :
  m_hook (session s) = None → main option s = (Done tt, s') →
  quiet_hook (session s') ∧ outcome_of option s s'.
Proof.
  intros Hq. revert s'.
  enough (ensures (main option) s (λ _ s', quiet_hook (session s') ∧ outcome_of option s s')) as He
    by (intros s'; exact (He tt s')).
  unfold main. apply call_ensures; intros r w. apply lift_ensures; intros [reader writer] _.
  apply modify_ensures. do 2 (apply call_ensures; intros ? ?; apply lift_ensures; intros ? _).
  cbn [session SIGNAL_PIPE_WRITER m_calls m_hook]. rewrite <- !app_assoc.
  match goal with |- ensures _ (mkMain ?st _) _ => set (s1 := st) end.
  assert (quiet_hook s1) as Hq1 by (intros h; simpl; by rewrite Hq).
  apply result_ensures.
  - intros g s2 Hi. cbn [session] in Hi. cbv zeta; cbn [rpc_status rpc_hookfs]; apply serve_ensures; intros w' [] s'. unfold in_session, zoom. cbn [session].
    match goal with |- context [main_resume option g ?st] => set (s3 := st) end.
    pose proof (main_resume_quiet option g s3) as Hr.
    destruct (main_resume option g s3) as [o t] eqn:Ht. intros [= -> <-].
    split; [exact Hr|]. exists reader, s1. split; [done|]. rewrite Hi. by exists s3.
  - intros e s2 Hi. cbn [session] in Hi. cbv zeta; cbn [rpc_status rpc_hookfs]; apply serve_ensures; intros w' [] s' [= <-]. split.
    + pose proof (main_inject_fails_quiet option [] s1 Hq1) as Hf. rewrite Hi in Hf. exact Hf.
    + exists reader, s1. split; [done|]. by rewrite Hi.
Qed.

End main.

(** ** In a concrete world *)

#[export] Instance DemoText : ErrorText := {|
  to_string e := match e with AMsg s => s | _ => "error"%string end;
  to_string_msg _ := eq_refl
|}.

Lemma run_done {S E A} (m : M S E A) s a : (m s).1 = Done a → m s = (Done a, (m s).2).
Proof. destruct (m s). by intros [= ->]. Qed.

Definition demo_main (refused : mcall → bool) : MainState (X:=Demo) :=
  mkMain (demo_mstate refused) 0.

Lemma main_exits_witness :
  quiet_hook (session (main (mkOptions "/a/data" false) (demo_main none_refused)).2) ∧
  outcome_of (mkOptions "/a/data" false) (demo_main none_refused)
    (main (mkOptions "/a/data" false) (demo_main none_refused)).2.
Proof.
  refine (main_exits (mkOptions "/a/data" false) (demo_main none_refused) _ eq_refl (run_done _ _ _ _)).
  vm_compute. reflexivity.
Defined.

(** The signal handler ends the wait: its six bytes go to the pipe of
    which [main] reads six. *)
Example main_demo :
  m_calls (session (main (mkOptions "/a/data" true) (demo_main none_refused)).2) =
    signal_calls ++
    [CCanonicalize "/a/data"; CMakePrivate "/a/data"; CMountBind "/a/data" "/a/data"; fuse_node_call;
     CMountInfo; CCreateDirAll "/a/__chaosfs__data__"; CMountMove "/a/data" "/a/__chaosfs__data__";
     CSpawnFuse "/a/data" "/a/__chaosfs__data__"; CWaitStop; CSleep 200] ++
    serve_calls (inr tt) true 3 ++
    [CCanonicalize "/a/data"; CUmount "/a/data"; CJoin; CMountInfo;
     CMountBind "/a/__chaosfs__data__" "/a/data"; CUmount "/a/__chaosfs__data__"].
Proof. vm_compute. reflexivity. Qed.
