(* ===== verification/Program.v ===== *)
(** * The whole program on one thread

    [MountSession.v] and [Main.v] call the replacers; [Replacer.v] has
    them as programs over the tracer. Here the two are put together: the
    calls of the session are answered by running the replacers, so that
    [main] is one program from its first call to its last. The manager of
    the tracer is thread-local and all its users run on the main thread. *)

From S2P Require Import Prelude Path Float Types Asm External Concrete Ptrace Filter Injectors InodeMap.
From S2P Require Import Mount Replacer HookFs MountSession PtraceProps Tracees TraceDemo.
From S2P Require Import ReplacerProps Replacing Rpc Entries SessionProps Main.

#[local] Open Scope Z_scope.
#[local] Open Scope list_scope.

(** The demonstrations have instances of their own. *)
#[local] Remove Hints DemoMount DemoPtrace DemoReplacer DemoRetry : typeclass_instances.

(** The answers to the calls that are not the replacers'. *)
Class BaseExt := { base : MountExt }.

Section program.
Context `{X : Ext, BE : BaseExt, RT : Retry, PX : PtraceExt, RX : ReplacerExt}.

(** The outside of a session: that of its other calls, the tracer, the
    replacers that are prepared, and whether a wait went on forever. *)
Record SWorld := mkSWorld {
  sw_base : MWorld (MountExt := base);
  sw_procs : PState;
  sw_replacers : list Replacer;
  sw_stuck : bool
}.

(** The result of a program of the tracer. After [Waiting] nothing runs;
    the panic only ends the model's run. *)
Definition traced_result {A} (r : outcome perr A) : outcome anyhow unit :=
  match r with
  | Done _ => Done tt
  | Fail (Err e) => Fail e
  | Fail Waiting | Panic => Panic
  end.

Definition is_waiting {A} (r : outcome perr A) : bool :=
  match r with Fail Waiting => true | _ => false end.

(** A program of the tracer in the session. *)
Definition on_procs {A} (m : M PState perr A) (f : outcome perr A → list Replacer → list Replacer)
    (w : SWorld) : outcome anyhow unit * SWorld :=
  let '(r, p) := m (sw_procs w) in
  (traced_result r,
   mkSWorld (sw_base w) p (f r (sw_replacers w)) (sw_stuck w || is_waiting r)).

Definition composed_run (c : mcall) (w : SWorld) : mcall_ret c * SWorld :=
  match c return mcall_ret c * SWorld with
  | CReplacerPrepare detect_path new_path =>
      on_procs (union_prepare detect_path new_path)
        (λ r rs, match r with Done rs' => rs ++ rs' | _ => rs end) w
  | CReplacerRun => on_procs (union_run (sw_replacers w)) (λ _ rs, rs) w
  | CReplacerDrop =>
      if sw_stuck w then (tt, w)
      else (tt, (on_procs (union_drop (sw_replacers w)) (λ _ _, []) w).2)
  | c => let '(r, b) := mcall_run (MountExt := base) c (sw_base w) in
         (r, mkSWorld b (sw_procs w) (sw_replacers w) (sw_stuck w))
  end.

#[export] Instance Composed : MountExt := {| MWorld := SWorld; mcall_run := composed_run |}.

Abbreviation MM A := (M MState anyhow A).

Definition world (s : MState) : SWorld := m_world s.
Definition procs (s : MState) : PState := sw_procs (world s).
Definition replacers (s : MState) : list Replacer := sw_replacers (world s).
Definition stuck (s : MState) : bool := sw_stuck (world s).

(** ** Between preparing and dropping *)

(** The counter and the replacers are left alone; a program that is stuck
    stays stuck. *)
Definition holding (s s' : MState) : Prop :=
  replacers s' = replacers s ∧ counter (procs s') = counter (procs s) ∧
  (stuck s' = false → stuck s = false).

#[export] Instance holding_preorder : PreOrder holding.
Proof.
  split; [by intros s|]. intros s1 s2 s3 (H1 & H2 & H3) (H4 & H5 & H6). unfold holding.
  split_and!; [congruence..|auto].
Qed.

Definition brackets (c : mcall) : bool :=
  match c with CReplacerPrepare _ _ | CReplacerDrop => true | _ => false end.

Lemma mcall_holding c : brackets c = false → evolves holding (mcall_do c).
Proof.
  intros Hc s. unfold mcall_do. destruct c; try done.
  all: try (unfold holding, replacers, procs, stuck, world; simpl;
    match goal with |- context [mcall_run ?c ?w] => destruct (mcall_run c w) end; done).
  pose proof (union_run_same (sw_replacers (m_world s)) (sw_procs (m_world s))) as Hk.
  unfold holding, replacers, procs, stuck, world. simpl. unfold on_procs.
  destruct (union_run _ _) as [r p]. simpl in *. split_and!; [done|done|].
  intros Hs. by apply orb_false_iff in Hs as [? _].
Qed.

End program.

#[export] Hint Extern 2 (evolves holding (mcall_do _)) =>
  exact (mcall_holding _ eq_refl) : toda.

Section bracket.
Context `{X : Ext, BE : BaseExt, RT : Retry, PX : PtraceExt, RX : ReplacerExt}.
Context `{PL : !ProcfsLaws PX, RL : !ReplacerLaws RX}.
Abbreviation MM A := (M MState anyhow A).

Ltac hold :=
  repeat match goal with
  | |- evolves _ (finally _ _) => apply evolves_finally
  | |- evolves _ (retry _ _ _) => apply evolves_retry; [apply _| |]
  | |- evolves holding (mcall_do ?c) => exact (mcall_holding c eq_refl)
  | |- evolves holding (modify _) => apply (evolves_modify holding); intros ?; done
  | |- _ => evolve_step
  end.

Lemma parse_mounts_holding : evolves holding parse_mounts.
Proof. unfold parse_mounts. hold. Qed.

Lemma mkfuse_holding : evolves holding mkfuse_node.
Proof. unfold mkfuse_node. hold. Qed.

Hint Resolve parse_mounts_holding mkfuse_holding : toda.

Lemma injector_mount_holding self : evolves holding (injector_mount self).
Proof. unfold injector_mount, move_mount. hold. Qed.

Lemma recover_mount_holding g : evolves holding (recover_mount g).
Proof. unfold recover_mount, bind_mount, try_umount, delay_500. hold. Qed.

(** ** Handles are given back *)

Definition sticky (s s' : MState) : Prop := stuck s' = false → stuck s = false.

#[export] Instance sticky_preorder : PreOrder sticky.
Proof. split; [by intros s ?|]. unfold sticky. auto. Qed.

Lemma mcall_sticky c : evolves sticky (mcall_do c).
Proof.
  intros s. destruct (brackets c) eqn:Hc; [|exact (proj2 (proj2 (mcall_holding c Hc s)))].
  unfold mcall_do, sticky, stuck, world. destruct c; try done; simpl.
  - unfold on_procs. destruct (union_prepare _ _ _) as [r p]. simpl.
    intros Hs. by apply orb_false_iff in Hs as [? _].
  - destruct (sw_stuck (m_world s)) eqn:Hs; simpl; [by rewrite Hs|done].
Qed.

Lemma holding_sticky {A} (m : MM A) : evolves holding m → evolves sticky m.
Proof. intros Hm s. exact (proj2 (proj2 (Hm s))). Qed.

(** The live handles are [live], and no replacer is prepared. *)
Definition given_back (live : Z → Z) (s : MState) : Prop :=
  counted (procs s) live ∧ replacers s = [].

(** Handles taken in [m] have been given back when it ends. *)
Definition gives_back {A} (m : MM A) : Prop := evolves sticky m ∧
  ∀ s live, (∀ pid, live pid < 2 ^ 31 - 8) → given_back live s → stuck (m s).2 = false →
    given_back live (m s).2.

Lemma gives_back_holding {A} (m : MM A) : evolves holding m → gives_back m.
Proof.
  intros Hm. split; [by apply holding_sticky|]. intros s live _ [Hc Hr] _.
  destruct (Hm s) as (H1 & H2 & _). split; [by apply (counted_same (procs s))|congruence].
Qed.

Lemma gives_back_bind {A B} (m : MM A) (k : A → MM B) :
  gives_back m → (∀ a, gives_back (k a)) → gives_back (bind m k).
Proof.
  intros [Hms Hm] Hk. split; [apply (evolves_bind sticky); [done|intros a; apply Hk]|].
  intros s live Hl Hs. unfold bind. specialize (Hm s live Hl Hs).
  destruct (m s) as [[a|e|] s1]; [|done..]. intros Hst. apply Hk; [done| |done]. apply Hm.
  by apply (proj1 (Hk a) s1).
Qed.

Lemma gives_back_finally {A} p q (body : MM A) :
  evolves holding body →
  gives_back (finally (r <- mcall_do (CReplacerPrepare p q) ;; lift r ;;; body)
    (λ s, (mcall_do CReplacerDrop s).2)).
Proof.
  intros Hb. pose proof (holding_sticky body Hb) as Hbs. split.
  { apply (evolves_finally sticky). intros s. etrans; [|apply mcall_sticky].
    apply (evolves_bind sticky); [apply mcall_sticky|intros r].
    apply (evolves_bind sticky); [apply (evolves_lift sticky)|done]. }
  intros s live Hl [Hc Hr].
  destruct (union_prepare_spec p q _ live Hc Hl) as (rs & ps & Hp & Hc1 & _).
  assert (∃ s1, (r <- mcall_do (CReplacerPrepare p q) ;; lift r ;;; body) s = body s1 ∧
    procs s1 = ps ∧ replacers s1 = rs) as (s1 & Hrun & Hps & Hrs).
  { unfold procs, replacers, world in *. unfold bind at 1, mcall_do. simpl. unfold on_procs.
    rewrite Hp, Hr. simpl. by eexists. }
  unfold finally. rewrite Hrun. destruct (Hb s1) as (H1 & H2 & _).
  destruct (body s1) as [r s2]. simpl in H1, H2. rewrite Hrs in H1. rewrite Hps in H2.
  destruct (union_drop_spec rs (procs s2) live) as (ps' & Hd & Hc').
  { by apply (counted_same ps). }
  { intros pid. apply Hc. }
  unfold given_back, stuck, procs, replacers, world in *. unfold mcall_do. simpl.
  destruct (sw_stuck (m_world s2)) eqn:Hst; simpl; [by rewrite Hst|]. intros _.
  unfold on_procs, union_drop. rewrite H1, Hd. by split.
Qed.

Lemma gives_back_with_replacer {A} mo p q (body : bool → MM A) :
  (∀ b, evolves holding (body b)) → gives_back (with_replacer mo p q body).
Proof.
  intros Hb. unfold with_replacer. destruct mo; [by apply gives_back_holding|].
  by apply gives_back_finally.
Qed.

Lemma main_inject_gives_back option conf : gives_back (main_inject option conf).
Proof.
  unfold main_inject.
  repeat (apply gives_back_bind; [solve [apply gives_back_holding; hold]|intros ?]).
  apply gives_back_bind; [|intros g; apply gives_back_holding; unfold guard_enable; hold].
  apply gives_back_with_replacer. intros b. hold; apply injector_mount_holding.
Qed.

Lemma main_resume_gives_back option g : gives_back (main_resume option g).
Proof.
  unfold main_resume, guard_enable.
  repeat (apply gives_back_bind; [solve [apply gives_back_holding; hold]|intros ?]).
  apply gives_back_with_replacer. intros b. hold; apply recover_mount_holding.
Qed.

(** ** The program *)
Context `{ET : ErrorText}.

Lemma in_session_run {A} (m : MM A) s :
  session (in_session m s).2 = (m (session s)).2.
Proof. unfold in_session, zoom. by destruct (m (session s)). Qed.

(** A program of [main] that gives back what it takes. *)
Definition main_gives_back {A} (m : M MainState anyhow A) : Prop :=
  ∀ s, sticky (session s) (session (m s).2) ∧
    ∀ live, (∀ pid, live pid < 2 ^ 31 - 8) → given_back live (session s) →
      stuck (session (m s).2) = false → given_back live (session (m s).2).

Lemma main_gives_back_session {A} (m : MM A) : gives_back m → main_gives_back (in_session m).
Proof. intros [Hs Hm] s. rewrite in_session_run. split; [apply Hs|]. intros live Hl. by apply Hm. Qed.

Lemma main_gives_back_pure {A} (m : M MainState anyhow A) :
  (∀ s, session (m s).2 = session s) → main_gives_back m.
Proof. intros Hm s. rewrite Hm. by split. Qed.

Lemma main_gives_back_result {A} (m : M MainState anyhow A) :
  main_gives_back m → main_gives_back (result_of m).
Proof. intros Hm s. specialize (Hm s). unfold result_of. by destruct (m s) as [[]]. Qed.

Lemma main_gives_back_bind {A B} (m : M MainState anyhow A) (k : A → M MainState anyhow B) :
  main_gives_back m → (∀ a, main_gives_back (k a)) → main_gives_back (bind m k).
Proof.
  intros Hm Hk s. destruct (Hm s) as [Hms Hml]. unfold bind.
  destruct (m s) as [[a|e|] s1]; [|by split..]. simpl in *. destruct (Hk a s1) as [Hks Hkl]. split.
  - etrans; [exact Hms|exact Hks].
  - intros live Hl Hg Hst. apply Hkl; [done| |done]. apply Hml; [done..|]. by apply Hks.
Qed.

Lemma main_gives_back_call c : brackets c = false → main_gives_back (in_session (mcall_do c)).
Proof. intros Hc. apply main_gives_back_session, gives_back_holding. by apply mcall_holding. Qed.

Ltac main_step :=
  match goal with
  | |- main_gives_back (bind _ _) => apply main_gives_back_bind; [|intros ?]
  | |- main_gives_back (in_session (mcall_do ?c)) => exact (main_gives_back_call c eq_refl)
  | |- main_gives_back (in_session (main_inject _ _)) =>
      apply main_gives_back_session, main_inject_gives_back
  | |- main_gives_back (in_session (main_resume _ _)) =>
      apply main_gives_back_session, main_resume_gives_back
  | |- main_gives_back (result_of _) => apply main_gives_back_result
  | |- main_gives_back (match ?x with _ => _ end) => destruct x
  | |- main_gives_back _ => apply main_gives_back_pure; done
  end.

(** C10: the program leaves no process traced. Run [main] with its calls to
    the replacers answered by the replacers, from a manager that traces
    nothing. However it ends, by a return, an error or a panic, and
    whatever the calls to the outside return, every handle has been given
    back and no replacer is left, unless a traced process never stopped
    when it was waited for. *)
Theorem program_gives_handles_back option (s : MainState) :
  counter (procs (session s)) = ∅ → replacers (session s) = [] →
  let s' := (main option s).2 in
  stuck (session s') = false →
  counter (procs (session s')) = ∅ ∧ replacers (session s') = [].
Proof.
  intros Hc Hr s' Hst. subst s'.
  assert (main_gives_back (main option)) as Hm by (unfold main, wait_for_signal; repeat main_step).
  destruct (Hm s) as [_ Hg]. destruct (Hg no_handles) as [Hc' Hr']; [done| |done|].
  - split; [|done]. intros pid. split; [unfold no_handles; lia|]. rewrite Hc. apply lookup_empty.
  - split; [|done]. apply map_eq. intros pid. destruct (Hc' pid) as [_ ->]. by rewrite lookup_empty.
Qed.

End bracket.

(** ** In a concrete world

    The session of SessionProps.v over the processes of TraceDemo.v. *)

#[local] Existing Instances DemoPtrace DemoReplacer DemoRetry.

#[export] Instance DemoBase : BaseExt := {| base := DemoMount |}.

(** Every call succeeds; the traced process stops when it is stepped. *)
Definition demo_program (refused : mcall → bool) (fails : Z → pcall → bool) : MainState (X:=Demo) :=
  mkMain (mkMState (mkSWorld refused (tracees fails 0) [] false) [] None) 0.

Definition demo_end (refused : mcall → bool) : MainState (X:=Demo) :=
  (main (mkOptions "/m" false) (demo_program refused no_failure)).2.

(** Process 7 is traced, moved and released at the start, and again at the
    recovery. *)
Example program_demo :
  (List.filter is_attach (p_calls (procs (session (demo_end none_refused)))) =
     [PAttach 7; PAttach 8; PAttach 7; PAttach 8]) ∧
  stuck (session (demo_end none_refused)) = false.
Proof. split; vm_compute; reflexivity. Qed.

Lemma program_gives_handles_back_witness :
  stuck (session (demo_end none_refused)) = false ∧
  counter (procs (session (demo_end none_refused))) = ∅ ∧
  replacers (session (demo_end none_refused)) = [].
Proof.
  assert (stuck (session (demo_end none_refused)) = false) as Hs by (vm_compute; reflexivity).
  split; [exact Hs|]. unfold demo_end in *.
  apply (program_gives_handles_back (mkOptions "/m" false) (demo_program none_refused no_failure));
    [reflexivity..|exact Hs].
Defined.
