(* ===== verification/Behaviour.v ===== *)
(** * What the requests do

    The exact effect of the main requests, on success and on error:
    reading and writing through a handle, opening and releasing it, and
    requests on objects the file system does not know. *)

From S2P Require Import Prelude Path Float Types External Concrete Filter Injectors InodeMap.
From S2P Require Import HookFs FsImpl Dispatch Locks Transparency FaultAbort Rpc Invariant.

#[local] Open Scope string_scope.
#[local] Open Scope Z_scope.
#[local] Open Scope list_scope.

(** ** Running a handler *)
Section runs.
Context `{X : Ext}.
Abbreviation H A := (M (FsState X) HookFsError A).

(** A guard taken and dropped. *)
Definition peek (l : lock) (s : FsState X) : FsState X :=
  on_io (log (ERelease l)) (on_io (log (EAcquire l Shared)) s).

Lemma with_lock_run {A} l md (m : H A) s :
  with_lock l md m s =
    let '(r, s') := m (on_io (log (EAcquire l md)) s) in (r, on_io (log (ERelease l)) s').
Proof. done. Qed.

Lemma bind_run {A B} (m : H A) (k : A → H B) s a s' :
  m s = (Done a, s') → bind m k s = k a s'.
Proof. intros Hm. unfold bind. by rewrite Hm. Qed.

Lemma bind_fail {A B} (m : H A) (k : A → H B) s e s' :
  m s = (Fail e, s') → bind m k s = (Fail e, s').
Proof. intros Hm. unfold bind. by rewrite Hm. Qed.

(** The lookup before an injection, when it leads to none. *)
Lemma peek_run {A} l (look : HookFs X → outcome HookFsError A) m (f : A → string) (s : FsState X) :
  look (hook s) ≠ Panic →
  (enable_injection (hook s) = false ∨ ∃ e, look (hook s) = Fail e) →
  (x <- with_lock l Shared (try (y <- gets (λ s, hook s) ;; lift (look y))) ;;
   match x with Some a => inject m (f a) | None => ret tt end) s = (Done tt, peek l s).
Proof.
  intros Hp Hor. unfold bind at 1. rewrite with_lock_run. unfold try, bind, gets, lift.
  cbn [hook on_io]. destruct (look (hook s)) as [a|e|]; [|done|done].
  destruct Hor as [He|[e ?]]; [|done]. by apply inject_disabled.
Qed.

Lemma fh_get_no_panic {A} (m : Slab A) k : fh_get m k ≠ Panic.
Proof. unfold fh_get. by destruct (slab_get k m). Qed.

Lemma inode_get_path_no_panic m i : inode_get_path m i ≠ Panic.
Proof. unfold inode_get_path. by destruct (_ ≫= _). Qed.

Lemma inject_with_fh_run m fh s :
  enable_injection (hook s) = false ∨ slab_get fh (opened_files (hook s)) = None →
  inject_with_fh m fh s = (Done tt, peek OpenedFilesLock s).
Proof.
  intros Hor. apply (peek_run OpenedFilesLock (λ h, fh_get (opened_files h) fh));
    [apply fh_get_no_panic|]. unfold fh_get. destruct Hor as [|Hn]; [by left|].
  right. rewrite Hn. eauto.
Qed.

Lemma inject_with_dir_fh_run m fh s :
  enable_injection (hook s) = false ∨ slab_get fh (opened_dirs (hook s)) = None →
  inject_with_dir_fh m fh s = (Done tt, peek OpenedDirsLock s).
Proof.
  intros Hor. apply (peek_run OpenedDirsLock (λ h, fh_get (opened_dirs h) fh));
    [apply fh_get_no_panic|]. unfold fh_get. destruct Hor as [|Hn]; [by left|].
  right. rewrite Hn. eauto.
Qed.

Lemma inject_with_ino_run m i s :
  enable_injection (hook s) = false ∨ (∃ e, inode_get_path (inode_map (hook s)) i = Fail e) →
  inject_with_ino m i s = (Done tt, peek InodeMapLock s).
Proof.
  intros Hor. by apply (peek_run InodeMapLock (λ h, inode_get_path (inode_map h) i) _ (λ p, p));
    [apply inode_get_path_no_panic|].
Qed.

Lemma inject_with_name_run m i n s :
  enable_injection (hook s) = false ∨ (∃ e, inode_get_path (inode_map (hook s)) i = Fail e) →
  inject_with_parent_and_name m i n s = (Done tt, peek InodeMapLock s).
Proof.
  intros Hor. by apply (peek_run InodeMapLock (λ h, inode_get_path (inode_map h) i) _
    (λ p, join p n)); [apply inode_get_path_no_panic|].
Qed.

Lemma call_run c s r w :
  kcall c (world (fs_io s)) = (r, w) →
  call c s = (Done r, on_io (λ io, log (ECall c) (set_world w io)) s).
Proof. intros Hk. unfold call, lift_io, zoom, sys. by rewrite Hk. Qed.

Lemma inject_reply_as_disabled {R} wrap unwrap m p (r : R) s :
  enable_injection (hook s) = false → unwrap (wrap r) = Some r →
  inject_reply_as wrap unwrap m p r s = (Done r, s).
Proof.
  intros He Hu. unfold inject_reply_as, bind. rewrite inject_reply_disabled by done.
  unfold ret. by rewrite Hu.
Qed.

(** The trace of a request. *)
Definition traced (s s' : FsState X) (w : World) (evs : list event) : Prop :=
  world (fs_io s') = w ∧ trace (fs_io s') = trace (fs_io s) ++ evs.

(** ** Reading and writing *)

(** Resizing a buffer to what the kernel wrote leaves what it wrote. *)
Lemma resize_overwrite bs size :
  Z.of_nat (length bs) ≤ size →
  vec_resize (Z.to_nat (Z.of_nat (length bs)))
    (overwrite (vec_resize (Z.to_nat size) []) bs) = bs.
Proof.
  intros Hl. unfold overwrite, vec_resize at 1. rewrite Nat2Z.id, take_app_length.
  rewrite length_app. replace (length bs - _)%nat with 0%nat by lia.
  simpl. by rewrite app_nil_r.
Qed.

(** A file handle looked up under its lock. *)
Lemma fh_lookup_run {B} fh (k : File → H B) s f :
  slab_get fh (opened_files (hook s)) = Some f →
  (of_ <- gets (λ s, opened_files (hook s)) ;; file <- lift (fh_get of_ fh) ;; k file) s = k f s.
Proof. intros Hf. unfold bind, gets, lift, fh_get. by rewrite Hf. Qed.

Lemma async_read_run fd size offset s r w :
  kcall (SPread fd size offset) (world (fs_io s)) = (r, w) →
  async_read fd size offset s =
    (if rc r =? -1 then Fail (Sys (thread_errno r))
     else Done (vec_resize (Z.to_nat (rc r)) (overwrite (vec_resize (Z.to_nat size) []) (written r))),
     on_io (λ io, log (ECall (SPread fd size offset)) (set_world w io)) s).
Proof.
  intros Hk. unfold async_read, spawn_blocking, bind. rewrite (call_run _ _ _ _ Hk).
  unfold libc_check, is_minus_one. by destruct (rc r =? -1).
Qed.

Lemma async_write_run fd data offset s r w :
  kcall (SPwrite fd data offset) (world (fs_io s)) = (r, w) →
  async_write fd data offset s =
    (if rc r =? -1 then Fail (Sys (thread_errno r)) else Done (rc r),
     on_io (λ io, log (ECall (SPwrite fd data offset)) (set_world w io)) s).
Proof.
  intros Hk. unfold async_write, spawn_blocking, bind. rewrite (call_run _ _ _ _ Hk).
  unfold libc_check, is_minus_one. by destruct (rc r =? -1).
Qed.

(** C21: a read through an open handle, with injection disabled, is one
    [pread] of the requested size and offset on the descriptor of the
    handle: the reply is exactly the bytes the kernel wrote (it writes as
    many as it returns, at most the size), or its error; nothing else
    changes. *)
Theorem read_returns_kernel_bytes req i fh offset size (s : FsState X) f r w :
  enable_injection (hook s) = false →
  slab_get fh (opened_files (hook s)) = Some f →
  kcall (SPread (file_fd f) size offset) (world (fs_io s)) = (r, w) →
  (rc r = -1 ∨ rc r = Z.of_nat (length (written r)) ∧ rc r ≤ size) →
  ∃ s', serve req (OpRead i fh offset size) s =
      (Some (if rc r =? -1 then RepError (thread_errno r) else RepData (written r)), s') ∧
    hook s' = hook s ∧
    traced s s' w [EAcquire OpenedFilesLock Shared; ERelease OpenedFilesLock;
      EAcquire OpenedFilesLock Shared; ECall (SPread (file_fd f) size offset);
      ERelease OpenedFilesLock].
Proof.
  intros He Hf Hk Hr. cbn [serve]. unfold AsyncFs.read, AsyncFs.spawn_reply, Handlers.read.
  rewrite (bind_run _ _ _ _ _ (inject_with_fh_run Method.READ fh s (or_introl He))).
  rewrite with_lock_run, (fh_lookup_run fh _ _ f) by done.
  unfold bind at 1. rewrite (async_read_run _ _ _ _ r w) by done.
  destruct (Z.eqb_spec (rc r) (-1)) as [Hm|Hm].
  - eexists. split; [reflexivity|]. split; [done|]. split; [done|].
    simpl. by rewrite <- !app_assoc.
  - destruct Hr as [?|[Hl Hle]]; [done|].
    unfold inject_reply_data. rewrite inject_reply_as_disabled by done.
    rewrite Hl, resize_overwrite by lia.
    eexists. split; [reflexivity|]. split; [done|]. split; [done|].
    simpl. by rewrite <- !app_assoc.
Qed.

(** The injectors that rewrite the data of a write. *)
Definition is_mistake (i : Injector X) : bool := match i with IMistake _ => true | _ => false end.

Lemma no_mistake_write_data (is_ : MultiInjector X) p d io :
  Forall (λ i, is_mistake i = false) is_ →
  multi_inject_write_data is_ p d io = (Done d, io).
Proof. induction 1 as [|[] is_ Hi HF IH]; cbn [multi_inject_write_data]; done. Qed.

(** The write-data injection, when it rewrites nothing. *)
Lemma inject_write_data_run fh data (s : FsState X) f p :
  Forall (λ i, is_mistake i = false) (injector (hook s)) →
  slab_get fh (opened_files (hook s)) = Some f →
  rebuild_path_of (hook s) (file_original_path f) = Done p →
  inject_write_data fh data s =
    (Done data, on_io (λ io, log (ERelease OpenedFilesLock) (log (ERelease InjectorLock)
       (log (EAcquire InjectorLock Shared) (log (EAcquire OpenedFilesLock Shared) io)))) s).
Proof.
  intros Hi Hf Hp.
  unfold inject_write_data, with_lock, rebuild_path, try, bind, modify, finally, gets, lift, fh_get.
  cbn [hook on_io]. rewrite Hf.
  cbn -[multi_inject_write_data rebuild_path_of log lift_io]. rewrite Hp.
  unfold lift_io, zoom. by rewrite no_mistake_write_data.
Qed.

(** C22: a write through an open handle, with injection disabled and no
    mistake injector configured, passes exactly the caller's bytes to one
    [pwrite] at the caller's offset and replies with the count the kernel
    returned, or its error. *)
Theorem write_passes_data req i fh offset data (s : FsState X) f r w p :
  enable_injection (hook s) = false →
  Forall (λ i, is_mistake i = false) (injector (hook s)) →
  slab_get fh (opened_files (hook s)) = Some f →
  rebuild_path_of (hook s) (file_original_path f) = Done p →
  kcall (SPwrite (file_fd f) data offset) (world (fs_io s)) = (r, w) →
  ∃ s', serve req (OpWrite i fh offset data) s =
      (Some (if rc r =? -1 then RepError (thread_errno r) else RepWritten (as_u32 (rc r))), s') ∧
    hook s' = hook s ∧ world (fs_io s') = w ∧
    ∃ locks locks', Forall no_call (locks ++ locks') ∧
      trace (fs_io s') = trace (fs_io s) ++ locks ++ ECall (SPwrite (file_fd f) data offset) :: locks'.
Proof.
  intros He Hi Hf Hp Hk. cbn [serve]. unfold AsyncFs.write, AsyncFs.spawn_reply, Handlers.write.
  rewrite (bind_run _ _ _ _ _ (inject_with_fh_run Method.WRITE fh s (or_introl He))).
  rewrite (bind_run _ _ _ _ _ (inject_write_data_run fh data (peek OpenedFilesLock s) f p Hi Hf Hp)).
  rewrite with_lock_run, (fh_lookup_run fh _ _ f) by done.
  unfold bind at 1. rewrite (async_write_run _ _ _ _ r w) by done.
  destruct (rc r =? -1); [|unfold inject_reply_write; rewrite inject_reply_as_disabled by done];
    (eexists; split; [reflexivity|]; split; [done|]; split; [done|];
     eexists [_; _; _; _; _; _; _], [_]; split; [|simpl; by rewrite <- !app_assoc];
     by repeat constructor).
Qed.

(** ** Opening and releasing *)

(** The flags the file system opens with: no [O_APPEND], no [O_DIRECT]. *)
Definition open_flags_of (flags : Z) : Z :=
  Z.land (Z.land (Z.land flags (Z.lnot O_APPEND)) (Z.lnot O_DIRECT)) oflag_all.

Lemma open_flags_cleared flags :
  Z.testbit (open_flags_of flags) 10 = false ∧ Z.testbit (open_flags_of flags) 14 = false.
Proof.
  unfold open_flags_of. change O_APPEND with (2 ^ 10). change O_DIRECT with (2 ^ 14).
  rewrite !Z.land_spec, !Z.lnot_spec, !Z.pow2_bits_true by lia.
  by rewrite !andb_false_r.
Qed.

Lemma nix_call_run {A} c (f : sys_ret c → nix_result A) s r w :
  kcall c (world (fs_io s)) = (r, w) →
  nix_call c f s = (nix_outcome (f r), on_io (λ io, log (ECall c) (set_world w io)) s).
Proof.
  intros Hk. unfold nix_call, spawn_blocking, bind. rewrite (call_run _ _ _ _ Hk). unfold lift.
  by destruct (f r).
Qed.

Lemma get_path_run {B} i (k : string → H B) s p :
  inode_get_path (inode_map (hook s)) i = Done p → bind (get_path i) k s = k p s.
Proof. intros Hp. unfold bind, get_path, bind, gets, lift. by rewrite Hp. Qed.

Lemma insert_file_run f s :
  insert_file f s =
    (Done (slab_insert f (opened_files (hook s))).1,
     on_hook (set_opened_files (slab_insert f (opened_files (hook s))).2)
       (on_io (λ io, log (ERelease OpenedFilesLock) (log (EAcquire OpenedFilesLock Exclusive) io)) s)).
Proof.
  unfold insert_file, with_lock, bind, modify, finally, gets. cbn [hook on_io].
  by destruct (slab_insert f (opened_files (hook s))).
Qed.

(** The state after an open that returned descriptor [fd] for [path]. *)
Definition opened (s s' : FsState X) (fh : Z) (f : File) : Prop :=
  slab_get fh (opened_files (hook s)) = None ∧
  (∀ k, slab_get k (opened_files (hook s')) =
     if bool_decide (k = fh) then Some f else slab_get k (opened_files (hook s))) ∧
  hook s' = set_opened_files (opened_files (hook s')) (hook s).

Lemma open_run `{!SlabLaws X} req i flags (s : FsState X) path fd w :
  enable_injection (hook s) = false →
  inode_get_path (inode_map (hook s)) i = Done path →
  kcall (SOpen path (open_flags_of flags) S_IRWXU) (world (fs_io s)) = (inr fd, w) →
  ∃ fh s', serve req (OpOpen i flags) s = (Some (RepOpened fh 0), s') ∧
    world (fs_io s') = w ∧ opened s s' fh (mkFile fd path).
Proof.
  intros He Hp Hk. cbn [serve]. unfold AsyncFs.open, AsyncFs.spawn_reply, Handlers.open.
  rewrite (bind_run _ _ _ _ _ (inject_with_ino_run Method.OPEN i s (or_introl He))).
  cbv zeta. rewrite with_lock_run, (get_path_run i _ _ path) by done. unfold async_open.
  unfold bind at 1. rewrite (nix_call_run (SOpen path (open_flags_of flags) S_IRWXU) _ _ (inr fd) w) by done.
  cbn [nix_outcome].
  rewrite (bind_run _ _ _ _ _ (insert_file_run _ _)). cbn [hook on_io on_hook peek].
  set (ins := slab_insert (mkFile fd path) (opened_files (hook s))).
  unfold inject_reply_open. rewrite inject_reply_as_disabled by done.
  exists ins.1. eexists. split; [reflexivity|]. split; [done|]. split_and!; simpl.
  - apply slab_insert_fresh.
  - intros k. apply slab_insert_get.
  - done.
Qed.

(** C23: opening. With injection disabled, an open of a known inode whose
    [open] succeeds replies with a handle that was not in use and now
    stands for the kernel's descriptor; every other handle and the inode
    map are unchanged. The kernel is asked to open the inode's path
    without [O_APPEND] and [O_DIRECT]. *)
Theorem open_allocates_handle `{!SlabLaws X} req i flags (s : FsState X) path fd w :
  enable_injection (hook s) = false →
  inode_get_path (inode_map (hook s)) i = Done path →
  kcall (SOpen path (open_flags_of flags) S_IRWXU) (world (fs_io s)) = (inr fd, w) →
  Z.testbit (open_flags_of flags) 10 = false ∧ Z.testbit (open_flags_of flags) 14 = false ∧
  ∃ fh s', serve req (OpOpen i flags) s = (Some (RepOpened fh 0), s') ∧
    world (fs_io s') = w ∧ opened s s' fh (mkFile fd path).
Proof.
  intros He Hp Hk. destruct (open_flags_cleared flags) as [H1 H2].
  split; [done|]. split; [done|]. by apply open_run.
Qed.

Lemma release_run `{!SlabLaws X} req i fh (s : FsState X) f r w :
  slab_get fh (opened_files (hook s)) = Some f →
  kcall (SClose (file_fd f)) (world (fs_io s)) = (r, w) →
  ∃ s', serve req (OpRelease i fh) s =
      (Some (match r with inl e => RepError (into_c_int (from_nix e)) | inr _ => RepOk end), s') ∧
    traced s s' w [EAcquire OpenedFilesLock Exclusive; ECall (SClose (file_fd f));
      ERelease OpenedFilesLock] ∧
    hook s' = set_opened_files (opened_files (hook s')) (hook s) ∧
    ∀ k, slab_get k (opened_files (hook s')) =
      match r with
      | inl _ => slab_get k (opened_files (hook s))
      | inr _ => if bool_decide (k = fh) then None else slab_get k (opened_files (hook s))
      end.
Proof.
  intros Hf Hk. cbn [serve]. unfold AsyncFs.release, AsyncFs.spawn_reply, Handlers.release.
  rewrite with_lock_run. unfold bind at 1, try at 1, bind at 1, gets at 1, lift at 1, fh_get at 1.
  cbn [hook on_io]. rewrite Hf. unfold bind at 1, async_close.
  rewrite (nix_call_run (SClose (file_fd f)) _ _ r w) by done.
  pose proof (slab_remove_get _ fh (opened_files (hook s))) as Hr. rewrite Hf in Hr.
  destruct Hr as (m' & Hr & Hg). destruct r as [e|[]]; cbn [nix_outcome].
  - eexists. split; [reflexivity|]. unfold traced. simpl. rewrite <- !app_assoc.
    split_and!; [done|done| |done]. by destruct (hook s).
  - unfold bind at 1, gets at 1. cbn [hook on_io]. rewrite Hr.
    eexists. split; [reflexivity|]. unfold traced. simpl. rewrite <- !app_assoc. by split_and!.
Qed.

(** C24: the life of a handle. Releasing the handle of an open closes
    exactly the descriptor that open obtained, and leaves the table of
    handles as it was before the open; a [close] that fails is reported
    and keeps the handle. *)
Theorem open_release_roundtrip `{!SlabLaws X} req i flags (s : FsState X) path fd w r w' :
  enable_injection (hook s) = false →
  inode_get_path (inode_map (hook s)) i = Done path →
  kcall (SOpen path (open_flags_of flags) S_IRWXU) (world (fs_io s)) = (inr fd, w) →
  kcall (SClose fd) w = (r, w') →
  ∃ fh s1 s2, serve req (OpOpen i flags) s = (Some (RepOpened fh 0), s1) ∧
    serve req (OpRelease i fh) s1 =
      (Some (match r with inl e => RepError (into_c_int (from_nix e)) | inr _ => RepOk end), s2) ∧
    traced s1 s2 w' [EAcquire OpenedFilesLock Exclusive; ECall (SClose fd);
      ERelease OpenedFilesLock] ∧
    (r = inr tt →
     ∀ k, slab_get k (opened_files (hook s2)) = slab_get k (opened_files (hook s))) ∧
    (∀ e, r = inl e → slab_get fh (opened_files (hook s2)) = Some (mkFile fd path)).
Proof.
  intros He Hp Hk Hc.
  destruct (open_run req i flags s path fd w He Hp Hk) as (fh & s1 & Ho & Hw & Hfresh & Hg & _).
  destruct (release_run req i fh s1 (mkFile fd path) r w') as (s2 & Hrel & Ht & _ & Hg2).
  { rewrite Hg. by rewrite bool_decide_eq_true_2. }
  { rewrite Hw. done. }
  exists fh, s1, s2. split_and!; [done|done|done| |].
  - intros -> k. rewrite Hg2, Hg. case_bool_decide; [by subst|done].
  - intros e ->. rewrite Hg2, Hg. by rewrite bool_decide_eq_true_2.
Qed.

(** ** Requests on unknown objects *)

Inductive object := OInode (ino : Z) | OFile (fh : Z) | ODir (fh : Z).

(** The object a request looks up first. *)
Definition op_object (op : FuseOp) : option object :=
  match op with
  | OpLookup i _ | OpGetattr i | OpSetattr i _ _ _ _ _ _ | OpReadlink i | OpMknod i _ _ _ _
  | OpMkdir i _ _ _ | OpUnlink i _ | OpRmdir i _ | OpSymlink i _ _ | OpRename i _ _ _ _
  | OpLink i _ _ | OpOpen i _ | OpOpendir i _ | OpFsyncdir i _ | OpStatfs i
  | OpSetxattr i _ _ _ | OpGetxattr i _ _ | OpListxattr i _ | OpRemovexattr i _ | OpAccess i _
  | OpCreate i _ _ _ _ => Some (OInode i)
  | OpRead _ fh _ _ | OpWrite _ fh _ _ | OpFlush _ fh | OpFsync _ fh | OpRelease _ fh => Some (OFile fh)
  | OpReaddir _ fh _ | OpReleasedir _ fh => Some (ODir fh)
  | OpForget _ _ | OpGetlk | OpSetlk | OpBmap _ _ _ => None
  end.

(** The requests that remove a handle. *)
Definition releases (op : FuseOp) : bool :=
  match op with OpRelease _ _ | OpReleasedir _ _ => true | _ => false end.

Definition unknown (h : HookFs X) (o : object) : Prop :=
  match o with
  | OInode i => inode_map h !! i ≫= node_get_path = None
  | OFile fh => slab_get fh (opened_files h) = None
  | ODir fh => slab_get fh (opened_dirs h) = None
  end.

Lemma aborts_skip {A B} e w (m : H A) (k : A → H B) s a l :
  m s = (Done a, peek l s) → aborts e w (k a) (peek l s) → aborts e w (bind m k) s.
Proof.
  intros Hm (s' & Hk & Hu). exists s'. split; [unfold bind; by rewrite Hm|].
  apply (undone_extends w s (peek l s)); [done| |done].
  exists [EAcquire l Shared; ERelease l]. split; [|by repeat constructor].
  unfold peek. simpl. by rewrite <- app_assoc.
Qed.

Lemma aborts_with_lock {A} e w l md (m : H A) s :
  (∀ s1, hook s1 = hook s → world (fs_io s1) = world (fs_io s) → m s1 = (Fail e, s1)) →
  world (fs_io s) = w → aborts e w (with_lock l md m) s.
Proof.
  intros Hm <-. eexists. rewrite with_lock_run, Hm by done. split; [done|]. split_and!; [done|done|].
  exists [EAcquire l md; ERelease l]. split; [|by repeat constructor].
  simpl. by rewrite <- app_assoc.
Qed.

Lemma get_path_unknown {B} i (k : string → H B) s :
  unknown (hook s) (OInode i) → bind (get_path i) k s = (Fail (InodeNotFound i), s).
Proof.
  unfold unknown. intros Hu. unfold bind, get_path, bind, gets, lift, inode_get_path.
  by rewrite Hu.
Qed.

Lemma fh_lookup_unknown {B} fh (k : File → H B) s :
  unknown (hook s) (OFile fh) →
  (of_ <- gets (λ s, opened_files (hook s)) ;; file <- lift (fh_get of_ fh) ;; k file) s =
    (Fail (FhNotFound fh), s).
Proof. unfold unknown. intros Hf. unfold bind, gets, lift, fh_get. by rewrite Hf. Qed.

Lemma dir_lookup_unknown {B} fh (k : Dir → H B) s :
  unknown (hook s) (ODir fh) →
  (od <- gets (λ s, opened_dirs (hook s)) ;; dir <- lift (fh_get od fh) ;; k dir) s =
    (Fail (FhNotFound fh), s).
Proof. unfold unknown. intros Hf. unfold bind, gets, lift, fh_get. by rewrite Hf. Qed.

Lemma inject_write_data_unknown fh data s :
  unknown (hook s) (OFile fh) →
  inject_write_data fh data s = (Done data, peek OpenedFilesLock s).
Proof.
  unfold unknown. intros Hf. unfold inject_write_data, with_lock, try, bind, modify, finally, gets,
    lift, fh_get. cbn [hook on_io]. by rewrite Hf.
Qed.

Lemma unknown_inode_no_injection h i :
  unknown h (OInode i) →
  enable_injection h = false ∨ ∃ e, inode_get_path (inode_map h) i = Fail e.
Proof.
  unfold unknown. intros Hu. right. exists (InodeNotFound i). unfold inode_get_path. by rewrite Hu.
Qed.

Definition object_error (o : object) : HookFsError :=
  match o with OInode i => InodeNotFound i | OFile fh | ODir fh => FhNotFound fh end.

(** The handlers, on an unknown object: no injection, no work. *)
Ltac unknown_steps Hu :=
  repeat match goal with
  | |- aborts _ _ (bind (inject_with_ino _ _) _) _ =>
      eapply aborts_skip; [apply inject_with_ino_run, unknown_inode_no_injection, Hu|]
  | |- aborts _ _ (bind (inject_with_parent_and_name _ _ _) _) _ =>
      eapply aborts_skip; [apply inject_with_name_run, unknown_inode_no_injection, Hu|]
  | |- aborts _ _ (bind (inject_with_fh _ _) _) _ =>
      eapply aborts_skip; [apply inject_with_fh_run; right; apply Hu|]
  | |- aborts _ _ (bind (inject_with_dir_fh _ _) _) _ =>
      eapply aborts_skip; [apply inject_with_dir_fh_run; right; apply Hu|]
  | |- aborts _ _ (bind (inject_write_data _ _) _) _ =>
      eapply aborts_skip; [apply inject_write_data_unknown, Hu|]
  end.

(** Removing a handle that is not there panics. *)
Lemma release_unknown `{!SlabLaws X} req op (s : FsState X) o :
  releases op = true → op_object op = Some o → unknown (hook s) o →
  ∃ s', serve req op s = (None, s') ∧ undone (world (fs_io s)) s s'.
Proof.
  assert (∀ l md, undone (world (fs_io s)) s (on_io (log (ERelease l)) (on_io (log (EAcquire l md)) s)))
    as Hlocked.
  { intros l md. split_and!; [done..|]. exists [EAcquire l md; ERelease l].
    split; [|by repeat constructor]. simpl. by rewrite <- app_assoc. }
  intros Hop Ho Hu. destruct op; try discriminate Hop; injection Ho as <-; cbn [unknown serve] in *;
    (eexists; split; [|eapply Hlocked]); unfold_session; unfold AsyncFs.spawn_reply; unfold_handler;
    rewrite with_lock_run.
  - pose proof (slab_remove_get _ fh (opened_files (hook s))) as Hr. rewrite Hu in Hr.
    unfold bind, try, gets, lift, fh_get, ret. cbn [hook on_io]. rewrite Hu. cbn [hook on_io]. by rewrite Hr.
  - pose proof (slab_remove_get _ fh (opened_dirs (hook s))) as Hr. rewrite Hu in Hr.
    unfold bind, gets. cbn [hook on_io]. by rewrite Hr.
Qed.

(** C25: a request whose first object the file system does not know, an
    inode that was never looked up or has no path left, or a handle that is
    not open, is answered with [EFAULT], but for the two requests that
    release a handle, which panic in their task and are not answered. In
    every case no injector runs, no system call is made and the state is
    unchanged. (A forget is not answered at all; the locks and [bmap] look
    up no object.) *)
Theorem unknown_object_is_efault `{!SlabLaws X} req op (s : FsState X) o :
  op_object op = Some o → unknown (hook s) o →
  ∃ s', serve req op s = (if releases op then None else Some (RepError EFAULT), s') ∧
    hook s' = hook s ∧ world (fs_io s') = world (fs_io s) ∧
    ∃ evs, trace (fs_io s') = trace (fs_io s) ++ evs ∧ Forall no_call evs.
Proof.
  intros Ho Hu. destruct (releases op) eqn:Hrel; [by eapply release_unknown|].
  change (∃ s', serve req op s = (Some (RepError EFAULT), s') ∧ undone (world (fs_io s)) s s').
  assert (EFAULT = into_c_int (object_error o)) as -> by by destruct o.
  destruct op; cbn [op_object serve releases] in *; try discriminate Ho; try discriminate Hrel;
    injection Ho as <-;
    unfold_session; apply spawn_reply_aborts; unfold_handler; unknown_steps Hu; cbv zeta;
    (apply aborts_with_lock; [intros s1 Hh _|done]);
    first [apply get_path_unknown|apply fh_lookup_unknown|apply dir_lookup_unknown];
    rewrite Hh; apply Hu.
Qed.

End runs.
