(* ===== verification/Protocol.v ===== *)
(** * Conversations with the kernel

    Properties of sequences of requests: the reference counts of lookups
    and forgets, a directory read in pages, and times that are stored and
    read back. *)

From S2P Require Import Prelude Path Float Types External Concrete Filter Injectors InodeMap.
From S2P Require Import HookFs FsImpl Dispatch Locks Transparency FaultAbort Rpc Invariant.
From S2P Require Import Entries Behaviour.

#[local] Open Scope string_scope.
#[local] Open Scope Z_scope.
#[local] Open Scope list_scope.

(** ** Reference counts *)

(** What an entry reply does to the inode map. *)
Definition remember (m : InodeMap) (i : Z) (path : string) : InodeMap :=
  increase_ref (insert_path m i path) i.

Lemma remember_lookup m i path :
  remember m i path =
    <[i := mkNode (as_u64 (ref_count (default node_default (m !! i)) + 1))
             (paths (node_insert (default node_default (m !! i)) path))]> m.
Proof.
  unfold remember, increase_ref, insert_path. rewrite lookup_insert_eq.
  rewrite insert_insert_eq. f_equal. f_equal. unfold node_insert. by destruct (existsb _ _).
Qed.

Fixpoint remember_n (n : nat) (m : InodeMap) (i : Z) (path : string) : InodeMap :=
  match n with
  | O => m
  | S n' => remember (remember_n n' m i path) i path
  end.

Lemma remember_count m i path n :
  Z.of_nat (S n) < 2 ^ 64 → m !! i = None →
  ∃ ps, remember_n (S n) m i path = <[i := mkNode (as_u64 (Z.of_nat (S n))) ps]> m.
Proof.
  intros Hn Hm. induction n as [|n IH].
  - cbn [remember_n]. rewrite remember_lookup, Hm. by eexists.
  - destruct IH as [ps IH]; [lia|].
    change (remember_n (S (S n)) m i path) with (remember (remember_n (S n) m i path) i path).
    rewrite IH, remember_lookup.
    rewrite lookup_insert_eq, insert_insert_eq. cbn [default from_option id ref_count].
    rewrite (uwrap_id 64 (Z.of_nat (S n))) by (unfold in_u; lia).
    replace (Z.of_nat (S n) + 1) with (Z.of_nat (S (S n))) by lia. by eexists.
Qed.

(** C26: lookups balanced by one forget. After [n] entry replies for an
    inode that was not in the map, one forget of [n] lookups restores the
    map, and a forget of fewer leaves the inode known. *)
Theorem refcount_balanced (m : InodeMap) i path n k :
  Z.of_nat (S n) < 2 ^ 64 → m !! i = None →
  decrease_ref (remember_n (S n) m i path) i k =
    if Z.of_nat (S n) <=? k then m else remember_n (S n) m i path.
Proof.
  intros Hn Hm. destruct (remember_count m i path n) as [ps ->]; [lia|done|].
  unfold decrease_ref. rewrite lookup_insert_eq. cbn [ref_count].
  rewrite uwrap_id by (unfold in_u; lia). destruct (_ <=? k); [|done].
  rewrite delete_insert_eq. by apply delete_id.
Qed.

(** Forgets that arrive in parts are lost. A forget of fewer lookups
    than the count does not lower the count, so however many such forgets
    the kernel sends, their sum included, the inode stays in the map. *)
Theorem partial_forgets_leak `{X : Ext} req i (s : FsState X) node ks :
  inode_map (hook s) !! i = Some node → Forall (λ k, k < ref_count node) ks →
  inode_map (hook (fold_left (λ s k, (serve req (OpForget i k) s).2) ks s)) !! i = Some node.
Proof.
  intros Hi HF. revert s Hi. induction HF as [|k ks Hk HF IH]; intros s Hi; [done|].
  cbn [fold_left]. apply IH. cbn [serve]. unfold AsyncFs.forget, Handlers.forget, update_inode_map.
  rewrite with_lock_run. simpl. unfold decrease_ref. rewrite Hi.
  destruct (Z.leb_spec (ref_count node) k); [lia|done].
Qed.

Definition demo_looked_up : FsState Demo :=
  (serve demo_req (OpLookup 1 "x") (serve demo_req (OpLookup 1 "x") (demo_fs [] false)).2).2.

Lemma refcount_balanced_witness :
  decrease_ref (remember_n 2 ∅ 4 "/d/x") 4 2 = ∅.
Proof. apply (refcount_balanced ∅ 4 "/d/x" 1 2); [lia|reflexivity]. Defined.

(** Two lookups, then two forgets of one lookup each. *)
Lemma partial_forgets_leak_witness :
  ∃ node, inode_map (hook demo_looked_up) !! 4 = Some node ∧ ref_count node = 2 ∧
  inode_map (hook (fold_left (λ s k, (serve demo_req (OpForget 4 k) s).2) [1; 1] demo_looked_up)) !! 4
    = Some node.
Proof.
  exists (mkNode 2 ["/d/x"]). split; [vm_compute; reflexivity|]. split; [reflexivity|].
  apply (partial_forgets_leak demo_req 4 demo_looked_up (mkNode 2 ["/d/x"]) [1; 1]).
  - vm_compute. reflexivity.
  - repeat constructor.
Defined.

(** ** Reading a directory in pages *)

Section readdir.
Context `{X : Ext}.

(** The items of a directory from index [k] on: an item's offset is the
    index of the next one. *)
Fixpoint items (k : Z) (es : list DirEntry) : list DirItem :=
  match es with
  | [] => []
  | e :: es' =>
      mkDirItem (d_ino e) (k + 1)
        (match d_type e with Some t => convert_filetype t | None => RegularFile end) (d_name e)
      :: items (k + 1) es'
  end.

(** The items that fit in the reply buffer. *)
Fixpoint page (reply l : list DirItem) : list DirItem :=
  match l with
  | [] => []
  | it :: l' => if dir_full reply it then [] else it :: page (reply ++ [it]) l'
  end.

Lemma items_app k es es' : items k (es ++ es') = items k es ++ items (k + Z.of_nat (length es)) es'.
Proof.
  revert k. induction es as [|e es IH]; intros k; simpl; [by rewrite Z.add_0_r|].
  rewrite IH. do 3 f_equal. lia.
Qed.

Lemma length_items k es : length (items k es) = length es.
Proof. revert k. induction es; intros; simpl; auto. Qed.

Lemma page_take reply l : page reply l = take (length (page reply l)) l.
Proof.
  revert reply. induction l as [|it l IH]; intros reply; simpl; [done|].
  destruct (dir_full reply it); [done|]. simpl. by rewrite <- IH.
Qed.

Lemma readdir_loop_run k es reply (s : FsState X) :
  Forall (λ e, is_Some (d_type e)) es → 0 ≤ k → k + Z.of_nat (length es) < 2 ^ 63 →
  Handlers.readdir_loop k (inr <$> es) reply s = (Done (reply ++ page reply (items k es)), s).
Proof.
  intros HF. revert k reply. induction HF as [|e es [t Ht] HF IH]; intros k reply Hk Hl.
  - simpl. by rewrite app_nil_r.
  - cbn [Handlers.readdir_loop fmap list_fmap nix_outcome items page]. unfold bind, lift.
    rewrite Ht. cbn [length] in Hl. rewrite (swrap_id 64) by (unfold in_s; simpl; lia).
    destruct (dir_full reply _); [by rewrite app_nil_r|].
    rewrite IH by lia. by rewrite <- app_assoc.
Qed.

(** One request of a page. *)
Lemma readdir_run req i fh o (s : FsState X) d es :
  enable_injection (hook s) = false →
  slab_get fh (opened_dirs (hook s)) = Some d →
  (kcall (SDirIter (dir_dir d)) (world (fs_io s))).1 = inr <$> es →
  Forall (λ e, is_Some (d_type e)) es →
  Z.of_nat (length es) < 2 ^ 63 → (o ≤ length es)%nat →
  ∃ s', serve req (OpReaddir i fh (Z.of_nat o)) s =
      (Some (RepDirectory (page [] (items (Z.of_nat o) (drop o es)))), s') ∧ hook s' = hook s.
Proof.
  intros He Hd Hk HF Hl Ho. cbn [serve].
  unfold AsyncFs.readdir, AsyncFs.spawn_reply, Handlers.readdir.
  rewrite (bind_run _ _ _ _ _ (inject_with_dir_fh_run Method.READDIR fh s (or_introl He))).
  cbv zeta. rewrite with_lock_run.
  unfold bind at 1, gets at 1, bind at 1, lift at 1, fh_get at 1. cbn [hook on_io peek].
  rewrite Hd. unfold bind at 1.
  destruct (kcall (SDirIter (dir_dir d)) (world (fs_io s))) as [raw w] eqn:Hc.
  rewrite (call_run (SDirIter (dir_dir d)) _ raw w) by done. cbn [fst] in Hk. rewrite Hk.
  rewrite (uwrap_id 64) by (unfold in_u; lia). rewrite length_fmap, Nat2Z.id.
  destruct (Z.leb_spec (Z.of_nat (length es)) (Z.of_nat o)).
  - rewrite drop_ge by lia. eexists. split; reflexivity.
  - rewrite <- fmap_drop, readdir_loop_run.
    + eexists. split; [reflexivity|reflexivity].
    + by apply Forall_drop.
    + lia.
    + rewrite length_drop. lia.
Qed.

(** A client that reads a directory to its end: it asks for the next page
    at the offset of the last item it got, until a page is empty. *)
Fixpoint read_dir_all (fuel : nat) (req : Request) (i fh o : Z) (s : FsState X)
    : option (list DirItem) * FsState X :=
  match fuel with
  | O => (None, s)
  | S fuel' =>
      match serve req (OpReaddir i fh o) s with
      | (Some (RepDirectory l), s') =>
          match last l with
          | None => (Some [], s')
          | Some it =>
              let '(r, s'') := read_dir_all fuel' req i fh (di_offset it) s' in
              ((λ r, l ++ r) <$> r, s'')
          end
      | (_, s') => (None, s')
      end
  end.

Lemma last_items k es it : last (items k es) = Some it → di_offset it = k + Z.of_nat (length es).
Proof.
  induction es as [|e es _] using rev_ind; [done|].
  rewrite items_app. cbn [items]. rewrite last_snoc. intros [= <-]. simpl. rewrite length_app. simpl. lia.
Qed.

Lemma take_items n k es : take n (items k es) = items k (take n es).
Proof.
  revert n k. induction es as [|e es IH]; intros [|n] k; simpl; try done. by rewrite IH.
Qed.

(** C29: a directory read in pages is read once and completely. If
    injection is disabled, every entry has a type (an entry without one
    fails the request), the directory does not change meanwhile, it has
    fewer than 2^63 entries, and an empty page has room for any item, a
    client that follows the offsets gets every entry exactly once, in
    order, after at most one request more than there are entries, however
    many items fit in a page. *)
Theorem readdir_pages_complete req i fh (s : FsState X) d es fuel :
  enable_injection (hook s) = false →
  slab_get fh (opened_dirs (hook s)) = Some d →
  (∀ w, (kcall (SDirIter (dir_dir d)) w).1 = inr <$> es) →
  Forall (λ e, is_Some (d_type e)) es → Z.of_nat (length es) < 2 ^ 63 →
  (∀ it, dir_full [] it = false) →
  (length es < fuel)%nat →
  (read_dir_all fuel req i fh 0 s).1 = Some (items 0 es).
Proof.
  intros He Hd Hk HF Hl Hroom Hfuel.
  enough (∀ o, (o ≤ length es)%nat → (length es < fuel + o)%nat →
    (read_dir_all fuel req i fh (Z.of_nat o) s).1 = Some (items (Z.of_nat o) (drop o es))) as Hall
    by (apply (Hall 0%nat); lia).
  clear Hfuel. revert s He Hd. induction fuel as [|fuel IH]; intros s He Hd o Ho Hf; [lia|].
  cbn [read_dir_all].
  destruct (readdir_run req i fh o s d es He Hd (Hk _) HF Hl Ho) as (s' & Hs & Hh). rewrite Hs.
  set (rest := drop o es). set (l := page [] (items (Z.of_nat o) rest)).
  pose proof (page_take [] (items (Z.of_nat o) rest)) as Hpage. fold l in Hpage.
  rewrite take_items in Hpage. destruct (last l) as [it|] eqn:Hlast.
  - assert (1 ≤ length l ≤ length rest)%nat as Hlen.
    { pose proof (f_equal length Hpage) as Hpl. rewrite length_items, length_take in Hpl.
      assert (l ≠ []) as Hne by (intros E; by rewrite E in Hlast).
      destruct (decide (length l = 0)%nat) as [E|]; [by apply nil_length_inv in E|lia]. }
    rewrite Hpage in Hlast. apply last_items in Hlast. rewrite Hlast.
    unfold rest in Hlen. rewrite length_drop in Hlen.
    rewrite length_take, Nat.min_l by (unfold rest; rewrite length_drop; lia).
    rewrite <- Nat2Z.inj_add.
    specialize (IH s' ltac:(by rewrite Hh) ltac:(by rewrite Hh) (o + length l)%nat
      ltac:(lia) ltac:(lia)).
    destruct (read_dir_all fuel _ _ _ _ s') as [r s'']. simpl in IH |- *. rewrite IH. simpl.
    f_equal. rewrite Hpage at 1. rewrite <- (take_drop (length l) rest) at 2.
    rewrite items_app, length_take, Nat.min_l by (unfold rest; rewrite length_drop; lia).
    rewrite Nat2Z.inj_add. unfold rest. by rewrite drop_drop.
  - apply last_None in Hlast. simpl. f_equal.
    destruct rest as [|e rest'] eqn:Hr; [done|]. exfalso. revert Hlast. unfold l. simpl.
    by rewrite Hroom.
Qed.

End readdir.

Definition demo_dir : FsState Demo :=
  (serve demo_req (OpOpendir 1 0) (demo_fs [] false)).2.

Lemma readdir_pages_complete_witness :
  (read_dir_all 2 demo_req 1 0 0 demo_dir).1 = Some [mkDirItem 7 1 RegularFile "f"].
Proof.
  apply (readdir_pages_complete demo_req 1 0 demo_dir (mkDir 4 "/d")
    [mkDirEntry 7 "f" (Some DirType.File)] 2).
  - reflexivity.
  - vm_compute. reflexivity.
  - reflexivity.
  - repeat constructor. by eexists.
  - simpl. lia.
  - reflexivity.
  - simpl. lia.
Defined.

(** ** Times and attributes *)

Lemma convert_time_ok {E} sec nsec :
  0 ≤ sec → 0 ≤ nsec < nanos_per_sec → sec * nanos_per_sec + nsec < 2 ^ 63 →
  convert_time (E:=E) (Some (SpecificTime (mkTime sec nsec))) = Done (mkTimespec sec nsec).
Proof.
  unfold nanos_per_sec. intros Hs Hn Hb. unfold convert_time. cbn [st_sec st_nsec].
  rewrite bool_decide_eq_false_2 by lia. unfold nanos_per_sec.
  rewrite swrap_id by (unfold in_s; simpl; lia).
  rewrite Z.quot_div_nonneg, Z.rem_mod_nonneg by lia.
  f_equal. f_equal.
  - rewrite Z.div_add_l by lia. rewrite Z.div_small by lia. lia.
  - rewrite Z.add_comm, Z.mod_add by lia. apply Z.mod_small. lia.
Qed.

(** A [timespec] of a stat call that fits the conversions. *)
Definition valid_time (sec nsec : Z) : Prop := 0 ≤ sec < 2 ^ 63 ∧ 0 ≤ nsec < nanos_per_sec.

(** The attributes the file system reports for a stat. *)
Definition attr_of_stat (st : FileStat) (k : FileType) (a : FileAttr) : Prop :=
  ino a = st_ino st ∧ size a = st_size st ∧ blocks a = st_blocks st ∧
  atime a = mkTime (st_atime st) (st_atime_nsec st) ∧
  mtime a = mkTime (st_mtime st) (st_mtime_nsec st) ∧
  ctime a = mkTime (st_ctime st) (st_ctime_nsec st) ∧
  kind a = k ∧ perm a = Z.land (st_mode st) 4095 ∧
  nlink a = as_u32 (st_nlink st) ∧ uid a = st_uid st ∧ gid a = st_gid st ∧
  rdev a = as_u32 (st_rdev st) ∧ blksize a = as_u32 (st_blksize st).

Definition valid_stat (st : FileStat) : Prop :=
  0 ≤ st_size st < 2 ^ 64 ∧ 0 ≤ st_blocks st < 2 ^ 64 ∧
  valid_time (st_atime st) (st_atime_nsec st) ∧
  valid_time (st_mtime st) (st_mtime_nsec st) ∧
  valid_time (st_ctime st) (st_ctime_nsec st).

Lemma perm_in_u16 m : in_u 16 (Z.land m 4095).
Proof.
  change 4095 with (Z.ones 12). rewrite Z.land_ones by lia.
  pose proof (Z.mod_pos_bound m (2 ^ 12)). unfold in_u. lia.
Qed.

Lemma convert_stat_ok st k :
  kind_of_mode (st_mode st) = Some k → valid_stat st →
  ∃ a, convert_libc_stat_to_fuse_stat st = Done a ∧ attr_of_stat st k a.
Proof.
  intros Hk (Hs & Hb & [Ha1 Ha2] & [Hm1 Hm2] & [Hc1 Hc2]).
  unfold convert_libc_stat_to_fuse_stat. rewrite Hk. unfold bind, lift.
  rewrite !system_time_ok by (done || (unfold nanos_per_sec; lia)).
  eexists. split; [reflexivity|]. unfold attr_of_stat. simpl.
  rewrite !(uwrap_id 64) by done. rewrite (uwrap_id 16) by apply perm_in_u16. by split_and!.
Qed.

Section attributes.
Context `{X : Ext}.

Lemma getattr_run req i (s : FsState X) path answer w :
  enable_injection (hook s) = false →
  inode_get_path (inode_map (hook s)) i = Done path →
  kcall (SLstat path) (world (fs_io s)) = (answer, w) →
  ∃ s', serve req (OpGetattr i) s =
      (match answer with
       | inl e => Some (RepError (into_c_int (from_nix e)))
       | inr st =>
           match convert_libc_stat_to_fuse_stat st with
           | Done a => Some (RepAttr TTL a)
           | Fail e => Some (RepError (into_c_int e))
           | Panic => None
           end
       end, s') ∧ hook s' = hook s.
Proof.
  intros He Hp Hk. cbn [serve]. unfold AsyncFs.getattr, AsyncFs.spawn_reply, Handlers.getattr.
  rewrite (bind_run _ _ _ _ _ (inject_with_ino_run Method.GETATTR i s (or_introl He))).
  rewrite with_lock_run, (get_path_run i _ _ path) by done.
  unfold get_file_attr, async_stat. unfold bind at 2.
  unfold bind at 1. unfold bind at 1.
  rewrite (nix_call_run (SLstat path) _ _ answer w) by done.
  destruct answer as [e|st]; cbn [nix_outcome]; [eexists; split; reflexivity|]. unfold lift.
  destruct (convert_libc_stat_to_fuse_stat st) as [a|e|].
  - rewrite inject_attr_disabled by done. unfold inject_reply_attr.
    rewrite inject_reply_as_disabled by done. eexists. split; reflexivity.
  - eexists. split; reflexivity.
  - eexists. split; reflexivity.
Qed.

(** The times of a stat. *)
Definition stat_times (st : FileStat) : list (Z * Z) :=
  [(st_atime st, st_atime_nsec st); (st_mtime st, st_mtime_nsec st); (st_ctime st, st_ctime_nsec st)].

Lemma convert_stat_before_epoch st k :
  kind_of_mode (st_mode st) = Some k →
  Forall (λ t, in_s 64 t.1 ∧ 0 ≤ t.2 < nanos_per_sec) (stat_times st) →
  Exists (λ t, t.1 < 0) (stat_times st) → convert_libc_stat_to_fuse_stat st = Panic.
Proof.
  intros Hk HF Hex.
  assert (∀ sec nsec, in_s 64 sec ∧ 0 ≤ nsec < nanos_per_sec →
    system_time (E:=HookFsError) sec nsec = if sec <? 0 then Panic else Done (mkTime sec nsec)) as Hst.
  { intros sec nsec [Hs Hn]. destruct (Z.ltb_spec sec 0); [by apply system_time_pre_epoch|].
    apply system_time_ok; [|done]. unfold in_s in Hs. simpl in Hs. lia. }
  unfold stat_times in *. rewrite !Forall_cons in HF. destruct HF as (Ha & Hm & Hc & _).
  unfold convert_libc_stat_to_fuse_stat. rewrite Hk, !Hst by done. unfold bind, lift.
  rewrite !Exists_cons, Exists_nil in Hex. cbn [fst snd] in Hex.
  destruct (Z.ltb_spec (st_atime st) 0); [done|]. destruct (Z.ltb_spec (st_mtime st) 0); [done|].
  destruct (Z.ltb_spec (st_ctime st) 0); [done|]. lia.
Qed.

(** C30: the attributes of a file. With injection disabled, getattr of a
    known inode asks for the [lstat] of the inode's path, and changes
    nothing. If that fails, its error is the reply; a file of no known
    type is answered with [EINVAL]; if the size and the blocks are not
    negative and the three times are from 1970 on, the reply has the
    fields of the stat; and if one of the times is before 1970 there is no
    reply at all, since the conversion of the time panics. *)
Theorem getattr_reports_stat req i (s : FsState X) path answer w :
  enable_injection (hook s) = false →
  inode_get_path (inode_map (hook s)) i = Done path →
  kcall (SLstat path) (world (fs_io s)) = (answer, w) →
  ∃ reply s', serve req (OpGetattr i) s = (reply, s') ∧ hook s' = hook s ∧
    match answer with
    | inl e => reply = Some (RepError (into_c_int (from_nix e)))
    | inr st =>
        match kind_of_mode (st_mode st) with
        | None => reply = Some (RepError EINVAL)
        | Some k =>
            (valid_stat st → ∃ a, reply = Some (RepAttr TTL a) ∧ attr_of_stat st k a) ∧
            (Forall (λ t, in_s 64 t.1 ∧ 0 ≤ t.2 < nanos_per_sec) (stat_times st) →
             Exists (λ t, t.1 < 0) (stat_times st) → reply = None)
        end
    end.
Proof.
  intros He Hp Hk. destruct (getattr_run req i s path answer w He Hp Hk) as (s' & Hs & Hh).
  eexists _, s'. split; [exact Hs|]. split; [done|]. destruct answer as [e|st]; [done|].
  destruct (kind_of_mode (st_mode st)) as [k|] eqn:Hkind.
  - split.
    + intros Hv. destruct (convert_stat_ok st k Hkind Hv) as (a & -> & Hat). eauto.
    + intros HF Hex. by rewrite (convert_stat_before_epoch st k).
  - unfold convert_libc_stat_to_fuse_stat. by rewrite Hkind.
Qed.

(** Times survive a round trip. A time that getattr reports, given
    back in a setattr, reaches [utimensat] with the seconds and
    nanoseconds it was read with, as long as its nanoseconds fit an
    [i64] (until the year 2262). *)
Theorem time_roundtrip sec nsec :
  0 ≤ sec → 0 ≤ nsec < nanos_per_sec → sec * nanos_per_sec + nsec < 2 ^ 63 →
  ∃ t, system_time (E:=HookFsError) sec nsec = Done t ∧
    convert_time (E:=HookFsError) (Some (SpecificTime t)) = Done (mkTimespec sec nsec).
Proof.
  intros Hs Hn Hb. exists (mkTime sec nsec). split; [|by apply convert_time_ok].
  apply system_time_ok; [|done]. unfold nanos_per_sec in *. lia.
Qed.

End attributes.

(** A file, and one that was last read in 1969. *)
Lemma getattr_reports_stat_witness :
  (∃ a, (serve demo_req (OpGetattr 1) (demo_fs [] false)).1 = Some (RepAttr 0 a) ∧
    attr_of_stat (demo_stat "/d") RegularFile a) ∧
  (serve demo_req (OpGetattr 1) (mkFs (hookfs_new "/m" "/old" []) (mkIO (X:=Demo) 0 []))).1 = None.
Proof.
  split.
  - destruct (getattr_reports_stat demo_req 1 (demo_fs [] false) "/d" (inr (demo_stat "/d")) 0)
      as (reply & s' & -> & _ & Hr); [reflexivity..|].
    apply (proj1 Hr). unfold valid_stat, valid_time, nanos_per_sec. simpl. lia.
  - destruct (getattr_reports_stat demo_req 1 (mkFs (hookfs_new "/m" "/old" []) (mkIO (X:=Demo) 0 []))
      "/old" (inr (demo_stat "/old")) 0) as (reply & s' & -> & _ & Hr); [reflexivity..|].
    apply (proj2 Hr).
    + repeat constructor; unfold in_s, nanos_per_sec; simpl; lia.
    + left. simpl. lia.
Defined.

Lemma time_roundtrip_witness :
  ∃ t, system_time (E:=HookFsError) 1600000000 5 = Done t ∧
    convert_time (E:=HookFsError) (Some (SpecificTime t)) = Done (mkTimespec 1600000000 5).
Proof. apply time_roundtrip; unfold nanos_per_sec; lia. Defined.
