(* ===== verification/Effects.v ===== *)
(** * Delays and overridden attributes

    What a client sees of the latency and attribute injectors: a delay
    before the first system call of the request, and attributes with the
    configured fields replaced. *)

From S2P Require Import Prelude Path Float Types External Concrete Filter Injectors InodeMap.
From S2P Require Import HookFs FsImpl Dispatch Locks Transparency InjectorProps FaultAbort Rpc.
From S2P Require Import Invariant Behaviour Protocol.

#[local] Open Scope string_scope.
#[local] Open Scope Z_scope.
#[local] Open Scope list_scope.

(** A filter that passes every draw for a method and a path. *)
Definition always_passes `{X : Ext} (f : Filter X) (method : Z) (path : string) : Prop :=
  match_path f path = true ∧ match_method f method = true ∧
  probability f = percent_probability 100.

Section always.
Context `{X : Ext, !RandLaws X}.

Lemma filter_always {E} (f : Filter X) method path io :
  always_passes f method path →
  ∃ w, filter (E:=E) f method path io = (Done true, set_world w io).
Proof.
  intros (Hp & Hm & Hpr). destruct (filter_run (E:=E) f method path io) as (k & w & Hk & Hrun).
  exists w. rewrite Hrun, Hp, Hm, Hpr.
  change (percent_probability 100) with (f64_of_int 1). by rewrite unit_float_lt_one.
Qed.

(** ** Overridden attributes *)

(** All the injectors are attribute injectors that apply at [path]. *)
Definition overriding (is_ : MultiInjector X) (path : string) (os : list (AttrOverrideInjector X))
    : Prop :=
  is_ = IAttrOverride <$> os ∧ Forall (λ o, always_passes (ai_filter o) Method.LOOKUP path) os.

Lemma overriding_inject is_ m p path os io :
  overriding is_ path os → multi_inject is_ m p io = (Done tt, io).
Proof.
  intros [-> _]. unfold multi_inject. induction os as [|o os IH]; [done|].
  simpl. unfold bind. simpl. apply IH.
Qed.

Lemma overriding_inject_reply is_ m p path os r io :
  overriding is_ path os → multi_inject_reply is_ m p r io = (Done r, io).
Proof.
  intros [-> _]. induction os as [|o os IH]; [done|]. simpl. unfold bind. simpl. apply IH.
Qed.

Lemma overriding_inject_attr is_ a path os io :
  overriding is_ path os →
  ∃ w, multi_inject_attr is_ a path io =
    (Done (fold_left (λ a o, override_attr o a) os a), set_world w io).
Proof.
  intros [-> HF]. revert a io. induction HF as [|o os Ho HF IH]; intros a io.
  - exists (world io). simpl. by destruct io.
  - cbn [multi_inject_attr fmap list_fmap inject_attr_one fold_left].
    unfold bind at 1, attr_inject_attr, bind at 1.
    destruct (filter_always (E:=HookFsError) (ai_filter o) Method.LOOKUP path io Ho) as [w ->].
    unfold ret at 1. destruct (IH (override_attr o a) (set_world w io)) as [w' ->]. by exists w'.
Qed.

(** The macros, when only attribute injectors are configured. *)
Lemma inject_overriding m path p os (s : FsState X) :
  enable_injection (hook s) = true → rebuild_path_of (hook s) path = Done p →
  overriding (injector (hook s)) p os → inject m path s = (Done tt, peek InjectorLock s).
Proof.
  intros He Hp Ho. unfold inject, bind at 1, gets at 1. rewrite He, with_lock_run.
  unfold rebuild_path, bind, gets, lift, lift_io, zoom. cbn [hook on_io]. rewrite Hp.
  by rewrite (overriding_inject _ _ _ p os) by done.
Qed.

Lemma inject_reply_as_overriding {R} wrap unwrap m path p os (r : R) (s : FsState X) :
  enable_injection (hook s) = true → rebuild_path_of (hook s) path = Done p →
  overriding (injector (hook s)) p os → unwrap (wrap r) = Some r →
  inject_reply_as wrap unwrap m path r s = (Done r, peek InjectorLock s).
Proof.
  intros He Hp Ho Hu. unfold inject_reply_as, inject_reply. unfold bind at 1 2, gets at 1.
  rewrite He, with_lock_run.
  unfold rebuild_path, bind, gets, lift, lift_io, zoom. cbn [hook on_io]. rewrite Hp.
  rewrite (overriding_inject_reply _ _ _ p os) by done. unfold ret. by rewrite Hu.
Qed.

Lemma inject_attr_overriding a path p os (s : FsState X) :
  enable_injection (hook s) = true → rebuild_path_of (hook s) path = Done p →
  overriding (injector (hook s)) p os →
  ∃ s', inject_attr a path s = (Done (fold_left (λ a o, override_attr o a) os a), s') ∧
    hook s' = hook s.
Proof.
  intros He Hp Ho. unfold inject_attr, bind at 1, gets at 1. rewrite He, with_lock_run.
  unfold rebuild_path, bind, gets, lift, lift_io, zoom. cbn [hook on_io]. rewrite Hp.
  destruct (overriding_inject_attr (injector (hook s)) a p os
    (fs_io (on_io (log (EAcquire InjectorLock Shared)) s)) Ho) as [w ->].
  by eexists.
Qed.

(** C35: attribute injection, end to end. With injection enabled and only
    attribute injectors configured, all of which apply to the file's path
    under the mount point, getattr of a file whose [lstat] succeeds with a
    known type, a size and blocks that are not negative and times from 1970
    on (an earlier time ends the task without a reply) replies with the
    attributes of the stat in which the fields of the injectors have been
    replaced, one injector after the other. *)
Theorem getattr_overridden req i (s : FsState X) path p st w k os :
  enable_injection (hook s) = true →
  inode_get_path (inode_map (hook s)) i = Done path →
  rebuild_path_of (hook s) path = Done p →
  overriding (injector (hook s)) p os →
  kcall (SLstat path) (world (fs_io s)) = (inr st, w) →
  kind_of_mode (st_mode st) = Some k → valid_stat st →
  ∃ a s', attr_of_stat st k a ∧
    serve req (OpGetattr i) s = (Some (RepAttr TTL (fold_left (λ a o, override_attr o a) os a)), s') ∧
    hook s' = hook s.
Proof.
  intros He Hi Hp Ho Hk Hkind Hv. destruct (convert_stat_ok st k Hkind Hv) as (a & Ha & Hat).
  cbn [serve]. unfold AsyncFs.getattr, AsyncFs.spawn_reply, Handlers.getattr.
  assert (inject_with_ino Method.GETATTR i s = (Done tt, peek InjectorLock (peek InodeMapLock s)))
    as Hinj.
  { unfold inject_with_ino. unfold bind at 1. rewrite with_lock_run.
    unfold try, bind, gets, lift. cbn [hook on_io]. rewrite Hi.
    by apply (inject_overriding _ path p os). }
  rewrite (bind_run _ _ _ _ _ Hinj), with_lock_run, (get_path_run i _ _ path) by done.
  unfold get_file_attr, async_stat. unfold bind at 2. unfold bind at 1. unfold bind at 1.
  rewrite (nix_call_run (SLstat path) _ _ (inr st) w) by done. cbn [nix_outcome]. unfold lift.
  rewrite Ha.
  match goal with |- context [inject_attr a path ?s1] =>
    destruct (inject_attr_overriding a path p os s1) as (s2 & Hs2 & Hh2); [done..|] end.
  rewrite Hs2. unfold inject_reply_attr.
  rewrite (inject_reply_as_overriding _ _ _ path p os) by (done || by rewrite Hh2).
  exists a. eexists. split; [done|]. split; [reflexivity|]. simpl. by rewrite Hh2.
Qed.

(** ** Delays *)

(** The program only adds to the trace. *)
Definition grows (s s' : FsState X) : Prop :=
  extends (λ _, True) (trace (fs_io s)) (trace (fs_io s')).

#[export] Instance grows_preorder : PreOrder grows.
Proof.
  assert (PreOrder (extends (λ _, True))) as HP by by apply extends_preorder.
  split; [intros s; apply HP|intros s1 s2 s3; apply HP].
Qed.

Lemma disc_grows {A} held (m : M (FsState X) HookFsError A) :
  evolves (disc held) m → evolves grows m.
Proof. intros Hm s. destruct (Hm s) as (evs & Ht & _). by exists evs. Qed.

(** The program delays by [d] before any system call. *)
Definition delayed {A} (d : Z) (m : M (FsState X) HookFsError A) (s : FsState X) : Prop :=
  ∃ pre post, trace (fs_io (m s).2) = trace (fs_io s) ++ pre ++ EDelay d :: post ∧
    Forall no_call pre.

Lemma delayed_bind {A B} d (m : M (FsState X) HookFsError A) (k : A → M (FsState X) HookFsError B) s :
  delayed d m s → (∀ a, evolves grows (k a)) → delayed d (bind m k) s.
Proof.
  intros (pre & post & Ht & Hp) Hk. unfold delayed, bind.
  destruct (m s) as [[a|e|] s1]; simpl in *; try by exists pre, post.
  destruct (Hk a s1) as (evs & Hg & _). exists pre, (post ++ evs). split; [|done].
  rewrite Hg, Ht. by rewrite <- !app_assoc.
Qed.

(** A latency injector configured first, that applies at [path]. *)
Definition latency_first (is_ : MultiInjector X) (m : Z) (path : string) (d : Z) : Prop :=
  ∃ l rest, is_ = ILatency l :: rest ∧ always_passes (li_filter l) m path ∧ latency l = d.

Lemma multi_inject_delays is_ m path d io :
  latency_first is_ m path d →
  ∃ evs, trace (multi_inject is_ m path io).2 = trace io ++ EDelay d :: evs.
Proof.
  intros (l & rest & -> & Hf & <-). unfold multi_inject. cbn [for_each inject_one].
  unfold bind at 1, latency_inject, bind at 1.
  destruct (filter_always (E:=HookFsError) (li_filter l) m path io Hf) as [w ->].
  unfold delay_for, modify.
  destruct (multi_inject_quiet rest m path (log (EDelay (latency l)) (set_world w io)))
    as (evs & Ht & _).
  exists evs. unfold multi_inject in Ht. rewrite Ht. simpl. by rewrite <- app_assoc.
Qed.

Lemma inject_delayed m path p d (s : FsState X) :
  enable_injection (hook s) = true → rebuild_path_of (hook s) path = Done p →
  latency_first (injector (hook s)) m p d → delayed d (inject m path) s.
Proof.
  intros He Hp Hl. unfold delayed, inject, bind at 1, gets at 1. rewrite He, with_lock_run.
  unfold rebuild_path, bind, gets, lift, lift_io, zoom. cbn [hook on_io]. rewrite Hp.
  set (s1 := on_io (log (EAcquire InjectorLock Shared)) s).
  destruct (multi_inject_delays (injector (hook s)) m p d (fs_io s1) Hl) as [evs Ht].
  destruct (multi_inject _ m p (fs_io s1)) as [r io]. simpl in Ht |- *.
  exists [EAcquire InjectorLock Shared], (evs ++ [ERelease InjectorLock]).
  split; [|by repeat constructor]. rewrite Ht. by rewrite <- !app_assoc.
Qed.

(** The lookup before the injection. *)
Lemma peek_delayed {A} l (look : HookFs X → outcome HookFsError A) m path p d
    (f : A → string) (s : FsState X) a :
  look (hook s) = Done a → path = f a →
  enable_injection (hook s) = true → rebuild_path_of (hook s) path = Done p →
  latency_first (injector (hook s)) m p d →
  delayed d
    (x <- with_lock l Shared (try (y <- gets (λ s, hook s) ;; lift (look y))) ;;
     match x with Some a => inject m (f a) | None => ret tt end) s.
Proof.
  intros Hl -> He Hp Hd. unfold delayed, bind at 1. rewrite with_lock_run.
  unfold try, bind at 1, gets, lift. cbn [hook on_io]. rewrite Hl.
  destruct (inject_delayed m (f a) p d (peek l s) He Hp Hd) as (pre & post & Ht & Hpre).
  exists ([EAcquire l Shared; ERelease l] ++ pre), post. split.
  - change (on_io (log (ERelease l)) (on_io (log (EAcquire l Shared)) s)) with (peek l s).
    rewrite Ht. simpl. by rewrite <- !app_assoc.
  - by apply Forall_app_2; [repeat constructor|].
Qed.

Lemma inject_with_ino_delayed m ino p d s m' path :
  ino_point (hook s) m ino = Some (m', path) →
  enable_injection (hook s) = true → rebuild_path_of (hook s) path = Done p →
  latency_first (injector (hook s)) m' p d → delayed d (inject_with_ino m ino) s.
Proof.
  unfold ino_point. intros Hp He Hr Hl. destruct (inode_get_path _ _) eqn:Hg; simplify_eq.
  by apply (peek_delayed InodeMapLock (λ h, inode_get_path (inode_map h) ino) _ path p d
    (λ p, p) s path).
Qed.

Lemma inject_with_name_delayed m parent name p d s m' path :
  name_point (hook s) m parent name = Some (m', path) →
  enable_injection (hook s) = true → rebuild_path_of (hook s) path = Done p →
  latency_first (injector (hook s)) m' p d →
  delayed d (inject_with_parent_and_name m parent name) s.
Proof.
  unfold name_point. intros Hp He Hr Hl. destruct (inode_get_path _ _) as [q| |] eqn:Hg; simplify_eq.
  by apply (peek_delayed InodeMapLock (λ h, inode_get_path (inode_map h) parent) _ (join q name) p d
    (λ p, join p name) s q).
Qed.

Lemma inject_with_fh_delayed m fh p d s m' path :
  fh_point (hook s) m fh = Some (m', path) →
  enable_injection (hook s) = true → rebuild_path_of (hook s) path = Done p →
  latency_first (injector (hook s)) m' p d → delayed d (inject_with_fh m fh) s.
Proof.
  unfold fh_point. intros Hp He Hr Hl. destruct (fh_get _ _) as [f| |] eqn:Hg; simplify_eq.
  by apply (peek_delayed OpenedFilesLock (λ h, fh_get (opened_files h) fh) _ (file_original_path f)
    p d file_original_path s f).
Qed.

Lemma inject_with_dir_fh_delayed m fh p d s m' path :
  dir_fh_point (hook s) m fh = Some (m', path) →
  enable_injection (hook s) = true → rebuild_path_of (hook s) path = Done p →
  latency_first (injector (hook s)) m' p d → delayed d (inject_with_dir_fh m fh) s.
Proof.
  unfold dir_fh_point. intros Hp He Hr Hl. destruct (fh_get _ _) as [f| |] eqn:Hg; simplify_eq.
  by apply (peek_delayed OpenedDirsLock (λ h, fh_get (opened_dirs h) fh) _ (dir_original_path f)
    p d dir_original_path s f).
Qed.

Lemma spawn_reply_delayed {A} d (ok : A → FuseReply) (m : M (FsState X) HookFsError A) s :
  delayed d m s →
  ∃ pre post, trace (fs_io (AsyncFs.spawn_reply ok m s).2) =
      trace (fs_io s) ++ pre ++ EDelay d :: post ∧ Forall no_call pre.
Proof.
  intros (pre & post & Ht & Hp). exists pre, post. unfold AsyncFs.spawn_reply.
  by destruct (m s).
Qed.

(** C36: an injected latency is real. If injection is enabled and a
    latency injector that applies to the request is configured first, the
    request is delayed by the configured time before its first system
    call, whatever the other injectors do. *)
Theorem latency_delays_request req op (s : FsState X) m path p d :
  enable_injection (hook s) = true →
  injection_point (hook s) op = Some (m, path) →
  rebuild_path_of (hook s) path = Done p →
  latency_first (injector (hook s)) m p d →
  ∃ pre post, trace (fs_io (serve req op s).2) = trace (fs_io s) ++ pre ++ EDelay d :: post ∧
    Forall no_call pre.
Proof.
  intros He Hp Hr Hl.
  destruct op; cbn [injection_point serve] in *; try discriminate Hp; unfold_session;
    apply spawn_reply_delayed; unfold_handler;
    (apply delayed_bind;
      [ eauto using inject_with_ino_delayed, inject_with_name_delayed, inject_with_fh_delayed,
          inject_with_dir_fh_delayed
      | intros ?; apply (disc_grows []); autounfold with toda_unfold; disc;
        apply readdir_loop_disc ]).
Qed.

End always.

(** ** In the concrete world *)

Definition demo_always : Filter Demo := mkFilter None Method.all (percent_probability 100).

Definition demo_override : AttrOverrideInjector Demo :=
  {| ai_filter := demo_always; o_ino := None; o_size := Some 99; o_blocks := None;
     o_atime := None; o_mtime := None; o_ctime := None; o_kind := Some Symlink;
     o_perm := None; o_nlink := None; o_uid := Some 7; o_gid := None; o_rdev := None |}.

Lemma getattr_overridden_witness :
  ∃ a s', attr_of_stat (demo_stat "/d") RegularFile a ∧
    serve demo_req (OpGetattr 1) (demo_fs [IAttrOverride demo_override] true) =
      (Some (RepAttr TTL (override_attr demo_override a)), s').
Proof.
  destruct (getattr_overridden demo_req 1 (demo_fs [IAttrOverride demo_override] true) "/d" "/m/"
    (demo_stat "/d") 0 RegularFile [demo_override]) as (a & s' & Ha & Hs & _).
  - reflexivity.
  - reflexivity.
  - vm_compute. reflexivity.
  - split; [reflexivity|]. repeat constructor.
  - reflexivity.
  - reflexivity.
  - unfold valid_stat, valid_time, nanos_per_sec. simpl. lia.
  - exists a, s'. split; assumption.
Defined.

Lemma latency_delays_request_witness :
  ∃ pre post,
    trace (fs_io (serve demo_req (OpMkdir 1 "x" 493 0)
      (demo_fs [ILatency (mkLatencyInjector 1000000 demo_always); demo_fault] true)).2) =
      pre ++ EDelay 1000000 :: post ∧ Forall no_call pre.
Proof.
  apply (latency_delays_request demo_req (OpMkdir 1 "x" 493 0)
    (demo_fs [ILatency (mkLatencyInjector 1000000 demo_always); demo_fault] true)
    Method.MKDIR "/d/x" "/m/x" 1000000).
  - reflexivity.
  - vm_compute. reflexivity.
  - vm_compute. reflexivity.
  - eexists _, _. split; [reflexivity|]. split; [|reflexivity]. by split_and!.
Defined.
