(* ===== verification/Witnesses.v ===== *)
(** * The theorems at work

    The hypotheses of the theorems hold of concrete states: each lemma
    here applies one theorem of the development to a run of the file
    system in the world of [Concrete]. *)

From S2P Require Import Prelude Path Float Types External Concrete Filter Injectors InodeMap.
From S2P Require Import HookFs FsImpl Dispatch Locks Transparency InjectorProps Mistakes.
From S2P Require Import FaultAbort Rpc Invariant Entries Behaviour Protocol.

#[local] Open Scope string_scope.
#[local] Open Scope Z_scope.
#[local] Open Scope list_scope.

(** A file system with a faulty injector configured but disabled. *)
Lemma disabled_injection_is_transparent_witness :
  serve demo_req (OpMkdir 1 "x" 493 0) (on_hook (set_injector [demo_fault]) (demo_fs [] false)) =
    ((serve demo_req (OpMkdir 1 "x" 493 0) (demo_fs [] false)).1,
     on_hook (set_injector [demo_fault])
       (serve demo_req (OpMkdir 1 "x" 493 0) (demo_fs [] false)).2).
Proof.
  apply (disabled_injection_is_transparent demo_req (OpMkdir 1 "x" 493 0) (demo_fs [] false)
    [demo_fault]); reflexivity.
Defined.

Definition demo_filter_config : FilterConfig := mkFilterConfig None (Some ["Read"; "nope"; "write"]) 100.

Definition demo_filter : Filter Demo :=
  mkFilter None (build_methods (fc_methods demo_filter_config)) (percent_probability 100).

(** READ has the flag 2^13, and "Read" spells it. *)
Lemma filter_methods_spec_witness : match_method demo_filter Method.READ = true.
Proof.
  apply (filter_methods_spec (X:=Demo) demo_filter_config 13 "read" demo_filter); [reflexivity..|].
  exists "Read". split; [left|]. apply (spells_upper 17); [reflexivity..|]. repeat constructor.
Defined.

Lemma filter_percent_spec_witness :
  (filter (E:=HookFsError) demo_filter Method.READ "/m/f" (mkIO (X:=Demo) 12345 [])).1 = Done true.
Proof.
  apply (filter_percent_spec "/m/f" Method.READ demo_filter (mkIO (X:=Demo) 12345 [])). reflexivity.
Defined.

Definition demo_faults_config : FaultsConfig :=
  mkFaultsConfig demo_filter_config [mkFaultConfig 5 0; mkFaultConfig 28 3; mkFaultConfig 13 1].

Definition demo_fault_injector : FaultInjector Demo :=
  {| fi_filter := demo_filter; errnos := [(5, 0); (28, 3); (13, 1)]; sum := 4 |}.

(** The second draw is 8 of 2^53, which falls in the range of 28. *)
Lemma fault_injector_always_fires_witness :
  fault_inject demo_fault_injector Method.READ "/m/f" (mkIO (X:=Demo) 7 []) =
    (Fail (Sys 28), mkIO (X:=Demo) 9 []).
Proof.
  destruct (fault_injector_always_fires demo_faults_config demo_fault_injector Method.READ "/m/f"
    (mkIO (X:=Demo) 7 [])) as (Ha & l1 & err & w & l2 & Hl & Hr & ->).
  - repeat constructor; simpl; lia.
  - simpl. lia.
  - reflexivity.
  - reflexivity.
  - reflexivity.
  - vm_compute in Hl. match type of Hr with context [f64_to_i32 ?x] =>
      change (f64_to_i32 x) with 0 in Hr end.
    destruct l1 as [|[e1 w1] [|[e2 w2] [|[e3 w3] [|]]]]; simpl in Hl; try discriminate;
      injection Hl; intros; subst; simpl in Hr; try lia.
    reflexivity.
Defined.

Lemma fault_injector_only_configured_witness :
  (fault_inject demo_fault_injector Method.READ "/m/f" (mkIO (X:=Demo) 7 [])).1 = Done tt ∨
  ∃ err w, (err, w) ∈ config_faults (X:=Demo) demo_faults_config ∧ 0 < w ∧
    (fault_inject demo_fault_injector Method.READ "/m/f" (mkIO (X:=Demo) 7 [])).1 = Fail (Sys err).
Proof.
  destruct (fault_injector_only_configured demo_faults_config demo_fault_injector Method.READ "/m/f"
    (mkIO (X:=Demo) 7 [])) as [H|(err & w & Hin & Hf & _ & _ & Hpos)].
  - reflexivity.
  - left. exact H.
  - right. destruct Hpos as (w' & Hin' & Hw'); [repeat constructor; simpl; lia|simpl; lia|].
    exists err, w'. split; [exact Hin'|]. split; [exact Hw'|exact Hf].
Defined.

(** Weights are not checked: with a negative total the draw is scaled to
    zero or below, and a fault of weight 0 is injected. *)
Lemma negative_weight_injects_weight_zero :
  (fault_inject {| fi_filter := demo_filter; errnos := [(5, 0); (28, -5)]; sum := -5 |}
     Method.READ "/m/f" (mkIO (X:=Demo) (2 ^ 52) [])).1 = Fail (Sys 5).
Proof. vm_compute. reflexivity. Qed.

(** ** Handles *)

Definition demo_open : FsState Demo := (serve demo_req (OpOpen 1 0) (demo_fs [] false)).2.

Lemma read_returns_kernel_bytes_witness :
  ∃ s', serve demo_req (OpRead 1 0 0 100) demo_open = (Some (RepData [1; 2; 3]), s') ∧
    hook s' = hook demo_open.
Proof.
  destruct (read_returns_kernel_bytes demo_req 1 0 0 100 demo_open (mkFile 3 "/d")
    (mkRet 3 0 [1; 2; 3]) 0) as (s' & Hs & Hh & _).
  - reflexivity.
  - vm_compute. reflexivity.
  - reflexivity.
  - right. simpl. lia.
  - exists s'. split; assumption.
Defined.

Lemma write_passes_data_witness :
  ∃ s', serve demo_req (OpWrite 1 0 0 [9; 8]) demo_open = (Some (RepWritten 2), s') ∧
    hook s' = hook demo_open.
Proof.
  destruct (write_passes_data demo_req 1 0 0 [9; 8] demo_open (mkFile 3 "/d") (mkRet 2 0 []) 0 "/m/")
    as (s' & Hs & Hh & _).
  - reflexivity.
  - constructor.
  - vm_compute. reflexivity.
  - vm_compute. reflexivity.
  - reflexivity.
  - exists s'. split; assumption.
Defined.

Lemma open_allocates_handle_witness :
  ∃ fh s', serve demo_req (OpOpen 1 1024) (demo_fs [] false) = (Some (RepOpened fh 0), s') ∧
    opened (demo_fs [] false) s' fh (mkFile 3 "/d").
Proof.
  destruct (open_allocates_handle demo_req 1 1024 (demo_fs [] false) "/d" 3 0)
    as (_ & _ & fh & s' & Hs & _ & Ho); try reflexivity.
  exists fh, s'. split; assumption.
Defined.

Lemma open_release_roundtrip_witness :
  ∃ fh s1 s2, serve demo_req (OpOpen 1 0) (demo_fs [] false) = (Some (RepOpened fh 0), s1) ∧
    serve demo_req (OpRelease 1 fh) s1 = (Some RepOk, s2) ∧
    slab_get fh (opened_files (hook s2)) = slab_get fh (opened_files (hook (demo_fs [] false))).
Proof.
  destruct (open_release_roundtrip demo_req 1 0 (demo_fs [] false) "/d" 3 0 (inr tt) 0)
    as (fh & s1 & s2 & H1 & H2 & _ & Hk & _); try reflexivity.
  exists fh, s1, s2. split; [assumption|]. split; [assumption|]. by apply Hk.
Defined.

Lemma unknown_object_is_efault_witness :
  (∃ s', serve demo_req (OpCreate 99 "f" 420 0 0) demo_open = (Some (RepError EFAULT), s') ∧
    hook s' = hook demo_open) ∧
  ∃ s', serve demo_req (OpReleasedir 1 7) demo_open = (None, s') ∧ hook s' = hook demo_open.
Proof.
  split.
  - destruct (unknown_object_is_efault demo_req (OpCreate 99 "f" 420 0 0) demo_open (OInode 99))
      as (s' & Hs & Hh & _); [reflexivity|vm_compute; reflexivity|].
    exists s'. split; assumption.
  - destruct (unknown_object_is_efault demo_req (OpReleasedir 1 7) demo_open (ODir 7))
      as (s' & Hs & Hh & _); [reflexivity|vm_compute; reflexivity|].
    exists s'. split; assumption.
Defined.

(** ** A write is sabotaged while injection is disabled *)

(** The system calls of a trace. *)
Definition calls (t : list event) : list syscall :=
  omap (λ e, match e with ECall c => Some c | _ => None end) t.

(** C31: the write path does not read the injection flag. There is a file
    system with injection disabled in which a write of some bytes makes
    one system call, which writes other bytes, and the caller is told that
    all of its bytes were written. *)
Theorem disabled_write_is_sabotaged :
  ∃ data data' (s : FsState Demo),
    enable_injection (hook s) = false ∧
    (serve demo_req (OpWrite 1 0 0 data) s).1 = Some (RepWritten (Z.of_nat (length data))) ∧
    calls (trace (fs_io (serve demo_req (OpWrite 1 0 0 data) s).2)) =
      calls (trace (fs_io s)) ++ [SPwrite 3 data' 0] ∧
    data' ≠ data.
Proof.
  exists [5; 6; 7; 8], [0; 0; 0; 0],
    (serve demo_req (OpOpen 1 0) (demo_fs [IMistake demo_mistakes] false)).2.
  split_and!; [reflexivity|vm_compute; reflexivity|vm_compute; reflexivity|discriminate].
Qed.
